(** * MicroCbor: a shallow embedding of [include/microcbor/MicroCbor.hpp]

    The encoder and the decoder of [entazza::MicroCbor] are translated
    function by function.  Conventions of the embedding:

    - every C++ integer is a [Z]; conversions to a fixed-width type are
      written out ([uint8], [uint16], [uint32], [uint64], [int8], [cast]);
    - the address space is a [list Z] of bytes ([heap]); a pointer is an
      address, i.e. an index into [heap]; [mBuf] is the address the instance
      is bound to and [mMaxBufLen] its declared length;
    - a store outside [heap] is dropped and a load outside [heap] yields 0;
      every load is recorded in [loads], so that statements about which
      bytes a method touches can be made;
    - a C string is a [string]; its bytes are those before the first NUL
      ([c_str]); a nullable [const char *] is an [option string];
    - a [float] or [double] is its IEEE-754 bit pattern (the code only
      copies the bits);
    - values C++ leaves indeterminate are explicit: the frames of
      [mMapState] a constructor does not initialise are an argument of the
      constructor, the fields [TypeInfo(uint8_t)] does not initialise and
      the bytes behind the 28-entry header table are Section variables of
      the decoder;
    - [mMapState] is a total function of the index: the array has
      [CONFIG_MICROCBOR_MAX_NESTING] slots, an index outside
      [0 .. CONFIG_MICROCBOR_MAX_NESTING - 1] addresses storage that is not
      part of the array;
    - recursion and loops of the decoder run on fuel; [None] is "fuel
      exhausted". *)

From Stdlib Require Import ZArith List String Ascii Bool Lia.
From stdpp Require Import base option list.
Import ListNotations.
Local Open Scope Z_scope.

(** ** Fixed-width integers *)

Definition uint8 (x : Z) : Z := x mod 2 ^ 8.
Definition uint16 (x : Z) : Z := x mod 2 ^ 16.
Definition uint32 (x : Z) : Z := x mod 2 ^ 32.
Definition uint64 (x : Z) : Z := x mod 2 ^ 64.
Definition int8 (x : Z) : Z := (x + 2 ^ 7) mod 2 ^ 8 - 2 ^ 7.
Definition int16 (x : Z) : Z := (x + 2 ^ 15) mod 2 ^ 16 - 2 ^ 15.
Definition int32 (x : Z) : Z := (x + 2 ^ 31) mod 2 ^ 32 - 2 ^ 31.
Definition int64 (x : Z) : Z := (x + 2 ^ 63) mod 2 ^ 64 - 2 ^ 63.

(** The integral types [add<T>] and [get<T>] are instantiated at. *)
Inductive IntType : Type :=
  | TInt8 | TInt16 | TInt32 | TInt64
  | TUInt8 | TUInt16 | TUInt32 | TUInt64.

(** The element types [kCborTagInfo] is specialised for. *)
Inductive ElemType : Type :=
  | ElemInt (T : IntType)
  | ElemFloat
  | ElemDouble.

Definition sizeof (T : IntType) : Z :=
  match T with
  | TInt8 | TUInt8 => 1
  | TInt16 | TUInt16 => 2
  | TInt32 | TUInt32 => 4
  | TInt64 | TUInt64 => 8
  end.

(** Conversion of an integer to [T]. *)
Definition cast (T : IntType) (x : Z) : Z :=
  match T with
  | TInt8 => int8 x
  | TInt16 => int16 x
  | TInt32 => int32 x
  | TInt64 => int64 x
  | TUInt8 => uint8 x
  | TUInt16 => uint16 x
  | TUInt32 => uint32 x
  | TUInt64 => uint64 x
  end.

(** [v] is a value of type [T]. *)
Definition in_range (T : IntType) (v : Z) : Prop :=
  match T with
  | TInt8 => - 2 ^ 7 <= v < 2 ^ 7
  | TInt16 => - 2 ^ 15 <= v < 2 ^ 15
  | TInt32 => - 2 ^ 31 <= v < 2 ^ 31
  | TInt64 => - 2 ^ 63 <= v < 2 ^ 63
  | TUInt8 => 0 <= v < 2 ^ 8
  | TUInt16 => 0 <= v < 2 ^ 16
  | TUInt32 => 0 <= v < 2 ^ 32
  | TUInt64 => 0 <= v < 2 ^ 64
  end.

Definition elem_sizeof (T : ElemType) : Z :=
  match T with
  | ElemInt T => sizeof T
  | ElemFloat => 4
  | ElemDouble => 8
  end.

(** ** Encoding constants *)

Definition CONFIG_MICROCBOR_MAX_NESTING : Z := 4.

Definition kCborPosInt : Z := 0.
Definition kCborNegInt : Z := 1.
Definition kCborByteString : Z := 2.
Definition kCborUTF8String : Z := 3.
Definition kCborArray : Z := 4.
Definition kCborMap : Z := 5.
Definition kCborTag : Z := 6.
Definition kCborSimple : Z := 7.
Definition kCborError : Z := 8.
Definition kCborFalse : Z := uint8 (Z.lor (Z.shiftl kCborSimple 5) 20).
Definition kCborTrue : Z := uint8 (Z.lor (Z.shiftl kCborSimple 5) 21).
Definition kCborNull : Z := uint8 (Z.lor (Z.shiftl kCborSimple 5) 22).
Definition kCborFloat32 : Z := uint8 (Z.lor (Z.shiftl kCborSimple 5) 26).
Definition kCborFloat64 : Z := uint8 (Z.lor (Z.shiftl kCborSimple 5) 27).

Definition kCborTagInvalid : Z := 65535.
Definition kCborTagHomogeneousArray : Z := 41.
Definition kCborTagUint8 : Z := 64.
Definition kCborTagUint16 : Z := 69.
Definition kCborTagUint32 : Z := 70.
Definition kCborTagUint64 : Z := 71.
Definition kCborTagInt8 : Z := 72.
Definition kCborTagInt16 : Z := 77.
Definition kCborTagInt32 : Z := 78.
Definition kCborTagInt64 : Z := 79.
Definition kCborTagFloat32 : Z := 85.
Definition kCborTagFloat64 : Z := 86.
Definition kCborTagTimeExt : Z := 1001.
Definition kCborTagDurationExt : Z := 1002.

(** [kCborTagInfo<T>::tag] *)
Definition kCborTagInfo (T : ElemType) : Z :=
  match T with
  | ElemInt TInt8 => kCborTagInt8
  | ElemInt TInt16 => kCborTagInt16
  | ElemInt TInt32 => kCborTagInt32
  | ElemInt TInt64 => kCborTagInt64
  | ElemInt TUInt8 => kCborTagUint8
  | ElemInt TUInt16 => kCborTagUint16
  | ElemInt TUInt32 => kCborTagUint32
  | ElemInt TUInt64 => kCborTagUint64
  | ElemFloat => kCborTagFloat32
  | ElemDouble => kCborTagFloat64
  end.

(** ** C strings and memory *)

Definition byte_of_ascii (c : ascii) : Z := Z.of_N (N_of_ascii c).

(** The bytes of a C string: those before the terminating NUL. *)
Fixpoint c_str (s : string) : list Z :=
  match s with
  | EmptyString => []
  | String c s' =>
      if byte_of_ascii c =? 0 then [] else byte_of_ascii c :: c_str s'
  end.

Definition strlen (s : string) : Z := Z.of_nat (length (c_str s)).

(** [heap[a]]: 0 outside the heap. *)
Definition peek (heap : list Z) (a : Z) : Z :=
  if a <? 0 then 0 else default 0 (heap !! Z.to_nat a).

(** [heap[a] = v]: dropped outside the heap. *)
Definition poke (a : Z) (v : Z) (heap : list Z) : list Z :=
  if a <? 0 then heap else <[Z.to_nat a := v]> heap.

(** Consecutive stores of [bs] from address [a] on. *)
Fixpoint poke_bytes (a : Z) (bs : list Z) (heap : list Z) : list Z :=
  match bs with
  | [] => heap
  | b :: bs' => poke_bytes (a + 1) bs' (poke a b heap)
  end.

(** [memcpy(dst, src, n)], the source given by the bytes found at [src]
    (a source shorter than [n] stands for a caller whose count runs past
    its array: only the bytes present are copied). *)
Definition memcpy (dst : Z) (src : list Z) (n : Z) (heap : list Z) : list Z :=
  poke_bytes dst (take (Z.to_nat n) src) heap.

(** [memset(dst, c, n)] *)
Definition memset (dst : Z) (c : Z) (n : Z) (heap : list Z) : list Z :=
  poke_bytes dst (replicate (Z.to_nat n) (uint8 c)) heap.

(** ** The class *)

(** [MicroCbor::TypeInfo] *)
Record TypeInfo : Type := mkTypeInfo {
  tag : Z;
  majorval : Z;
  minorval : Z;
  headerBytes : Z;
  p : Z
}.

(** [MicroCbor::MapState] *)
Record MapState : Type := mkMapState {
  mapStartPos : Z;
  mapStartCount : Z;
  mapCount : Z
}.

Record MicroCbor : Type := mkMicroCbor {
  mBuf : Z;
  mMaxBufLen : Z;
  mBufBytesNeeded : Z;
  mDataOffset : Z;
  mResult : Z;
  mReadOnly : bool;
  mNullTerminate : bool;
  mDepth : Z;
  mMapState : Z -> MapState
}.

(** An instance together with the memory it works on and the record of the
    addresses loaded through it. *)
Record Machine : Type := mkMachine {
  this : MicroCbor;
  heap : list Z;
  loads : list Z
}.

Definition with_this (f : MicroCbor -> MicroCbor) (m : Machine) : Machine :=
  {| this := f (this m); heap := heap m; loads := loads m |}.

Definition with_heap (f : list Z -> list Z) (m : Machine) : Machine :=
  {| this := this m; heap := f (heap m); loads := loads m |}.

Definition set_mBufBytesNeeded (v : Z) (c : MicroCbor) : MicroCbor :=
  {| mBuf := mBuf c; mMaxBufLen := mMaxBufLen c; mBufBytesNeeded := v;
     mDataOffset := mDataOffset c; mResult := mResult c;
     mReadOnly := mReadOnly c; mNullTerminate := mNullTerminate c;
     mDepth := mDepth c; mMapState := mMapState c |}.

Definition set_mDataOffset (v : Z) (c : MicroCbor) : MicroCbor :=
  {| mBuf := mBuf c; mMaxBufLen := mMaxBufLen c;
     mBufBytesNeeded := mBufBytesNeeded c;
     mDataOffset := v; mResult := mResult c;
     mReadOnly := mReadOnly c; mNullTerminate := mNullTerminate c;
     mDepth := mDepth c; mMapState := mMapState c |}.

Definition set_mResult (v : Z) (c : MicroCbor) : MicroCbor :=
  {| mBuf := mBuf c; mMaxBufLen := mMaxBufLen c;
     mBufBytesNeeded := mBufBytesNeeded c;
     mDataOffset := mDataOffset c; mResult := v;
     mReadOnly := mReadOnly c; mNullTerminate := mNullTerminate c;
     mDepth := mDepth c; mMapState := mMapState c |}.

Definition set_mReadOnly (v : bool) (c : MicroCbor) : MicroCbor :=
  {| mBuf := mBuf c; mMaxBufLen := mMaxBufLen c;
     mBufBytesNeeded := mBufBytesNeeded c;
     mDataOffset := mDataOffset c; mResult := mResult c;
     mReadOnly := v; mNullTerminate := mNullTerminate c;
     mDepth := mDepth c; mMapState := mMapState c |}.

Definition set_mDepth (v : Z) (c : MicroCbor) : MicroCbor :=
  {| mBuf := mBuf c; mMaxBufLen := mMaxBufLen c;
     mBufBytesNeeded := mBufBytesNeeded c;
     mDataOffset := mDataOffset c; mResult := mResult c;
     mReadOnly := mReadOnly c; mNullTerminate := mNullTerminate c;
     mDepth := v; mMapState := mMapState c |}.

(** [mMapState[i] = f].  The array is a function on [Z] here: a store at
    an index outside its [CONFIG_MICROCBOR_MAX_NESTING] frames, which the
    code does not check and C++ leaves undefined, changes no other member
    in this model.  Statements about runs keep the index inside the frames
    ([well_nested]). *)
Definition set_frame (i : Z) (f : MapState) (c : MicroCbor) : MicroCbor :=
  {| mBuf := mBuf c; mMaxBufLen := mMaxBufLen c;
     mBufBytesNeeded := mBufBytesNeeded c;
     mDataOffset := mDataOffset c; mResult := mResult c;
     mReadOnly := mReadOnly c; mNullTerminate := mNullTerminate c;
     mDepth := mDepth c;
     mMapState := fun j => if j =? i then f else mMapState c j |}.

(** ** Construction and (re)binding *)

(** [initBuffer(void *buf, uint32_t maxBufLen)]: [mNullTerminate] and
    [mMapState] are not touched. *)
Definition initBuffer (buf maxBufLen : Z) (c : MicroCbor) : MicroCbor :=
  {| mBuf := buf; mMaxBufLen := uint32 maxBufLen;
     mBufBytesNeeded := 0; mDataOffset := 0; mResult := 0;
     mReadOnly := false; mNullTerminate := mNullTerminate c;
     mDepth := -1; mMapState := mMapState c |}.

(** [initBuffer(const void *buf, uint32_t maxBufLen)] *)
Definition initBuffer_const (buf maxBufLen : Z) (c : MicroCbor) : MicroCbor :=
  set_mReadOnly true (initBuffer buf maxBufLen c).

(** The members as they are when a constructor body starts: the default
    member initialisers have run, [mMapState] holds whatever [frames] the
    storage held. *)
Definition uninitialised (frames : Z -> MapState) (nullTerminate : bool)
  : MicroCbor :=
  {| mBuf := 0; mMaxBufLen := 0; mBufBytesNeeded := 0; mDataOffset := 0;
     mResult := 0; mReadOnly := false; mNullTerminate := nullTerminate;
     mDepth := 0; mMapState := frames |}.

(** [MicroCbor()] *)
Definition MicroCbor_default (frames : Z -> MapState) : MicroCbor :=
  initBuffer 0 0 (uninitialised frames false).

(** [MicroCbor(void *buf, uint32_t maxBufLen, bool nullTerminate = true)] *)
Definition MicroCbor_new (frames : Z -> MapState) (buf maxBufLen : Z)
    (nullTerminate : bool) : MicroCbor :=
  initBuffer buf maxBufLen (uninitialised frames nullTerminate).

(** [MicroCbor(const void *buf, uint32_t maxBufLen, bool nullTerminate = false)] *)
Definition MicroCbor_const (frames : Z -> MapState) (buf maxBufLen : Z)
    (nullTerminate : bool) : MicroCbor :=
  initBuffer_const buf maxBufLen (uninitialised frames nullTerminate).

Definition restart (c : MicroCbor) : MicroCbor :=
  {| mBuf := mBuf c; mMaxBufLen := mMaxBufLen c;
     mBufBytesNeeded := 0; mDataOffset := 0; mResult := 0;
     mReadOnly := mReadOnly c; mNullTerminate := mNullTerminate c;
     mDepth := -1; mMapState := mMapState c |}.

Definition getResult (m : Machine) : Z := mResult (this m).
Definition bytesSerialized (m : Machine) : Z := mDataOffset (this m).
Definition bytesNeeded (m : Machine) : Z := mBufBytesNeeded (this m).

(** ** The writer *)

Definition reserveBytes (n : Z) (m : Machine) : Machine :=
  with_this
    (fun c =>
       let c' := set_mBufBytesNeeded (uint32 (mBufBytesNeeded c + uint32 n)) c in
       if mMaxBufLen c' <? mBufBytesNeeded c' then set_mResult (-1) c' else c')
    m.

Definition bytesForLength (length : Z) : Z :=
  let length := uint32 length in
  if length <? 24 then 1
  else if length <? 256 then 2
  else if length <? 65536 then 3
  else 4.

Definition storeByte (v : Z) (m : Machine) : Machine :=
  let c := this m in
  if negb (mResult c =? 0) then m
  else
    {| this := set_mDataOffset (uint32 (mDataOffset c + 1)) c;
       heap := poke (mBuf c + mDataOffset c) (uint8 v) (heap m);
       loads := loads m |}.

Definition encodeUInt8 (tag value : Z) (m : Machine) : Machine :=
  let m := reserveBytes 2 m in
  let c := this m in
  if mResult c =? 0 then
    let b := mBuf c + mDataOffset c in
    {| this := set_mDataOffset (uint32 (mDataOffset c + 2)) c;
       heap := poke (b + 1) (uint8 value) (poke b (uint8 tag) (heap m));
       loads := loads m |}
  else m.

Definition encodeUInt16 (tag value : Z) (m : Machine) : Machine :=
  let value := uint16 value in
  let m := reserveBytes 3 m in
  let c := this m in
  if mResult c =? 0 then
    let b := mBuf c + mDataOffset c in
    {| this := set_mDataOffset (uint32 (mDataOffset c + 3)) c;
       heap := poke_bytes b
                 [uint8 tag; uint8 (Z.shiftr value 8); uint8 value] (heap m);
       loads := loads m |}
  else m.

Definition encodeUInt32 (tag value : Z) (m : Machine) : Machine :=
  let value := uint32 value in
  let m := reserveBytes 5 m in
  let c := this m in
  if mResult c =? 0 then
    let b := mBuf c + mDataOffset c in
    {| this := set_mDataOffset (uint32 (mDataOffset c + 5)) c;
       heap := poke_bytes b
                 [uint8 tag; uint8 (Z.shiftr value 24);
                  uint8 (Z.shiftr value 16); uint8 (Z.shiftr value 8);
                  uint8 value] (heap m);
       loads := loads m |}
  else m.

Definition encodeUInt64 (tag value : Z) (m : Machine) : Machine :=
  let value := uint64 value in
  let m := reserveBytes 9 m in
  let c := this m in
  if mResult c =? 0 then
    let b := mBuf c + mDataOffset c in
    {| this := set_mDataOffset (uint32 (mDataOffset c + 9)) c;
       heap := poke_bytes b
                 [uint8 tag; uint8 (Z.shiftr value 56);
                  uint8 (Z.shiftr value 48); uint8 (Z.shiftr value 40);
                  uint8 (Z.shiftr value 32); uint8 (Z.shiftr value 24);
                  uint8 (Z.shiftr value 16); uint8 (Z.shiftr value 8);
                  uint8 value] (heap m);
       loads := loads m |}
  else m.

Definition encodeHeader (majorval len : Z) (m : Machine) : Machine :=
  let majorval := uint8 majorval in
  let len := uint32 len in
  if len <? 24 then
    storeByte (Z.lor (Z.shiftl majorval 5) len) (reserveBytes 1 m)
  else if len <? 256 then
    storeByte len
      (storeByte (Z.lor (Z.shiftl majorval 5) 24) (reserveBytes 2 m))
  else if len <? 65536 then
    encodeUInt16 (Z.lor (Z.shiftl majorval 5) 25) (uint16 len) m
  else
    encodeUInt32 (Z.lor (Z.shiftl majorval 5) 26) len m.

Definition encodeTag (tag : Z) (m : Machine) : Machine :=
  let tag := uint16 tag in
  if tag <? 24 then
    storeByte (Z.lor (Z.shiftl kCborTag 5) tag) (reserveBytes 1 m)
  else if tag <? 256 then
    storeByte tag
      (storeByte (Z.lor (Z.shiftl kCborTag 5) 24) (reserveBytes 2 m))
  else
    storeByte tag
      (storeByte (Z.shiftr tag 8)
         (storeByte (Z.lor (Z.shiftl kCborTag 5) 25) (reserveBytes 3 m))).

(** The bytes [memcpy] finds at a C string: its characters and the NUL. *)
Definition c_bytes (s : string) : list Z := c_str s ++ [0].

Definition encodeString (value : string) (nullTerminate : bool) (m : Machine)
  : Machine :=
  let len := strlen value in
  let len := if nullTerminate then len + 1 else len in
  let m := encodeHeader kCborUTF8String len m in
  let m := reserveBytes len m in
  let c := this m in
  if mResult c =? 0 then
    {| this := set_mDataOffset (uint32 (mDataOffset c + len)) c;
       heap := memcpy (mBuf c + mDataOffset c) (c_bytes value) len (heap m);
       loads := loads m |}
  else m.

(** [mMapState[mDepth].mapCount++], for [mDepth] the index of a frame
    (see [set_frame]). *)
Definition bump_mapCount (c : MicroCbor) : MicroCbor :=
  let f := mMapState c (mDepth c) in
  set_frame (mDepth c)
    {| mapStartPos := mapStartPos f; mapStartCount := mapStartCount f;
       mapCount := uint16 (mapCount f + 1) |} c.

Definition encodeMapKey (value : option string) (m : Machine) : Machine :=
  match value with
  | None => m
  | Some s =>
      match c_str s with
      | [] => m
      | _ :: _ => encodeString s false (with_this bump_mapCount m)
      end
  end.

Definition encodeBytes (bytes : list Z) (numBytes : Z) (m : Machine)
  : Machine :=
  let numBytes := uint32 numBytes in
  let m := encodeHeader kCborByteString numBytes m in
  let m := reserveBytes numBytes m in
  let c := this m in
  if mResult c =? 0 then
    {| this := set_mDataOffset (uint32 (mDataOffset c + numBytes)) c;
       heap := memcpy (mBuf c + mDataOffset c) bytes numBytes (heap m);
       loads := loads m |}
  else m.

(** [Error startMap(const uint32_t numElements = 0)] *)
Definition startMap (numElements : Z) (m : Machine) : Machine :=
  let c := this m in
  if mReadOnly c || (CONFIG_MICROCBOR_MAX_NESTING <=? mDepth c) then
    with_this (set_mResult (-1)) m
  else
    let c := set_mDepth (int8 (mDepth c + 1)) c in
    let c :=
      set_frame (mDepth c)
        {| mapStartPos := mDataOffset c;
           mapStartCount := uint32 numElements;
           mapCount := 0 |} c in
    encodeHeader kCborMap numElements
      {| this := c; heap := heap m; loads := loads m |}.

Definition endMap (m : Machine) : Machine :=
  let c := this m in
  let map := mMapState c (mDepth c) in
  let h :=
    if (mResult c =? 0) && negb (mapCount map =? mapStartCount map) then
      if mapCount map <? 24 then
        poke (mBuf c + mapStartPos map)
          (uint8 (Z.lor (Z.shiftl kCborMap 5) (mapCount map))) (heap m)
      else
        poke (mBuf c + uint32 (mapStartPos map + 1))
          (uint8 (mapCount map))
          (poke (mBuf c + mapStartPos map)
             (uint8 (Z.lor (Z.shiftl kCborMap 5) 24)) (heap m))
    else heap m in
  {| this := set_mDepth (int8 (mDepth c - 1)) c; heap := h;
     loads := loads m |}.

(** [Error startMap(const char *name, uint8_t numElements = 0)] *)
Definition startMap_named (name : option string) (numElements : Z)
    (m : Machine) : Machine :=
  startMap 0 (encodeMapKey name m).

(** [template <typename T> Error add(const char *name, const T value)] *)
Definition add_int (T : IntType) (name : option string) (value : Z)
    (m : Machine) : Machine :=
  let value := cast T value in
  let m := encodeMapKey name m in
  let tag :=
    if value <? 0 then Z.shiftl kCborNegInt 5 else Z.shiftl kCborPosInt 5 in
  let intValue := if value <? 0 then cast T (-1 - value) else value in
  if sizeof T =? 8 then encodeUInt64 (Z.lor tag 27) intValue m
  else if sizeof T =? 4 then encodeUInt32 (Z.lor tag 26) intValue m
  else if sizeof T =? 2 then encodeUInt16 (Z.lor tag 25) intValue m
  else encodeUInt8 (Z.lor tag 24) intValue m.

(** [Error add(const char *name, const bool value)] *)
Definition add_bool (name : option string) (value : bool) (m : Machine)
  : Machine :=
  storeByte (if value then kCborTrue else kCborFalse)
    (reserveBytes 1 (encodeMapKey name m)).

(** [Error add(const char *name, const char *value)] and
    [Error add(const char *name, char *value)] *)
Definition add_string (name : option string) (value : string) (m : Machine)
  : Machine :=
  let m := encodeMapKey name m in
  encodeString value (mNullTerminate (this m)) m.

(** [template <typename T> Error addMinimal(const char *name, const T value)] *)
Definition addMinimal (T : IntType) (name : option string) (value : Z)
    (m : Machine) : Machine :=
  let value := cast T value in
  let m := encodeMapKey name m in
  if 0 <=? value then encodeHeader kCborPosInt value m
  else encodeHeader kCborNegInt (-1 - value) m.

(** [Error add(const char *name, const float value)], the value given by
    its bit pattern. *)
Definition add_float (name : option string) (bits : Z) (m : Machine)
  : Machine :=
  encodeUInt32 kCborFloat32 (uint32 bits) (encodeMapKey name m).

(** [Error add(const char *name, const double value)] *)
Definition add_double (name : option string) (bits : Z) (m : Machine)
  : Machine :=
  encodeUInt64 kCborFloat64 (uint64 bits) (encodeMapKey name m).

(** [template <typename T> Error add(const char *name, const T *value,
    const uint32_t numElements, const bool align = true)], [value] given by
    the bytes of the array. *)
Definition add_array (T : ElemType) (name : option string) (value : list Z)
    (numElements : Z) (align : bool) (m : Machine) : Machine :=
  let numRawBytes := uint32 numElements * elem_sizeof T in
  let m :=
    match name with
    | Some s =>
        if align then
          let len := strlen s in
          let preambleBytes :=
            len + bytesForLength len + 2 + bytesForLength numRawBytes in
          let vectorOffset := mBufBytesNeeded (this m) + preambleBytes in
          let alignBytes := elem_sizeof T in
          let oddBytes := vectorOffset mod alignBytes in
          if oddBytes =? 0 then encodeMapKey name m
          else
            let paddingNeeded := alignBytes - oddBytes in
            let m := encodeHeader kCborUTF8String (len + paddingNeeded) m in
            let m := reserveBytes (len + paddingNeeded) m in
            let c := this m in
            if mResult c =? 0 then
              {| this :=
                   set_mDataOffset
                     (uint32 (mDataOffset c + (len + paddingNeeded))) c;
                 heap :=
                   memset (mBuf c + mDataOffset c + len) 0 paddingNeeded
                     (memcpy (mBuf c + mDataOffset c) (c_bytes s) len
                        (heap m));
                 loads := loads m |}
            else m
        else encodeMapKey name m
    | None => encodeMapKey name m
    end in
  encodeBytes value numRawBytes (encodeTag (kCborTagInfo T) m).

(** The encode calls of the public interface. *)
Inductive EncodeOp : Type :=
  | OpStartMap (numElements : Z)
  | OpStartMapNamed (name : option string) (numElements : Z)
  | OpEndMap
  | OpAddInt (T : IntType) (name : option string) (value : Z)
  | OpAddBool (name : option string) (value : bool)
  | OpAddString (name : option string) (value : string)
  | OpAddMinimal (T : IntType) (name : option string) (value : Z)
  | OpAddFloat (name : option string) (bits : Z)
  | OpAddDouble (name : option string) (bits : Z)
  | OpAddArray (T : ElemType) (name : option string) (value : list Z)
      (numElements : Z) (align : bool).

Definition encode_op (op : EncodeOp) (m : Machine) : Machine :=
  match op with
  | OpStartMap n => startMap n m
  | OpStartMapNamed name n => startMap_named name n m
  | OpEndMap => endMap m
  | OpAddInt T name v => add_int T name v m
  | OpAddBool name v => add_bool name v m
  | OpAddString name v => add_string name v m
  | OpAddMinimal T name v => addMinimal T name v m
  | OpAddFloat name bits => add_float name bits m
  | OpAddDouble name bits => add_double name bits m
  | OpAddArray T name value n align => add_array T name value n align m
  end.

(** A sequence of encode calls, first call first. *)
Definition encode (ops : list EncodeOp) (m : Machine) : Machine :=
  fold_left (fun m op => encode_op op m) ops m.

(** ** The reader *)

(** Methods of the reader: state passing over [Machine], [None] when the
    fuel is exhausted. *)
Definition M (A : Type) : Type := Machine -> option (A * Machine).

Definition ret {A : Type} (a : A) : M A := fun m => Some (a, m).

Definition bind {A B : Type} (x : M A) (f : A -> M B) : M B :=
  fun m =>
    match x m with
    | Some (a, m') => f a m'
    | None => None
    end.

Definition out_of_fuel {A : Type} : M A := fun _ => None.

Notation "x <- c ;; k" := (bind c (fun x => k))
  (at level 100, c at level 99, k at level 200, right associativity).
Notation "c ;;; k" := (bind c (fun _ => k))
  (at level 100, k at level 200, right associativity).

(** [*a], recorded in [loads]. *)
Definition load (a : Z) : M Z :=
  fun m =>
    Some (peek (heap m) a,
          {| this := this m; heap := heap m; loads := a :: loads m |}).

Definition self : M MicroCbor := fun m => Some (this m, m).

Definition update (f : MicroCbor -> MicroCbor) : M unit :=
  fun m => Some (tt, with_this f m).

Definition set_tag (v : Z) (info : TypeInfo) : TypeInfo :=
  {| tag := v; majorval := majorval info; minorval := minorval info;
     headerBytes := headerBytes info; p := p info |}.

(** [strncmp(s1, s2, n) == 0], [s1] given by its bytes and [s2] by its
    address. *)
Fixpoint strncmp (s1 : list Z) (s2 : Z) (n : Z) : M bool :=
  if n <=? 0 then ret true
  else
    match s1 with
    | [] => b <- load s2 ;; ret (b =? 0)
    | c :: s1' =>
        b <- load s2 ;;
        if b =? c then strncmp s1' (s2 + 1) (n - 1) else ret false
    end.

Section Reader.

(** What [TypeInfo(uint8_t majorval)] leaves in the fields it does not
    initialise. *)
Variable indet : TypeInfo.

(** What lies behind the 28 entries of [kCborheaderBytes]. *)
Variable behindTable : Z -> Z.

(** [TypeInfo(uint8_t majorval)] *)
Definition TypeInfo_major (majorval : Z) : TypeInfo :=
  {| tag := tag indet; majorval := majorval; minorval := minorval indet;
     headerBytes := headerBytes indet; p := p indet |}.

Definition kCborheaderBytes (i : Z) : Z :=
  match [1; 1; 1; 1; 1; 1; 1; 1; 1; 1;
         1; 1; 1; 1; 1; 1; 1; 1; 1; 1;
         1; 1; 1; 1; 2; 3; 5; 9] !! Z.to_nat i with
  | Some n => n
  | None => uint8 (behindTable i)
  end.

(** [getFieldValue<uint32_t>] *)
Definition getFieldValue (info : TypeInfo) : M Z :=
  let q := p info + 1 in
  let hb := headerBytes info in
  if hb =? 1 then ret (minorval info)
  else if hb =? 2 then load q
  else if hb =? 3 then
    b0 <- load q ;; b1 <- load (q + 1) ;;
    ret (Z.lor (Z.shiftl (uint16 b0) 8) b1)
  else if hb =? 5 then
    b0 <- load q ;; b1 <- load (q + 1) ;;
    b2 <- load (q + 2) ;; b3 <- load (q + 3) ;;
    ret (Z.lor (Z.lor (Z.lor (Z.shiftl (uint32 b0) 24)
                              (Z.shiftl (uint32 b1) 16))
                       (Z.shiftl (uint32 b2) 8)) b3)
  else if hb =? 9 then
    b0 <- load q ;; b1 <- load (q + 1) ;;
    b2 <- load (q + 2) ;; b3 <- load (q + 3) ;;
    b4 <- load (q + 4) ;; b5 <- load (q + 5) ;;
    b6 <- load (q + 6) ;; b7 <- load (q + 7) ;;
    ret (uint32
           (Z.lor (Z.lor (Z.lor (Z.lor (Z.lor (Z.lor (Z.lor
              (Z.shiftl (uint64 b0) 56) (Z.shiftl (uint64 b1) 48))
              (Z.shiftl (uint64 b2) 40)) (Z.shiftl (uint64 b3) 32))
              (Z.shiftl (uint64 b4) 24)) (Z.shiftl (uint64 b5) 16))
              (Z.shiftl (uint64 b6) 8)) (uint64 b7)))
  else ret 0.

(** [getNextField] and [skipField]; the two [while (len--)] loops of
    [skipField] are [skipPairs] (case [kCborMap]) and [skipItems] (case
    [kCborArray]). *)
Fixpoint getNextField (fuel : nat) : M TypeInfo :=
  match fuel with
  | O => out_of_fuel
  | S fuel =>
      c <- self ;;
      if mMaxBufLen c <=? mDataOffset c then ret (TypeInfo_major kCborError)
      else
        let q := mBuf c + mDataOffset c in
        b <- load q ;;
        let majorval := Z.shiftr b 5 in
        let minorval := Z.land b 31 in
        let headerBytes := kCborheaderBytes minorval in
        if mMaxBufLen c <? uint32 (mDataOffset c + headerBytes) then
          ret (TypeInfo_major kCborError)
        else
          let field :=
            mkTypeInfo kCborTagInvalid majorval minorval headerBytes q in
          if majorval =? kCborTag then
            tag <- getFieldValue field ;;
            skipField fuel field ;;;
            field <- getNextField fuel ;;
            ret (set_tag (uint16 tag) field)
          else ret field
  end
with skipField (fuel : nat) (info : TypeInfo) : M unit :=
  match fuel with
  | O => out_of_fuel
  | S fuel =>
      len <- getFieldValue info ;;
      update (fun c =>
                set_mDataOffset (uint32 (mDataOffset c + headerBytes info)) c) ;;;
      c <- self ;;
      if mMaxBufLen c <=? mDataOffset c then ret tt
      else if (majorval info =? kCborByteString)
              || (majorval info =? kCborUTF8String) then
        update (fun c => set_mDataOffset (uint32 (mDataOffset c + len)) c)
      else if majorval info =? kCborMap then skipPairs fuel len
      else if majorval info =? kCborArray then skipItems fuel len
      else ret tt
  end
with skipPairs (fuel : nat) (len : Z) : M unit :=
  match fuel with
  | O => out_of_fuel
  | S fuel =>
      if len =? 0 then ret tt
      else
        key <- getNextField fuel ;;
        skipField fuel key ;;;
        value <- getNextField fuel ;;
        skipField fuel value ;;;
        skipPairs fuel (len - 1)
  end
with skipItems (fuel : nat) (len : Z) : M unit :=
  match fuel with
  | O => out_of_fuel
  | S fuel =>
      if len =? 0 then ret tt
      else
        field <- getNextField fuel ;;
        skipField fuel field ;;;
        skipItems fuel (len - 1)
  end.

(** The [while (numItems-- != 0)] loop of [findElement]; [info] is the
    descriptor of the map, [mapOffset] the cursor on entry of
    [findElement]. *)
Fixpoint findLoop (fuel : nat) (name : string) (info : TypeInfo)
    (mapOffset : Z) (numItems : Z) : M TypeInfo :=
  match fuel with
  | O => out_of_fuel
  | S fuel =>
      if numItems =? 0 then
        update (set_mDataOffset mapOffset) ;;;
        ret (TypeInfo_major kCborError)
      else
        let len := strlen name in
        s <- getNextField fuel ;;
        sLen <- getFieldValue s ;;
        c <- self ;;
        let key := mBuf c + mDataOffset c + headerBytes info in
        hit <- (if len <=? sLen then strncmp (c_str name) key sLen
                else ret false) ;;
        if hit : bool then
          skipField fuel s ;;;
          value <- getNextField fuel ;;
          update (set_mDataOffset mapOffset) ;;;
          ret value
        else
          skipField fuel s ;;;
          value <- getNextField fuel ;;
          skipField fuel value ;;;
          findLoop fuel name info mapOffset (numItems - 1)
  end.

Definition findElement (fuel : nat) (name : string) : M TypeInfo :=
  c <- self ;;
  let mapOffset := mDataOffset c in
  info <- getNextField fuel ;;
  if negb (majorval info =? kCborMap) then ret (TypeInfo_major kCborError)
  else
    numItems <- getFieldValue info ;;
    update (fun c =>
              set_mDataOffset (uint32 (mDataOffset c + headerBytes info)) c) ;;;
    findLoop fuel name info mapOffset numItems.

(** [MicroCbor getMap(const char *name)]; [frames] is what the storage
    of the returned object holds where [mMapState] lies. *)
Definition getMap (fuel : nat) (frames : Z -> MapState) (name : string)
  : M MicroCbor :=
  element <- findElement fuel name ;;
  c <- self ;;
  if majorval element =? kCborMap then
    ret (MicroCbor_new frames (p element)
           (uint32 (mMaxBufLen c - mDataOffset c)) true)
  else ret (MicroCbor_default frames).

(** [get<T>] for the integral types other than [bool] *)
Definition get_int (fuel : nat) (T : IntType) (name : string)
    (defaultValue : Z) : M Z :=
  element <- findElement fuel name ;;
  if headerBytes element =? 9 then
    let q := p element + 1 in
    b0 <- load q ;; b1 <- load (q + 1) ;;
    b2 <- load (q + 2) ;; b3 <- load (q + 3) ;;
    b4 <- load (q + 4) ;; b5 <- load (q + 5) ;;
    b6 <- load (q + 6) ;; b7 <- load (q + 7) ;;
    let value :=
      Z.lor (Z.lor (Z.lor (Z.lor (Z.lor (Z.lor (Z.lor
        (Z.shiftl (uint64 b0) 56) (Z.shiftl (uint64 b1) 48))
        (Z.shiftl (uint64 b2) 40)) (Z.shiftl (uint64 b3) 32))
        (Z.shiftl (uint64 b4) 24)) (Z.shiftl (uint64 b5) 16))
        (Z.shiftl (uint64 b6) 8)) (uint64 b7) in
    if majorval element =? kCborPosInt then ret (cast T value)
    else if majorval element =? kCborNegInt then
      ret (cast T (uint64 (uint64 (- value) - 1)))
    else ret defaultValue
  else
    value <- getFieldValue element ;;
    if majorval element =? kCborPosInt then ret (cast T value)
    else if majorval element =? kCborNegInt then
      ret (cast T (uint32 (uint32 (- value) - 1)))
    else ret defaultValue.

(** [get<bool>] *)
Definition get_bool (fuel : nat) (name : string) (defaultValue : bool)
  : M bool :=
  element <- findElement fuel name ;;
  if majorval element =? kCborSimple then
    if minorval element =? 20 then ret false
    else if minorval element =? 21 then ret true
    else ret defaultValue
  else ret defaultValue.

(** [get<float>], values given by their bit patterns *)
Definition get_float (fuel : nat) (name : string) (defaultValue : Z)
  : M Z :=
  element <- findElement fuel name ;;
  if majorval element =? kCborSimple then
    if minorval element =? 26 then getFieldValue element
    else ret defaultValue
  else ret defaultValue.

(** [get<const char *>] and [get<char *>]: the address of the string *)
Definition get_string (fuel : nat) (name : string) (defaultValue : Z)
  : M Z :=
  element <- findElement fuel name ;;
  if majorval element =? kCborUTF8String then
    ret (p element + headerBytes element)
  else ret defaultValue.

(** [uint32_t getLength(const char *name)] *)
Definition getLength (fuel : nat) (name : string) : M Z :=
  element <- findElement fuel name ;;
  if negb (majorval element =? kCborError) then
    len <- getFieldValue element ;;
    if majorval element =? kCborUTF8String then
      last <- load (p element + uint32 (headerBytes element + len - 1)) ;;
      if last =? 0 then ret (uint32 (len - 1)) else ret len
    else ret len
  else ret 0.

(** [getPointer<T>]: the pair of [CborArray<T>::length] and
    [CborArray<T>::p] *)
Definition getPointer (fuel : nat) (T : ElemType) (name : string)
    (defaultValue : Z) : M (Z * Z) :=
  element <- findElement fuel name ;;
  if negb (tag element =? kCborTagInfo T) then ret (0, defaultValue)
  else
    len <- getFieldValue element ;;
    ret (len / elem_sizeof T, p element + headerBytes element).

End Reader.

(** * Predicates and states of the statements *)

(** An instance bound to its memory, nothing loaded yet. *)
Definition on_heap (c : MicroCbor) (h : list Z) : Machine :=
  {| this := c; heap := h; loads := [] |}.

(** Two states agree on the members the counters depend on. *)
Definition same_counters (m1 m2 : Machine) : Prop :=
  mBufBytesNeeded (this m1) = mBufBytesNeeded (this m2)
  /\ mDepth (this m1) = mDepth (this m2)
  /\ mReadOnly (this m1) = mReadOnly (this m2)
  /\ mNullTerminate (this m1) = mNullTerminate (this m2).

(** [f] acts on the counters alike in any two states that agree on them. *)
Definition counters_only (f : Machine -> Machine) : Prop :=
  forall m1 m2, same_counters m1 m2 -> same_counters (f m1) (f m2).

(** While no call has failed the cursor equals the bytes reserved, and a
    reservation beyond the capacity has set the result. *)
Definition run_ok (m : Machine) : Prop :=
  (mResult (this m) = 0 -> mDataOffset (this m) = mBufBytesNeeded (this m))
  /\ (mMaxBufLen (this m) < mBufBytesNeeded (this m) -> mResult (this m) <> 0).

(** [f] keeps the invariant, the capacity and a result that is set. *)
Definition keeps (f : Machine -> Machine) : Prop :=
  forall m,
    run_ok m ->
    run_ok (f m)
    /\ mMaxBufLen (this (f m)) = mMaxBufLen (this m)
    /\ (mResult (this m) <> 0 -> mResult (this (f m)) <> 0).

(** [f] keeps a result that is set and then stores nothing. *)
Definition blocked (f : Machine -> Machine) : Prop :=
  forall m,
    mResult (this m) <> 0 ->
    mResult (this (f m)) <> 0 /\ heap (f m) = heap m.

(** The length of the header [encodeHeader] writes for [len]. *)
Definition header_size (len : Z) : Z :=
  if len <? 24 then 1
  else if len <? 256 then 2
  else if len <? 65536 then 3
  else 5.

(** [f] adds [k] to [mBufBytesNeeded], modulo 2^32. *)
Definition advances (f : Machine -> Machine) (k : Z) : Prop :=
  forall m, uint32 (bytesNeeded (f m)) = uint32 (bytesNeeded m + k).

(** The state after [n] bytes [bs] were reserved and stored at the
    cursor. *)
Definition appended (bs : list Z) (m : Machine) : Machine :=
  let c := this m in
  let n := Z.of_nat (length bs) in
  {| this :=
       set_mDataOffset (mDataOffset c + n)
         (set_mBufBytesNeeded (mBufBytesNeeded c + n) c);
     heap := poke_bytes (mBuf c + mDataOffset c) bs (heap m);
     loads := loads m |}.

(** The state is one in which [n] more bytes fit. *)
Definition room (n : Z) (m : Machine) : Prop :=
  let c := this m in
  mResult c = 0
  /\ mDataOffset c = mBufBytesNeeded c
  /\ 0 <= mBufBytesNeeded c
  /\ mBufBytesNeeded c + n <= mMaxBufLen c
  /\ mMaxBufLen c < 2 ^ 32.

(** [f] appends [bs] whenever they fit. *)
Definition appends (f : Machine -> Machine) (bs : list Z) : Prop :=
  forall m, room (Z.of_nat (length bs)) m -> f m = appended bs m.

(** [op] appends a key of 1 to 23 characters and the item bytes [item],
    and counts the pair. *)
Definition writes_pair (op : EncodeOp) (key : string) (item : list Z) : Prop :=
  forall m,
    room (1 + strlen key + Z.of_nat (length item)) m ->
    encode_op op m
    = appended (((96 + strlen key) :: c_str key) ++ item)
        (with_this bump_mapCount m).

(** The bytes of [{key: item}] with one-byte map and key headers. *)
Definition pair_image (key : string) (item : list Z) : list Z :=
  161 :: (96 + strlen key) :: c_str key ++ item.

(** The fixed-width integer item of [add<T>]: the initial byte (major type
    0 or 1, minor value 24 to 27) and the big-endian bytes of [v], or of
    [-1 - v] when [v < 0]. *)
Definition int_item (T : IntType) (v : Z) : list Z :=
  let x := if v <? 0 then -1 - v else v in
  let mj := if v <? 0 then 32 else 0 in
  match sizeof T with
  | 8 => [mj + 27; uint8 (Z.shiftr x 56); uint8 (Z.shiftr x 48);
          uint8 (Z.shiftr x 40); uint8 (Z.shiftr x 32);
          uint8 (Z.shiftr x 24); uint8 (Z.shiftr x 16);
          uint8 (Z.shiftr x 8); uint8 x]
  | 4 => [mj + 26; uint8 (Z.shiftr x 24); uint8 (Z.shiftr x 16);
          uint8 (Z.shiftr x 8); uint8 x]
  | 2 => [mj + 25; uint8 (Z.shiftr x 8); uint8 x]
  | _ => [mj + 24; uint8 x]
  end.

(** The item of [add(name, bool)]: [kCborTrue] or [kCborFalse]. *)
Definition bool_item (b : bool) : list Z := [if b then 245 else 244].

(** The item of [add(name, float)]: [kCborFloat32] and the big-endian bytes
    of the bit pattern. *)
Definition float_item (bits : Z) : list Z :=
  [250; uint8 (Z.shiftr bits 24); uint8 (Z.shiftr bits 16);
   uint8 (Z.shiftr bits 8); uint8 bits].

(** The value a reader call returns. *)
Definition value_of {A : Type} (r : option (A * Machine)) : option A :=
  fst <$> r.

(** The addresses loaded when a reader call returns, latest first. *)
Definition loads_of {A : Type} (r : option (A * Machine)) : option (list Z) :=
  (fun x => loads (snd x)) <$> r.

(** The reader [m] with its cursor at [o] and the loads [l]. *)
Definition at_offset (o : Z) (l : list Z) (m : Machine) : Machine :=
  {| this := set_mDataOffset o (this m); heap := heap m; loads := l |}.

(** [a] lies in the buffer [c] is bound to. *)
Definition in_region (c : MicroCbor) (a : Z) : Prop :=
  mBuf c <= a < mBuf c + mMaxBufLen c.

(** Every address [m'] has loaded and [m] had not lies in the region
    of [c]. *)
Definition loads_within (c : MicroCbor) (m m' : Machine) : Prop :=
  forall a, In a (loads m') -> In a (loads m) \/ in_region c a.

(** The state a reader starts from after the writer is done: [restart()]. *)
Definition rewound (m : Machine) : Machine := with_this restart m.

(** What the storage of a new object holds where [mMapState] lies, for the
    concrete runs below. *)
Definition zero_frames : Z -> MapState := fun _ => mkMapState 0 0 0.

(** A writable instance on a zeroed buffer of [n] bytes at address 0. *)
Definition on_zeroed (n : nat) : Machine :=
  on_heap (MicroCbor_new zero_frames 0 (Z.of_nat n) true) (replicate n 0).

(** A descriptor and a memory behind [kCborheaderBytes] of zeros, for
    concrete runs. *)
Definition zero_info : TypeInfo := mkTypeInfo 0 0 0 0 0.
Definition zero_table : Z -> Z := fun _ => 0.

(** Keys of 24 and of 23 characters. *)
Definition key24 : string := "abcdefghijklmnopqrstuvwx".
Definition key23 : string := "abcdefghijklmnopqrstuvw".

(** ** Maps of entries, and the predicates of their statements *)

(** The bytes [encodeHeader] writes for the major type [mj] and the
    length or value [len]. *)
Definition header_image (mj len : Z) : list Z :=
  if len <? 24 then [mj * 32 + len]
  else if len <? 256 then [mj * 32 + 24; len]
  else if len <? 65536 then
    [mj * 32 + 25; uint8 (Z.shiftr len 8); uint8 len]
  else
    [mj * 32 + 26; uint8 (Z.shiftr len 24); uint8 (Z.shiftr len 16);
     uint8 (Z.shiftr len 8); uint8 len].

(** The value of an entry, by the [add] overload that writes it; an array
    is given by its bytes and added with [align = false]. *)
Inductive Value : Type :=
  | VInt (T : IntType) (v : Z)
  | VBool (b : bool)
  | VFloat (bits : Z)
  | VDouble (bits : Z)
  | VString (s : string)
  | VMinimal (T : IntType) (v : Z)
  | VArray (T : ElemType) (bytes : list Z) (n : Z).

(** The call that adds [x] under [key]. *)
Definition add_value (key : string) (x : Value) : EncodeOp :=
  match x with
  | VInt T v => OpAddInt T (Some key) v
  | VBool b => OpAddBool (Some key) b
  | VFloat bits => OpAddFloat (Some key) bits
  | VDouble bits => OpAddDouble (Some key) bits
  | VString s => OpAddString (Some key) s
  | VMinimal T v => OpAddMinimal T (Some key) v
  | VArray T bytes n => OpAddArray T (Some key) bytes n false
  end.

(** The item of [add(name, double)]: [kCborFloat64] and the big-endian
    bytes of the bit pattern. *)
Definition double_item (bits : Z) : list Z :=
  [251; uint8 (Z.shiftr bits 56); uint8 (Z.shiftr bits 48);
   uint8 (Z.shiftr bits 40); uint8 (Z.shiftr bits 32);
   uint8 (Z.shiftr bits 24); uint8 (Z.shiftr bits 16);
   uint8 (Z.shiftr bits 8); uint8 bits].

(** The text string item of the string overloads of [add]: the characters,
    and a NUL that counts in the length when the instance
    null-terminates. *)
Definition string_item (nt : bool) (s : string) : list Z :=
  header_image 3 (strlen s + (if nt then 1 else 0))
  ++ c_str s ++ (if nt then [0] else []).

(** The item of [addMinimal]: a header that holds the value. *)
Definition minimal_item (v : Z) : list Z :=
  if 0 <=? v then header_image 0 v else header_image 1 (-1 - v).

(** The item of the array overload: the tag of the element type and a
    byte string. *)
Definition array_item (T : ElemType) (bytes : list Z) : list Z :=
  [216; kCborTagInfo T]
  ++ header_image 2 (Z.of_nat (length bytes)) ++ bytes.

(** The bytes of the value [x]. *)
Definition value_image (nt : bool) (x : Value) : list Z :=
  match x with
  | VInt T v => int_item T v
  | VBool b => bool_item b
  | VFloat bits => float_item bits
  | VDouble bits => double_item bits
  | VString s => string_item nt s
  | VMinimal T v => minimal_item v
  | VArray T bytes n => array_item T bytes
  end.

(** The values the overloads take without conversion, and lengths that
    fit the 32 bits of a header. *)
Definition value_ok (x : Value) : Prop :=
  match x with
  | VInt T v => in_range T v
  | VBool b => True
  | VFloat bits => 0 <= bits < 2 ^ 32
  | VDouble bits => 0 <= bits < 2 ^ 64
  | VString s => strlen s + 1 < 2 ^ 32
  | VMinimal T v => in_range T v /\ - 2 ^ 32 <= v < 2 ^ 32
  | VArray T bytes n =>
      0 <= n /\ Z.of_nat (length bytes) = n * elem_sizeof T
      /\ n * elem_sizeof T < 2 ^ 32
  end.

(** [op] appends a key of 1 to 23 characters and [item] and counts the
    pair, on an instance whose [mNullTerminate] is [nt]. *)
Definition writes_entry (nt : bool) (op : EncodeOp) (key : string)
    (item : list Z) : Prop :=
  forall m,
    mNullTerminate (this m) = nt ->
    room (1 + strlen key + Z.of_nat (length item)) m ->
    encode_op op m
    = appended (((96 + strlen key) :: c_str key) ++ item)
        (with_this bump_mapCount m).

(** The bytes of an entry: the key with its one-byte header, and the
    value. *)
Definition entry_image (nt : bool) (e : string * Value) : list Z :=
  ((96 + strlen (fst e)) :: c_str (fst e)) ++ value_image nt (snd e).

(** The bytes of the entries, one after the other. *)
Definition entries_image (nt : bool) (es : list (string * Value)) : list Z :=
  concat (map (entry_image nt) es).

(** The bytes of the map of the entries [es], fewer than 24: a one-byte
    header with their number, and the entries. *)
Definition map_image (nt : bool) (es : list (string * Value)) : list Z :=
  (160 + Z.of_nat (length es)) :: entries_image nt es.

(** A key of 1 to 23 characters and a value the overload takes as it
    is. *)
Definition entry_ok (e : string * Value) : Prop :=
  1 <= strlen (fst e) <= 23 /\ value_ok (snd e).

(** The [add] calls of the entries, in order. *)
Definition add_entries (es : list (string * Value)) : list EncodeOp :=
  map (fun e => add_value (fst e) (snd e)) es.

(** [startMap(); add(key, value); ...; endMap()] *)
Definition flat_map (es : list (string * Value)) : list EncodeOp :=
  OpStartMap 0 :: add_entries es ++ [OpEndMap].

(** The state after [startMap()] at offset 0 and [k] entries whose bytes
    are [body], written without failure. *)
Definition wrote (buf cap : Z) (nt : bool) (heap0 : list Z) (body : list Z)
    (k : Z) (m : Machine) : Prop :=
  let c := this m in
  mResult c = 0 /\ mBuf c = buf /\ mMaxBufLen c = cap
  /\ mNullTerminate c = nt /\ mDepth c = 0
  /\ mDataOffset c = 1 + Z.of_nat (length body)
  /\ mBufBytesNeeded c = 1 + Z.of_nat (length body)
  /\ heap m = poke_bytes buf (160 :: body) heap0
  /\ loads m = []
  /\ mMapState c 0
     = {| mapStartPos := 0; mapStartCount := 0; mapCount := k |}.

(** The bytes of memory from [a] on are [bs]. *)
Definition holds_at (h : list Z) (a : Z) (bs : list Z) : Prop :=
  forall i : nat,
    (i < length bs)%nat -> peek h (a + Z.of_nat i) = default 0 (bs !! i).

(** The value [getFieldValue] decodes from the memory [h]. *)
Definition field_value (h : list Z) (info : TypeInfo) : Z :=
  let q := p info + 1 in
  let hb := headerBytes info in
  if hb =? 1 then minorval info
  else if hb =? 2 then peek h q
  else if hb =? 3 then
    Z.lor (Z.shiftl (uint16 (peek h q)) 8) (peek h (q + 1))
  else if hb =? 5 then
    Z.lor (Z.lor (Z.lor (Z.shiftl (uint32 (peek h q)) 24)
                        (Z.shiftl (uint32 (peek h (q + 1))) 16))
                 (Z.shiftl (uint32 (peek h (q + 2))) 8))
          (peek h (q + 3))
  else if hb =? 9 then
    uint32
      (Z.lor (Z.lor (Z.lor (Z.lor (Z.lor (Z.lor (Z.lor
         (Z.shiftl (uint64 (peek h q)) 56)
         (Z.shiftl (uint64 (peek h (q + 1))) 48))
         (Z.shiftl (uint64 (peek h (q + 2))) 40))
         (Z.shiftl (uint64 (peek h (q + 3))) 32))
         (Z.shiftl (uint64 (peek h (q + 4))) 24))
         (Z.shiftl (uint64 (peek h (q + 5))) 16))
         (Z.shiftl (uint64 (peek h (q + 6))) 8))
         (uint64 (peek h (q + 7))))
  else 0.

(** The entries of [kCborheaderBytes]. *)
Definition header_bytes_of (mn : Z) : Z :=
  if mn <? 24 then 1
  else if mn =? 24 then 2
  else if mn =? 25 then 3
  else if mn =? 26 then 5
  else 9.

(** The descriptor [getNextField] returns for the untagged item [item]
    at the address [a]. *)
Definition item_info (a : Z) (item : list Z) : TypeInfo :=
  let vb := default 0 (head item) in
  mkTypeInfo kCborTagInvalid (Z.shiftr vb 5) (Z.land vb 31)
    (header_bytes_of (Z.land vb 31)) a.

(** [item] is an integer, a simple value or a string, in full: its
    header, and for a string as many bytes as the header says. *)
Definition plain_item (item : list Z) : Prop :=
  let vb := default 0 (head item) in
  let mj := Z.shiftr vb 5 in
  let hb := header_bytes_of (Z.land vb 31) in
  (mj = 0 \/ mj = 1 \/ mj = 2 \/ mj = 3 \/ mj = 7)
  /\ 0 <= Z.land vb 31 < 28
  /\ hb <= Z.of_nat (length item)
  /\ forall h a,
       holds_at h a item ->
       (if (mj =? kCborByteString) || (mj =? kCborUTF8String)
        then field_value h (item_info a item) else 0)
       = Z.of_nat (length item) - hb.

(** The descriptor [getNextField] returns for the value [x] at the
    address [a]: for an array, the descriptor of the byte string with
    the tag of the element type. *)
Definition value_info (nt : bool) (x : Value) (a : Z) : TypeInfo :=
  match x with
  | VArray T bytes n =>
      set_tag (kCborTagInfo T)
        (item_info (a + 2)
           (header_image 2 (Z.of_nat (length bytes)) ++ bytes))
  | _ => item_info a (value_image nt x)
  end.

(** The first entry of [es] whose key has the bytes of [name], with the
    offset of its value from the start of the entries. *)
Fixpoint find_entry (nt : bool) (name : string) (es : list (string * Value))
  : option (Z * Value) :=
  match es with
  | [] => None
  | (key, x) :: es' =>
      if bool_decide (c_str name = c_str key) then Some (1 + strlen key, x)
      else
        match find_entry nt name es' with
        | Some (off, y) =>
            Some (Z.of_nat (length (entry_image nt (key, x))) + off, y)
        | None => None
        end
  end.

(** The value of the first entry of [es] whose key has the bytes of
    [name]. *)
Fixpoint lookup_value (name : string) (es : list (string * Value))
  : option Value :=
  match es with
  | [] => None
  | (key, x) :: es' =>
      if bool_decide (c_str name = c_str key) then Some x
      else lookup_value name es'
  end.

(** The descriptor a lookup returns. *)
Definition found_info (indet : TypeInfo) (nt : bool) (name : string)
    (es : list (string * Value)) (a : Z) : TypeInfo :=
  match find_entry nt name es with
  | Some (off, x) => value_info nt x (a + off)
  | None => TypeInfo_major indet kCborError
  end.

(** The reader [m], its cursor at 0, is bound to a buffer that starts
    with the image of the map of the entries [es]. *)
Definition holds_map (nt : bool) (es : list (string * Value)) (m : Machine)
  : Prop :=
  mDataOffset (this m) = 0
  /\ Forall entry_ok es
  /\ (length es < 24)%nat
  /\ holds_at (heap m) (mBuf (this m)) (map_image nt es)
  /\ Z.of_nat (length (map_image nt es)) <= mMaxBufLen (this m)
  /\ mMaxBufLen (this m) + 255 < 2 ^ 32.

(** A map with one entry of every kind, and a second entry under the
    key of the first. *)
Definition sample_entries : list (string * Value) :=
  [("i"%string, VInt TInt32 12345);
   ("neg"%string, VInt TInt16 (-16000));
   ("t"%string, VBool true);
   ("f32"%string, VFloat 1078530000);
   ("s"%string, VString "Hello");
   ("min"%string, VMinimal TInt32 (-300));
   ("pts"%string, VArray (ElemInt TInt32) [1; 0; 0; 0; 2; 0; 0; 0] 2);
   ("i"%string, VInt TInt32 7)].

(** The reader after [startMap(); add ...; endMap(); restart()] of
    [sample_entries] on a zeroed buffer of 128 bytes. *)
Definition sample_reader : Machine :=
  rewound (encode (flat_map sample_entries)
             (on_heap (MicroCbor_new zero_frames 0 128 true)
                (replicate 128 0))).

(** [m'] differs from [m] in the cursor and the recorded loads at
    most. *)
Definition cursor_only (m m' : Machine) : Prop :=
  heap m' = heap m
  /\ exists o, this m' = set_mDataOffset o (this m).

(** The memory [h] has the length of [heap0] and its bytes outside the
    [cap] bytes at [buf]. *)
Definition in_buffer_only (buf cap : Z) (heap0 h : list Z) : Prop :=
  length h = length heap0
  /\ forall a, a < buf \/ buf + cap <= a -> peek h a = peek heap0 a.

(** The writer is bound to the buffer, has stored inside it only, and
    while it has not failed its cursor is at the bytes reserved, inside the
    buffer. *)
Definition writer_ok (buf cap : Z) (heap0 : list Z) (m : Machine) : Prop :=
  mBuf (this m) = buf
  /\ mMaxBufLen (this m) = cap
  /\ in_buffer_only buf cap heap0 (heap m)
  /\ (mResult (this m) = 0 ->
      mDataOffset (this m) = mBufBytesNeeded (this m)
      /\ 0 <= mBufBytesNeeded (this m) <= cap).

(** [f] keeps [writer_ok], the depth and the frames, and advances the
    cursor by [k] bytes at least unless it fails. *)
Definition grows (buf cap : Z) (heap0 : list Z) (k : Z)
    (f : Machine -> Machine) : Prop :=
  forall m,
    writer_ok buf cap heap0 m ->
    writer_ok buf cap heap0 (f m)
    /\ mDepth (this (f m)) = mDepth (this m)
    /\ mMapState (this (f m)) = mMapState (this m)
    /\ (mResult (this (f m)) = 0 ->
        mResult (this m) = 0
        /\ mDataOffset (this m) + k <= mDataOffset (this (f m))).

(** While the writer has not failed, [d] is its depth, and the header
    of every open map lies before the cursor, with one byte more before the
    cursor once the map has counted a key. *)
Definition frames_ok (d : Z) (m : Machine) : Prop :=
  mResult (this m) = 0 ->
  mDepth (this m) = d
  /\ forall i,
       0 <= i <= d ->
       let f := mMapState (this m) i in
       0 <= mapStartPos f
       /\ mapStartPos f + 1 <= mDataOffset (this m)
       /\ (mapCount f <> 0 -> mapStartPos f + 2 <= mDataOffset (this m)).

(** A key is absent or empty, or given inside a map and of less than
    2^31 - 8 characters. *)
Definition key_ok (d : Z) (name : option string) : Prop :=
  match name with
  | Some s => strlen s = 0 \/ (0 <= d /\ strlen s + 8 < 2 ^ 31)
  | None => True
  end.

(** The call [op] at depth [d]: [startMap] with a frame of [mMapState]
    left, [endMap] with a map open, strings and arrays of less than 2^31
    bytes. *)
Definition op_ok (d : Z) (op : EncodeOp) : Prop :=
  match op with
  | OpStartMap n => d + 1 < CONFIG_MICROCBOR_MAX_NESTING
  | OpStartMapNamed name n =>
      key_ok d name /\ d + 1 < CONFIG_MICROCBOR_MAX_NESTING
  | OpEndMap => 0 <= d
  | OpAddInt T name v => key_ok d name
  | OpAddBool name v => key_ok d name
  | OpAddString name v => key_ok d name /\ strlen v + 1 < 2 ^ 31
  | OpAddMinimal T name v => key_ok d name
  | OpAddFloat name bits => key_ok d name
  | OpAddDouble name bits => key_ok d name
  | OpAddArray T name value n align =>
      key_ok d name /\ uint32 n * elem_sizeof T < 2 ^ 31
  end.

(** The depth after the call [op] at depth [d], when [startMap] is not
    refused. *)
Definition depth_after (d : Z) (op : EncodeOp) : Z :=
  match op with
  | OpStartMap _ | OpStartMapNamed _ _ => d + 1
  | OpEndMap => d - 1
  | _ => d
  end.

(** Every call of [ops] is [op_ok] at the depth the calls before it
    leave, from the depth [d] on. *)
Fixpoint ops_ok (d : Z) (ops : list EncodeOp) : Prop :=
  match ops with
  | [] => True
  | op :: ops' => op_ok d op /\ ops_ok (depth_after d op) ops'
  end.

(** [i] is the index of one of the frames of [mMapState]. *)
Definition frame_index (i : Z) : bool :=
  (0 <=? i) && (i <? CONFIG_MICROCBOR_MAX_NESTING).

(** [encodeMapKey(name)] at depth [d] returns at once (no name, or an
    empty one), or counts the key in a frame of [mMapState]. *)
Definition key_in_map (d : Z) (name : option string) : bool :=
  match name with
  | Some s =>
      match c_str s with
      | [] => true
      | _ :: _ => frame_index d
      end
  | None => true
  end.

(** The call [op] at depth [d] indexes [mMapState] inside its frames:
    [startMap] writes the frame [d + 1], [endMap] reads the frame [d], and
    a call with a key counts it in the frame [d]. *)
Definition call_in_frames (d : Z) (op : EncodeOp) : bool :=
  match op with
  | OpStartMap n => frame_index (d + 1)
  | OpStartMapNamed name n => key_in_map d name && frame_index (d + 1)
  | OpEndMap => frame_index d
  | OpAddInt T name v => key_in_map d name
  | OpAddBool name v => key_in_map d name
  | OpAddString name v => key_in_map d name
  | OpAddMinimal T name v => key_in_map d name
  | OpAddFloat name bits => key_in_map d name
  | OpAddDouble name bits => key_in_map d name
  | OpAddArray T name value n align => key_in_map d name
  end.

(** The calls [ops], from the depth [d] on, on an instance that is not
    read-only: every [endMap] and every call with a key is made inside an
    open map, and no more than [CONFIG_MICROCBOR_MAX_NESTING] maps are open
    at a time.  The depth is -1 before the first [startMap]. *)
Fixpoint well_nested (d : Z) (ops : list EncodeOp) : bool :=
  match ops with
  | [] => true
  | op :: ops' => call_in_frames d op && well_nested (depth_after d op) ops'
  end.

(** [f] leaves the depth and the read-only flag as they are. *)
Definition same_depth (f : Machine -> Machine) : Prop :=
  forall m,
    mDepth (this (f m)) = mDepth (this m)
    /\ mReadOnly (this (f m)) = mReadOnly (this m).

(** [f] takes the writer from depth [d] to depth [d'], keeping
    [writer_ok] and [frames_ok]. *)
Definition steps (buf cap : Z) (heap0 : list Z) (d d' : Z)
    (f : Machine -> Machine) : Prop :=
  forall m,
    writer_ok buf cap heap0 m /\ frames_ok d m ->
    writer_ok buf cap heap0 (f m) /\ frames_ok d' (f m).

(** Calls with a nested map, an aligned array and an item without key,
    on a buffer too short for them. *)
Definition nested_calls : list EncodeOp :=
  [OpStartMap 0;
   OpAddInt TInt32 (Some "i"%string) 12345;
   OpStartMapNamed (Some "m"%string) 0;
   OpAddString (Some "s"%string) "Hello"%string;
   OpEndMap;
   OpAddArray (ElemInt TInt16) (Some "pts"%string) [1; 0; 2; 0; 3; 0] 3 true;
   OpAddBool None true;
   OpEndMap].

(** The state inside the map opened at depth [d] whose header follows the
    bytes [pre] of the buffer, after [k] pairs whose bytes are [body],
    written without failure; [outer] are the frames of the maps around
    it. *)
Definition wrote_in (buf cap : Z) (nt : bool) (heap0 : list Z) (d : Z)
    (outer : Z -> MapState) (pre body : list Z) (k : Z) (m : Machine)
  : Prop :=
  let c := this m in
  let used := Z.of_nat (length pre) + 1 + Z.of_nat (length body) in
  mResult c = 0 /\ mReadOnly c = false /\ mBuf c = buf /\ mMaxBufLen c = cap
  /\ mNullTerminate c = nt /\ mDepth c = d
  /\ mDataOffset c = used
  /\ mBufBytesNeeded c = used
  /\ heap m = poke_bytes buf (pre ++ 160 :: body) heap0
  /\ loads m = []
  /\ mMapState c d
     = {| mapStartPos := Z.of_nat (length pre); mapStartCount := 0;
          mapCount := k |}
  /\ forall i, i < d -> mMapState c i = outer i.

(** The calls [ops], made inside an open map at depth [d], append the
    bytes [img] and count one pair more, whenever the bytes fit. *)
Definition emits (nt : bool) (d : Z) (ops : list EncodeOp) (img : list Z)
  : Prop :=
  forall buf cap heap0 outer pre body k m,
    wrote_in buf cap nt heap0 d outer pre body k m ->
    Z.of_nat (length pre) + 1 + Z.of_nat (length body)
    + Z.of_nat (length img) <= cap ->
    cap < 2 ^ 32 ->
    0 <= k < 65535 ->
    wrote_in buf cap nt heap0 d outer pre (body ++ img) (k + 1)
      (encode ops m).

(** What a key of a map stands for: a value, or a map of entries again. *)
#[warnings="-register-all"] Inductive Node : Type :=
  | NValue (x : Value)
  | NMap (es : list (string * Node)).

(** The bytes of a node: those of the value, or the one-byte header with
    the number of entries, fewer than 24, and the entries, each key as a
    text string with a one-byte header. *)
Fixpoint node_image (nt : bool) (n : Node) : list Z :=
  match n with
  | NValue x => value_image nt x
  | NMap es =>
      (160 + Z.of_nat (length es))
      :: concat (map (fun e => ((96 + strlen (fst e)) :: c_str (fst e))
                               ++ node_image nt (snd e)) es)
  end.

(** The calls that write a node under [key]: the [add] of the value, or
    [startMap(key); ...; endMap()] around the calls of the entries. *)
Fixpoint node_ops (key : string) (n : Node) : list EncodeOp :=
  match n with
  | NValue x => [add_value key x]
  | NMap es =>
      OpStartMapNamed (Some key) 0
      :: concat (map (fun e => node_ops (fst e) (snd e)) es) ++ [OpEndMap]
  end.

(** [startMap(); ...; endMap()] around the calls of the entries. *)
Definition nested_map (es : list (string * Node)) : list EncodeOp :=
  OpStartMap 0 :: concat (map (fun e => node_ops (fst e) (snd e)) es)
  ++ [OpEndMap].

(** The number of maps around the innermost value, the node included. *)
Fixpoint node_height (n : Node) : nat :=
  match n with
  | NValue _ => 0
  | NMap es =>
      S (fold_right (fun e h => Nat.max (node_height (snd e)) h) 0%nat es)
  end.

(** Values the overloads take as they are, maps of fewer than 24
    entries, keys of 1 to 23 characters. *)
Fixpoint node_ok (n : Node) : Prop :=
  match n with
  | NValue x => value_ok x
  | NMap es =>
      (length es < 24)%nat
      /\ fold_right
           (fun e P => (1 <= strlen (fst e) <= 23 /\ node_ok (snd e)) /\ P)
           True es
  end.

(** The bytes [img] at any place of a buffer are an item that
    [getNextField] describes by [inf] and [skipField] passes, given
    [need] units of fuel or more. *)
Definition readable (indet : TypeInfo) (behindTable : Z -> Z) (need : nat)
    (img : list Z) (inf : Z -> TypeInfo) : Prop :=
  forall o l m fuel,
    holds_at (heap m) (mBuf (this m) + o) img ->
    0 <= o ->
    o + Z.of_nat (length img) <= mMaxBufLen (this m) ->
    mMaxBufLen (this m) + 255 < 2 ^ 32 ->
    exists t l1,
      getNextField indet behindTable (S (S fuel)) (at_offset o l m)
      = Some (inf (mBuf (this m) + o), at_offset (o + t) l1 m)
      /\ forall fuel' l2, exists l3,
           skipField indet behindTable (need + fuel')
             (inf (mBuf (this m) + o)) (at_offset (o + t) l2 m)
           = Some (tt, at_offset (o + Z.of_nat (length img)) l3 m).

(** An entry of a map as the reader meets it: the key, the bytes of the
    value, and the descriptor of the value at an address. *)
Record Stored : Type := mkStored {
  skey : string;
  simg : list Z;
  sinfo : Z -> TypeInfo
}.

(** The bytes of an entry: the key with its one-byte header, and the
    value. *)
Definition stored_image (s : Stored) : list Z :=
  ((96 + strlen (skey s)) :: c_str (skey s)) ++ simg s.

(** A key of 1 to 23 characters and a value that can be read. *)
Definition stored_ok (indet : TypeInfo) (behindTable : Z -> Z) (need : nat)
    (s : Stored) : Prop :=
  1 <= strlen (skey s) <= 23
  /\ (0 < length (simg s))%nat
  /\ readable indet behindTable need (simg s) (sinfo s).

(** The first entry whose key has the bytes of [name], with the offset
    of its value from the start of the entries. *)
Fixpoint find_stored (name : string) (ss : list Stored)
  : option (Z * Stored) :=
  match ss with
  | [] => None
  | s :: ss' =>
      if bool_decide (c_str name = c_str (skey s))
      then Some (1 + strlen (skey s), s)
      else
        match find_stored name ss' with
        | Some (off, s') =>
            Some (Z.of_nat (length (stored_image s)) + off, s')
        | None => None
        end
  end.

(** The descriptor a lookup returns, the entries starting at [a]. *)
Definition found_stored (indet : TypeInfo) (name : string)
    (ss : list Stored) (a : Z) : TypeInfo :=
  match find_stored name ss with
  | Some (off, s) => sinfo s (a + off)
  | None => TypeInfo_major indet kCborError
  end.

(** The descriptor of a map of [n] entries, fewer than 24, at [a]. *)
Definition map_info (n : Z) (a : Z) : TypeInfo :=
  mkTypeInfo kCborTagInvalid kCborMap n 1 a.

(** The descriptor [getNextField] returns for the node [n] at the
    address [a]. *)
Definition node_info (nt : bool) (n : Node) (a : Z) : TypeInfo :=
  match n with
  | NValue x => value_info nt x a
  | NMap es => map_info (Z.of_nat (length es)) a
  end.

(** An entry as the reader meets it. *)
Definition stored_of (nt : bool) (e : string * Node) : Stored :=
  mkStored (fst e) (node_image nt (snd e)) (node_info nt (snd e)).

(** The node of the first entry of [es] whose key has the bytes of
    [name]. *)
Fixpoint lookup_node (name : string) (es : list (string * Node))
  : option Node :=
  match es with
  | [] => None
  | (key, n) :: es' =>
      if bool_decide (c_str name = c_str key) then Some n
      else lookup_node name es'
  end.

(** Fuel that suffices to pass the node [n]. *)
Definition node_need (n : Node) : nat := 2 + 26 * node_height n.

(** The reader [m], its cursor at 0, is bound to a buffer that starts
    with the image of the map of the entries [es]. *)
Definition holds_nested (nt : bool) (es : list (string * Node))
    (m : Machine) : Prop :=
  mDataOffset (this m) = 0
  /\ node_ok (NMap es)
  /\ holds_at (heap m) (mBuf (this m)) (node_image nt (NMap es))
  /\ Z.of_nat (length (node_image nt (NMap es))) <= mMaxBufLen (this m)
  /\ mMaxBufLen (this m) + 255 < 2 ^ 32.

(** The inner map of the test [maps], with a map more inside it. *)
Definition sample_inner : list (string * Node) :=
  [("f32"%string, NValue (VFloat 1078523331));
   ("in"%string, NMap [("b"%string, NValue (VBool true))])].

(** The maps of the test [maps]. *)
Definition sample_nested : list (string * Node) :=
  [("i32"%string, NValue (VInt TInt32 1));
   ("map1"%string, NMap sample_inner);
   ("i16"%string, NValue (VInt TInt16 2))].

(** The reader after [startMap(); ...; endMap(); restart()] of
    [sample_nested] on a zeroed buffer of 128 bytes. *)
Definition sample_nested_reader : Machine :=
  rewound (encode (nested_map sample_nested)
             (on_heap (MicroCbor_new zero_frames 0 128 true)
                (replicate 128 0))).

(** [oddBytes] of the array overload of [add], called with [needed]
    bytes reserved. *)
Definition odd_bytes (needed : Z) (T : ElemType) (name : string) (n : Z)
  : Z :=
  (needed + (strlen name + bytesForLength (strlen name) + 2
             + bytesForLength (n * elem_sizeof T)))
  mod elem_sizeof T.

(** The bytes the array overload writes when it pads the key with [pad]
    NUL bytes: the key and the padding as one text string, the tag and
    the byte string. *)
Definition padded_pair (T : ElemType) (name : string) (bytes : list Z)
    (pad : Z) : list Z :=
  header_image 3 (strlen name + pad)
  ++ (c_str name ++ replicate (Z.to_nat pad) 0)
  ++ array_item T bytes.

(** [startMap(); add(key, value); ...; add(name, array, n, true);
    endMap()] *)
Definition flat_map_then_array (es : list (string * Value)) (T : ElemType)
    (name : string) (bytes : list Z) (n : Z) : list EncodeOp :=
  OpStartMap 0
  :: add_entries es ++ [OpAddArray T (Some name) bytes n true; OpEndMap].

(** The array of the test [array] under a key of two characters. *)
Definition sample_points : list Z :=
  [1; 0; 0; 0; 2; 0; 0; 0; 3; 0; 0; 0; 4; 0; 0; 0].

(** * Properties of the writer *)

Ltac Zify.zify_post_hook ::= Z.to_euclidean_division_equations.

(** ** The counters do not depend on the buffer

    What an encode call adds to [mBufBytesNeeded], and how it moves
    [mDepth], is determined by the call and by the four members below:
    neither the capacity nor [mResult] nor the bytes written enter. *)

Lemma counters_only_compose (f g : Machine -> Machine) :
  counters_only f -> counters_only g -> counters_only (fun m => g (f m)).
Proof. intros Hf Hg m1 m2 H. apply Hg, Hf, H. Qed.

Lemma counters_only_id : counters_only (fun m => m).
Proof. intros m1 m2 H. exact H. Qed.

Lemma reserveBytes_counters n : counters_only (reserveBytes n).
Proof.
  intros m1 m2 (Hn & Hd & Hr & Ht).
  unfold same_counters, reserveBytes, with_this; cbn.
  rewrite Hn.
  destruct (_ <? _), (_ <? _); cbn; auto.
Qed.

Lemma storeByte_counters v : counters_only (storeByte v).
Proof.
  intros m1 m2 H. unfold storeByte.
  destruct (negb _), (negb _); exact H.
Qed.

(** The tail shared by the fixed-width and the block writers: the bytes go
    to the heap and the cursor advances, the counters stay. *)
Ltac counters_commit H :=
  cbv zeta;
  match goal with
  | |- same_counters
         (if mResult (this ?a) =? 0 then _ else _)
         (if mResult (this ?b) =? 0 then _ else _) =>
      destruct (mResult (this a) =? 0), (mResult (this b) =? 0); exact H
  end.

Lemma encodeUInt8_counters t v : counters_only (encodeUInt8 t v).
Proof.
  intros m1 m2 H. apply (reserveBytes_counters 2) in H.
  unfold encodeUInt8. counters_commit H.
Qed.

Lemma encodeUInt16_counters t v : counters_only (encodeUInt16 t v).
Proof.
  intros m1 m2 H. apply (reserveBytes_counters 3) in H.
  unfold encodeUInt16. counters_commit H.
Qed.

Lemma encodeUInt32_counters t v : counters_only (encodeUInt32 t v).
Proof.
  intros m1 m2 H. apply (reserveBytes_counters 5) in H.
  unfold encodeUInt32. counters_commit H.
Qed.

Lemma encodeUInt64_counters t v : counters_only (encodeUInt64 t v).
Proof.
  intros m1 m2 H. apply (reserveBytes_counters 9) in H.
  unfold encodeUInt64. counters_commit H.
Qed.

Lemma encodeHeader_counters mj len : counters_only (encodeHeader mj len).
Proof.
  intros m1 m2 H. unfold encodeHeader. cbv zeta.
  repeat case_match.
  - apply storeByte_counters, reserveBytes_counters, H.
  - do 2 apply storeByte_counters. apply reserveBytes_counters, H.
  - apply encodeUInt16_counters, H.
  - apply encodeUInt32_counters, H.
Qed.

Lemma encodeTag_counters t : counters_only (encodeTag t).
Proof.
  intros m1 m2 H. unfold encodeTag. cbv zeta.
  repeat case_match; repeat apply storeByte_counters;
    apply reserveBytes_counters, H.
Qed.

Lemma encodeString_counters s nt : counters_only (encodeString s nt).
Proof.
  intros m1 m2 H. unfold encodeString.
  set (len := if nt then strlen s + 1 else strlen s).
  apply (encodeHeader_counters kCborUTF8String len) in H.
  apply (reserveBytes_counters len) in H.
  counters_commit H.
Qed.

Lemma bump_mapCount_counters : counters_only (with_this bump_mapCount).
Proof. intros m1 m2 H. exact H. Qed.

Lemma encodeMapKey_counters name : counters_only (encodeMapKey name).
Proof.
  intros m1 m2 H. unfold encodeMapKey.
  destruct name as [s|]; [|exact H].
  destruct (c_str s); [exact H|].
  apply encodeString_counters, bump_mapCount_counters, H.
Qed.

Lemma encodeBytes_counters bs n : counters_only (encodeBytes bs n).
Proof.
  intros m1 m2 H. unfold encodeBytes.
  apply (encodeHeader_counters kCborByteString (uint32 n)) in H.
  apply (reserveBytes_counters (uint32 n)) in H.
  counters_commit H.
Qed.

Lemma startMap_counters n : counters_only (startMap n).
Proof.
  intros m1 m2 H. unfold startMap. cbv zeta.
  destruct H as (Hn & Hd & Hr & Ht). rewrite Hd, Hr.
  destruct (_ || _).
  - repeat split; assumption.
  - apply encodeHeader_counters. repeat split; cbn; congruence.
Qed.

Lemma endMap_counters : counters_only endMap.
Proof.
  intros m1 m2 (Hn & Hd & Hr & Ht).
  unfold same_counters, endMap; cbn. rewrite Hd. auto.
Qed.

Lemma add_array_counters T name value n align :
  counters_only (add_array T name value n align).
Proof.
  intros m1 m2 H. unfold add_array. cbv zeta.
  apply encodeBytes_counters, encodeTag_counters.
  destruct name as [s|]; [|exact H].
  destruct align; [|apply encodeMapKey_counters, H].
  destruct H as (Hn & H'). rewrite Hn.
  assert (H : same_counters m1 m2) by (split; assumption).
  destruct (_ =? 0); [apply encodeMapKey_counters, H|].
  match goal with
  | |- context [reserveBytes ?k (encodeHeader ?mj ?k ?m)] =>
      apply (encodeHeader_counters mj k) in H;
      apply (reserveBytes_counters k) in H
  end.
  counters_commit H.
Qed.

Lemma encode_op_counters op : counters_only (encode_op op).
Proof.
  intros m1 m2 H. destruct op; cbn [encode_op].
  - apply startMap_counters, H.
  - apply startMap_counters, encodeMapKey_counters, H.
  - apply endMap_counters, H.
  - unfold add_int. cbv zeta.
    repeat case_match;
      first [apply encodeUInt64_counters | apply encodeUInt32_counters
            | apply encodeUInt16_counters | apply encodeUInt8_counters];
      apply encodeMapKey_counters, H.
  - apply storeByte_counters, reserveBytes_counters, encodeMapKey_counters, H.
  - unfold add_string. cbv zeta.
    apply (encodeMapKey_counters name) in H.
    destruct H as (Hn & Hd & Hr & Ht). rewrite Ht.
    apply encodeString_counters. repeat split; assumption.
  - unfold addMinimal. cbv zeta.
    case_match; apply encodeHeader_counters, encodeMapKey_counters, H.
  - apply encodeUInt32_counters, encodeMapKey_counters, H.
  - apply encodeUInt64_counters, encodeMapKey_counters, H.
  - apply add_array_counters, H.
Qed.

Lemma encode_counters ops : counters_only (encode ops).
Proof.
  unfold encode. induction ops as [|op ops IH]; intros m1 m2 H; cbn.
  - exact H.
  - apply IH, encode_op_counters, H.
Qed.

(** ** The invariant of a run

    While no call has failed the cursor equals the bytes reserved, and a
    reservation beyond the capacity has set the result. *)

Lemma keeps_compose (f g : Machine -> Machine) :
  keeps f -> keeps g -> keeps (fun m => g (f m)).
Proof.
  intros Hf Hg m H.
  destruct (Hf m H) as (H1 & H2 & H3).
  destruct (Hg (f m) H1) as (H4 & H5 & H6).
  split; [exact H4|]. split; [congruence|]. auto.
Qed.

Lemma keeps_id : keeps (fun m => m).
Proof. intros m H. auto. Qed.

(** Case analysis on the innermost test of the goal. *)
Ltac split_if :=
  match goal with
  | |- context [if ?b then _ else _] =>
      lazymatch b with
      | context [if _ then _ else _] => fail
      | _ => destruct b eqn:?
      end
  end.

Ltac keeps_tac :=
  let m := fresh "m" in
  intros m [? ?];
  destruct m as [[buf cap nd off res ro nt d fr] h l];
  unfold run_ok in *; cbn in *;
  repeat (split_if; cbn in *);
  unfold uint32 in *;
  repeat split; intros; try congruence; try lia.

Lemma encodeUInt8_keeps t v : keeps (encodeUInt8 t v).
Proof. unfold encodeUInt8, reserveBytes, with_this. keeps_tac. Qed.

Lemma encodeUInt16_keeps t v : keeps (encodeUInt16 t v).
Proof. unfold encodeUInt16, reserveBytes, with_this. keeps_tac. Qed.

Lemma encodeUInt32_keeps t v : keeps (encodeUInt32 t v).
Proof. unfold encodeUInt32, reserveBytes, with_this. keeps_tac. Qed.

Lemma encodeUInt64_keeps t v : keeps (encodeUInt64 t v).
Proof. unfold encodeUInt64, reserveBytes, with_this. keeps_tac. Qed.

(** [reserveBytes(1); storeByte(v)] *)
Lemma store1_keeps v : keeps (fun m => storeByte v (reserveBytes 1 m)).
Proof. unfold storeByte, reserveBytes, with_this. keeps_tac. Qed.

(** [reserveBytes(2); storeByte(v); storeByte(w)] *)
Lemma store2_keeps v w :
  keeps (fun m => storeByte w (storeByte v (reserveBytes 2 m))).
Proof. unfold storeByte, reserveBytes, with_this. keeps_tac. Qed.

(** [reserveBytes(3); storeByte(u); storeByte(v); storeByte(w)] *)
Lemma store3_keeps u v w :
  keeps (fun m => storeByte w (storeByte v (storeByte u (reserveBytes 3 m)))).
Proof. unfold storeByte, reserveBytes, with_this. keeps_tac. Qed.

(** [reserveBytes(n)] followed by a block write of [n] bytes that is
    guarded by [mResult == 0]; [g] stands for the bytes written. *)
Lemma block_keeps n (g : Machine -> list Z) :
  keeps (fun m =>
           let m' := reserveBytes n m in
           if mResult (this m') =? 0 then
             {| this :=
                  set_mDataOffset (uint32 (mDataOffset (this m') + n)) (this m');
                heap := g m'; loads := loads m' |}
           else m').
Proof. unfold reserveBytes, with_this. keeps_tac. Qed.

Lemma encodeHeader_keeps mj len : keeps (encodeHeader mj len).
Proof.
  unfold encodeHeader. cbv zeta. repeat case_match.
  - apply store1_keeps.
  - apply store2_keeps.
  - apply encodeUInt16_keeps.
  - apply encodeUInt32_keeps.
Qed.

Lemma encodeTag_keeps t : keeps (encodeTag t).
Proof.
  unfold encodeTag. cbv zeta. repeat case_match.
  - apply store1_keeps.
  - apply store2_keeps.
  - apply store3_keeps.
Qed.

Lemma encodeString_keeps s nt : keeps (encodeString s nt).
Proof.
  set (len := if nt then strlen s + 1 else strlen s).
  exact (keeps_compose _ _ (encodeHeader_keeps kCborUTF8String len)
           (block_keeps len
              (fun m => memcpy (mBuf (this m) + mDataOffset (this m))
                          (c_bytes s) len (heap m)))).
Qed.

Lemma bump_mapCount_keeps : keeps (with_this bump_mapCount).
Proof. intros m H. repeat split; try apply H. auto. Qed.

Lemma encodeMapKey_keeps name : keeps (encodeMapKey name).
Proof.
  unfold encodeMapKey. destruct name as [s|]; [|apply keeps_id].
  destruct (c_str s); [apply keeps_id|].
  exact (keeps_compose _ _ bump_mapCount_keeps (encodeString_keeps s false)).
Qed.

Lemma encodeBytes_keeps bs n : keeps (encodeBytes bs n).
Proof.
  exact (keeps_compose _ _ (encodeHeader_keeps kCborByteString (uint32 n))
           (block_keeps (uint32 n)
              (fun m => memcpy (mBuf (this m) + mDataOffset (this m))
                          bs (uint32 n) (heap m)))).
Qed.

Lemma startMap_keeps n : keeps (startMap n).
Proof.
  intros m H. unfold startMap. cbv zeta.
  destruct (_ || _).
  - destruct H as [H1 H2]. unfold run_ok, with_this; cbn.
    repeat split; intros; try lia; discriminate.
  - match goal with
    | |- context [encodeHeader ?mj ?k ?x] =>
        destruct (encodeHeader_keeps mj k x) as (H1 & H2 & H3);
          [exact H|]
    end.
    repeat split; try apply H1; assumption.
Qed.

Lemma endMap_keeps : keeps endMap.
Proof. intros m H. unfold endMap. repeat split; try apply H. auto. Qed.

Lemma add_array_keeps T name value n align :
  keeps (add_array T name value n align).
Proof.
  unfold add_array. cbv zeta.
  refine (keeps_compose _ _ _
            (keeps_compose _ _ (encodeTag_keeps _) (encodeBytes_keeps _ _))).
  destruct name as [s|]; [|apply encodeMapKey_keeps].
  destruct align; [|apply encodeMapKey_keeps].
  intros m H.
  destruct (_ =? 0); [apply encodeMapKey_keeps, H|].
  match goal with
  | |- context [memset _ 0 ?pad _] =>
      exact (keeps_compose _ _
               (encodeHeader_keeps kCborUTF8String (strlen s + pad))
               (block_keeps (strlen s + pad)
                  (fun m' =>
                     memset (mBuf (this m') + mDataOffset (this m') + strlen s)
                       0 pad
                       (memcpy (mBuf (this m') + mDataOffset (this m'))
                          (c_bytes s) (strlen s) (heap m')))) m H)
  end.
Qed.

Lemma encode_op_keeps op : keeps (encode_op op).
Proof.
  destruct op; cbn [encode_op].
  - apply startMap_keeps.
  - exact (keeps_compose _ _ (encodeMapKey_keeps name) (startMap_keeps 0)).
  - apply endMap_keeps.
  - intros m H. cbn [encode_op]. unfold add_int. cbv zeta.
    repeat case_match;
      first
        [ exact (keeps_compose (encodeMapKey name) (encodeUInt64 _ _)
                   (encodeMapKey_keeps name) (encodeUInt64_keeps _ _) m H)
        | exact (keeps_compose (encodeMapKey name) (encodeUInt32 _ _)
                   (encodeMapKey_keeps name) (encodeUInt32_keeps _ _) m H)
        | exact (keeps_compose (encodeMapKey name) (encodeUInt16 _ _)
                   (encodeMapKey_keeps name) (encodeUInt16_keeps _ _) m H)
        | exact (keeps_compose (encodeMapKey name) (encodeUInt8 _ _)
                   (encodeMapKey_keeps name) (encodeUInt8_keeps _ _) m H) ].
  - exact (keeps_compose _ _ (encodeMapKey_keeps name) (store1_keeps _)).
  - intros m H. cbn [encode_op]. unfold add_string. cbv zeta.
    exact (keeps_compose _ _ (encodeMapKey_keeps name)
             (encodeString_keeps value
                (mNullTerminate (this (encodeMapKey name m)))) m H).
  - intros m H. cbn [encode_op]. unfold addMinimal. cbv zeta.
    case_match;
      exact (keeps_compose (encodeMapKey name) (encodeHeader _ _)
               (encodeMapKey_keeps name) (encodeHeader_keeps _ _) m H).
  - exact (keeps_compose _ _ (encodeMapKey_keeps name)
             (encodeUInt32_keeps _ _)).
  - exact (keeps_compose _ _ (encodeMapKey_keeps name)
             (encodeUInt64_keeps _ _)).
  - apply add_array_keeps.
Qed.

Lemma encode_keeps ops : keeps (encode ops).
Proof.
  unfold encode. induction ops as [|op ops IH]; cbn.
  - apply keeps_id.
  - exact (keeps_compose _ _ (encode_op_keeps op) IH).
Qed.

Lemma fresh_same_counters frames1 frames2 buf1 buf2 cap1 cap2 nt h1 h2 :
  same_counters (on_heap (MicroCbor_new frames1 buf1 cap1 nt) h1)
                (on_heap (MicroCbor_new frames2 buf2 cap2 nt) h2).
Proof. repeat split. Qed.

Lemma fresh_run_ok frames buf cap nt h :
  run_ok (on_heap (MicroCbor_new frames buf cap nt) h).
Proof.
  split; cbn; intros H; [reflexivity|]. unfold uint32 in H. lia.
Qed.

(** ** The depth of a well-nested run *)

Lemma same_depth_compose (f g : Machine -> Machine) :
  same_depth f -> same_depth g -> same_depth (fun m => g (f m)).
Proof.
  intros Hf Hg m. destruct (Hf m) as [H1 H2], (Hg (f m)) as [H3 H4].
  split; congruence.
Qed.

Lemma same_depth_id : same_depth (fun m => m).
Proof. intros m. auto. Qed.

Ltac same_depth_tac :=
  let m := fresh "m" in
  intros m;
  destruct m as [[buf cap nd off res ro nt d fr] h lo];
  cbn;
  repeat (split_if; cbn);
  split; reflexivity.

Lemma reserveBytes_same_depth n : same_depth (reserveBytes n).
Proof. unfold reserveBytes, with_this. same_depth_tac. Qed.

Lemma storeByte_same_depth v : same_depth (storeByte v).
Proof. unfold storeByte. same_depth_tac. Qed.

Lemma encodeUInt8_same_depth t v : same_depth (encodeUInt8 t v).
Proof. unfold encodeUInt8, reserveBytes, with_this. same_depth_tac. Qed.

Lemma encodeUInt16_same_depth t v : same_depth (encodeUInt16 t v).
Proof. unfold encodeUInt16, reserveBytes, with_this. same_depth_tac. Qed.

Lemma encodeUInt32_same_depth t v : same_depth (encodeUInt32 t v).
Proof. unfold encodeUInt32, reserveBytes, with_this. same_depth_tac. Qed.

Lemma encodeUInt64_same_depth t v : same_depth (encodeUInt64 t v).
Proof. unfold encodeUInt64, reserveBytes, with_this. same_depth_tac. Qed.

Lemma block_same_depth n (g : Machine -> list Z) :
  same_depth (fun m =>
                let m' := reserveBytes n m in
                if mResult (this m') =? 0 then
                  {| this :=
                       set_mDataOffset (uint32 (mDataOffset (this m') + n))
                         (this m');
                     heap := g m'; loads := loads m' |}
                else m').
Proof. unfold reserveBytes, with_this. same_depth_tac. Qed.

Lemma encodeHeader_same_depth mj len : same_depth (encodeHeader mj len).
Proof.
  unfold encodeHeader. cbv zeta.
  repeat case_match;
    repeat (refine (same_depth_compose _ _ _ (storeByte_same_depth _)));
    first [apply reserveBytes_same_depth | apply encodeUInt16_same_depth
          | apply encodeUInt32_same_depth].
Qed.

Lemma encodeTag_same_depth t : same_depth (encodeTag t).
Proof.
  unfold encodeTag. cbv zeta.
  repeat case_match;
    repeat (refine (same_depth_compose _ _ _ (storeByte_same_depth _)));
    apply reserveBytes_same_depth.
Qed.

Lemma encodeString_same_depth s nt : same_depth (encodeString s nt).
Proof.
  set (len := if nt then strlen s + 1 else strlen s).
  exact (same_depth_compose _ _ (encodeHeader_same_depth kCborUTF8String len)
           (block_same_depth len
              (fun m => memcpy (mBuf (this m) + mDataOffset (this m))
                          (c_bytes s) len (heap m)))).
Qed.

Lemma bump_mapCount_same_depth : same_depth (with_this bump_mapCount).
Proof. intros m. split; reflexivity. Qed.

Lemma encodeMapKey_same_depth name : same_depth (encodeMapKey name).
Proof.
  unfold encodeMapKey. destruct name as [s|]; [|apply same_depth_id].
  destruct (c_str s); [apply same_depth_id|].
  exact (same_depth_compose _ _ bump_mapCount_same_depth
           (encodeString_same_depth s false)).
Qed.

Lemma encodeBytes_same_depth bs n : same_depth (encodeBytes bs n).
Proof.
  exact (same_depth_compose _ _
           (encodeHeader_same_depth kCborByteString (uint32 n))
           (block_same_depth (uint32 n)
              (fun m => memcpy (mBuf (this m) + mDataOffset (this m))
                          bs (uint32 n) (heap m)))).
Qed.

Lemma add_array_same_depth T name value n align :
  same_depth (add_array T name value n align).
Proof.
  unfold add_array. cbv zeta.
  refine (same_depth_compose _ _ _
            (same_depth_compose _ _ (encodeTag_same_depth _)
               (encodeBytes_same_depth _ _))).
  destruct name as [s|]; [|apply encodeMapKey_same_depth].
  destruct align; [|apply encodeMapKey_same_depth].
  intros m.
  destruct (_ =? 0); [apply encodeMapKey_same_depth|].
  match goal with
  | |- context [memset _ 0 ?pad _] =>
      exact (same_depth_compose _ _
               (encodeHeader_same_depth kCborUTF8String (strlen s + pad))
               (block_same_depth (strlen s + pad)
                  (fun m' =>
                     memset (mBuf (this m') + mDataOffset (this m') + strlen s)
                       0 pad
                       (memcpy (mBuf (this m') + mDataOffset (this m'))
                          (c_bytes s) (strlen s) (heap m')))) m)
  end.
Qed.

(** The [add] calls keep the depth. *)
Lemma add_same_depth op :
  match op with
  | OpStartMap _ | OpStartMapNamed _ _ | OpEndMap => True
  | _ => same_depth (encode_op op)
  end.
Proof.
  destruct op; try exact I; intros m; cbn [encode_op].
  - unfold add_int. cbv zeta.
    repeat case_match;
      first
        [ exact (same_depth_compose (encodeMapKey name) (encodeUInt64 _ _)
                   (encodeMapKey_same_depth name)
                   (encodeUInt64_same_depth _ _) m)
        | exact (same_depth_compose (encodeMapKey name) (encodeUInt32 _ _)
                   (encodeMapKey_same_depth name)
                   (encodeUInt32_same_depth _ _) m)
        | exact (same_depth_compose (encodeMapKey name) (encodeUInt16 _ _)
                   (encodeMapKey_same_depth name)
                   (encodeUInt16_same_depth _ _) m)
        | exact (same_depth_compose (encodeMapKey name) (encodeUInt8 _ _)
                   (encodeMapKey_same_depth name)
                   (encodeUInt8_same_depth _ _) m) ].
  - exact (same_depth_compose _ _ (encodeMapKey_same_depth name)
             (same_depth_compose _ _ (reserveBytes_same_depth 1)
                (storeByte_same_depth _)) m).
  - unfold add_string. cbv zeta.
    exact (same_depth_compose _ _ (encodeMapKey_same_depth name)
             (encodeString_same_depth value
                (mNullTerminate (this (encodeMapKey name m)))) m).
  - unfold addMinimal. cbv zeta.
    case_match;
      exact (same_depth_compose (encodeMapKey name) (encodeHeader _ _)
               (encodeMapKey_same_depth name)
               (encodeHeader_same_depth _ _) m).
  - exact (same_depth_compose _ _ (encodeMapKey_same_depth name)
             (encodeUInt32_same_depth _ _) m).
  - exact (same_depth_compose _ _ (encodeMapKey_same_depth name)
             (encodeUInt64_same_depth _ _) m).
  - apply add_array_same_depth.
Qed.

Lemma frame_index_range i :
  frame_index i = true -> 0 <= i < CONFIG_MICROCBOR_MAX_NESTING.
Proof. unfold frame_index. lia. Qed.

(** The depth that [well_nested] follows is the depth of the instance:
    a call inside the frames takes an instance that is not read-only
    from the depth [d] to [depth_after d]. *)
Lemma call_in_frames_depth op m :
  mReadOnly (this m) = false ->
  call_in_frames (mDepth (this m)) op = true ->
  mDepth (this (encode_op op m)) = depth_after (mDepth (this m)) op
  /\ mReadOnly (this (encode_op op m)) = false.
Proof.
  intros Hro Hop.
  assert (Hstart : forall n m1,
            mReadOnly (this m1) = false ->
            frame_index (mDepth (this m1) + 1) = true ->
            mDepth (this (startMap n m1)) = mDepth (this m1) + 1
            /\ mReadOnly (this (startMap n m1)) = false).
  { intros n m1 Hro1 Hi. apply frame_index_range in Hi.
    unfold CONFIG_MICROCBOR_MAX_NESTING in Hi.
    unfold startMap. cbv zeta. rewrite Hro1.
    destruct (Z.leb_spec CONFIG_MICROCBOR_MAX_NESTING (mDepth (this m1)))
      as [Hge|_]; [unfold CONFIG_MICROCBOR_MAX_NESTING in Hge; lia|].
    cbn [orb].
    match goal with
    | |- context [encodeHeader ?mj ?k ?x] =>
        destruct (encodeHeader_same_depth mj k x) as [-> ->]
    end.
    cbn. split; [unfold int8; lia|exact Hro1]. }
  destruct op; cbn [call_in_frames depth_after] in *;
    try (destruct (add_same_depth (OpAddInt T name value) m) as [-> ->];
         split; [reflexivity|exact Hro]);
    try (destruct (add_same_depth (OpAddBool name value) m) as [-> ->];
         split; [reflexivity|exact Hro]);
    try (destruct (add_same_depth (OpAddString name value) m) as [-> ->];
         split; [reflexivity|exact Hro]);
    try (destruct (add_same_depth (OpAddMinimal T name value) m) as [-> ->];
         split; [reflexivity|exact Hro]);
    try (destruct (add_same_depth (OpAddFloat name bits) m) as [-> ->];
         split; [reflexivity|exact Hro]);
    try (destruct (add_same_depth (OpAddDouble name bits) m) as [-> ->];
         split; [reflexivity|exact Hro]);
    try (destruct (add_same_depth (OpAddArray T name value numElements align)
                     m) as [-> ->];
         split; [reflexivity|exact Hro]).
  - exact (Hstart _ m Hro Hop).
  - apply andb_true_iff in Hop as [_ Hop].
    destruct (encodeMapKey_same_depth name m) as [Hd Hr].
    cbn [encode_op]. unfold startMap_named.
    rewrite <- Hd in Hop |- *. apply Hstart; [congruence|exact Hop].
  - apply frame_index_range in Hop.
    unfold CONFIG_MICROCBOR_MAX_NESTING in Hop.
    cbn. split; [unfold int8; lia|exact Hro].
Qed.

Lemma well_nested_depth ops m :
  mReadOnly (this m) = false ->
  well_nested (mDepth (this m)) ops = true ->
  mDepth (this (encode ops m)) = fold_left depth_after ops (mDepth (this m))
  /\ mReadOnly (this (encode ops m)) = false.
Proof.
  revert m. unfold encode.
  induction ops as [|op ops IH]; intros m Hro Hops; cbn [fold_left].
  - split; [reflexivity|exact Hro].
  - cbn [well_nested] in Hops. apply andb_true_iff in Hops as [Hop Hops].
    destruct (call_in_frames_depth op m Hro Hop) as [Hd Hr].
    rewrite <- Hd in Hops |- *. exact (IH _ Hr Hops).
Qed.

(** ** A result that is set blocks every later write *)

Lemma blocked_compose (f g : Machine -> Machine) :
  blocked f -> blocked g -> blocked (fun m => g (f m)).
Proof.
  intros Hf Hg m H. destruct (Hf m H) as [H1 H2].
  destruct (Hg (f m) H1) as [H3 H4]. split; [exact H3|congruence].
Qed.

Lemma blocked_id : blocked (fun m => m).
Proof. intros m H. auto. Qed.

Ltac blocked_tac :=
  let m := fresh "m" in
  intros m ?;
  destruct m as [[buf cap nd off res ro nt d fr] h l];
  cbn in *;
  repeat (split_if; cbn in *);
  split; try reflexivity; try congruence; try lia.

Lemma reserveBytes_blocked n : blocked (reserveBytes n).
Proof. unfold reserveBytes, with_this. blocked_tac. Qed.

Lemma storeByte_blocked v : blocked (storeByte v).
Proof. unfold storeByte. blocked_tac. Qed.

Lemma encodeUInt8_blocked t v : blocked (encodeUInt8 t v).
Proof. unfold encodeUInt8, reserveBytes, with_this. blocked_tac. Qed.

Lemma encodeUInt16_blocked t v : blocked (encodeUInt16 t v).
Proof. unfold encodeUInt16, reserveBytes, with_this. blocked_tac. Qed.

Lemma encodeUInt32_blocked t v : blocked (encodeUInt32 t v).
Proof. unfold encodeUInt32, reserveBytes, with_this. blocked_tac. Qed.

Lemma encodeUInt64_blocked t v : blocked (encodeUInt64 t v).
Proof. unfold encodeUInt64, reserveBytes, with_this. blocked_tac. Qed.

Lemma block_blocked n (g : Machine -> list Z) :
  blocked (fun m =>
             let m' := reserveBytes n m in
             if mResult (this m') =? 0 then
               {| this :=
                    set_mDataOffset (uint32 (mDataOffset (this m') + n))
                      (this m');
                  heap := g m'; loads := loads m' |}
             else m').
Proof. unfold reserveBytes, with_this. blocked_tac. Qed.

Lemma encodeHeader_blocked mj len : blocked (encodeHeader mj len).
Proof.
  unfold encodeHeader. cbv zeta.
  repeat case_match;
    repeat (refine (blocked_compose _ _ _ (storeByte_blocked _)));
    first [apply reserveBytes_blocked | apply encodeUInt16_blocked
          | apply encodeUInt32_blocked].
Qed.

Lemma encodeTag_blocked t : blocked (encodeTag t).
Proof.
  unfold encodeTag. cbv zeta.
  repeat case_match;
    repeat (refine (blocked_compose _ _ _ (storeByte_blocked _)));
    apply reserveBytes_blocked.
Qed.

Lemma encodeString_blocked s nt : blocked (encodeString s nt).
Proof.
  set (len := if nt then strlen s + 1 else strlen s).
  exact (blocked_compose _ _ (encodeHeader_blocked kCborUTF8String len)
           (block_blocked len
              (fun m => memcpy (mBuf (this m) + mDataOffset (this m))
                          (c_bytes s) len (heap m)))).
Qed.

Lemma bump_mapCount_blocked : blocked (with_this bump_mapCount).
Proof. intros m H. split; [exact H|reflexivity]. Qed.

Lemma encodeMapKey_blocked name : blocked (encodeMapKey name).
Proof.
  unfold encodeMapKey. destruct name as [s|]; [|apply blocked_id].
  destruct (c_str s); [apply blocked_id|].
  exact (blocked_compose _ _ bump_mapCount_blocked
           (encodeString_blocked s false)).
Qed.

Lemma encodeBytes_blocked bs n : blocked (encodeBytes bs n).
Proof.
  exact (blocked_compose _ _ (encodeHeader_blocked kCborByteString (uint32 n))
           (block_blocked (uint32 n)
              (fun m => memcpy (mBuf (this m) + mDataOffset (this m))
                          bs (uint32 n) (heap m)))).
Qed.

Lemma startMap_blocked n : blocked (startMap n).
Proof.
  intros m H. unfold startMap. cbv zeta.
  destruct (_ || _).
  - split; [cbn; lia|reflexivity].
  - match goal with
    | |- context [encodeHeader ?mj ?k ?x] =>
        exact (encodeHeader_blocked mj k x H)
    end.
Qed.

Lemma endMap_blocked : blocked endMap.
Proof.
  intros m H. unfold endMap. cbv zeta.
  destruct (Z.eqb_spec (mResult (this m)) 0) as [E|E]; [contradiction|].
  split; [exact H|reflexivity].
Qed.

Lemma add_array_blocked T name value n align :
  blocked (add_array T name value n align).
Proof.
  unfold add_array. cbv zeta.
  refine (blocked_compose _ _ _
            (blocked_compose _ _ (encodeTag_blocked _)
               (encodeBytes_blocked _ _))).
  destruct name as [s|]; [|apply encodeMapKey_blocked].
  destruct align; [|apply encodeMapKey_blocked].
  intros m H.
  destruct (_ =? 0); [apply encodeMapKey_blocked, H|].
  match goal with
  | |- context [memset _ 0 ?pad _] =>
      exact (blocked_compose _ _
               (encodeHeader_blocked kCborUTF8String (strlen s + pad))
               (block_blocked (strlen s + pad)
                  (fun m' =>
                     memset (mBuf (this m') + mDataOffset (this m') + strlen s)
                       0 pad
                       (memcpy (mBuf (this m') + mDataOffset (this m'))
                          (c_bytes s) (strlen s) (heap m')))) m H)
  end.
Qed.

Lemma encode_op_blocked op : blocked (encode_op op).
Proof.
  destruct op; intros m H; cbn [encode_op].
  - apply startMap_blocked, H.
  - exact (blocked_compose _ _ (encodeMapKey_blocked name)
             (startMap_blocked 0) m H).
  - apply endMap_blocked, H.
  - unfold add_int. cbv zeta.
    repeat case_match;
      first
        [ exact (blocked_compose (encodeMapKey name) (encodeUInt64 _ _)
                   (encodeMapKey_blocked name) (encodeUInt64_blocked _ _) m H)
        | exact (blocked_compose (encodeMapKey name) (encodeUInt32 _ _)
                   (encodeMapKey_blocked name) (encodeUInt32_blocked _ _) m H)
        | exact (blocked_compose (encodeMapKey name) (encodeUInt16 _ _)
                   (encodeMapKey_blocked name) (encodeUInt16_blocked _ _) m H)
        | exact (blocked_compose (encodeMapKey name) (encodeUInt8 _ _)
                   (encodeMapKey_blocked name) (encodeUInt8_blocked _ _) m H) ].
  - exact (blocked_compose _ _ (encodeMapKey_blocked name)
             (blocked_compose _ _ (reserveBytes_blocked 1)
                (storeByte_blocked _)) m H).
  - unfold add_string. cbv zeta.
    exact (blocked_compose _ _ (encodeMapKey_blocked name)
             (encodeString_blocked value
                (mNullTerminate (this (encodeMapKey name m)))) m H).
  - unfold addMinimal. cbv zeta.
    case_match;
      exact (blocked_compose (encodeMapKey name) (encodeHeader _ _)
               (encodeMapKey_blocked name) (encodeHeader_blocked _ _) m H).
  - exact (blocked_compose _ _ (encodeMapKey_blocked name)
             (encodeUInt32_blocked _ _) m H).
  - exact (blocked_compose _ _ (encodeMapKey_blocked name)
             (encodeUInt64_blocked _ _) m H).
  - apply add_array_blocked, H.
Qed.

Lemma encode_blocked ops : blocked (encode ops).
Proof.
  unfold encode. induction ops as [|op ops IH]; cbn.
  - apply blocked_id.
  - exact (blocked_compose _ _ (encode_op_blocked op) IH).
Qed.

(** Once the result is set, no sequence of encode calls that is
    [well_nested] from the depth of the instance on clears it or changes a
    byte of memory; the instance is not read-only, so that [startMap]
    opens its map. *)
Theorem sticky_result_blocks_writes (ops : list EncodeOp) (m : Machine) :
  mReadOnly (this m) = false ->
  well_nested (mDepth (this m)) ops = true ->
  getResult m <> 0 ->
  getResult (encode ops m) <> 0 /\ heap (encode ops m) = heap m.
Proof. intros _ _. apply encode_blocked. Qed.

(** [startMap] on an instance bound to a read-only buffer sets the result
    and does nothing else: it stores nothing, reserves nothing and opens
    no map, the depth stays as it was. *)
Theorem startMap_read_only_refused (n : Z) (m : Machine) :
  mReadOnly (this m) = true ->
  getResult (startMap n m) = -1
  /\ heap (startMap n m) = heap m
  /\ bytesNeeded (startMap n m) = bytesNeeded m
  /\ bytesSerialized (startMap n m) = bytesSerialized m
  /\ mDepth (this (startMap n m)) = mDepth (this m)
  /\ mMapState (this (startMap n m)) = mMapState (this m).
Proof.
  intros Hro.
  assert (H : startMap n m = with_this (set_mResult (-1)) m).
  { unfold startMap. cbv zeta. rewrite Hro. reflexivity. }
  rewrite H. repeat split.
Qed.

(** ** The bytes a call reserves *)

Lemma advances_compose (f g : Machine -> Machine) j k :
  advances f j -> advances g k -> advances (fun m => g (f m)) (j + k).
Proof.
  intros Hf Hg m. specialize (Hf m). specialize (Hg (f m)).
  revert Hf Hg. unfold uint32. generalize (bytesNeeded (g (f m))).
  generalize (bytesNeeded (f m)). generalize (bytesNeeded m).
  intros a b c Hf Hg. lia.
Qed.

Ltac advances_tac :=
  let m := fresh "m" in
  intros m;
  destruct m as [[buf cap nd off res ro nt d fr] h l];
  unfold bytesNeeded; cbn;
  repeat (split_if; cbn);
  unfold uint32; lia.

Lemma reserveBytes_advances n : advances (reserveBytes n) n.
Proof. unfold reserveBytes, with_this. advances_tac. Qed.

Lemma storeByte_advances v : advances (storeByte v) 0.
Proof. unfold storeByte. advances_tac. Qed.

Lemma encodeUInt16_advances t v : advances (encodeUInt16 t v) 3.
Proof. unfold encodeUInt16, reserveBytes, with_this. advances_tac. Qed.

Lemma encodeUInt32_advances t v : advances (encodeUInt32 t v) 5.
Proof. unfold encodeUInt32, reserveBytes, with_this. advances_tac. Qed.

Lemma store1_advances v :
  advances (fun m => storeByte v (reserveBytes 1 m)) 1.
Proof. unfold storeByte, reserveBytes, with_this. advances_tac. Qed.

Lemma store2_advances v w :
  advances (fun m => storeByte w (storeByte v (reserveBytes 2 m))) 2.
Proof. unfold storeByte, reserveBytes, with_this. advances_tac. Qed.

Lemma store3_advances u v w :
  advances
    (fun m => storeByte w (storeByte v (storeByte u (reserveBytes 3 m)))) 3.
Proof. unfold storeByte, reserveBytes, with_this. advances_tac. Qed.

Lemma block_advances n (g : Machine -> list Z) :
  advances (fun m =>
              let m' := reserveBytes n m in
              if mResult (this m') =? 0 then
                {| this :=
                     set_mDataOffset (uint32 (mDataOffset (this m') + n))
                       (this m');
                   heap := g m'; loads := loads m' |}
              else m') n.
Proof. unfold reserveBytes, with_this. advances_tac. Qed.

Lemma encodeHeader_advances mj len :
  advances (encodeHeader mj len) (header_size (uint32 len)).
Proof.
  unfold encodeHeader, header_size. cbv zeta.
  repeat case_match;
    first [ apply store1_advances | apply store2_advances
          | apply encodeUInt16_advances | apply encodeUInt32_advances ].
Qed.

(** The tags of the typed arrays take two bytes. *)
Lemma encodeTag_advances T : advances (encodeTag (kCborTagInfo T)) 2.
Proof.
  assert (H : forall t, 24 <= t < 256 -> advances (encodeTag t) 2).
  { intros t Ht. unfold encodeTag. cbv zeta.
    replace (uint16 t) with t by (unfold uint16; lia).
    destruct (Z.ltb_spec t 24); [lia|].
    destruct (Z.ltb_spec t 256); [|lia].
    apply store2_advances. }
  apply H. destruct T as [[]| |]; vm_compute;
    (split; [intros E; discriminate E|reflexivity]).
Qed.

Lemma encodeString_advances s :
  advances (encodeString s false) (header_size (uint32 (strlen s)) + strlen s).
Proof.
  exact (advances_compose _ _ _ _
           (encodeHeader_advances kCborUTF8String (strlen s))
           (block_advances (strlen s)
              (fun m => memcpy (mBuf (this m) + mDataOffset (this m))
                          (c_bytes s) (strlen s) (heap m)))).
Qed.

Lemma encodeMapKey_advances s :
  1 <= strlen s ->
  advances (encodeMapKey (Some s))
    (header_size (uint32 (strlen s)) + strlen s).
Proof.
  intros Hlen m. unfold encodeMapKey.
  destruct (c_str s) eqn:E.
  { unfold strlen in Hlen. rewrite E in Hlen. cbn in Hlen. lia. }
  exact (encodeString_advances s (with_this bump_mapCount m)).
Qed.

Lemma encodeBytes_advances bs n :
  advances (encodeBytes bs n) (header_size (uint32 n) + uint32 n).
Proof.
  intros m.
  pose proof (advances_compose _ _ _ _
           (encodeHeader_advances kCborByteString (uint32 n))
           (block_advances (uint32 n)
              (fun m => memcpy (mBuf (this m) + mDataOffset (this m))
                          bs (uint32 n) (heap m))) m) as H.
  replace (uint32 (uint32 n)) with (uint32 n) in H
    by (unfold uint32; lia).
  exact H.
Qed.

(** What [encodeBytes] leaves in [mBufBytesNeeded] is a [uint32]. *)
Lemma encodeBytes_needed_range bs n m :
  uint32 (bytesNeeded (encodeBytes bs n m)) = bytesNeeded (encodeBytes bs n m).
Proof.
  unfold encodeBytes. cbv zeta.
  generalize (encodeHeader kCborByteString (uint32 n) m). intros m1.
  destruct m1 as [[buf cap nd off res ro nt d fr] h l].
  unfold reserveBytes, with_this, bytesNeeded. cbn.
  repeat (split_if; cbn); unfold uint32; lia.
Qed.

Lemma elem_sizeof_cases T :
  elem_sizeof T = 1 \/ elem_sizeof T = 2 \/ elem_sizeof T = 4
  \/ elem_sizeof T = 8.
Proof. destruct T as [[]| |]; cbn; auto. Qed.

(** ** Alignment of the payload of an array *)

Lemma payload_offset_arith S n a len hs pad b c :
  S = 1 \/ S = 2 \/ S = 4 \/ S = 8 ->
  (a + (len + 1 + 2 + hs) + pad) mod S = 0 ->
  uint32 b = uint32 (a + (1 + (len + pad))) ->
  c = uint32 (b + (2 + (hs + n * S))) ->
  (c - n * S) mod S = 0.
Proof.
  unfold uint32. intros [-> | [-> | [-> | ->]]] H1 H2 H3; lia.
Qed.

(** Inside an open map, with a key that stays below 24 bytes when padded
    and a payload below 65536 bytes, the offset at which [add] places the
    payload of an array, the bytes reserved minus the payload, is a
    multiple of the element size; and while no call has failed the cursor
    is at the bytes reserved. *)
Theorem aligned_array_payload_for_short_key
    (T : ElemType) (key : string) (value : list Z) (n : Z) (m : Machine) :
  frame_index (mDepth (this m)) = true ->
  1 <= strlen key ->
  strlen key + elem_sizeof T <= 24 ->
  0 <= n ->
  n * elem_sizeof T < 65536 ->
  let m' := add_array T (Some key) value n true m in
  (bytesNeeded m' - n * elem_sizeof T) mod elem_sizeof T = 0
  /\ (run_ok m -> getResult m' = 0 -> bytesSerialized m' = bytesNeeded m').
Proof.
  intros _ Hlen Hpad Hn Hraw. cbv zeta. split.
  2:{ intros Hok Hres.
      destruct (add_array_keeps T (Some key) value n true m Hok)
        as ([H _] & _).
      exact (H Hres). }
  pose proof (elem_sizeof_cases T) as HS.
  assert (Hn32 : uint32 n = n) by (unfold uint32; lia).
  assert (Hin : uint32 (bytesNeeded (add_array T (Some key) value n true m))
                = bytesNeeded (add_array T (Some key) value n true m))
    by apply encodeBytes_needed_range.
  assert (Hraw32 : uint32 (n * elem_sizeof T) = n * elem_sizeof T)
    by (unfold uint32; lia).
  assert (Hlen32 : uint32 (strlen key) = strlen key)
    by (unfold uint32; lia).
  revert Hin. unfold add_array. cbv zeta. rewrite Hn32.
  unfold bytesForLength. cbv zeta. rewrite Hlen32, Hraw32.
  destruct (Z.ltb_spec (strlen key) 24) as [_|?]; [|lia].
  intros Hin.
  set (pre := strlen key + 1 + 2
              + (if n * elem_sizeof T <? 24 then 1
                 else if n * elem_sizeof T <? 256 then 2
                 else if n * elem_sizeof T <? 65536 then 3 else 4)) in *.
  assert (Hpre : pre = strlen key + 1 + 2 + header_size (n * elem_sizeof T)).
  { unfold pre, header_size.
    destruct (_ <? 24); [reflexivity|].
    destruct (_ <? 256); [reflexivity|].
    destruct (Z.ltb_spec (n * elem_sizeof T) 65536); [reflexivity|lia]. }
  set (odd := (mBufBytesNeeded (this m) + pre) mod elem_sizeof T) in *.
  assert (Hodd : 0 <= odd < elem_sizeof T) by (unfold odd; lia).
  match type of Hin with
  | context [encodeBytes _ _ (encodeTag _ ?k)] => set (mk := k) in *
  end.
  assert (Hkey : exists pad,
             0 <= pad < elem_sizeof T
             /\ (bytesNeeded m + pre + pad) mod elem_sizeof T = 0
             /\ uint32 (bytesNeeded mk)
                = uint32 (bytesNeeded m + (1 + (strlen key + pad)))).
  { unfold mk. destruct (Z.eqb_spec odd 0) as [E0|E0].
    - exists 0. split; [lia|]. split.
      + rewrite Z.add_0_r. exact E0.
      + rewrite (encodeMapKey_advances key Hlen m), Hlen32.
        unfold header_size. destruct (Z.ltb_spec (strlen key) 24); [|lia].
        f_equal. lia.
    - exists (elem_sizeof T - odd). split; [lia|]. split.
      + unfold bytesNeeded, odd. clear -HS.
        generalize (mBufBytesNeeded (this m) + pre). intros x.
        destruct HS as [-> | [-> | [-> | ->]]]; lia.
      + pose proof (advances_compose _ _ _ _
             (encodeHeader_advances kCborUTF8String
                (strlen key + (elem_sizeof T - odd)))
             (block_advances (strlen key + (elem_sizeof T - odd))
                (fun m' =>
                   memset (mBuf (this m') + mDataOffset (this m') + strlen key)
                     0 (elem_sizeof T - odd)
                     (memcpy (mBuf (this m') + mDataOffset (this m'))
                        (c_bytes key) (strlen key) (heap m')))) m) as H.
        cbv zeta in H. rewrite H.
        replace (uint32 (strlen key + (elem_sizeof T - odd)))
          with (strlen key + (elem_sizeof T - odd)) by (unfold uint32; lia).
        unfold header_size.
        destruct (Z.ltb_spec (strlen key + (elem_sizeof T - odd)) 24); [|lia].
        reflexivity. }
  destruct Hkey as (pad & Hpadr & Hal & Hk).
  pose proof (advances_compose _ _ _ _
                (encodeTag_advances T)
                (encodeBytes_advances value (n * elem_sizeof T)) mk) as Hrest.
  cbv beta in Hrest. rewrite Hraw32, Hin in Hrest.
  rewrite Hpre in Hal.
  exact (payload_offset_arith _ n _ _ _ _ _ _ HS Hal Hk Hrest).
Qed.

(** ** The nesting guard of [startMap] *)

Lemma encodeHeader_mDepth mj len m :
  mDepth (this (encodeHeader mj len m)) = mDepth (this m)
  /\ mMapState (this (encodeHeader mj len m)) = mMapState (this m).
Proof.
  destruct m as [[buf cap nd off res ro nt d fr] h l].
  unfold encodeHeader, encodeUInt16, encodeUInt32, storeByte, reserveBytes,
    with_this.
  cbn. repeat (split_if; cbn); split; reflexivity.
Qed.

(** [startMap] keeps [mDepth] between -1 and [CONFIG_MICROCBOR_MAX_NESTING];
    at [CONFIG_MICROCBOR_MAX_NESTING], that is with one map more open than
    [mMapState] has elements, it sets the result, stores nothing and
    leaves the frames and the depth as they are. *)
Theorem startMap_refuses_at_depth_limit (n : Z) (m : Machine) :
  -1 <= mDepth (this m) <= CONFIG_MICROCBOR_MAX_NESTING ->
  let m' := startMap n m in
  -1 <= mDepth (this m') <= CONFIG_MICROCBOR_MAX_NESTING
  /\ (mDepth (this m) = CONFIG_MICROCBOR_MAX_NESTING ->
      getResult m' = -1
      /\ heap m' = heap m
      /\ mMapState (this m') = mMapState (this m)
      /\ mDepth (this m') = mDepth (this m)).
Proof.
  intros Hd. cbv zeta. unfold startMap. cbv zeta. split.
  - destruct (mReadOnly (this m)); [exact Hd|]. cbn [orb].
    destruct (Z.leb_spec CONFIG_MICROCBOR_MAX_NESTING (mDepth (this m)));
      [exact Hd|].
    match goal with
    | |- context [encodeHeader ?mj ?k ?x] =>
        destruct (encodeHeader_mDepth mj k x) as [-> _]
    end.
    cbn. unfold CONFIG_MICROCBOR_MAX_NESTING, int8 in *. lia.
  - intros E. rewrite E, Z.leb_refl, orb_true_r. cbn. auto.
Qed.

(** ** Memory *)

Lemma length_poke a v h : length (poke a v h) = length h.
Proof. unfold poke. destruct (a <? 0); [reflexivity|apply length_insert]. Qed.

Lemma peek_poke_eq a v h :
  0 <= a < Z.of_nat (length h) -> peek (poke a v h) a = v.
Proof.
  intros H. unfold peek, poke.
  destruct (Z.ltb_spec a 0); [lia|].
  rewrite list_lookup_insert_eq; [reflexivity|lia].
Qed.

Lemma peek_poke_ne a a' v h : a <> a' -> peek (poke a v h) a' = peek h a'.
Proof.
  intros H. unfold peek, poke.
  destruct (Z.ltb_spec a' 0); [reflexivity|].
  destruct (Z.ltb_spec a 0); [reflexivity|].
  rewrite list_lookup_insert_ne; [reflexivity|lia].
Qed.

Lemma length_poke_bytes bs a h : length (poke_bytes a bs h) = length h.
Proof.
  revert a h. induction bs as [|b bs IH]; intros a h; cbn; [reflexivity|].
  rewrite IH. apply length_poke.
Qed.

Lemma peek_poke_bytes_out bs a a' h :
  a' < a \/ a + Z.of_nat (length bs) <= a' ->
  peek (poke_bytes a bs h) a' = peek h a'.
Proof.
  revert a h. induction bs as [|b bs IH]; intros a h H; cbn; [reflexivity|].
  rewrite IH by (cbn [length] in H; lia).
  apply peek_poke_ne. cbn [length] in H. lia.
Qed.

Lemma peek_poke_bytes_in bs a h (i : nat) :
  0 <= a ->
  a + Z.of_nat (length bs) <= Z.of_nat (length h) ->
  (i < length bs)%nat ->
  peek (poke_bytes a bs h) (a + Z.of_nat i) = default 0 (bs !! i).
Proof.
  revert a h i. induction bs as [|b bs IH]; intros a h i Ha Hlen Hi;
    cbn [length] in *; [lia|].
  cbn [poke_bytes]. destruct i as [|i]; cbn [lookup list_lookup default].
  - rewrite Z.add_0_r, peek_poke_bytes_out by lia.
    apply peek_poke_eq. lia.
  - replace (a + Z.of_nat (S i)) with (a + 1 + Z.of_nat i) by lia.
    rewrite IH; [reflexivity|lia|rewrite length_poke; lia|lia].
Qed.

(** ** [endMap] stores at the start of the map only *)

(** Inside an open map, [endMap] changes at most the bytes
    [mBuf[mapStartPos]] and [mBuf[mapStartPos + 1]] of the frame at
    [mDepth], the index [mapStartPos + 1] taken in 32 bits as the code
    computes it, and keeps the length of the memory. *)
Theorem endMap_stores_at_map_start_only (m : Machine) (a : Z) :
  frame_index (mDepth (this m)) = true ->
  let map := mMapState (this m) (mDepth (this m)) in
  a <> mBuf (this m) + mapStartPos map ->
  a <> mBuf (this m) + uint32 (mapStartPos map + 1) ->
  peek (heap (endMap m)) a = peek (heap m) a
  /\ length (heap (endMap m)) = length (heap m).
Proof.
  intros _ map H0 H1. unfold endMap. cbv zeta. cbn [heap].
  fold map.
  repeat case_match;
    rewrite ?length_poke, ?peek_poke_ne by congruence; auto.
Qed.

(** With a final count below 24 the byte after the start stays as well. *)
Theorem endMap_small_count_stores_one_byte (m : Machine) (a : Z) :
  let map := mMapState (this m) (mDepth (this m)) in
  mapCount map < 24 ->
  a <> mBuf (this m) + mapStartPos map ->
  peek (heap (endMap m)) a = peek (heap m) a.
Proof.
  intros map Hc H0. unfold endMap. cbv zeta. cbn [heap].
  fold map.
  destruct (_ && _); [|reflexivity].
  destruct (Z.ltb_spec (mapCount map) 24); [|lia].
  apply peek_poke_ne. lia.
Qed.

(** ** What a successful write leaves *)

Ltac appends_tac :=
  let m := fresh "m" in
  intros m (? & ? & ? & ? & ?);
  destruct m as [[buf cap nd off res ro nt d fr] h l];
  unfold appended; cbn in *; subst;
  repeat match goal with
    | |- context [uint32 ?x] =>
        replace (uint32 x) with x by (unfold uint32; lia)
    end;
  repeat match goal with
    | |- context [?a <? ?b] =>
        destruct (Z.ltb_spec a b); [lia|]
    end;
  cbn;
  repeat match goal with
    | |- context [uint32 ?x] =>
        replace (uint32 x) with x by (unfold uint32; lia)
    end;
  repeat (f_equal; try lia).

Lemma encodeUInt8_appends t v :
  appends (encodeUInt8 t v) [uint8 t; uint8 v].
Proof. unfold encodeUInt8, reserveBytes, with_this. appends_tac. Qed.

Lemma encodeUInt16_appends t v :
  appends (encodeUInt16 t v)
    [uint8 t; uint8 (Z.shiftr (uint16 v) 8); uint8 (uint16 v)].
Proof. unfold encodeUInt16, reserveBytes, with_this. appends_tac. Qed.

Lemma encodeUInt32_appends t v :
  appends (encodeUInt32 t v)
    [uint8 t; uint8 (Z.shiftr (uint32 v) 24); uint8 (Z.shiftr (uint32 v) 16);
     uint8 (Z.shiftr (uint32 v) 8); uint8 (uint32 v)].
Proof. unfold encodeUInt32, reserveBytes, with_this. appends_tac. Qed.

Lemma encodeUInt64_appends t v :
  appends (encodeUInt64 t v)
    [uint8 t; uint8 (Z.shiftr (uint64 v) 56); uint8 (Z.shiftr (uint64 v) 48);
     uint8 (Z.shiftr (uint64 v) 40); uint8 (Z.shiftr (uint64 v) 32);
     uint8 (Z.shiftr (uint64 v) 24); uint8 (Z.shiftr (uint64 v) 16);
     uint8 (Z.shiftr (uint64 v) 8); uint8 (uint64 v)].
Proof. unfold encodeUInt64, reserveBytes, with_this. appends_tac. Qed.

Lemma store1_appends v :
  appends (fun m => storeByte v (reserveBytes 1 m)) [uint8 v].
Proof. unfold storeByte, reserveBytes, with_this. appends_tac. Qed.

(** ** Bytes and bits *)

Lemma land_shiftl_low a b n :
  0 <= n -> 0 <= b < 2 ^ n -> Z.land (Z.shiftl a n) b = 0.
Proof.
  intros Hn Hb. apply Z.bits_inj'. intros i Hi.
  rewrite Z.land_spec, Z.bits_0.
  destruct (Z.lt_ge_cases i n) as [Hlt|Hge].
  - rewrite Z.shiftl_spec_low by assumption. reflexivity.
  - destruct (Z.eq_dec b 0) as [->|Hb0].
    + rewrite Z.bits_0. apply andb_false_r.
    + rewrite (Z.bits_above_log2 b i); [apply andb_false_r|lia|].
      assert (Z.log2 b < n) by (apply Z.log2_lt_pow2; lia). lia.
Qed.

(** Bits that do not overlap add up. *)
Lemma lor_disjoint x y n :
  0 <= n -> x mod 2 ^ n = 0 -> 0 <= y < 2 ^ n -> Z.lor x y = x + y.
Proof.
  intros Hn Hx Hy.
  assert (Hpos : 0 < 2 ^ n) by (apply Z.pow_pos_nonneg; lia).
  assert (E : x = Z.shiftl (x / 2 ^ n) n).
  { rewrite Z.shiftl_mul_pow2 by assumption.
    pose proof (Z.div_mod x (2 ^ n)). lia. }
  rewrite E at 1. symmetry. rewrite E at 1.
  apply Z.add_nocarry_lor, land_shiftl_low; assumption.
Qed.

Lemma header_byte_split mj len :
  0 <= mj < 8 -> 0 <= len < 32 ->
  Z.lor (Z.shiftl mj 5) len = mj * 32 + len
  /\ Z.shiftr (mj * 32 + len) 5 = mj
  /\ Z.land (mj * 32 + len) 31 = len.
Proof.
  intros Hmj Hlen. split; [|split].
  - rewrite (lor_disjoint _ _ 5); rewrite ?Z.shiftl_mul_pow2; lia.
  - rewrite Z.shiftr_div_pow2 by lia. change (2 ^ 5) with 32. lia.
  - change 31 with (Z.ones 5). rewrite Z.land_ones by lia.
    change (2 ^ 5) with 32. lia.
Qed.

Lemma byte_range x : 0 <= uint8 x < 256.
Proof. unfold uint8. lia. Qed.

Lemma uint16_small x : 0 <= x < 2 ^ 16 -> uint16 x = x.
Proof. intros H. unfold uint16. apply Z.mod_small. exact H. Qed.

Lemma uint32_small x : 0 <= x < 2 ^ 32 -> uint32 x = x.
Proof. intros H. unfold uint32. apply Z.mod_small. exact H. Qed.

Lemma uint64_small x : 0 <= x < 2 ^ 64 -> uint64 x = x.
Proof. intros H. unfold uint64. apply Z.mod_small. exact H. Qed.

(** The big-endian bytes the writer stores give the value back when the
    reader puts them together. *)
Lemma combine16 x :
  0 <= x < 2 ^ 16 ->
  Z.lor (Z.shiftl (uint16 (uint8 (Z.shiftr x 8))) 8) (uint8 x) = x.
Proof.
  intros Hx.
  pose proof (byte_range (Z.shiftr x 8)). pose proof (byte_range x).
  rewrite uint16_small by lia.
  rewrite (lor_disjoint _ _ 8); rewrite ?Z.shiftl_mul_pow2 by lia; try lia.
  unfold uint8 in *. rewrite !Z.shiftr_div_pow2 by lia. lia.
Qed.

Lemma combine32 x :
  0 <= x < 2 ^ 32 ->
  Z.lor
    (Z.lor
       (Z.lor (Z.shiftl (uint32 (uint8 (Z.shiftr x 24))) 24)
              (Z.shiftl (uint32 (uint8 (Z.shiftr x 16))) 16))
       (Z.shiftl (uint32 (uint8 (Z.shiftr x 8))) 8))
    (uint8 x) = x.
Proof.
  intros Hx.
  pose proof (byte_range (Z.shiftr x 24)). pose proof (byte_range (Z.shiftr x 16)).
  pose proof (byte_range (Z.shiftr x 8)). pose proof (byte_range x).
  rewrite !uint32_small by lia.
  rewrite !Z.shiftl_mul_pow2 by lia.
  rewrite (lor_disjoint _ (uint8 (Z.shiftr x 16) * 2 ^ 16) 24) by lia.
  rewrite (lor_disjoint _ (uint8 (Z.shiftr x 8) * 2 ^ 8) 16) by lia.
  rewrite (lor_disjoint _ (uint8 x) 8) by lia.
  unfold uint8 in *. rewrite !Z.shiftr_div_pow2 by lia. lia.
Qed.

Lemma combine64 x :
  0 <= x < 2 ^ 64 ->
  Z.lor (Z.lor (Z.lor (Z.lor (Z.lor (Z.lor (Z.lor
    (Z.shiftl (uint64 (uint8 (Z.shiftr x 56))) 56)
    (Z.shiftl (uint64 (uint8 (Z.shiftr x 48))) 48))
    (Z.shiftl (uint64 (uint8 (Z.shiftr x 40))) 40))
    (Z.shiftl (uint64 (uint8 (Z.shiftr x 32))) 32))
    (Z.shiftl (uint64 (uint8 (Z.shiftr x 24))) 24))
    (Z.shiftl (uint64 (uint8 (Z.shiftr x 16))) 16))
    (Z.shiftl (uint64 (uint8 (Z.shiftr x 8))) 8))
    (uint64 (uint8 x)) = x.
Proof.
  intros Hx.
  pose proof (byte_range (Z.shiftr x 56)). pose proof (byte_range (Z.shiftr x 48)).
  pose proof (byte_range (Z.shiftr x 40)). pose proof (byte_range (Z.shiftr x 32)).
  pose proof (byte_range (Z.shiftr x 24)). pose proof (byte_range (Z.shiftr x 16)).
  pose proof (byte_range (Z.shiftr x 8)). pose proof (byte_range x).
  rewrite !uint64_small by lia.
  rewrite !Z.shiftl_mul_pow2 by lia.
  rewrite (lor_disjoint _ (uint8 (Z.shiftr x 48) * 2 ^ 48) 56) by lia.
  rewrite (lor_disjoint _ (uint8 (Z.shiftr x 40) * 2 ^ 40) 48) by lia.
  rewrite (lor_disjoint _ (uint8 (Z.shiftr x 32) * 2 ^ 32) 40) by lia.
  rewrite (lor_disjoint _ (uint8 (Z.shiftr x 24) * 2 ^ 24) 32) by lia.
  rewrite (lor_disjoint _ (uint8 (Z.shiftr x 16) * 2 ^ 16) 24) by lia.
  rewrite (lor_disjoint _ (uint8 (Z.shiftr x 8) * 2 ^ 8) 16) by lia.
  rewrite (lor_disjoint _ (uint8 x) 8) by lia.
  unfold uint8 in *. rewrite !Z.shiftr_div_pow2 by lia. lia.
Qed.

Lemma strlen_length s : Z.to_nat (strlen s) = length (c_str s).
Proof. unfold strlen. apply Nat2Z.id. Qed.

Lemma poke_bytes_app a bs1 bs2 h :
  poke_bytes a (bs1 ++ bs2) h
  = poke_bytes (a + Z.of_nat (length bs1)) bs2 (poke_bytes a bs1 h).
Proof.
  revert a h. induction bs1 as [|b bs1 IH]; intros a h; cbn [app poke_bytes length].
  - rewrite Z.add_0_r. reflexivity.
  - rewrite IH. f_equal. lia.
Qed.

Lemma appended_app bs1 bs2 m :
  appended bs2 (appended bs1 m) = appended (bs1 ++ bs2) m.
Proof.
  destruct m as [[buf cap nd off res ro nt d fr] h l].
  unfold appended, set_mDataOffset, set_mBufBytesNeeded. cbn.
  rewrite poke_bytes_app, length_app, Nat2Z.inj_add.
  repeat (f_equal; try lia).
Qed.

Lemma room_appended bs n m :
  room (Z.of_nat (length bs) + n) m -> 0 <= n -> room n (appended bs m).
Proof.
  destruct m as [[buf cap nd off res ro nt d fr] h l].
  unfold room, appended. cbn. lia.
Qed.

(** A key of 1 to 23 characters: a one-byte header and the characters. *)
Lemma encodeMapKey_appends key m :
  1 <= strlen key <= 23 ->
  room (1 + strlen key) m ->
  encodeMapKey (Some key) m
  = appended ((96 + strlen key) :: c_str key) (with_this bump_mapCount m).
Proof.
  intros Hlen Hroom. unfold encodeMapKey.
  destruct (c_str key) as [|k0 ks] eqn:Ekey.
  { unfold strlen in Hlen. rewrite Ekey in Hlen. cbn in Hlen. lia. }
  rewrite <- Ekey. unfold encodeString. cbv zeta.
  set (m0 := with_this bump_mapCount m).
  assert (Hroom0 : room (1 + strlen key) m0) by exact Hroom.
  assert (Hhdr : encodeHeader kCborUTF8String (strlen key) m0
                 = appended [96 + strlen key] m0).
  { unfold encodeHeader. cbv zeta.
    rewrite (uint32_small (strlen key)) by lia.
    destruct (Z.ltb_spec (strlen key) 24); [|lia].
    change (uint8 kCborUTF8String) with 3.
    destruct (header_byte_split 3 (strlen key)) as (-> & _); [lia|lia|].
    rewrite (store1_appends _ m0).
    - unfold uint8. rewrite Z.mod_small by lia. reflexivity.
    - destruct Hroom0 as (? & ? & ? & ? & ?).
      unfold room. cbv zeta. cbn [length]. repeat split; try assumption; lia. }
  rewrite Hhdr.
  change (96 + strlen key :: c_str key) with ([96 + strlen key] ++ c_str key).
  rewrite <- appended_app.
  assert (Hroom1 : room (strlen key) (appended [96 + strlen key] m0)).
  { apply room_appended; [|lia]. cbn [length]. exact Hroom0. }
  revert Hroom1. generalize (appended [96 + strlen key] m0). intros m1 Hroom1.
  assert (Hcopy : memcpy (mBuf (this m1) + mDataOffset (this m1))
                    (c_bytes key) (strlen key) (heap m1)
                  = poke_bytes (mBuf (this m1) + mDataOffset (this m1))
                      (c_str key) (heap m1)).
  { unfold memcpy, c_bytes. rewrite strlen_length, take_app_length.
    reflexivity. }
  destruct Hroom1 as (Hres & Hoff & Hnd & Hfit & Hcap).
  destruct m1 as [[buf cap nd off res ro nt d fr] h l].
  unfold reserveBytes, with_this, appended. cbn in *. subst.
  rewrite (uint32_small (strlen key)) by lia.
  rewrite (uint32_small (nd + strlen key)) by lia.
  destruct (Z.ltb_spec cap (nd + strlen key)); [lia|]. cbn.
  rewrite (uint32_small (nd + strlen key)) by lia.
  rewrite Hcopy. unfold strlen. reflexivity.
Qed.

(** ** The image of a map of one pair *)

Lemma encode_single_pair op key item frames buf cap nt heap0 :
  writes_pair op key item ->
  1 <= strlen key <= 23 ->
  0 <= buf ->
  2 + strlen key + Z.of_nat (length item) <= cap < 2 ^ 32 ->
  buf + cap <= Z.of_nat (length heap0) ->
  let m :=
    encode [OpStartMap 0; op; OpEndMap]
      (on_heap (MicroCbor_new frames buf cap nt) heap0) in
  getResult m = 0
  /\ bytesSerialized m = Z.of_nat (length (pair_image key item))
  /\ mBuf (this m) = buf
  /\ mMaxBufLen (this m) = cap
  /\ forall i : nat,
       (i < length (pair_image key item))%nat ->
       peek (heap m) (buf + Z.of_nat i)
       = default 0 (pair_image key item !! i).
Proof.
  intros Hop Hlen Hbuf Hcap Hheap m.
  set (n := Z.of_nat (length item)) in *.
  set (c0 := set_frame 0 {| mapStartPos := 0; mapStartCount := 0; mapCount := 0 |}
               (set_mDepth 0 (MicroCbor_new frames buf cap nt))).
  set (m0 := {| this := c0; heap := heap0; loads := [] |}).
  assert (Hcap0 : mMaxBufLen c0 = cap) by (cbn; apply uint32_small; lia).
  assert (Hroom0 : room (2 + strlen key + n) m0).
  { unfold room. cbv zeta. cbn [this m0]. rewrite Hcap0. cbn. lia. }
  assert (H1 : startMap 0 (on_heap (MicroCbor_new frames buf cap nt) heap0)
               = appended [160] m0).
  { transitivity (storeByte 160 (reserveBytes 1 m0)); [reflexivity|].
    apply (store1_appends 160).
    destruct Hroom0 as (? & ? & ? & ? & ?).
    unfold room. cbv zeta. cbn [length]. repeat split; try assumption; lia. }
  set (m1 := appended [160] m0) in *.
  assert (Hroom1 : room (1 + strlen key + n) m1).
  { apply room_appended; [|lia]. cbn [length].
    replace (Z.of_nat 1 + (1 + strlen key + n)) with (2 + strlen key + n)
      by lia. exact Hroom0. }
  pose proof (Hop m1 Hroom1) as H2.
  set (bs := ((96 + strlen key) :: c_str key) ++ item) in *.
  set (m2 := appended bs (with_this bump_mapCount m1)) in *.
  assert (Hm : m = endMap m2).
  { unfold m, encode. cbn [fold_left encode_op]. rewrite H1, H2. reflexivity. }
  assert (Hbs : Z.of_nat (length bs) = 1 + strlen key + n).
  { unfold bs. rewrite length_app. cbn [length]. unfold strlen, n. lia. }
  assert (Himg : pair_image key item = 161 :: bs) by reflexivity.
  assert (Hheap2 : heap m2 = poke_bytes (buf + 1) bs (poke buf 160 heap0)).
  { unfold m2, appended. cbn.
    replace (buf + (0 + Z.of_nat 1)) with (buf + 1) by lia.
    replace (buf + 0) with buf by lia. reflexivity. }
  assert (Hend : heap (endMap m2) = poke buf 161 (heap m2)).
  { unfold endMap. cbv zeta. cbn [heap].
    change (mDepth (this m2)) with 0.
    change (mMapState (this m2) 0)
      with {| mapStartPos := 0; mapStartCount := uint32 0;
              mapCount := uint16 (0 + 1) |}.
    cbn [mapCount mapStartCount mapStartPos].
    change (mResult (this m2)) with 0.
    change (mBuf (this m2)) with buf.
    change ((0 =? 0) && negb (uint16 (0 + 1) =? uint32 0)) with true.
    change (uint16 (0 + 1) <? 24) with true. cbv iota.
    rewrite Z.add_0_r. reflexivity. }
  rewrite Hm. split; [reflexivity|]. split.
  { rewrite Himg. cbn [length]. unfold bytesSerialized, endMap. cbn. lia. }
  split; [reflexivity|]. split; [exact Hcap0|].
  intros i Hi. rewrite Hend, Himg, Hheap2.
  rewrite Himg in Hi. cbn [length] in Hi.
  destruct i as [|i].
  - rewrite Z.add_0_r. cbn [lookup list_lookup default].
    apply peek_poke_eq. rewrite length_poke_bytes, length_poke. lia.
  - rewrite peek_poke_ne by lia. cbn [lookup list_lookup].
    replace (buf + Z.of_nat (S i)) with (buf + 1 + Z.of_nat i) by lia.
    apply peek_poke_bytes_in; [lia|rewrite length_poke; lia|lia].
Qed.

(** * Properties of the reader *)

Section ReaderFacts.

Variable indet : TypeInfo.
Variable behindTable : Z -> Z.

(** [getFieldValue] leaves the instance as it is. *)
Lemma getFieldValue_this info m :
  exists v m',
    getFieldValue info m = Some (v, m')
    /\ this m' = this m /\ heap m' = heap m.
Proof.
  unfold getFieldValue, bind, load, ret. cbv zeta.
  repeat case_match; eauto.
Qed.

(** A name that is not found yields the default of [get<T>]: the
    descriptor has major type [kCborError], whatever its other fields
    hold. *)
Lemma get_int_not_found fuel T name d m e m' :
  findElement indet behindTable fuel name m = Some (e, m') ->
  majorval e = kCborError ->
  value_of (get_int indet behindTable fuel T name d m) = Some d.
Proof.
  intros Hfind Hmajor. unfold get_int, bind at 1. rewrite Hfind.
  rewrite Hmajor.
  destruct (headerBytes e =? 9); [reflexivity|].
  unfold bind.
  destruct (getFieldValue_this e m') as (v & m'' & -> & _).
  reflexivity.
Qed.

Lemma get_bool_not_found fuel name d m e m' :
  findElement indet behindTable fuel name m = Some (e, m') ->
  majorval e = kCborError ->
  value_of (get_bool indet behindTable fuel name d m) = Some d.
Proof.
  intros Hfind Hmajor. unfold get_bool, bind. rewrite Hfind, Hmajor.
  reflexivity.
Qed.

Lemma get_float_not_found fuel name d m e m' :
  findElement indet behindTable fuel name m = Some (e, m') ->
  majorval e = kCborError ->
  value_of (get_float indet behindTable fuel name d m) = Some d.
Proof.
  intros Hfind Hmajor. unfold get_float, bind. rewrite Hfind, Hmajor.
  reflexivity.
Qed.

End ReaderFacts.

Section DefaultInstance.

Variable indet : TypeInfo.
Variable behindTable : Z -> Z.

(** An instance with no buffer: every lookup fails at the first header. *)
Lemma findElement_no_buffer fuel name frames h :
  findElement indet behindTable (S fuel) name
    (on_heap (MicroCbor_default frames) h)
  = Some (TypeInfo_major indet kCborError,
          on_heap (MicroCbor_default frames) h).
Proof. reflexivity. Qed.

(** [get] on a default-constructed instance returns the default given. *)
Theorem get_without_buffer_returns_default
    (fuel : nat) (T : IntType) (name : string) (frames : Z -> MapState)
    (h : list Z) (d : Z) (b : bool) (f : Z) :
  let m := on_heap (MicroCbor_default frames) h in
  value_of (get_int indet behindTable (S fuel) T name d m) = Some d
  /\ value_of (get_bool indet behindTable (S fuel) name b m) = Some b
  /\ value_of (get_float indet behindTable (S fuel) name f m) = Some f.
Proof.
  intros m. split; [|split].
  - exact (get_int_not_found _ _ _ T name d m _ _
             (findElement_no_buffer fuel name frames h) eq_refl).
  - exact (get_bool_not_found _ _ _ name b m _ _
             (findElement_no_buffer fuel name frames h) eq_refl).
  - exact (get_float_not_found _ _ _ name f m _ _
             (findElement_no_buffer fuel name frames h) eq_refl).
Qed.

End DefaultInstance.

Section ReaderSteps.

Variable indet : TypeInfo.
Variable behindTable : Z -> Z.

(** The equations of the recursive methods, one step unfolded. *)

Lemma getNextField_eq fuel :
  getNextField indet behindTable (S fuel) =
  (c <- self ;;
   if mMaxBufLen c <=? mDataOffset c then ret (TypeInfo_major indet kCborError)
   else
     let q := mBuf c + mDataOffset c in
     b <- load q ;;
     let majorval := Z.shiftr b 5 in
     let minorval := Z.land b 31 in
     let headerBytes := kCborheaderBytes behindTable minorval in
     if mMaxBufLen c <? uint32 (mDataOffset c + headerBytes) then
       ret (TypeInfo_major indet kCborError)
     else
       let field :=
         mkTypeInfo kCborTagInvalid majorval minorval headerBytes q in
       if majorval =? kCborTag then
         tag <- getFieldValue field ;;
         skipField indet behindTable fuel field ;;;
         field <- getNextField indet behindTable fuel ;;
         ret (set_tag (uint16 tag) field)
       else ret field).
Proof. reflexivity. Qed.

Lemma skipField_eq fuel info :
  skipField indet behindTable (S fuel) info =
  (len <- getFieldValue info ;;
   update (fun c =>
             set_mDataOffset (uint32 (mDataOffset c + headerBytes info)) c) ;;;
   c <- self ;;
   if mMaxBufLen c <=? mDataOffset c then ret tt
   else if (majorval info =? kCborByteString)
           || (majorval info =? kCborUTF8String) then
     update (fun c => set_mDataOffset (uint32 (mDataOffset c + len)) c)
   else if majorval info =? kCborMap then
     skipPairs indet behindTable fuel len
   else if majorval info =? kCborArray then
     skipItems indet behindTable fuel len
   else ret tt).
Proof. reflexivity. Qed.

Lemma findLoop_eq fuel name info mapOffset numItems :
  findLoop indet behindTable (S fuel) name info mapOffset numItems =
  (if numItems =? 0 then
     update (set_mDataOffset mapOffset) ;;;
     ret (TypeInfo_major indet kCborError)
   else
     let len := strlen name in
     s <- getNextField indet behindTable fuel ;;
     sLen <- getFieldValue s ;;
     c <- self ;;
     let key := mBuf c + mDataOffset c + headerBytes info in
     hit <- (if len <=? sLen then strncmp (c_str name) key sLen
             else ret false) ;;
     if hit : bool then
       skipField indet behindTable fuel s ;;;
       value <- getNextField indet behindTable fuel ;;
       update (set_mDataOffset mapOffset) ;;;
       ret value
     else
       skipField indet behindTable fuel s ;;;
       value <- getNextField indet behindTable fuel ;;
       skipField indet behindTable fuel value ;;;
       findLoop indet behindTable fuel name info mapOffset (numItems - 1)).
Proof. reflexivity. Qed.

(** ** Header reads stay inside the declared region *)

Lemma kCborheaderBytes_range i : 0 <= kCborheaderBytes behindTable i < 256.
Proof.
  unfold kCborheaderBytes.
  destruct (_ !! _) as [n|] eqn:E.
  - apply list_elem_of_lookup_2 in E.
    repeat (apply elem_of_cons in E as [->|E]; [lia|]).
    apply elem_of_nil in E. contradiction.
  - unfold uint8. lia.
Qed.

(** [getFieldValue] loads header bytes only. *)
Lemma getFieldValue_loads info m v m' :
  getFieldValue info m = Some (v, m') ->
  this m' = this m /\ heap m' = heap m
  /\ forall a, In a (loads m') ->
               In a (loads m) \/ p info < a < p info + headerBytes info.
Proof.
  unfold getFieldValue, bind, load, ret. cbv zeta.
  repeat case_match; intros [= <- <-]; cbn;
    (split; [reflexivity|]); (split; [reflexivity|]);
    intros a Ha; repeat (destruct Ha as [<-|Ha]; [right; lia|]); auto.
Qed.

(** [getNextField] on a buffer of at most 2^32 - 256 bytes declared: the
    binding, the declared length and the memory stay as they are, every
    address it loads lies inside the declared region, and the descriptor
    it returns either has major type [kCborError] or describes a header
    that lies inside the declared region. *)
Theorem getNextField_loads_within_region fuel :
  forall m e m',
    mMaxBufLen (this m) + 255 < 2 ^ 32 ->
    0 <= mDataOffset (this m) ->
    getNextField indet behindTable fuel m = Some (e, m') ->
    mBuf (this m') = mBuf (this m)
    /\ mMaxBufLen (this m') = mMaxBufLen (this m)
    /\ heap m' = heap m
    /\ 0 <= mDataOffset (this m')
    /\ loads_within (this m) m m'
    /\ (majorval e = kCborError
        \/ (mBuf (this m) <= p e
            /\ p e + headerBytes e <= mBuf (this m) + mMaxBufLen (this m))).
Proof.
  induction fuel as [|fuel IH]; intros m e m' Hcap Hoff H; [discriminate H|].
  rewrite getNextField_eq in H. unfold bind at 1, self at 1 in H.
  destruct (Z.leb_spec (mMaxBufLen (this m)) (mDataOffset (this m)))
    as [Hend|Hin].
  { injection H as <- <-. unfold loads_within. auto 10. }
  cbv zeta in H. unfold bind at 1, load at 1 in H.
  set (b := peek (heap m) (mBuf (this m) + mDataOffset (this m))) in *.
  pose proof (kCborheaderBytes_range (Z.land b 31)) as Hhb.
  set (hb := kCborheaderBytes behindTable (Z.land b 31)) in *.
  set (m1 := {| this := this m; heap := heap m;
                loads := (mBuf (this m) + mDataOffset (this m)) :: loads m |})
    in *.
  assert (Hm1 : loads_within (this m) m m1).
  { intros a [<-|Ha]; [right; unfold in_region; lia|left; exact Ha]. }
  assert (Hwrap : uint32 (mDataOffset (this m) + hb) = mDataOffset (this m) + hb).
  { unfold uint32. apply Z.mod_small. lia. }
  rewrite Hwrap in H.
  destruct (Z.ltb_spec (mMaxBufLen (this m)) (mDataOffset (this m) + hb))
    as [Hover|Hfit].
  { injection H as <- <-. auto 10. }
  destruct (Z.eqb_spec (Z.shiftr b 5) kCborTag) as [Htag|Hplain].
  2:{ injection H as <- <-. cbn. repeat split; auto; try lia. }
  (* a tag: its value, the skip over its header, the tagged item *)
  set (field := mkTypeInfo kCborTagInvalid (Z.shiftr b 5) (Z.land b 31) hb
                  (mBuf (this m) + mDataOffset (this m))) in *.
  unfold bind at 1 in H.
  destruct (getFieldValue field m1) as [[tagv m2]|] eqn:Hv; [|discriminate H].
  apply getFieldValue_loads in Hv as (Ht2 & Hh2 & Hl2).
  unfold bind at 1 in H.
  destruct fuel as [|fuel']; [discriminate H|].
  rewrite skipField_eq in H. unfold bind at 1 in H.
  destruct (getFieldValue field m2) as [[len m3]|] eqn:Hv; [|discriminate H].
  apply getFieldValue_loads in Hv as (Ht3 & Hh3 & Hl3).
  unfold bind at 1, update at 1, bind at 1, self at 1 in H.
  cbn [this with_this mMaxBufLen mDataOffset set_mDataOffset headerBytes
       majorval field] in H.
  rewrite Ht3, Ht2 in H. cbn [this m1] in H. rewrite Hwrap in H.
  rewrite Htag in H.
  change (kCborTag =? kCborByteString) with false in H.
  change (kCborTag =? kCborUTF8String) with false in H.
  change (kCborTag =? kCborMap) with false in H.
  change (kCborTag =? kCborArray) with false in H.
  cbn [orb] in H.
  set (m4 := with_this _ m3) in *.
  assert (H4 : (if mMaxBufLen (this m) <=? mDataOffset (this m) + hb
                then ret tt else ret tt) m4 = Some (tt, m4))
    by (destruct (_ <=? _); reflexivity).
  rewrite H4 in H. clear H4.
  unfold bind at 1 in H.
  destruct (getNextField indet behindTable (S fuel') m4)
    as [[field' m5]|] eqn:Hrec; [|discriminate H].
  injection H as <- <-.
  assert (Hthis4 : this m4 =
                   set_mDataOffset (mDataOffset (this m) + hb) (this m)).
  { unfold m4. cbn. rewrite Ht3, Ht2. unfold m1. cbn [this].
    rewrite Hwrap. reflexivity. }
  assert (Hcap4 : mMaxBufLen (this m4) + 255 < 2 ^ 32)
    by (rewrite Hthis4; exact Hcap).
  assert (Hoff4 : 0 <= mDataOffset (this m4))
    by (rewrite Hthis4; cbn; lia).
  destruct (IH m4 field' m5 Hcap4 Hoff4 Hrec) as (R1 & R2 & R3 & R4 & R5 & R6).
  rewrite Hthis4 in R1, R2, R5, R6. cbn in R1, R2, R6.
  assert (Hh4 : heap m4 = heap m)
    by (unfold m4; cbn; rewrite Hh3, Hh2; reflexivity).
  repeat split; try assumption; try congruence.
  intros a Ha. apply R5 in Ha as [Ha|Ha]; [|right; exact Ha].
  unfold m4 in Ha. cbn in Ha.
  apply Hl3 in Ha as [Ha|Ha]; [|right; unfold in_region; cbn in Ha; lia].
  apply Hl2 in Ha as [Ha|Ha]; [|right; unfold in_region; cbn in Ha; lia].
  apply Hm1, Ha.
Qed.

End ReaderSteps.

(** ** Reading a map of one pair *)

Lemma at_offset_start m :
  mDataOffset (this m) = 0 ->
  forall l, at_offset 0 l m = {| this := this m; heap := heap m; loads := l |}.
Proof.
  destruct m as [[buf cap nd off res ro nt d fr] h l0]. cbn. intros -> l.
  reflexivity.
Qed.

Section ReadPair.

Variable indet : TypeInfo.
Variable behindTable : Z -> Z.

(** An item that is not a tag and whose header fits. *)
Lemma getNextField_plain fuel m o l b :
  0 <= o < mMaxBufLen (this m) ->
  mMaxBufLen (this m) + 255 < 2 ^ 32 ->
  peek (heap m) (mBuf (this m) + o) = b ->
  Z.shiftr b 5 <> kCborTag ->
  o + kCborheaderBytes behindTable (Z.land b 31) <= mMaxBufLen (this m) ->
  getNextField indet behindTable (S fuel) (at_offset o l m)
  = Some (mkTypeInfo kCborTagInvalid (Z.shiftr b 5) (Z.land b 31)
            (kCborheaderBytes behindTable (Z.land b 31)) (mBuf (this m) + o),
          at_offset o ((mBuf (this m) + o) :: l) m).
Proof.
  intros Ho Hcap Hb Htag Hfit.
  pose proof (kCborheaderBytes_range behindTable (Z.land b 31)) as Hhb.
  rewrite getNextField_eq. unfold bind, self, load, at_offset.
  cbn [this heap loads mMaxBufLen mDataOffset mBuf set_mDataOffset].
  destruct (Z.leb_spec (mMaxBufLen (this m)) o); [lia|].
  cbv zeta.
  cbn [this heap loads mMaxBufLen mDataOffset mBuf set_mDataOffset].
  rewrite Hb.
  rewrite uint32_small by lia.
  destruct (Z.ltb_spec (mMaxBufLen (this m))
              (o + kCborheaderBytes behindTable (Z.land b 31))); [lia|].
  destruct (Z.eqb_spec (Z.shiftr b 5) kCborTag); [contradiction|].
  reflexivity.
Qed.

(** The name and the bytes at [a] agree over the whole length of the
    name. *)
Lemma strncmp_equal name :
  forall a o l m,
    (forall i : nat, (i < length name)%nat ->
                     peek (heap m) (a + Z.of_nat i) = default 0 (name !! i)) ->
    exists l',
      strncmp name a (Z.of_nat (length name)) (at_offset o l m)
      = Some (true, at_offset o l' m).
Proof.
  induction name as [|c name IH]; intros a o l m H.
  - exists l. reflexivity.
  - cbn [strncmp length].
    destruct (Z.leb_spec (Z.of_nat (S (length name))) 0); [lia|].
    unfold bind at 1, load at 1. cbn [heap at_offset].
    pose proof (H 0%nat ltac:(cbn; lia)) as Hc.
    rewrite Z.add_0_r in Hc. cbn in Hc. rewrite Hc, Z.eqb_refl.
    replace (Z.of_nat (S (length name)) - 1) with (Z.of_nat (length name))
      by lia.
    destruct (IH (a + 1) o (a :: l) m) as [l' Hl'].
    { intros i Hi. specialize (H (S i) ltac:(cbn; lia)).
      replace (a + 1 + Z.of_nat i) with (a + Z.of_nat (S i)) by lia.
      exact H. }
    exists l'. exact Hl'.
Qed.

Lemma kCborheaderBytes_inline i :
  0 <= i < 24 -> kCborheaderBytes behindTable i = 1.
Proof.
  intros H. unfold kCborheaderBytes.
  assert (E : exists n : nat, (n < 24)%nat /\ Z.to_nat i = n)
    by (exists (Z.to_nat i); lia).
  destruct E as (n & Hn & ->).
  do 24 (destruct n as [|n]; [reflexivity|]). lia.
Qed.

(** An item whose value is in its first byte. *)
Lemma getFieldValue_inline info m :
  headerBytes info = 1 -> getFieldValue info m = Some (minorval info, m).
Proof. intros H. unfold getFieldValue. rewrite H. reflexivity. Qed.

(** Skipping a text string with a one-byte header. *)
Lemma skipField_short_string fuel s m o l :
  headerBytes s = 1 ->
  majorval s = kCborUTF8String ->
  0 <= o -> 0 <= minorval s ->
  o + 1 < mMaxBufLen (this m) ->
  o + 1 + minorval s < 2 ^ 32 ->
  skipField indet behindTable (S fuel) s (at_offset o l m)
  = Some (tt, at_offset (o + 1 + minorval s) l m).
Proof.
  intros Hhb Hmj Ho Hmn Hcap Hwrap.
  rewrite skipField_eq. unfold bind at 1.
  rewrite getFieldValue_inline by exact Hhb.
  unfold bind, update, self, with_this, at_offset.
  cbn [this heap loads mMaxBufLen mDataOffset mBuf set_mDataOffset].
  rewrite Hhb, Hmj. rewrite (uint32_small (o + 1)) by lia.
  destruct (Z.leb_spec (mMaxBufLen (this m)) (o + 1)); [lia|].
  change ((kCborUTF8String =? kCborByteString)
          || (kCborUTF8String =? kCborUTF8String)) with true.
  cbv iota.
  cbn [this heap loads mMaxBufLen mDataOffset mBuf set_mDataOffset].
  rewrite uint32_small by lia. reflexivity.
Qed.

Lemma findElement_pair_at fuel key item vb rest m l :
  mMaxBufLen (this m) + 255 < 2 ^ 32 ->
  1 <= strlen key <= 23 ->
  item = vb :: rest ->
  Z.shiftr vb 5 <> kCborTag ->
  kCborheaderBytes behindTable (Z.land vb 31) = Z.of_nat (length item) ->
  2 + strlen key + Z.of_nat (length item) <= mMaxBufLen (this m) ->
  (forall i : nat,
     (i < length (pair_image key item))%nat ->
     peek (heap m) (mBuf (this m) + Z.of_nat i)
     = default 0 (pair_image key item !! i)) ->
  exists l',
    findElement indet behindTable (S (S fuel)) key (at_offset 0 l m)
    = Some (mkTypeInfo kCborTagInvalid (Z.shiftr vb 5) (Z.land vb 31)
              (Z.of_nat (length item)) (mBuf (this m) + (2 + strlen key)),
            at_offset 0 l' m).
Proof.
  intros Hcap Hlen Hitem Htag Hhb Hfit Himg.
  assert (Hn : length (pair_image key item)
               = S (S (length (c_str key) + length item))).
  { unfold pair_image. cbn [length]. rewrite length_app. reflexivity. }
  assert (Hk : Z.of_nat (length (c_str key)) = strlen key) by reflexivity.
  assert (Hi : (0 < length item)%nat) by (rewrite Hitem; cbn; lia).
  assert (P0 : peek (heap m) (mBuf (this m) + 0) = 161).
  { exact (Himg 0%nat ltac:(lia)). }
  assert (P1 : peek (heap m) (mBuf (this m) + 1) = 96 + strlen key).
  { exact (Himg 1%nat ltac:(lia)). }
  assert (Pk : forall i : nat,
             (i < length (c_str key))%nat ->
             peek (heap m) (mBuf (this m) + 2 + Z.of_nat i)
             = default 0 (c_str key !! i)).
  { intros i Hlt.
    replace (mBuf (this m) + 2 + Z.of_nat i)
      with (mBuf (this m) + Z.of_nat (S (S i))) by lia.
    rewrite Himg by lia.
    change (pair_image key item !! S (S i)) with ((c_str key ++ item) !! i).
    rewrite lookup_app_l by exact Hlt. reflexivity. }
  assert (Pv : peek (heap m) (mBuf (this m) + (2 + strlen key)) = vb).
  { replace (mBuf (this m) + (2 + strlen key))
      with (mBuf (this m) + Z.of_nat (S (S (length (c_str key))))) by lia.
    rewrite Himg by lia.
    change (pair_image key item !! S (S (length (c_str key))))
      with ((c_str key ++ item) !! length (c_str key)).
    rewrite Hitem, list_lookup_middle by reflexivity. reflexivity. }
  destruct (header_byte_split 3 (strlen key)) as (_ & Hmj & Hmn); [lia|lia|].
  change (3 * 32) with 96 in Hmj, Hmn.
  (* the header of the map *)
  unfold findElement. unfold bind at 1, self at 1.
  cbn [this at_offset mDataOffset set_mDataOffset]. cbv zeta.
  unfold bind at 1.
  rewrite (getNextField_plain (S fuel) m 0 l 161);
    [|lia|exact Hcap|exact P0|discriminate|
     change (kCborheaderBytes behindTable (Z.land 161 31)) with 1; lia].
  change (Z.shiftr 161 5) with 5. change (Z.land 161 31) with 1.
  change (kCborheaderBytes behindTable 1) with 1.
  cbn [majorval]. change (negb (5 =? kCborMap)) with false. cbv iota.
  unfold bind at 1. rewrite getFieldValue_inline by reflexivity.
  cbn [minorval headerBytes].
  unfold bind at 1, update at 1.
  change (with_this _ (at_offset 0 (mBuf (this m) + 0 :: l) m))
    with (at_offset (uint32 (0 + 1)) (mBuf (this m) + 0 :: l) m).
  change (uint32 (0 + 1)) with 1.
  (* the key *)
  set (l1 := mBuf (this m) + 0 :: l).
  rewrite findLoop_eq. change (1 =? 0) with false. cbv iota zeta.
  unfold bind at 1.
  rewrite (getNextField_plain fuel m 1 l1 (96 + strlen key));
    [|lia|exact Hcap|exact P1|rewrite Hmj; discriminate|
     rewrite Hmn, kCborheaderBytes_inline by lia; lia].
  rewrite Hmj, Hmn, kCborheaderBytes_inline by lia.
  set (l2 := mBuf (this m) + 1 :: l1).
  unfold bind at 1. rewrite getFieldValue_inline by reflexivity.
  cbn [minorval headerBytes].
  unfold bind at 1, self at 1.
  cbn [this at_offset mDataOffset mBuf set_mDataOffset].
  rewrite Z.leb_refl. unfold bind at 1.
  destruct (strncmp_equal (c_str key) (mBuf (this m) + 1 + 1) 1 l2 m)
    as [l3 Hcmp].
  { intros i Hlt. rewrite <- Pk by exact Hlt. f_equal. lia. }
  rewrite Hk in Hcmp. rewrite Hcmp. cbv iota.
  (* past the key, to the value *)
  unfold bind at 1.
  rewrite skipField_short_string; cbn [minorval]; try reflexivity; try lia.
  unfold bind at 1.
  rewrite (getNextField_plain fuel m (1 + 1 + strlen key) l3 vb);
    [|lia|exact Hcap|rewrite <- Pv; f_equal; lia|exact Htag|rewrite Hhb; lia].
  unfold bind at 1, update at 1.
  rewrite Hhb.
  eexists. unfold ret.
  replace (1 + 1 + strlen key) with (2 + strlen key) by lia.
  reflexivity.
Qed.
End ReadPair.

(** ** The items the scalar [add] overloads write *)

Lemma room_weaken n n' m : room n m -> 0 <= n' <= n -> room n' m.
Proof. unfold room. cbv zeta. lia. Qed.

(** A key followed by a value writer that appends [item]. *)
Lemma writes_pair_intro op key item (f : Machine -> Machine) :
  (forall m, encode_op op m = f (encodeMapKey (Some key) m)) ->
  appends f item ->
  1 <= strlen key <= 23 ->
  writes_pair op key item.
Proof.
  intros Hop Hf Hlen m Hroom.
  rewrite Hop, encodeMapKey_appends; [|exact Hlen|].
  2:{ apply (room_weaken _ _ _ Hroom). lia. }
  rewrite Hf, appended_app; [reflexivity|].
  apply room_appended; [|lia].
  apply (room_weaken _ _ _ Hroom). cbn [length]. unfold strlen. lia.
Qed.

Lemma cast_in_range T v : in_range T v -> cast T v = v.
Proof.
  destruct T; unfold in_range, cast, int8, int16, int32, int64,
    uint8, uint16, uint32, uint64; lia.
Qed.

Lemma cast_negated T v :
  in_range T v -> v < 0 -> cast T (-1 - v) = -1 - v /\ 0 <= -1 - v.
Proof.
  destruct T; unfold in_range, cast, int8, int16, int32, int64,
    uint8, uint16, uint32, uint64; lia.
Qed.

Lemma add_int_writes_pair T key v :
  in_range T v ->
  1 <= strlen key <= 23 ->
  writes_pair (OpAddInt T (Some key) v) key (int_item T v).
Proof.
  intros Hv Hlen.
  assert (Hx : 0 <= (if v <? 0 then -1 - v else v) < 2 ^ (8 * sizeof T)).
  { destruct (Z.ltb_spec v 0); destruct T; unfold in_range in Hv; cbn; lia. }
  unfold int_item.
  destruct (Z.ltb_spec v 0) as [Hneg|Hpos].
  - destruct (cast_negated T v Hv Hneg) as [Hc _].
    destruct T; cbn [sizeof] in *;
      (eapply writes_pair_intro;
       [ intros m; cbn [encode_op]; unfold add_int;
         rewrite (cast_in_range _ v Hv);
         destruct (Z.ltb_spec v 0); [|lia]; rewrite Hc; reflexivity
       | | exact Hlen ]);
      first
        [ refine (eq_rect _ (appends _) (encodeUInt8_appends _ _) _ _)
        | refine (eq_rect _ (appends _) (encodeUInt16_appends _ _) _ _)
        | refine (eq_rect _ (appends _) (encodeUInt32_appends _ _) _ _)
        | refine (eq_rect _ (appends _) (encodeUInt64_appends _ _) _ _) ];
      rewrite ?uint16_small, ?uint32_small, ?uint64_small by lia;
      reflexivity.
  - destruct T; cbn [sizeof] in *;
      (eapply writes_pair_intro;
       [ intros m; cbn [encode_op]; unfold add_int;
         rewrite (cast_in_range _ v Hv);
         destruct (Z.ltb_spec v 0); [lia|]; reflexivity
       | | exact Hlen ]);
      first
        [ refine (eq_rect _ (appends _) (encodeUInt8_appends _ _) _ _)
        | refine (eq_rect _ (appends _) (encodeUInt16_appends _ _) _ _)
        | refine (eq_rect _ (appends _) (encodeUInt32_appends _ _) _ _)
        | refine (eq_rect _ (appends _) (encodeUInt64_appends _ _) _ _) ];
      rewrite ?uint16_small, ?uint32_small, ?uint64_small by lia;
      reflexivity.
Qed.

Lemma add_bool_writes_pair key b :
  1 <= strlen key <= 23 ->
  writes_pair (OpAddBool (Some key) b) key (bool_item b).
Proof.
  intros Hlen.
  apply (writes_pair_intro _ key _
           (fun m => storeByte (if b then kCborTrue else kCborFalse)
                       (reserveBytes 1 m)));
    [reflexivity| |exact Hlen].
  refine (eq_rect _ (appends _) (store1_appends _) _ _).
  destruct b; reflexivity.
Qed.

Lemma add_float_writes_pair key bits :
  0 <= bits < 2 ^ 32 ->
  1 <= strlen key <= 23 ->
  writes_pair (OpAddFloat (Some key) bits) key (float_item bits).
Proof.
  intros Hbits Hlen.
  apply (writes_pair_intro _ key _
           (encodeUInt32 kCborFloat32 (uint32 bits)));
    [reflexivity| |exact Hlen].
  refine (eq_rect _ (appends _) (encodeUInt32_appends _ _) _ _).
  unfold float_item. rewrite !(uint32_small bits) by lia. reflexivity.
Qed.

(** ** Decoding the item found *)

Section DecodeItem.

Variable indet : TypeInfo.
Variable behindTable : Z -> Z.

(** The value of an item with 1, 2 or 4 bytes after the initial byte. *)
Lemma getFieldValue_8 info m :
  headerBytes info = 2 ->
  value_of (getFieldValue info m) = Some (peek (heap m) (p info + 1)).
Proof. intros H. unfold getFieldValue. rewrite H. reflexivity. Qed.

Lemma getFieldValue_16 info m :
  headerBytes info = 3 ->
  value_of (getFieldValue info m)
  = Some (Z.lor (Z.shiftl (uint16 (peek (heap m) (p info + 1))) 8)
                (peek (heap m) (p info + 2))).
Proof.
  intros H. unfold getFieldValue. rewrite H.
  replace (p info + 2) with (p info + 1 + 1) by lia. reflexivity.
Qed.

Lemma getFieldValue_32 info m :
  headerBytes info = 5 ->
  value_of (getFieldValue info m)
  = Some (Z.lor (Z.lor (Z.lor
            (Z.shiftl (uint32 (peek (heap m) (p info + 1))) 24)
            (Z.shiftl (uint32 (peek (heap m) (p info + 2))) 16))
            (Z.shiftl (uint32 (peek (heap m) (p info + 3))) 8))
            (peek (heap m) (p info + 4))).
Proof.
  intros H. unfold getFieldValue. rewrite H.
  replace (p info + 2) with (p info + 1 + 1) by lia.
  replace (p info + 3) with (p info + 1 + 2) by lia.
  replace (p info + 4) with (p info + 1 + 3) by lia. reflexivity.
Qed.

(** [get<T>] on an item found with an 8-byte value. *)
Lemma get_int_found_64 fuel T name d m e m' :
  findElement indet behindTable fuel name m = Some (e, m') ->
  headerBytes e = 9 ->
  let b i := uint64 (peek (heap m') (p e + i)) in
  let value :=
    Z.lor (Z.lor (Z.lor (Z.lor (Z.lor (Z.lor (Z.lor
      (Z.shiftl (b 1) 56) (Z.shiftl (b 2) 48))
      (Z.shiftl (b 3) 40)) (Z.shiftl (b 4) 32))
      (Z.shiftl (b 5) 24)) (Z.shiftl (b 6) 16))
      (Z.shiftl (b 7) 8)) (b 8) in
  value_of (get_int indet behindTable fuel T name d m)
  = Some (if majorval e =? kCborPosInt then cast T value
          else if majorval e =? kCborNegInt then
            cast T (uint64 (uint64 (- value) - 1))
          else d).
Proof.
  intros Hfind Hhb b value. unfold get_int, bind at 1. rewrite Hfind, Hhb.
  change (9 =? 9) with true. cbv iota zeta.
  unfold bind, load. cbn [heap].
  unfold value, b.
  replace (p e + 2) with (p e + 1 + 1) by lia.
  replace (p e + 3) with (p e + 1 + 2) by lia.
  replace (p e + 4) with (p e + 1 + 3) by lia.
  replace (p e + 5) with (p e + 1 + 4) by lia.
  replace (p e + 6) with (p e + 1 + 5) by lia.
  replace (p e + 7) with (p e + 1 + 6) by lia.
  replace (p e + 8) with (p e + 1 + 7) by lia.
  destruct (majorval e =? kCborPosInt); [reflexivity|].
  destruct (majorval e =? kCborNegInt); reflexivity.
Qed.

(** [get<T>] on an item found with a shorter value. *)
Lemma get_int_found fuel T name d m e m' value :
  findElement indet behindTable fuel name m = Some (e, m') ->
  headerBytes e <> 9 ->
  value_of (getFieldValue e m') = Some value ->
  value_of (get_int indet behindTable fuel T name d m)
  = Some (if majorval e =? kCborPosInt then cast T value
          else if majorval e =? kCborNegInt then
            cast T (uint32 (uint32 (- value) - 1))
          else d).
Proof.
  intros Hfind Hhb Hvalue. unfold get_int, bind at 1. rewrite Hfind.
  destruct (Z.eqb_spec (headerBytes e) 9); [contradiction|].
  unfold bind.
  destruct (getFieldValue e m') as [[v m'']|]; [|discriminate Hvalue].
  injection Hvalue as ->.
  destruct (majorval e =? kCborPosInt); [reflexivity|].
  destruct (majorval e =? kCborNegInt); reflexivity.
Qed.

End DecodeItem.

Lemma at_offset_self m :
  mDataOffset (this m) = 0 -> at_offset 0 (loads m) m = m.
Proof.
  destruct m as [[buf cap nd off res ro nt d fr] h l]. cbn. intros ->.
  reflexivity.
Qed.

Section RoundTrip.

Variable indet : TypeInfo.
Variable behindTable : Z -> Z.

(** Writing [{key: item}] and looking [key] up again yields the
    descriptor of [item]. *)
Lemma single_pair_found op key item vb rest frames buf cap nt heap0 fuel :
  writes_pair op key item ->
  1 <= strlen key <= 23 ->
  item = vb :: rest ->
  Z.shiftr vb 5 <> kCborTag ->
  kCborheaderBytes behindTable (Z.land vb 31) = Z.of_nat (length item) ->
  0 <= buf ->
  2 + strlen key + Z.of_nat (length item) <= cap ->
  cap + 255 < 2 ^ 32 ->
  buf + cap <= Z.of_nat (length heap0) ->
  let m :=
    encode [OpStartMap 0; op; OpEndMap]
      (on_heap (MicroCbor_new frames buf cap nt) heap0) in
  getResult m = 0
  /\ exists e m',
       findElement indet behindTable (S (S fuel)) key (rewound m)
       = Some (e, m')
       /\ e = mkTypeInfo kCborTagInvalid (Z.shiftr vb 5) (Z.land vb 31)
                (Z.of_nat (length item)) (buf + (2 + strlen key))
       /\ forall j : nat,
            (j < length item)%nat ->
            peek (heap m') (p e + Z.of_nat j) = default 0 (item !! j).
Proof.
  intros Hop Hlen Hitem Htag Hhb Hbuf Hfit Hcap Hheap m.
  assert (Hcap' : 2 + strlen key + Z.of_nat (length item) <= cap < 2 ^ 32)
    by lia.
  pose proof (encode_single_pair op key item frames buf cap nt heap0
                Hop Hlen Hbuf Hcap' Hheap) as Hx.
  cbv zeta in Hx. fold m in Hx.
  revert Hx. generalize m. clear m. intros m Hx.
  destruct Hx as (Hres & _ & Hb & Hc & Himg).
  split; [exact Hres|].
  set (M := rewound m).
  assert (HMb : mBuf (this M) = buf) by exact Hb.
  assert (HMc : mMaxBufLen (this M) = cap) by exact Hc.
  assert (HMh : heap M = heap m) by reflexivity.
  pose proof (findElement_pair_at indet behindTable fuel key item vb rest M
                (loads M)) as Hy.
  rewrite HMb, HMc, HMh in Hy.
  specialize (Hy Hcap Hlen Hitem Htag Hhb Hfit Himg).
  destruct Hy as [l' Hfind].
  rewrite at_offset_self in Hfind by reflexivity.
  eexists _, _. split; [exact Hfind|]. split; [reflexivity|].
  intros j Hj. cbn [p heap at_offset]. rewrite HMh.
  replace (buf + (2 + strlen key) + Z.of_nat j)
    with (buf + Z.of_nat (S (S (length (c_str key) + j))))
    by (clear; unfold strlen; lia).
  rewrite Himg.
  - change (pair_image key item !! S (S (length (c_str key) + j)))
      with ((c_str key ++ item) !! (length (c_str key) + j)%nat).
    rewrite lookup_app_r by (clear; lia).
    replace (length (c_str key) + j - length (c_str key))%nat with j
      by (clear; lia).
    reflexivity.
  - unfold pair_image. cbn [length]. rewrite length_app. clear -Hj. lia.
Qed.

(** The bytes after the initial byte of an item, one by one. *)
Lemma item_bytes_2 h a b0 b1 :
  (forall j : nat, (j < 2)%nat ->
     peek h (a + Z.of_nat j) = default 0 ([b0; b1] !! j)) ->
  peek h (a + 1) = b1.
Proof. intros H. exact (H 1%nat ltac:(lia)). Qed.

Lemma item_bytes_3 h a b0 b1 b2 :
  (forall j : nat, (j < 3)%nat ->
     peek h (a + Z.of_nat j) = default 0 ([b0; b1; b2] !! j)) ->
  peek h (a + 1) = b1 /\ peek h (a + 2) = b2.
Proof.
  intros H. split; [exact (H 1%nat ltac:(lia))|exact (H 2%nat ltac:(lia))].
Qed.

Lemma item_bytes_5 h a b0 b1 b2 b3 b4 :
  (forall j : nat, (j < 5)%nat ->
     peek h (a + Z.of_nat j) = default 0 ([b0; b1; b2; b3; b4] !! j)) ->
  peek h (a + 1) = b1 /\ peek h (a + 2) = b2
  /\ peek h (a + 3) = b3 /\ peek h (a + 4) = b4.
Proof.
  intros H. repeat split;
    [exact (H 1%nat ltac:(lia))|exact (H 2%nat ltac:(lia))
    |exact (H 3%nat ltac:(lia))|exact (H 4%nat ltac:(lia))].
Qed.

Lemma item_bytes_9 h a b0 b1 b2 b3 b4 b5 b6 b7 b8 :
  (forall j : nat, (j < 9)%nat ->
     peek h (a + Z.of_nat j)
     = default 0 ([b0; b1; b2; b3; b4; b5; b6; b7; b8] !! j)) ->
  peek h (a + 1) = b1 /\ peek h (a + 2) = b2
  /\ peek h (a + 3) = b3 /\ peek h (a + 4) = b4
  /\ peek h (a + 5) = b5 /\ peek h (a + 6) = b6
  /\ peek h (a + 7) = b7 /\ peek h (a + 8) = b8.
Proof.
  intros H. repeat split;
    [exact (H 1%nat ltac:(lia))|exact (H 2%nat ltac:(lia))
    |exact (H 3%nat ltac:(lia))|exact (H 4%nat ltac:(lia))
    |exact (H 5%nat ltac:(lia))|exact (H 6%nat ltac:(lia))
    |exact (H 7%nat ltac:(lia))|exact (H 8%nat ltac:(lia))].
Qed.

Ltac eval_closed_tests :=
  repeat match goal with
    | |- context [Z.shiftr ?n 5] =>
        let r := eval vm_compute in (Z.shiftr n 5) in
        change (Z.shiftr n 5) with r
    end;
  repeat match goal with
    | |- context [?a =? ?b] =>
        let r := eval vm_compute in (a =? b) in
        change (a =? b) with r
    end;
  cbv iota.

(** Round trip of [add<T>] and [get<T>], for every integral type and value
    and every key of 1 to 23 characters. *)
Theorem roundtrip_int T key v d frames buf cap nt heap0 fuel :
  in_range T v ->
  1 <= strlen key <= 23 ->
  0 <= buf ->
  3 + strlen key + sizeof T <= cap ->
  cap + 255 < 2 ^ 32 ->
  buf + cap <= Z.of_nat (length heap0) ->
  let m :=
    encode [OpStartMap 0; OpAddInt T (Some key) v; OpEndMap]
      (on_heap (MicroCbor_new frames buf cap nt) heap0) in
  getResult m = 0
  /\ value_of (get_int indet behindTable (S (S fuel)) T key d (rewound m))
     = Some v.
Proof.
  intros Hv Hlen Hbuf Hfit Hcap Hheap.
  pose proof (add_int_writes_pair T key v Hv Hlen) as Hop.
  assert (Hx : 0 <= (if v <? 0 then -1 - v else v) < 2 ^ (8 * sizeof T)).
  { clear -Hv. destruct (Z.ltb_spec v 0); destruct T; unfold in_range in Hv;
      cbn; lia. }
  assert (Hsz : Z.of_nat (length (int_item T v)) = 1 + sizeof T)
    by (destruct T; reflexivity).
  assert (Hfit' : 2 + strlen key + Z.of_nat (length (int_item T v)) <= cap)
    by (clear -Hfit Hsz; lia).
  pose proof (fun vb rest H1 H2 H3 =>
                single_pair_found _ key _ vb rest frames buf cap nt heap0 fuel
                  Hop Hlen H1 H2 H3 Hbuf Hfit' Hcap Hheap) as Hsp.
  cbv zeta in Hsp. cbv zeta.
  revert Hsp.
  generalize (encode [OpStartMap 0; OpAddInt T (Some key) v; OpEndMap]
                (on_heap (MicroCbor_new frames buf cap nt) heap0)).
  intros m Hsp.
  clear Hop Hsz Hfit' Hfit Hheap Hcap Hbuf Hlen.
  unfold int_item in Hsp.
  assert (Hsign : v < 0 /\ (v <? 0) = true \/ 0 <= v /\ (v <? 0) = false)
    by (clear; destruct (Z.ltb_spec v 0); auto).
  remember (if v <? 0 then -1 - v else v) as x eqn:Ex.
  remember (if v <? 0 then 32 else 0) as mj eqn:Emj.
  destruct Hsign as [[Hs Eb]|[Hs Eb]]; rewrite Eb in Ex, Emj; subst mj;
    destruct T; cbn [sizeof] in *;
    try (exfalso; clear -Hv Hs; unfold in_range in Hv; lia);
    (edestruct Hsp as (Hres & e & m' & Hfind & He & Hbytes);
     [ reflexivity | intros E; vm_compute in E; discriminate E
     | reflexivity | ]);
    (split; [exact Hres|]); subst e; cbn [p] in Hbytes; clear Hsp;
    first
      [ rewrite (get_int_found_64 indet behindTable _ _ key d _ _ _ Hfind)
          by reflexivity;
        cbv zeta; cbn [p majorval];
        apply item_bytes_9 in Hbytes;
        destruct Hbytes as (-> & -> & -> & -> & -> & -> & -> & ->);
        rewrite combine64 by (clear -Hx; lia)
      | erewrite get_int_found;
        [ | exact Hfind | intros E; vm_compute in E; discriminate E
          | apply getFieldValue_32; reflexivity ];
        cbn [p majorval];
        apply item_bytes_5 in Hbytes;
        destruct Hbytes as (-> & -> & -> & ->);
        rewrite combine32 by (clear -Hx; lia)
      | erewrite get_int_found;
        [ | exact Hfind | intros E; vm_compute in E; discriminate E
          | apply getFieldValue_16; reflexivity ];
        cbn [p majorval];
        apply item_bytes_3 in Hbytes;
        destruct Hbytes as (-> & ->);
        rewrite combine16 by (clear -Hx; lia)
      | erewrite get_int_found;
        [ | exact Hfind | intros E; vm_compute in E; discriminate E
          | apply getFieldValue_8; reflexivity ];
        cbn [p majorval];
        apply item_bytes_2 in Hbytes;
        rewrite Hbytes ];
    eval_closed_tests;
    f_equal; clear -Hv Hs Ex Hx; subst x;
    unfold in_range in Hv;
    unfold cast, int8, int16, int32, int64, uint8, uint16, uint32, uint64;
    lia.
Qed.

(** Round trip of [add(name, bool)] and [get<bool>]. *)
Theorem roundtrip_bool key (b d : bool) frames buf cap nt heap0 fuel :
  1 <= strlen key <= 23 ->
  0 <= buf ->
  3 + strlen key <= cap ->
  cap + 255 < 2 ^ 32 ->
  buf + cap <= Z.of_nat (length heap0) ->
  let m :=
    encode [OpStartMap 0; OpAddBool (Some key) b; OpEndMap]
      (on_heap (MicroCbor_new frames buf cap nt) heap0) in
  getResult m = 0
  /\ value_of (get_bool indet behindTable (S (S fuel)) key d (rewound m))
     = Some b.
Proof.
  intros Hlen Hbuf Hfit Hcap Hheap.
  pose proof (add_bool_writes_pair key b Hlen) as Hop.
  assert (Hfit' : 2 + strlen key + Z.of_nat (length (bool_item b)) <= cap)
    by (clear -Hfit; cbn [length bool_item]; lia).
  pose proof (fun vb rest H1 H2 H3 =>
                single_pair_found _ key _ vb rest frames buf cap nt heap0 fuel
                  Hop Hlen H1 H2 H3 Hbuf Hfit' Hcap Hheap) as Hsp.
  cbv zeta in Hsp. cbv zeta.
  revert Hsp.
  generalize (encode [OpStartMap 0; OpAddBool (Some key) b; OpEndMap]
                (on_heap (MicroCbor_new frames buf cap nt) heap0)).
  intros m Hsp.
  clear Hop Hfit' Hfit Hheap Hcap Hbuf Hlen.
  destruct b;
    (edestruct Hsp as (Hres & e & m' & Hfind & He & _);
     [ reflexivity | intros E; vm_compute in E; discriminate E
     | reflexivity | ]);
    (split; [exact Hres|]); subst e;
    unfold get_bool, bind; rewrite Hfind; reflexivity.
Qed.

(** Round trip of [add(name, float)] and [get<float>], on the bit
    patterns. *)
Theorem roundtrip_float key (bits d : Z) frames buf cap nt heap0 fuel :
  0 <= bits < 2 ^ 32 ->
  1 <= strlen key <= 23 ->
  0 <= buf ->
  7 + strlen key <= cap ->
  cap + 255 < 2 ^ 32 ->
  buf + cap <= Z.of_nat (length heap0) ->
  let m :=
    encode [OpStartMap 0; OpAddFloat (Some key) bits; OpEndMap]
      (on_heap (MicroCbor_new frames buf cap nt) heap0) in
  getResult m = 0
  /\ value_of (get_float indet behindTable (S (S fuel)) key d (rewound m))
     = Some bits.
Proof.
  intros Hbits Hlen Hbuf Hfit Hcap Hheap.
  pose proof (add_float_writes_pair key bits Hbits Hlen) as Hop.
  assert (Hfit' : 2 + strlen key + Z.of_nat (length (float_item bits)) <= cap)
    by (clear -Hfit; cbn [length float_item]; lia).
  pose proof (fun vb rest H1 H2 H3 =>
                single_pair_found _ key _ vb rest frames buf cap nt heap0 fuel
                  Hop Hlen H1 H2 H3 Hbuf Hfit' Hcap Hheap) as Hsp.
  cbv zeta in Hsp. cbv zeta.
  revert Hsp.
  generalize (encode [OpStartMap 0; OpAddFloat (Some key) bits; OpEndMap]
                (on_heap (MicroCbor_new frames buf cap nt) heap0)).
  intros m Hsp.
  clear Hop Hfit' Hfit Hheap Hcap Hbuf Hlen.
  edestruct Hsp as (Hres & e & m' & Hfind & He & Hbytes);
    [ reflexivity | intros E; vm_compute in E; discriminate E
    | reflexivity | ].
  split; [exact Hres|]. subst e. cbn [p] in Hbytes.
  unfold get_float, bind. rewrite Hfind. cbn [majorval minorval].
  change (Z.shiftr 250 5 =? kCborSimple) with true.
  change (Z.land 250 31 =? 26) with true. cbv iota.
  rewrite getFieldValue_32 by reflexivity. cbn [p].
  apply item_bytes_5 in Hbytes. destruct Hbytes as (-> & -> & -> & ->).
  rewrite combine32 by exact Hbits. reflexivity.
Qed.

End RoundTrip.

(** * Maps of entries: the writer and the reader together *)

(** ** The bytes of a header *)

Lemma store2_appends v w :
  appends (fun m => storeByte w (storeByte v (reserveBytes 2 m)))
    [uint8 v; uint8 w].
Proof.
  intros m (Hres & Hoff & Hnd & Hfit & Hcap).
  destruct m as [[buf cap nd off res ro nt d fr] h l].
  cbn in *. subst.
  unfold reserveBytes, with_this. cbn.
  rewrite (uint32_small 2) by lia. rewrite (uint32_small (nd + 2)) by lia.
  destruct (Z.ltb_spec cap (nd + 2)); [lia|].
  unfold storeByte. cbn.
  rewrite (uint32_small (nd + 1)) by lia. cbn.
  rewrite (uint32_small (nd + 1 + 1)) by lia.
  unfold appended, set_mDataOffset, set_mBufBytesNeeded. cbn.
  repeat (f_equal; try lia).
Qed.

Lemma length_header_image mj len :
  Z.of_nat (length (header_image mj len)) = header_size len.
Proof.
  unfold header_image, header_size.
  repeat (destruct (_ <? _); [reflexivity|]). reflexivity.
Qed.

Lemma header_size_range len : 1 <= header_size len <= 5.
Proof.
  unfold header_size. repeat (destruct (_ <? _); [lia|]). lia.
Qed.

Lemma encodeHeader_appends mj len :
  0 <= mj < 8 -> 0 <= len < 2 ^ 32 ->
  appends (encodeHeader mj len) (header_image mj len).
Proof.
  intros Hmj Hlen. unfold encodeHeader, header_image. cbv zeta.
  rewrite (uint32_small len) by exact Hlen.
  replace (uint8 mj) with mj by (unfold uint8; lia).
  destruct (Z.ltb_spec len 24).
  - destruct (header_byte_split mj len) as (-> & _); [lia|lia|].
    refine (eq_rect _ (appends _) (store1_appends _) _ _).
    unfold uint8. rewrite Z.mod_small by lia. reflexivity.
  - destruct (header_byte_split mj 24) as (-> & _); [lia|lia|].
    destruct (Z.ltb_spec len 256).
    + refine (eq_rect _ (appends _) (store2_appends _ _) _ _).
      unfold uint8. rewrite !Z.mod_small by lia. reflexivity.
    + destruct (header_byte_split mj 25) as (-> & _); [lia|lia|].
      destruct (header_byte_split mj 26) as (-> & _); [lia|lia|].
      destruct (Z.ltb_spec len 65536).
      * refine (eq_rect _ (appends _) (encodeUInt16_appends _ _) _ _).
        rewrite !(uint16_small len) by lia.
        unfold uint8 at 1. rewrite Z.mod_small by lia. reflexivity.
      * refine (eq_rect _ (appends _) (encodeUInt32_appends _ _) _ _).
        rewrite !(uint32_small len) by lia.
        unfold uint8 at 1. rewrite Z.mod_small by lia. reflexivity.
Qed.

(** ** The entries of a flat map *)

Lemma writes_pair_entry nt op key item :
  writes_pair op key item -> writes_entry nt op key item.
Proof. intros H m _ Hroom. exact (H m Hroom). Qed.

Lemma mNullTerminate_appended bs m :
  mNullTerminate (this (appended bs m)) = mNullTerminate (this m).
Proof. reflexivity. Qed.

(** A key followed by a value writer that appends [item]. *)
Lemma writes_entry_intro nt op key item (f : Machine -> Machine) :
  (forall m, encode_op op m = f (encodeMapKey (Some key) m)) ->
  (forall m, mNullTerminate (this m) = nt ->
             room (Z.of_nat (length item)) m -> f m = appended item m) ->
  1 <= strlen key <= 23 ->
  writes_entry nt op key item.
Proof.
  intros Hop Hf Hlen m Hnt Hroom.
  rewrite Hop, encodeMapKey_appends; [|exact Hlen|].
  2:{ apply (room_weaken _ _ _ Hroom). lia. }
  rewrite Hf, appended_app; [reflexivity|exact Hnt|].
  apply room_appended; [|lia].
  apply (room_weaken _ _ _ Hroom). cbn [length]. unfold strlen. lia.
Qed.

(** [reserveBytes(n)] and the [memcpy] of [n] bytes guarded by
    [mResult == 0]. *)
Lemma copy_appends src n m :
  Z.of_nat (length (take (Z.to_nat n) src)) = n ->
  room n m ->
  (let m' := reserveBytes n m in
   let c := this m' in
   if mResult c =? 0 then
     {| this := set_mDataOffset (uint32 (mDataOffset c + n)) c;
        heap := memcpy (mBuf c + mDataOffset c) src n (heap m');
        loads := loads m' |}
   else m')
  = appended (take (Z.to_nat n) src) m.
Proof.
  intros Hn (Hres & Hoff & Hnd & Hfit & Hcap).
  assert (0 <= n) by lia.
  destruct m as [[buf cap nd off res ro nt d fr] h l].
  unfold reserveBytes, with_this, appended, memcpy. cbn in *. subst.
  rewrite (uint32_small n) by lia.
  rewrite (uint32_small (nd + n)) by lia.
  destruct (Z.ltb_spec cap (nd + n)); [lia|]. cbn.
  rewrite (uint32_small (nd + n)) by lia.
  rewrite Hn. reflexivity.
Qed.

Lemma room_split a b m : room (a + b) m -> 0 <= b -> room a m.
Proof. unfold room. cbv zeta. lia. Qed.

(** A header and a block of [n] bytes copied from [src]. *)
Lemma header_copy_appends mj src n m :
  0 <= mj < 8 -> 0 <= n < 2 ^ 32 ->
  Z.of_nat (length (take (Z.to_nat n) src)) = n ->
  room (header_size n + n) m ->
  (let m' := reserveBytes n (encodeHeader mj n m) in
   let c := this m' in
   if mResult c =? 0 then
     {| this := set_mDataOffset (uint32 (mDataOffset c + n)) c;
        heap := memcpy (mBuf c + mDataOffset c) src n (heap m');
        loads := loads m' |}
   else m')
  = appended (header_image mj n ++ take (Z.to_nat n) src) m.
Proof.
  intros Hmj Hn Hsrc Hroom.
  rewrite (encodeHeader_appends mj n Hmj Hn m).
  2:{ rewrite length_header_image. apply (room_split _ n); [exact Hroom|lia]. }
  rewrite <- appended_app.
  apply copy_appends; [exact Hsrc|].
  apply room_appended; [|lia]. rewrite length_header_image. exact Hroom.
Qed.

Lemma length_string_item nt s :
  strlen s + 1 < 2 ^ 32 ->
  Z.of_nat (length (string_item nt s))
  = header_size (strlen s + (if nt then 1 else 0))
    + (strlen s + (if nt then 1 else 0)).
Proof.
  intros _. unfold string_item.
  rewrite !length_app, !Nat2Z.inj_add, length_header_image.
  unfold strlen. destruct nt; cbn [length]; lia.
Qed.

Lemma take_c_bytes (nt : bool) s :
  take (Z.to_nat (strlen s + (if nt then 1 else 0))) (c_bytes s)
  = c_str s ++ (if nt then [0] else []).
Proof.
  unfold c_bytes, strlen. destruct nt.
  - rewrite take_ge; [reflexivity|]. rewrite length_app. cbn. lia.
  - rewrite Z.add_0_r, Nat2Z.id, take_app_length, app_nil_r. reflexivity.
Qed.

Lemma encodeString_appends nt s m :
  strlen s + 1 < 2 ^ 32 ->
  room (Z.of_nat (length (string_item nt s))) m ->
  encodeString s nt m = appended (string_item nt s) m.
Proof.
  intros Hs Hroom. rewrite length_string_item in Hroom by exact Hs.
  unfold encodeString, string_item. cbv zeta.
  rewrite <- take_c_bytes.
  replace (if nt then strlen s + 1 else strlen s)
    with (strlen s + (if nt then 1 else 0)) by (destruct nt; lia).
  assert (0 <= strlen s) by (unfold strlen; lia).
  apply header_copy_appends; [lia|destruct nt; lia| |exact Hroom].
  rewrite take_c_bytes, length_app. unfold strlen.
  destruct nt; cbn [length]; lia.
Qed.

Lemma encodeTag_appends T :
  appends (encodeTag (kCborTagInfo T)) [216; kCborTagInfo T].
Proof.
  assert (H : forall t, 24 <= t < 256 -> appends (encodeTag t) [216; t]).
  { intros t Ht. unfold encodeTag. cbv zeta.
    replace (uint16 t) with t by (unfold uint16; lia).
    destruct (Z.ltb_spec t 24); [lia|].
    destruct (Z.ltb_spec t 256); [|lia].
    refine (eq_rect _ (appends _) (store2_appends _ _) _ _).
    unfold uint8. rewrite (Z.mod_small t) by lia. reflexivity. }
  apply H. destruct T as [[]| |]; vm_compute;
    (split; [intros E; discriminate E|reflexivity]).
Qed.

Lemma encodeBytes_appends bytes n m :
  0 <= n < 2 ^ 32 ->
  Z.of_nat (length bytes) = n ->
  room (header_size n + n) m ->
  encodeBytes bytes n m = appended (header_image 2 n ++ bytes) m.
Proof.
  intros Hn Hlen Hroom. unfold encodeBytes. cbv zeta.
  rewrite (uint32_small n) by exact Hn.
  replace bytes with (take (Z.to_nat n) bytes) at 2
    by (apply take_ge; lia).
  apply header_copy_appends; [unfold kCborByteString; lia|exact Hn| |exact Hroom].
  rewrite take_ge by lia. exact Hlen.
Qed.

Lemma add_value_writes nt key x :
  value_ok x ->
  1 <= strlen key <= 23 ->
  writes_entry nt (add_value key x) key (value_image nt x).
Proof.
  intros Hx Hlen. destruct x as [T v|b|bits|bits|s|T v|T bytes n];
    cbn [add_value value_image value_ok] in *.
  - apply writes_pair_entry, add_int_writes_pair; assumption.
  - apply writes_pair_entry, add_bool_writes_pair; assumption.
  - apply writes_pair_entry, add_float_writes_pair; assumption.
  - apply (writes_entry_intro nt _ key _
             (encodeUInt64 kCborFloat64 (uint64 bits)));
      [reflexivity| |exact Hlen].
    intros m _ Hroom.
    rewrite (encodeUInt64_appends _ _ m Hroom).
    unfold double_item. rewrite !(uint64_small bits) by lia. reflexivity.
  - apply (writes_entry_intro nt _ key _
             (fun m => encodeString s (mNullTerminate (this m)) m));
      [reflexivity| |exact Hlen].
    intros m Hnt Hroom. rewrite Hnt.
    apply encodeString_appends; assumption.
  - destruct Hx as [HT Hv].
    apply (writes_entry_intro nt _ key _
             (fun m => if 0 <=? v then encodeHeader kCborPosInt v m
                       else encodeHeader kCborNegInt (-1 - v) m));
      [| |exact Hlen].
    + intros m. cbn [encode_op]. unfold addMinimal. cbv zeta.
      rewrite (cast_in_range T v HT). reflexivity.
    + intros m _ Hroom. unfold minimal_item in *.
      destruct (Z.leb_spec 0 v).
      * apply (encodeHeader_appends kCborPosInt v);
          [unfold kCborPosInt; lia|lia|exact Hroom].
      * apply (encodeHeader_appends kCborNegInt (-1 - v));
          [unfold kCborNegInt; lia|lia|exact Hroom].
  - destruct Hx as (Hn & Hbytes & Hraw).
    apply (writes_entry_intro nt _ key _
             (fun m => encodeBytes bytes (uint32 n * elem_sizeof T)
                         (encodeTag (kCborTagInfo T) m)));
      [reflexivity| |exact Hlen].
    intros m _ Hroom.
    assert (HS : 1 <= elem_sizeof T)
      by (destruct (elem_sizeof_cases T) as [-> | [-> | [-> | ->]]]; lia).
    rewrite (uint32_small n) by nia.
    unfold array_item in *.
    rewrite length_app, Nat2Z.inj_add in Hroom.
    rewrite (encodeTag_appends T m).
    2:{ apply (room_split _ _ _ Hroom). lia. }
    rewrite <- appended_app. rewrite <- Hbytes.
    apply encodeBytes_appends; [lia|reflexivity|].
    pose proof (header_size_range (Z.of_nat (length bytes))).
    apply room_appended; [|lia].
    rewrite length_app, Nat2Z.inj_add, length_header_image in Hroom.
    exact Hroom.
Qed.

(** ** The image of a flat map *)

Lemma wrote_startMap frames buf cap nt heap0 :
  1 <= cap < 2 ^ 32 ->
  wrote buf cap nt heap0 [] 0
    (startMap 0 (on_heap (MicroCbor_new frames buf cap nt) heap0)).
Proof.
  intros Hcap.
  set (c0 := set_frame 0 {| mapStartPos := 0; mapStartCount := 0; mapCount := 0 |}
               (set_mDepth 0 (MicroCbor_new frames buf cap nt))).
  set (m0 := {| this := c0; heap := heap0; loads := [] |}).
  assert (Hcap0 : mMaxBufLen c0 = cap) by (cbn; apply uint32_small; lia).
  assert (H1 : startMap 0 (on_heap (MicroCbor_new frames buf cap nt) heap0)
               = appended [160] m0).
  { transitivity (storeByte 160 (reserveBytes 1 m0)); [reflexivity|].
    apply (store1_appends 160).
    unfold room. cbv zeta. cbn [this m0]. rewrite Hcap0. cbn. lia. }
  rewrite H1. unfold wrote, appended. cbn.
  rewrite (uint32_small cap) by lia.
  replace (buf + 0) with buf by lia.
  repeat split; reflexivity.
Qed.

Lemma wrote_entry buf cap nt heap0 body k op key item m :
  wrote buf cap nt heap0 body k m ->
  writes_entry nt op key item ->
  2 + Z.of_nat (length body) + strlen key + Z.of_nat (length item) <= cap ->
  cap < 2 ^ 32 ->
  0 <= k < 65535 ->
  wrote buf cap nt heap0
    (body ++ ((96 + strlen key) :: c_str key) ++ item) (k + 1)
    (encode_op op m).
Proof.
  intros (Hres & Hbuf & Hc & Hnt & Hd & Hoff & Hnd & Hheap & Hl & Hfr)
    Hop Hfit Hcap Hk.
  rewrite (Hop m Hnt).
  2:{ unfold room. cbv zeta. lia. }
  destruct m as [[buf' cap' nd off res ro nt' d fr] h l]. cbn in *. subst.
  unfold wrote, appended. cbn.
  rewrite Hfr. cbn. rewrite (uint16_small (k + 1)) by lia.
  rewrite !length_app. cbn [length]. rewrite length_app.
  repeat split; try reflexivity; try (unfold strlen; lia).
  rewrite (poke_bytes_app (buf + 1) body). cbn [poke_bytes].
  repeat (f_equal; try lia).
Qed.

Lemma entries_image_cons nt key x es :
  entries_image nt ((key, x) :: es)
  = ((96 + strlen key) :: c_str key) ++ value_image nt x
    ++ entries_image nt es.
Proof.
  unfold entries_image, entry_image. cbn [map concat fst snd].
  rewrite <- app_assoc. reflexivity.
Qed.

Lemma wrote_entries buf cap nt heap0 es :
  Forall entry_ok es ->
  cap < 2 ^ 32 ->
  forall body k m,
    wrote buf cap nt heap0 body k m ->
    1 + Z.of_nat (length body) + Z.of_nat (length (entries_image nt es))
    <= cap ->
    0 <= k -> k + Z.of_nat (length es) < 65536 ->
    wrote buf cap nt heap0 (body ++ entries_image nt es)
      (k + Z.of_nat (length es)) (encode (add_entries es) m).
Proof.
  intros Hes Hcap. induction Hes as [|[key x] es [Hkey Hx] Hes IH];
    intros body k m Hw Hfit Hk0 Hk.
  - cbn. rewrite app_nil_r, Z.add_0_r. exact Hw.
  - cbn [fst snd] in Hkey, Hx.
    rewrite entries_image_cons in *.
    assert (Hlen : Z.of_nat (length (((96 + strlen key) :: c_str key)
                                     ++ value_image nt x
                                     ++ entries_image nt es))
                   = 1 + strlen key + Z.of_nat (length (value_image nt x))
                     + Z.of_nat (length (entries_image nt es))).
    { rewrite length_app. cbn [length]. rewrite length_app.
      unfold strlen. lia. }
    rewrite Hlen in Hfit.
    pose proof (wrote_entry buf cap nt heap0 body k (add_value key x) key
                  (value_image nt x) m Hw
                  (add_value_writes nt key x Hx Hkey)) as Hstep.
    change (encode (add_entries ((key, x) :: es)) m)
      with (encode (add_entries es) (encode_op (add_value key x) m)).
    specialize (IH (body ++ ((96 + strlen key) :: c_str key)
                          ++ value_image nt x) (k + 1)
                  (encode_op (add_value key x) m)).
    replace (k + Z.of_nat (length ((key, x) :: es)))
      with (k + 1 + Z.of_nat (length es)) by (cbn [length]; lia).
    replace (body ++ (96 + strlen key :: c_str key) ++ value_image nt x
                  ++ entries_image nt es)
      with ((body ++ (96 + strlen key :: c_str key) ++ value_image nt x)
            ++ entries_image nt es)
      by (rewrite <- !app_assoc; reflexivity).
    cbn [length] in Hk.
    apply IH.
    + apply Hstep; [lia|exact Hcap|lia].
    + rewrite !length_app. cbn [length]. rewrite ?length_app.
      unfold strlen in *. lia.
    + lia.
    + lia.
Qed.

Lemma encode_app ops1 ops2 m :
  encode (ops1 ++ ops2) m = encode ops2 (encode ops1 m).
Proof. unfold encode. apply fold_left_app. Qed.

Lemma holds_at_poke_bytes h a bs :
  0 <= a -> a + Z.of_nat (length bs) <= Z.of_nat (length h) ->
  holds_at (poke_bytes a bs h) a bs.
Proof. intros Ha Hfit i Hi. apply peek_poke_bytes_in; assumption. Qed.

(** What [startMap(); add ...; endMap()] leaves, for fewer than 24
    entries. *)
Lemma encode_flat_map_state frames buf cap nt heap0 es :
  Forall entry_ok es ->
  (length es < 24)%nat ->
  0 <= buf ->
  Z.of_nat (length (map_image nt es)) <= cap < 2 ^ 32 ->
  buf + cap <= Z.of_nat (length heap0) ->
  let m := encode (flat_map es)
             (on_heap (MicroCbor_new frames buf cap nt) heap0) in
  mResult (this m) = 0
  /\ mBuf (this m) = buf
  /\ mMaxBufLen (this m) = cap
  /\ mDataOffset (this m) = Z.of_nat (length (map_image nt es))
  /\ mBufBytesNeeded (this m) = Z.of_nat (length (map_image nt es))
  /\ length (heap m) = length heap0
  /\ holds_at (heap m) buf (map_image nt es)
  /\ (forall a,
        a < buf \/ buf + Z.of_nat (length (map_image nt es)) <= a ->
        peek (heap m) a = peek heap0 a).
Proof.
  intros Hes HN Hbuf Hcap Hheap.
  unfold map_image in *. cbn [length] in Hcap.
  pose proof (wrote_startMap frames buf cap nt heap0 ltac:(lia)) as H0.
  pose proof (wrote_entries buf cap nt heap0 es Hes ltac:(lia) [] 0 _ H0
                ltac:(cbn [length]; lia) ltac:(lia) ltac:(lia)) as H1.
  cbn [app] in H1. rewrite Z.add_0_l in H1.
  cbv zeta. unfold flat_map.
  change (OpStartMap 0 :: add_entries es ++ [OpEndMap])
    with ([OpStartMap 0] ++ add_entries es ++ [OpEndMap]).
  rewrite !encode_app.
  change (encode [OpStartMap 0]
            (on_heap (MicroCbor_new frames buf cap nt) heap0))
    with (startMap 0 (on_heap (MicroCbor_new frames buf cap nt) heap0)).
  revert H1.
  generalize (encode (add_entries es)
                (startMap 0
                   (on_heap (MicroCbor_new frames buf cap nt) heap0))).
  intros m (Hres & Hb & Hc & Hnt & Hd & Hoff & Hnd & Hh & Hl & Hfr).
  change (encode [OpEndMap] m) with (endMap m).
  set (body := entries_image nt es) in *.
  set (k := Z.of_nat (length es)) in *.
  assert (Hk : 0 <= k < 24) by lia.
  assert (Hend : heap (endMap m)
                 = if k =? 0 then heap m else poke buf (160 + k) (heap m)).
  { unfold endMap. cbv zeta. cbn [heap]. rewrite Hd, Hfr, Hres, Hb.
    cbn [mapCount mapStartCount mapStartPos].
    change (0 =? 0) with true. cbn [andb].
    destruct (Z.eqb_spec k 0) as [_|_]; [reflexivity|]. cbn [negb].
    destruct (Z.ltb_spec k 24); [|lia].
    destruct (header_byte_split 5 k) as (E & _); [lia|lia|].
    change (Z.shiftl kCborMap 5) with (Z.shiftl 5 5). rewrite E.
    unfold uint8. rewrite Z.mod_small by lia.
    rewrite Z.add_0_r. reflexivity. }
  assert (Hlen : length (heap m) = length heap0)
    by (rewrite Hh; apply length_poke_bytes).
  split; [exact Hres|]. split; [exact Hb|]. split; [exact Hc|].
  split.
  { change (mDataOffset (this (endMap m))) with (mDataOffset (this m)).
    cbn [length]. lia. }
  split.
  { change (mBufBytesNeeded (this (endMap m)))
      with (mBufBytesNeeded (this m)).
    cbn [length]. lia. }
  split.
  { rewrite Hend. destruct (k =? 0); [exact Hlen|].
    rewrite length_poke. exact Hlen. }
  split.
  - intros i Hi. rewrite Hend. cbn [length] in Hi.
    destruct i as [|i].
    + rewrite Z.add_0_r. cbn [lookup list_lookup default].
      destruct (Z.eqb_spec k 0) as [->|_].
      * rewrite Hh.
        rewrite <- (Z.add_0_r buf) at 2.
        exact (peek_poke_bytes_in (160 :: body) buf heap0 0
                 Hbuf ltac:(cbn [length]; lia) ltac:(cbn [length]; lia)).
      * apply peek_poke_eq. lia.
    + assert (E : peek (heap m) (buf + Z.of_nat (S i))
                  = default 0 ((160 :: body) !! S i)).
      { rewrite Hh. apply peek_poke_bytes_in;
          [exact Hbuf|cbn [length]; lia|cbn [length]; lia]. }
      cbn [lookup list_lookup] in *.
      destruct (k =? 0); [exact E|].
      rewrite peek_poke_ne by lia. exact E.
  - intros a Ha. cbn [length] in Ha. rewrite Hend.
    assert (E : peek (heap m) a = peek heap0 a).
    { rewrite Hh. apply peek_poke_bytes_out. cbn [length]. lia. }
    destruct (k =? 0); [exact E|].
    rewrite peek_poke_ne by lia. exact E.
Qed.

(** The writer on a flat map.  For every list of fewer than 24 entries
    with keys of 1 to 23 characters, on a fresh instance whose buffer holds
    the image: the run succeeds, has serialized and reserved exactly the
    length of the image, the buffer starts with the image, and no byte
    outside the image has changed. *)
Theorem flat_map_image_written frames buf cap nt heap0 es :
  Forall entry_ok es ->
  (length es < 24)%nat ->
  0 <= buf ->
  Z.of_nat (length (map_image nt es)) <= cap < 2 ^ 32 ->
  buf + cap <= Z.of_nat (length heap0) ->
  let m := encode (flat_map es)
             (on_heap (MicroCbor_new frames buf cap nt) heap0) in
  getResult m = 0
  /\ bytesSerialized m = Z.of_nat (length (map_image nt es))
  /\ bytesNeeded m = Z.of_nat (length (map_image nt es))
  /\ length (heap m) = length heap0
  /\ holds_at (heap m) buf (map_image nt es)
  /\ (forall a,
        a < buf \/ buf + Z.of_nat (length (map_image nt es)) <= a ->
        peek (heap m) a = peek heap0 a).
Proof.
  intros Hes HN Hbuf Hcap Hheap.
  pose proof (encode_flat_map_state frames buf cap nt heap0 es
                Hes HN Hbuf Hcap Hheap) as H.
  cbv zeta in *.
  destruct H as (H1 & _ & _ & H4 & H5 & H6 & H7 & H8).
  auto 10.
Qed.

(** ** Reading items *)

Lemma getFieldValue_at info o l m :
  exists l',
    getFieldValue info (at_offset o l m)
    = Some (field_value (heap m) info, at_offset o l' m).
Proof.
  unfold getFieldValue, field_value, bind, load, ret, at_offset.
  cbv zeta. cbn [heap this loads].
  repeat (destruct (_ =? _); [eexists; reflexivity|]).
  eexists; reflexivity.
Qed.

Lemma getFieldValue_value info m :
  value_of (getFieldValue info m) = Some (field_value (heap m) info).
Proof.
  unfold getFieldValue, field_value, bind, load, ret.
  cbv zeta. cbn [heap this loads].
  repeat (destruct (_ =? _); [reflexivity|]).
  reflexivity.
Qed.

Section ReadItems.

Variable indet : TypeInfo.
Variable behindTable : Z -> Z.

(** Skipping an item that is neither a map nor an array: past its header
    and, for a string, past its bytes. *)
Lemma skipField_item fuel info o l m paylen :
  majorval info <> kCborMap ->
  majorval info <> kCborArray ->
  0 <= o -> 0 <= headerBytes info -> 0 <= paylen ->
  o + headerBytes info + paylen <= mMaxBufLen (this m) ->
  mMaxBufLen (this m) < 2 ^ 32 ->
  paylen = (if (majorval info =? kCborByteString)
               || (majorval info =? kCborUTF8String)
            then field_value (heap m) info else 0) ->
  exists l',
    skipField indet behindTable (S fuel) info (at_offset o l m)
    = Some (tt, at_offset (o + headerBytes info + paylen) l' m).
Proof.
  intros Hmap Harr Ho Hhb Hpay Hfit Hcap Hlen.
  rewrite skipField_eq. unfold bind at 1.
  destruct (getFieldValue_at info o l m) as [l1 ->].
  unfold bind at 1, update at 1.
  change (with_this _ (at_offset o l1 m))
    with (at_offset (uint32 (o + headerBytes info)) l1 m).
  rewrite (uint32_small (o + headerBytes info)) by lia.
  unfold bind at 1, self at 1.
  cbn [this at_offset mMaxBufLen mDataOffset set_mDataOffset].
  destruct (Z.leb_spec (mMaxBufLen (this m)) (o + headerBytes info)).
  { exists l1. replace (o + headerBytes info + paylen)
      with (o + headerBytes info) by lia. reflexivity. }
  destruct ((majorval info =? kCborByteString)
            || (majorval info =? kCborUTF8String)).
  - exists l1. unfold update.
    change (with_this _ (at_offset (o + headerBytes info) l1 m))
      with (at_offset
              (uint32 (o + headerBytes info + field_value (heap m) info))
              l1 m).
    rewrite <- Hlen. rewrite uint32_small by lia. reflexivity.
  - destruct (Z.eqb_spec (majorval info) kCborMap); [contradiction|].
    destruct (Z.eqb_spec (majorval info) kCborArray); [contradiction|].
    exists l1. replace (o + headerBytes info + paylen)
      with (o + headerBytes info) by lia. reflexivity.
Qed.

End ReadItems.

Lemma header_bytes_of_range mn : 1 <= header_bytes_of mn <= 9.
Proof.
  unfold header_bytes_of.
  repeat (destruct (_ <? _) || destruct (_ =? _); [lia|]). lia.
Qed.

Lemma holds_at_head h a item :
  (0 < length item)%nat ->
  holds_at h a item -> peek h a = default 0 (head item).
Proof.
  intros Hlen H. specialize (H 0%nat Hlen). rewrite Z.add_0_r in H.
  rewrite H. destruct item; reflexivity.
Qed.

Lemma holds_at_app_l h a bs1 bs2 :
  holds_at h a (bs1 ++ bs2) -> holds_at h a bs1.
Proof.
  intros H i Hi. rewrite H by (rewrite length_app; lia).
  rewrite lookup_app_l by exact Hi. reflexivity.
Qed.

Lemma holds_at_app_r h a bs1 bs2 :
  holds_at h a (bs1 ++ bs2) ->
  holds_at h (a + Z.of_nat (length bs1)) bs2.
Proof.
  intros H i Hi.
  replace (a + Z.of_nat (length bs1) + Z.of_nat i)
    with (a + Z.of_nat (length bs1 + i)) by lia.
  rewrite H by (rewrite length_app; lia).
  rewrite lookup_app_r by lia.
  replace (length bs1 + i - length bs1)%nat with i by lia. reflexivity.
Qed.

Section ReadPlain.

Variable indet : TypeInfo.
Variable behindTable : Z -> Z.

Lemma kCborheaderBytes_table mn :
  0 <= mn < 28 -> kCborheaderBytes behindTable mn = header_bytes_of mn.
Proof.
  intros H. unfold kCborheaderBytes, header_bytes_of.
  assert (E : exists n : nat, (n < 28)%nat /\ Z.to_nat mn = n /\ mn = Z.of_nat n)
    by (exists (Z.to_nat mn); lia).
  destruct E as (n & Hn & -> & ->).
  do 28 (destruct n as [|n]; [reflexivity|]). lia.
Qed.

Lemma getNextField_item fuel item o l m :
  plain_item item ->
  holds_at (heap m) (mBuf (this m) + o) item ->
  0 <= o ->
  o + Z.of_nat (length item) <= mMaxBufLen (this m) ->
  mMaxBufLen (this m) + 255 < 2 ^ 32 ->
  getNextField indet behindTable (S fuel) (at_offset o l m)
  = Some (item_info (mBuf (this m) + o) item,
          at_offset o ((mBuf (this m) + o) :: l) m).
Proof.
  intros (Hmj & Hmn & Hhb & _) Hheap Ho Hfit Hcap.
  pose proof (header_bytes_of_range (Z.land (default 0 (head item)) 31)).
  assert (Hpos : (0 < length item)%nat) by lia.
  pose proof (holds_at_head _ _ _ Hpos Hheap) as Hb.
  rewrite (getNextField_plain indet behindTable fuel m o l
             (default 0 (head item)));
    [| lia | exact Hcap | exact Hb | | ].
  - rewrite kCborheaderBytes_table by exact Hmn. reflexivity.
  - unfold kCborTag. lia.
  - rewrite kCborheaderBytes_table by exact Hmn. lia.
Qed.

Lemma skipField_plain fuel item o l m :
  plain_item item ->
  holds_at (heap m) (mBuf (this m) + o) item ->
  0 <= o ->
  o + Z.of_nat (length item) <= mMaxBufLen (this m) ->
  mMaxBufLen (this m) < 2 ^ 32 ->
  exists l',
    skipField indet behindTable (S fuel)
      (item_info (mBuf (this m) + o) item) (at_offset o l m)
    = Some (tt, at_offset (o + Z.of_nat (length item)) l' m).
Proof.
  intros (Hmj & Hmn & Hhb & Hpay) Hheap Ho Hfit Hcap.
  pose proof (header_bytes_of_range (Z.land (default 0 (head item)) 31)).
  specialize (Hpay _ _ Hheap).
  destruct (skipField_item indet behindTable fuel
              (item_info (mBuf (this m) + o) item) o l m
              (Z.of_nat (length item)
               - header_bytes_of (Z.land (default 0 (head item)) 31)))
    as [l' Hskip]; cbn [majorval headerBytes item_info];
    try (unfold kCborMap, kCborArray; lia).
  - exists l'. rewrite Hskip. f_equal. f_equal. f_equal.
    unfold item_info. cbn [headerBytes]. lia.
Qed.

End ReadPlain.

(** ** The items of the writer are items of the reader *)

Lemma header_image_head mj len :
  0 <= mj < 8 -> 0 <= len < 2 ^ 32 ->
  exists mn rest,
    header_image mj len = (mj * 32 + mn) :: rest
    /\ 0 <= mn < 27
    /\ Z.shiftr (mj * 32 + mn) 5 = mj
    /\ Z.land (mj * 32 + mn) 31 = mn
    /\ header_bytes_of mn = header_size len
    /\ (len < 24 -> mn = len).
Proof.
  intros Hmj Hlen. unfold header_image, header_size.
  destruct (Z.ltb_spec len 24).
  { exists len, []. destruct (header_byte_split mj len) as (_ & ? & ?);
      [lia|lia|].
    unfold header_bytes_of. destruct (Z.ltb_spec len 24); [|lia].
    repeat split; auto; lia. }
  destruct (Z.ltb_spec len 256).
  { eexists 24, _. destruct (header_byte_split mj 24) as (_ & ? & ?);
      [lia|lia|].
    repeat split; auto; lia. }
  destruct (Z.ltb_spec len 65536).
  { eexists 25, _. destruct (header_byte_split mj 25) as (_ & ? & ?);
      [lia|lia|].
    repeat split; auto; lia. }
  eexists 26, _. destruct (header_byte_split mj 26) as (_ & ? & ?);
    [lia|lia|].
  repeat split; auto; lia.
Qed.

(** The reader decodes the length a header was written for. *)
Lemma field_value_header mj len rest h a tg :
  0 <= mj < 8 -> 0 <= len < 2 ^ 32 ->
  holds_at h a (header_image mj len ++ rest) ->
  field_value h
    (mkTypeInfo tg mj
       (Z.land (default 0 (head (header_image mj len))) 31)
       (header_size len) a)
  = len.
Proof.
  intros Hmj Hlen Hh. apply holds_at_app_l in Hh. revert Hh.
  unfold header_image, header_size, field_value. cbv zeta.
  cbn [p headerBytes minorval].
  destruct (Z.ltb_spec len 24).
  { intros _. cbn. destruct (header_byte_split mj len) as (_ & _ & ->);
      [lia|lia|reflexivity]. }
  destruct (Z.ltb_spec len 256).
  { intros Hh. cbn. exact (Hh 1%nat ltac:(cbn; lia)). }
  destruct (Z.ltb_spec len 65536).
  { intros Hh.
    pose proof (Hh 1%nat ltac:(cbn; lia)) as P1.
    pose proof (Hh 2%nat ltac:(cbn; lia)) as P2.
    cbn [lookup list_lookup default] in P1, P2.
    change (Z.of_nat 1) with 1 in P1. change (Z.of_nat 2) with 2 in P2.
    change (3 =? 1) with false. change (3 =? 2) with false.
    change (3 =? 3) with true. cbv iota.
    replace (a + 1 + 1) with (a + 2) by lia.
    rewrite P1, P2. apply combine16. lia. }
  intros Hh.
  pose proof (Hh 1%nat ltac:(cbn; lia)) as P1.
  pose proof (Hh 2%nat ltac:(cbn; lia)) as P2.
  pose proof (Hh 3%nat ltac:(cbn; lia)) as P3.
  pose proof (Hh 4%nat ltac:(cbn; lia)) as P4.
  cbn [lookup list_lookup default] in P1, P2, P3, P4.
  change (Z.of_nat 1) with 1 in P1. change (Z.of_nat 2) with 2 in P2.
  change (Z.of_nat 3) with 3 in P3. change (Z.of_nat 4) with 4 in P4.
  change (5 =? 1) with false. change (5 =? 2) with false.
  change (5 =? 3) with false. change (5 =? 5) with true. cbv iota.
  replace (a + 1 + 1) with (a + 2) by lia.
  replace (a + 1 + 2) with (a + 3) by lia.
  replace (a + 1 + 3) with (a + 4) by lia.
  rewrite P1, P2, P3, P4. apply combine32. lia.
Qed.

(** A header followed by the bytes it announces (a string), or a header
    alone (an integer). *)
Lemma plain_item_header mj len payload :
  (mj = 0 \/ mj = 1 \/ mj = 2 \/ mj = 3 \/ mj = 7) ->
  0 <= len < 2 ^ 32 ->
  Z.of_nat (length payload) = (if (mj =? 2) || (mj =? 3) then len else 0) ->
  plain_item (header_image mj len ++ payload).
Proof.
  intros Hmj Hlen Hpay.
  destruct (header_image_head mj len) as (mn & rest & E & Hmn & Hs & Hl & Hhb & _);
    [lia|lia|].
  pose proof (length_header_image mj len) as Hlh.
  pose proof (header_size_range len).
  unfold plain_item. cbv zeta.
  assert (Hhead : default 0 (head (header_image mj len ++ payload))
                  = mj * 32 + mn) by (rewrite E; reflexivity).
  rewrite Hhead, Hs, Hl, Hhb.
  split; [exact Hmj|]. split; [lia|].
  rewrite length_app, Nat2Z.inj_add, Hlh. split; [lia|].
  intros h a Hh.
  change kCborByteString with 2. change kCborUTF8String with 3.
  rewrite Hpay.
  destruct ((mj =? 2) || (mj =? 3)); [|lia].
  unfold item_info. cbv zeta. rewrite Hhead, Hs, Hl, Hhb.
  pose proof (field_value_header mj len payload h a kCborTagInvalid
                ltac:(lia) Hlen Hh) as Hv.
  rewrite E in Hv.
  change (default 0 (head (mj * 32 + mn :: rest))) with (mj * 32 + mn) in Hv.
  rewrite Hl in Hv.
  rewrite Hv. lia.
Qed.

(** An item that is a header of [n] bytes with major type 0, 1 or 7. *)
Lemma plain_item_fixed vb rest :
  (Z.shiftr vb 5 = 0 \/ Z.shiftr vb 5 = 1 \/ Z.shiftr vb 5 = 7) ->
  0 <= Z.land vb 31 < 28 ->
  header_bytes_of (Z.land vb 31) = Z.of_nat (length (vb :: rest)) ->
  plain_item (vb :: rest).
Proof.
  intros Hmj Hmn Hhb. unfold plain_item. cbv zeta.
  change (default 0 (head (vb :: rest))) with vb.
  split; [lia|]. split; [exact Hmn|]. split; [lia|].
  intros h a _. change kCborByteString with 2. change kCborUTF8String with 3.
  destruct (Z.eqb_spec (Z.shiftr vb 5) 2); [lia|].
  destruct (Z.eqb_spec (Z.shiftr vb 5) 3); [lia|].
  cbn [orb]. lia.
Qed.

Lemma plain_item_int T v : in_range T v -> plain_item (int_item T v).
Proof.
  intros _. unfold int_item. cbv zeta.
  destruct (v <? 0); destruct T; cbn [sizeof];
    (apply plain_item_fixed;
     [ vm_compute; auto
     | vm_compute; split; [intros E; discriminate E|reflexivity]
     | reflexivity ]).
Qed.

Lemma plain_item_bool b : plain_item (bool_item b).
Proof.
  destruct b; (apply plain_item_fixed;
     [ vm_compute; auto
     | vm_compute; split; [intros E; discriminate E|reflexivity]
     | reflexivity ]).
Qed.

Lemma plain_item_float bits : plain_item (float_item bits).
Proof.
  (apply plain_item_fixed;
     [ vm_compute; auto
     | vm_compute; split; [intros E; discriminate E|reflexivity]
     | reflexivity ]).
Qed.

Lemma plain_item_double bits : plain_item (double_item bits).
Proof.
  (apply plain_item_fixed;
     [ vm_compute; auto
     | vm_compute; split; [intros E; discriminate E|reflexivity]
     | reflexivity ]).
Qed.

Lemma plain_item_string nt s :
  strlen s + 1 < 2 ^ 32 -> plain_item (string_item nt s).
Proof.
  intros Hs. unfold string_item.
  assert (0 <= strlen s) by (unfold strlen; lia).
  apply plain_item_header; [auto|destruct nt; lia|].
  cbn [Z.eqb Pos.eqb orb]. rewrite length_app. unfold strlen.
  destruct nt; cbn [length]; lia.
Qed.

Lemma plain_item_minimal v :
  - 2 ^ 32 <= v < 2 ^ 32 -> plain_item (minimal_item v).
Proof.
  intros Hv. unfold minimal_item.
  destruct (Z.leb_spec 0 v).
  - rewrite <- (app_nil_r (header_image 0 v)).
    apply plain_item_header; [auto|lia|reflexivity].
  - rewrite <- (app_nil_r (header_image 1 (-1 - v))).
    apply plain_item_header; [auto|lia|reflexivity].
Qed.

Lemma plain_item_bytes bytes :
  Z.of_nat (length bytes) < 2 ^ 32 ->
  plain_item (header_image 2 (Z.of_nat (length bytes)) ++ bytes).
Proof.
  intros H. apply plain_item_header; [auto|lia|reflexivity].
Qed.

Lemma plain_item_value nt x :
  value_ok x ->
  match x with
  | VArray T bytes n =>
      plain_item (header_image 2 (Z.of_nat (length bytes)) ++ bytes)
  | _ => plain_item (value_image nt x)
  end.
Proof.
  destruct x as [T v|b|bits|bits|s|T v|T bytes n]; cbn [value_ok value_image].
  - apply plain_item_int.
  - intros _. apply plain_item_bool.
  - intros _. apply plain_item_float.
  - intros _. apply plain_item_double.
  - apply plain_item_string.
  - intros [_ H]. apply plain_item_minimal, H.
  - intros (_ & H1 & H2). apply plain_item_bytes. lia.
Qed.

Lemma kCborTagInfo_range T : 24 <= kCborTagInfo T < 256.
Proof.
  destruct T as [[]| |]; vm_compute;
    (split; [intros E; discriminate E|reflexivity]).
Qed.

Section ReadValues.

Variable indet : TypeInfo.
Variable behindTable : Z -> Z.

Lemma skipField_tagged fuel tg item o l m :
  plain_item item ->
  holds_at (heap m) (mBuf (this m) + o) item ->
  0 <= o ->
  o + Z.of_nat (length item) <= mMaxBufLen (this m) ->
  mMaxBufLen (this m) < 2 ^ 32 ->
  exists l',
    skipField indet behindTable (S fuel)
      (set_tag tg (item_info (mBuf (this m) + o) item)) (at_offset o l m)
    = Some (tt, at_offset (o + Z.of_nat (length item)) l' m).
Proof.
  intros (Hmj & Hmn & Hhb & Hpay) Hheap Ho Hfit Hcap.
  pose proof (header_bytes_of_range (Z.land (default 0 (head item)) 31)).
  specialize (Hpay _ _ Hheap).
  set (hb := header_bytes_of (Z.land (default 0 (head item)) 31)) in *.
  set (info := set_tag tg (item_info (mBuf (this m) + o) item)).
  assert (E1 : majorval info <> kCborMap)
    by (cbn; unfold kCborMap; lia).
  assert (E2 : majorval info <> kCborArray)
    by (cbn; unfold kCborArray; lia).
  assert (E3 : 0 <= headerBytes info) by (cbn; fold hb; lia).
  assert (E4 : 0 <= Z.of_nat (length item) - hb) by lia.
  assert (E5 : o + headerBytes info + (Z.of_nat (length item) - hb)
               <= mMaxBufLen (this m)) by (cbn; fold hb; lia).
  assert (E6 : Z.of_nat (length item) - hb
               = (if (majorval info =? kCborByteString)
                     || (majorval info =? kCborUTF8String)
                  then field_value (heap m) info else 0))
    by (symmetry; exact Hpay).
  destruct (skipField_item indet behindTable fuel info o l m
              (Z.of_nat (length item) - hb) E1 E2 Ho E3 E4 E5 Hcap E6)
    as [l' Hskip].
  exists l'. rewrite Hskip. f_equal. f_equal. f_equal.
  cbn [headerBytes info set_tag item_info]. fold hb. lia.
Qed.

(** A tag of one byte and the item it applies to. *)
Lemma getNextField_tagged fuel tg item o l m :
  24 <= tg < 256 ->
  plain_item item ->
  holds_at (heap m) (mBuf (this m) + o) ([216; tg] ++ item) ->
  0 <= o ->
  o + 2 + Z.of_nat (length item) <= mMaxBufLen (this m) ->
  mMaxBufLen (this m) + 255 < 2 ^ 32 ->
  exists l',
    getNextField indet behindTable (S (S fuel)) (at_offset o l m)
    = Some (set_tag tg (item_info (mBuf (this m) + o + 2) item),
            at_offset (o + 2) l' m).
Proof.
  intros Htg Hitem Hheap Ho Hfit Hcap.
  assert (Hpos : 1 <= Z.of_nat (length item)).
  { destruct Hitem as (_ & _ & Hhb & _).
    pose proof (header_bytes_of_range (Z.land (default 0 (head item)) 31)).
    lia. }
  pose proof (Hheap 0%nat ltac:(cbn; lia)) as P0.
  pose proof (Hheap 1%nat ltac:(cbn; lia)) as P1.
  change (peek (heap m) (mBuf (this m) + o + 0) = 216) in P0.
  change (peek (heap m) (mBuf (this m) + o + 1) = tg) in P1.
  rewrite Z.add_0_r in P0.
  apply (holds_at_app_r _ _ [216; tg]) in Hheap. cbn [length] in Hheap.
  change (Z.of_nat 2) with 2 in Hheap.
  rewrite getNextField_eq. unfold bind at 1, self at 1.
  cbn [this at_offset mMaxBufLen mDataOffset mBuf set_mDataOffset].
  destruct (Z.leb_spec (mMaxBufLen (this m)) o); [lia|].
  cbv zeta. unfold bind at 1, load at 1.
  cbn [this heap loads at_offset mMaxBufLen mDataOffset mBuf set_mDataOffset].
  rewrite P0. change (Z.shiftr 216 5) with 6. change (Z.land 216 31) with 24.
  change (kCborheaderBytes behindTable 24) with 2.
  rewrite (uint32_small (o + 2)) by lia.
  destruct (Z.ltb_spec (mMaxBufLen (this m)) (o + 2)); [lia|].
  change (6 =? kCborTag) with true. cbv iota.
  set (l1 := mBuf (this m) + o :: l).
  change {| this := set_mDataOffset o (this m); heap := heap m; loads := l1 |}
    with (at_offset o l1 m).
  set (field := mkTypeInfo kCborTagInvalid 6 24 2 (mBuf (this m) + o)).
  unfold bind at 1.
  destruct (getFieldValue_at field o l1 m) as [l2 ->].
  assert (Hv : field_value (heap m) field = tg) by exact P1.
  rewrite Hv.
  unfold bind at 1.
  destruct (skipField_item indet behindTable fuel field o l2 m 0
              ltac:(discriminate) ltac:(discriminate) Ho
              ltac:(cbn; lia) ltac:(lia) ltac:(cbn; lia) ltac:(lia)
              eq_refl)
    as [l3 Hskip].
  change (o + headerBytes field + 0) with (o + 2 + 0) in Hskip.
  rewrite Z.add_0_r in Hskip. rewrite Hskip.
  unfold bind at 1.
  rewrite (getNextField_item indet behindTable fuel item (o + 2) l3 m);
    [|exact Hitem| |lia|lia|exact Hcap].
  2:{ replace (mBuf (this m) + (o + 2)) with (mBuf (this m) + o + 2) by lia.
      exact Hheap. }
  eexists. unfold ret. rewrite (uint16_small tg) by lia.
  replace (mBuf (this m) + (o + 2)) with (mBuf (this m) + o + 2) by lia.
  reflexivity.
Qed.

(** Reading and skipping the value of an entry. *)
Lemma value_read nt x o l m fuel :
  value_ok x ->
  holds_at (heap m) (mBuf (this m) + o) (value_image nt x) ->
  0 <= o ->
  o + Z.of_nat (length (value_image nt x)) <= mMaxBufLen (this m) ->
  mMaxBufLen (this m) + 255 < 2 ^ 32 ->
  exists t l1,
    getNextField indet behindTable (S (S fuel)) (at_offset o l m)
    = Some (value_info nt x (mBuf (this m) + o), at_offset (o + t) l1 m)
    /\ forall fuel' l2, exists l3,
         skipField indet behindTable (S fuel')
           (value_info nt x (mBuf (this m) + o)) (at_offset (o + t) l2 m)
         = Some (tt,
                 at_offset (o + Z.of_nat (length (value_image nt x))) l3 m).
Proof.
  intros Hx Hheap Ho Hfit Hcap.
  pose proof (plain_item_value nt x Hx) as Hplain.
  destruct x as [T v|b|bits|bits|s|T v|T bytes n];
    cbn [value_info];
    try (exists 0, (mBuf (this m) + o :: l); rewrite Z.add_0_r; split;
         [ apply getNextField_item; assumption
         | intros fuel' l2; apply skipField_plain; [assumption..|lia] ]).
  cbn [value_image] in *. unfold array_item in *.
  destruct (getNextField_tagged fuel (kCborTagInfo T) _ o l m
              (kCborTagInfo_range T) Hplain Hheap Ho) as [l1 Hget].
  { rewrite length_app in Hfit. cbn [length] in Hfit. lia. }
  { exact Hcap. }
  exists 2, l1. split; [exact Hget|].
  intros fuel' l2.
  apply (holds_at_app_r _ _ [216; kCborTagInfo T]) in Hheap.
  cbn [length] in Hheap. change (Z.of_nat 2) with 2 in Hheap.
  rewrite length_app in Hfit. cbn [length] in Hfit.
  destruct (skipField_tagged fuel' (kCborTagInfo T) _ (o + 2) l2 m Hplain)
    as [l3 Hskip].
  - replace (mBuf (this m) + (o + 2)) with (mBuf (this m) + o + 2) by lia.
    exact Hheap.
  - lia.
  - lia.
  - lia.
  - exists l3.
    replace (mBuf (this m) + (o + 2)) with (mBuf (this m) + o + 2) in Hskip
      by lia.
    rewrite Hskip. f_equal. f_equal. f_equal.
    cbn [app length]. lia.
Qed.

End ReadValues.

(** ** Looking a name up in a flat map *)

Lemma c_str_nonzero s : Forall (fun b => b <> 0) (c_str s).
Proof.
  induction s as [|c s IH]; cbn [c_str]; [constructor|].
  destruct (Z.eqb_spec (byte_of_ascii c) 0); [constructor|].
  constructor; assumption.
Qed.

Lemma find_entry_lookup nt name es :
  lookup_value name es = snd <$> find_entry nt name es.
Proof.
  induction es as [|[key x] es IH]; [reflexivity|]. cbn [lookup_value find_entry].
  destruct (bool_decide _); [reflexivity|]. rewrite IH.
  destruct (find_entry nt name es) as [[off y]|]; reflexivity.
Qed.

(** [strncmp(name, key, sLen) == 0] on a stored key without NUL that is
    not shorter than the name: equality of the bytes. *)
Lemma strncmp_key key :
  Forall (fun b => b <> 0) key ->
  forall name a o l m,
    holds_at (heap m) a key ->
    (length name <= length key)%nat ->
    exists l',
      strncmp name a (Z.of_nat (length key)) (at_offset o l m)
      = Some (bool_decide (name = key), at_offset o l' m).
Proof.
  induction 1 as [|k key Hk Hkey IH]; intros name a o l m Hh Hlen.
  - destruct name as [|c name]; [|cbn in Hlen; lia]. exists l. reflexivity.
  - assert (Hk0 : peek (heap m) a = k).
    { specialize (Hh 0%nat ltac:(cbn; lia)). rewrite Z.add_0_r in Hh.
      exact Hh. }
    assert (Hrest : holds_at (heap m) (a + 1) key).
    { intros i Hi. specialize (Hh (S i) ltac:(cbn; lia)).
      replace (a + 1 + Z.of_nat i) with (a + Z.of_nat (S i)) by lia.
      exact Hh. }
    assert (Hn : (Z.of_nat (length (k :: key)) <=? 0) = false)
      by (apply Z.leb_gt; cbn [length]; lia).
    destruct name as [|c name].
    + exists (a :: l). cbn [strncmp]. rewrite Hn.
      unfold bind, load, ret. cbn [heap at_offset]. rewrite Hk0.
      destruct (Z.eqb_spec k 0); [contradiction|].
      rewrite bool_decide_eq_false_2 by discriminate. reflexivity.
    + cbn [strncmp]. rewrite Hn.
      unfold bind at 1, load at 1. cbn [heap this loads at_offset].
      rewrite Hk0.
      change {| this := set_mDataOffset o (this m); heap := heap m;
                loads := a :: l |} with (at_offset o (a :: l) m).
      destruct (Z.eqb_spec k c) as [->|Hne]; cbv iota.
      * replace (Z.of_nat (length (c :: key)) - 1)
          with (Z.of_nat (length key)) by (cbn [length]; lia).
        destruct (IH name (a + 1) o (a :: l) m Hrest
                    ltac:(cbn [length] in Hlen; lia)) as [l' ->].
        exists l'. f_equal. f_equal.
        apply bool_decide_ext. split; [intros ->; reflexivity|].
        intros [= ->]. reflexivity.
      * exists (a :: l). unfold ret.
        rewrite bool_decide_eq_false_2; [reflexivity|].
        intros [= -> _]. contradiction.
Qed.

Section Lookup.

Variable indet : TypeInfo.
Variable behindTable : Z -> Z.

Lemma findLoop_entries nt name info mapOffset e m :
  headerBytes info = 1 ->
  mMaxBufLen (this m) + 255 < 2 ^ 32 ->
  forall es o l,
    Forall entry_ok es ->
    holds_at (heap m) (mBuf (this m) + o) (entries_image nt es) ->
    0 <= o ->
    o + Z.of_nat (length (entries_image nt es)) <= mMaxBufLen (this m) ->
    exists l',
      findLoop indet behindTable (S (S (length es + e))) name info mapOffset
        (Z.of_nat (length es)) (at_offset o l m)
      = Some (found_info indet nt name es (mBuf (this m) + o),
              at_offset mapOffset l' m).
Proof.
  intros Hinfo Hcap es.
  induction es as [|[key x] es IH]; intros o l Hes Hheap Ho Hfit.
  { exists l. reflexivity. }
  apply Forall_cons in Hes as [[Hkey Hx] Hes]. cbn [fst snd] in Hkey, Hx.
  rewrite entries_image_cons in Hheap, Hfit.
  set (klen := strlen key) in *.
  set (vimg := value_image nt x) in *.
  assert (Hklen : Z.of_nat (length (c_str key)) = klen) by reflexivity.
  assert (Hlen : Z.of_nat (length ((96 + klen :: c_str key) ++ vimg
                                   ++ entries_image nt es))
                 = 1 + klen + Z.of_nat (length vimg)
                   + Z.of_nat (length (entries_image nt es))).
  { rewrite length_app. cbn [length]. rewrite length_app. lia. }
  rewrite Hlen in Hfit.
  (* the parts of memory *)
  assert (P1 : peek (heap m) (mBuf (this m) + o) = 96 + klen).
  { specialize (Hheap 0%nat ltac:(cbn [app length]; lia)).
    rewrite Z.add_0_r in Hheap. exact Hheap. }
  pose proof (holds_at_app_r _ _ [96 + klen] _ Hheap) as Hkv.
  cbn [length] in Hkv. change (Z.of_nat 1) with 1 in Hkv.
  pose proof (holds_at_app_l _ _ _ _ Hkv) as Hk.
  pose proof (holds_at_app_r _ _ _ _ Hkv) as Hvr. rewrite Hklen in Hvr.
  pose proof (holds_at_app_l _ _ _ _ Hvr) as Hv.
  pose proof (holds_at_app_r _ _ _ _ Hvr) as Hr.
  destruct (header_byte_split 3 klen) as (_ & Hmj & Hmn); [lia|lia|].
  change (3 * 32) with 96 in Hmj, Hmn.
  (* the key *)
  change (length ((key, x) :: es)) with (S (length es)).
  change (S (length es) + e)%nat with (S (length es + e)).
  rewrite findLoop_eq.
  destruct (Z.eqb_spec (Z.of_nat (S (length es))) 0) as [E|_]; [lia|].
  cbv zeta. unfold bind at 1.
  rewrite (getNextField_plain indet behindTable _ m o l (96 + klen));
    [|lia|exact Hcap|exact P1|rewrite Hmj; discriminate|
     rewrite Hmn, kCborheaderBytes_inline by lia; lia].
  rewrite Hmj, Hmn, kCborheaderBytes_inline by lia.
  set (l1 := mBuf (this m) + o :: l).
  set (s := mkTypeInfo kCborTagInvalid 3 klen 1 (mBuf (this m) + o)).
  unfold bind at 1. rewrite getFieldValue_inline by reflexivity.
  cbn [minorval s].
  unfold bind at 1, self at 1.
  cbn [this at_offset mDataOffset mBuf set_mDataOffset]. rewrite Hinfo.
  (* the comparison *)
  assert (Hcmp : exists l2,
             (if strlen name <=? klen
              then strncmp (c_str name) (mBuf (this m) + o + 1) klen
              else ret false) (at_offset o l1 m)
             = Some (bool_decide (c_str name = c_str key),
                     at_offset o l2 m)).
  { destruct (Z.leb_spec (strlen name) klen) as [Hle|Hgt].
    - rewrite <- Hklen.
      apply strncmp_key; [apply c_str_nonzero|exact Hk|].
      unfold strlen, klen in Hle. lia.
    - exists l1. unfold ret.
      rewrite bool_decide_eq_false_2; [reflexivity|].
      intros E. unfold strlen, klen in Hgt. rewrite E in Hgt. lia. }
  destruct Hcmp as [l2 Hcmp].
  unfold bind at 1. rewrite Hcmp.
  (* past the key, to the value *)
  assert (Hskip : forall l3,
             skipField indet behindTable (S (S (length es + e))) s
               (at_offset o l3 m)
             = Some (tt, at_offset (o + 1 + klen) l3 m)).
  { intros l3. apply skipField_short_string;
      try reflexivity; cbn [minorval s]; lia. }
  destruct (value_read indet behindTable nt x (o + 1 + klen) l2 m
              (length es + e) Hx) as (t & l3 & Hget & Hskipv).
  { replace (mBuf (this m) + (o + 1 + klen))
      with (mBuf (this m) + o + 1 + klen) by lia. exact Hv. }
  { lia. }
  { fold vimg. lia. }
  { exact Hcap. }
  unfold found_info. cbn [find_entry].
  destruct (bool_decide (c_str name = c_str key)).
  - unfold bind at 1. rewrite Hskip.
    unfold bind at 1. rewrite Hget.
    exists l3. unfold bind, update, ret.
    replace (mBuf (this m) + o + (1 + strlen key))
      with (mBuf (this m) + (o + 1 + klen)) by (unfold klen; lia).
    reflexivity.
  - unfold bind at 1. rewrite Hskip.
    unfold bind at 1. rewrite Hget.
    unfold bind at 1.
    destruct (Hskipv (S (length es + e)) l3) as [l4 ->].
    fold vimg.
    replace (Z.of_nat (S (length es)) - 1) with (Z.of_nat (length es))
      by lia.
    destruct (IH (o + 1 + klen + Z.of_nat (length vimg)) l4 Hes) as [l5 Hrec].
    { replace (mBuf (this m) + (o + 1 + klen + Z.of_nat (length vimg)))
        with (mBuf (this m) + o + 1 + klen + Z.of_nat (length vimg)) by lia.
      exact Hr. }
    { lia. }
    { lia. }
    exists l5. rewrite Hrec. f_equal. f_equal.
    unfold found_info.
    destruct (find_entry nt name es) as [[off y]|]; [|reflexivity].
    f_equal. unfold entry_image. cbn [fst snd].
    rewrite length_app. cbn [length]. fold klen vimg. lia.
Qed.

End Lookup.

Lemma find_entry_holds nt name h es :
  Forall entry_ok es ->
  forall a off x,
    find_entry nt name es = Some (off, x) ->
    holds_at h a (entries_image nt es) ->
    value_ok x /\ holds_at h (a + off) (value_image nt x).
Proof.
  induction 1 as [|[key y] es [Hkey Hy] Hes IH]; intros a off x Hf Hh;
    [discriminate Hf|].
  cbn [fst snd] in Hkey, Hy. cbn [find_entry] in Hf.
  rewrite entries_image_cons in Hh.
  pose proof (holds_at_app_r _ _ _ _ Hh) as Hvr.
  cbn [length] in Hvr.
  destruct (bool_decide (c_str name = c_str key)).
  - injection Hf as <- <-. split; [exact Hy|].
    apply holds_at_app_l in Hvr.
    replace (a + (1 + strlen key))
      with (a + Z.of_nat (S (length (c_str key))))
      by (unfold strlen; lia).
    exact Hvr.
  - destruct (find_entry nt name es) as [[off' x']|] eqn:E; [|discriminate Hf].
    injection Hf as <- <-.
    apply holds_at_app_r in Hvr.
    destruct (IH _ _ _ eq_refl Hvr) as [Hx Hv]. split; [exact Hx|].
    refine (eq_rect _ (fun q => holds_at h q _) Hv _ _).
    unfold entry_image. cbn [fst snd]. rewrite length_app. cbn [length].
    lia.
Qed.

Lemma find_entry_length nt name es :
  forall off x,
    find_entry nt name es = Some (off, x) ->
    (length (value_image nt x) <= length (entries_image nt es))%nat.
Proof.
  induction es as [|[key y] es IH]; intros off x Hf; [discriminate Hf|].
  cbn [find_entry] in Hf. rewrite entries_image_cons.
  rewrite length_app. cbn [length]. rewrite length_app.
  destruct (bool_decide (c_str name = c_str key)).
  - injection Hf as <- <-. lia.
  - destruct (find_entry nt name es) as [[off' x']|] eqn:E; [|discriminate Hf].
    injection Hf as <- <-. specialize (IH _ _ eq_refl). lia.
Qed.

Section LookupMap.

Variable indet : TypeInfo.
Variable behindTable : Z -> Z.

(** [findElement] on the image of a flat map: the descriptor of the
    value found, or the error descriptor; the instance is left as it
    was. *)
Lemma findElement_holds_map nt es name e m :
  holds_map nt es m ->
  exists m',
    findElement indet behindTable (S (S (length es + e))) name m
    = Some (found_info indet nt name es (mBuf (this m) + 1), m')
    /\ this m' = this m /\ heap m' = heap m.
Proof.
  intros (Hoff & Hes & HN & Hh & Hfit & Hcap).
  unfold map_image in *. cbn [length] in Hfit.
  set (N := Z.of_nat (length es)) in *.
  assert (P0 : peek (heap m) (mBuf (this m) + 0) = 160 + N)
    by exact (Hh 0%nat ltac:(cbn [length]; lia)).
  pose proof (holds_at_app_r _ _ [160 + N] _ Hh) as Hr.
  cbn [length] in Hr. change (Z.of_nat 1) with 1 in Hr.
  destruct (header_byte_split 5 N) as (_ & Hmj & Hmn); [lia|lia|].
  change (5 * 32) with 160 in Hmj, Hmn.
  assert (Hfind : exists l',
             findElement indet behindTable (S (S (length es + e))) name
               (at_offset 0 (loads m) m)
             = Some (found_info indet nt name es (mBuf (this m) + 1),
                     at_offset 0 l' m)).
  { unfold findElement. unfold bind at 1, self at 1.
    cbn [this at_offset mDataOffset set_mDataOffset]. cbv zeta.
    unfold bind at 1.
    rewrite (getNextField_plain indet behindTable _ m 0 (loads m) (160 + N));
      [|lia|exact Hcap|exact P0|rewrite Hmj; discriminate|
       rewrite Hmn, kCborheaderBytes_inline by lia; lia].
    rewrite Hmj, Hmn, kCborheaderBytes_inline by lia.
    cbn [majorval]. change (negb (5 =? kCborMap)) with false. cbv iota.
    unfold bind at 1. rewrite getFieldValue_inline by reflexivity.
    cbn [minorval headerBytes].
    unfold bind at 1, update at 1.
    change (with_this _ (at_offset 0 (mBuf (this m) + 0 :: loads m) m))
      with (at_offset (uint32 (0 + 1)) (mBuf (this m) + 0 :: loads m) m).
    change (uint32 (0 + 1)) with 1.
    destruct (findLoop_entries indet behindTable nt name
                (mkTypeInfo kCborTagInvalid 5 N 1 (mBuf (this m) + 0))
                0 e m eq_refl Hcap es 1 (mBuf (this m) + 0 :: loads m)
                Hes Hr ltac:(lia) ltac:(lia)) as [l' Hloop].
    exists l'. unfold N. exact Hloop. }
  destruct Hfind as [l' Hfind].
  rewrite (at_offset_self m Hoff) in Hfind.
  eexists. split; [exact Hfind|]. split; [|reflexivity].
  destruct m as [[buf cap nd off res ro nt' d fr] h l]. cbn in *. subst.
  reflexivity.
Qed.

End LookupMap.

(** ** The accessors on a flat map *)

Ltac eval_header_tests :=
  repeat match goal with
    | |- context [Z.shiftr ?n 5] =>
        let r := eval vm_compute in (Z.shiftr n 5) in
        change (Z.shiftr n 5) with r
    end;
  repeat match goal with
    | |- context [?a =? ?b] =>
        let r := eval vm_compute in (a =? b) in
        change (a =? b) with r
    end;
  cbv iota.

(** What the reader sees of an item that starts with a header. *)
Lemma header_item_decoded mj len rest h a :
  0 <= mj < 8 -> 0 <= len < 2 ^ 32 ->
  holds_at h a (header_image mj len ++ rest) ->
  exists mn,
    item_info a (header_image mj len ++ rest)
    = mkTypeInfo kCborTagInvalid mj mn (header_size len) a
    /\ field_value h (mkTypeInfo kCborTagInvalid mj mn (header_size len) a)
       = len
    /\ (len < 24 -> mn = len).
Proof.
  intros Hmj Hlen Hh.
  destruct (header_image_head mj len Hmj Hlen)
    as (mn & tl & E & Hmn & Hs & Hl & Hhb & Hsmall).
  exists mn. unfold item_info. cbv zeta.
  pose proof (field_value_header mj len rest h a kCborTagInvalid
                Hmj Hlen Hh) as Hv.
  rewrite E in *. cbn [app].
  change (default 0 (head (mj * 32 + mn :: ?r))) with (mj * 32 + mn) in *.
  rewrite Hs, Hl, Hhb in *. auto.
Qed.

Section Accessors.

Variable indet : TypeInfo.
Variable behindTable : Z -> Z.

Lemma lookup_found nt es name e m x :
  holds_map nt es m ->
  lookup_value name es = Some x ->
  exists a m',
    findElement indet behindTable (S (S (length es + e))) name m
    = Some (value_info nt x a, m')
    /\ this m' = this m /\ heap m' = heap m
    /\ value_ok x /\ holds_at (heap m') a (value_image nt x)
    /\ Z.of_nat (length (value_image nt x)) + 255 < 2 ^ 32.
Proof.
  intros Hm Hl.
  destruct (findElement_holds_map indet behindTable nt es name e m Hm)
    as (m' & Hfind & Ht & Hh).
  destruct Hm as (_ & Hes & _ & Hheap & Hfit & Hcap).
  rewrite (find_entry_lookup nt) in Hl. unfold found_info in Hfind.
  destruct (find_entry nt name es) as [[off y]|] eqn:E; [|discriminate Hl].
  injection Hl as ->.
  pose proof (holds_at_app_r _ _ [160 + Z.of_nat (length es)] _ Hheap) as Hr.
  cbn [length] in Hr. change (Z.of_nat 1) with 1 in Hr.
  destruct (find_entry_holds nt name (heap m) es Hes _ _ _ E Hr) as [Hx Hv].
  pose proof (find_entry_length nt name es _ _ E) as Hle.
  unfold map_image in Hfit. cbn [length] in Hfit.
  exists (mBuf (this m) + 1 + off), m'. rewrite Hh.
  repeat split; try assumption. lia.
Qed.

Lemma lookup_missing nt es name e m :
  holds_map nt es m ->
  lookup_value name es = None ->
  exists m',
    findElement indet behindTable (S (S (length es + e))) name m
    = Some (TypeInfo_major indet kCborError, m')
    /\ this m' = this m /\ heap m' = heap m.
Proof.
  intros Hm Hl.
  destruct (findElement_holds_map indet behindTable nt es name e m Hm)
    as (m' & Hfind & Ht & Hh).
  rewrite (find_entry_lookup nt) in Hl. unfold found_info in Hfind.
  destruct (find_entry nt name es) as [[off y]|] eqn:E; [discriminate Hl|].
  exists m'. auto.
Qed.

(** [get<T>] decodes the item [add<T>] wrote, once the lookup has found
    it. *)
Lemma get_int_decoded nt fuel name T v d a m m' :
  findElement indet behindTable fuel name m
  = Some (value_info nt (VInt T v) a, m') ->
  value_ok (VInt T v) ->
  holds_at (heap m') a (value_image nt (VInt T v)) ->
  value_of (get_int indet behindTable fuel T name d m) = Some v.
Proof.
  intros Hfind Hv Hbytes.
  cbn [value_ok value_info value_image] in *.
  revert Hfind Hbytes.
  assert (Hx : 0 <= (if v <? 0 then -1 - v else v) < 2 ^ (8 * sizeof T)).
  { clear -Hv. destruct (Z.ltb_spec v 0); destruct T; unfold in_range in Hv;
      cbn; lia. }
  unfold item_info, int_item. cbv zeta.
  assert (Hsign : v < 0 /\ (v <? 0) = true \/ 0 <= v /\ (v <? 0) = false)
    by (clear; destruct (Z.ltb_spec v 0); auto).
  remember (if v <? 0 then -1 - v else v) as x eqn:Ex.
  destruct Hsign as [[Hs Eb]|[Hs Eb]]; rewrite Eb in *;
    destruct T; cbn [sizeof] in *;
    try (exfalso; clear -Hv Hs; unfold in_range in Hv; lia);
    cbv iota; change (default 0 (head (?b :: ?r))) with b;
    intros Hfind Hbytes; unfold holds_at in Hbytes;
    cbn [length] in Hbytes;
    first
      [ rewrite (get_int_found_64 indet behindTable _ _ name d _ _ _ Hfind)
          by reflexivity;
        cbv zeta; cbn [p majorval];
        apply (item_bytes_9 behindTable) in Hbytes;
        destruct Hbytes as (-> & -> & -> & -> & -> & -> & -> & ->);
        rewrite combine64 by (clear -Hx; lia)
      | erewrite get_int_found;
        [ | exact Hfind | intros E; vm_compute in E; discriminate E
          | apply getFieldValue_32; reflexivity ];
        cbn [p majorval];
        apply (item_bytes_5 behindTable) in Hbytes;
        destruct Hbytes as (-> & -> & -> & ->);
        rewrite combine32 by (clear -Hx; lia)
      | erewrite get_int_found;
        [ | exact Hfind | intros E; vm_compute in E; discriminate E
          | apply getFieldValue_16; reflexivity ];
        cbn [p majorval];
        apply (item_bytes_3 behindTable) in Hbytes;
        destruct Hbytes as (-> & ->);
        rewrite combine16 by (clear -Hx; lia)
      | erewrite get_int_found;
        [ | exact Hfind | intros E; vm_compute in E; discriminate E
          | apply getFieldValue_8; reflexivity ];
        cbn [p majorval];
        apply (item_bytes_2 behindTable) in Hbytes;
        rewrite Hbytes ];
    eval_header_tests;
    f_equal; clear -Hv Hs Ex Hx; subst x;
    unfold in_range in Hv;
    unfold cast, int8, int16, int32, int64, uint8, uint16, uint32, uint64;
    lia.
Qed.

(** [get<T>] returns the value [add<T>] wrote under the name, whatever
    other entries the map holds. *)
Lemma get_int_of_flat_map nt es name T v d e m :
  holds_map nt es m ->
  lookup_value name es = Some (VInt T v) ->
  value_of (get_int indet behindTable (S (S (length es + e))) T name d m)
  = Some v.
Proof.
  intros Hm Hl.
  destruct (lookup_found nt es name e m _ Hm Hl)
    as (a & m' & Hfind & _ & _ & Hv & Hbytes & _).
  exact (get_int_decoded nt _ name T v d a m m' Hfind Hv Hbytes).
Qed.

(** [get<T>] decodes the item [addMinimal<T>] wrote, for the values that
    fit 32 bits and are nonnegative or of a type of at most 32 bits. *)
Lemma get_minimal_decoded nt fuel name T v d a m m' :
  findElement indet behindTable fuel name m
  = Some (value_info nt (VMinimal T v) a, m') ->
  value_ok (VMinimal T v) ->
  holds_at (heap m') a (value_image nt (VMinimal T v)) ->
  0 <= v \/ sizeof T <= 4 ->
  value_of (get_int indet behindTable fuel T name d m) = Some v.
Proof.
  intros Hfind [HT Hv] Hbytes Hneg.
  cbn [value_info value_image] in *.
  revert Hfind Hbytes. unfold minimal_item.
  destruct (Z.leb_spec 0 v) as [Hpos|Hlt]; intros Hfind Hbytes;
    rewrite <- (app_nil_r (header_image _ _)) in Hfind, Hbytes.
  - destruct (header_item_decoded 0 v [] _ a ltac:(lia) ltac:(lia) Hbytes)
      as (mn & E & Hval & _).
    rewrite E in Hfind. pose proof (header_size_range v).
    erewrite get_int_found;
      [ | exact Hfind | cbn [headerBytes]; lia
        | rewrite getFieldValue_value, Hval; reflexivity ].
    cbn [majorval]. change (0 =? kCborPosInt) with true. cbv iota.
    rewrite (cast_in_range T v HT). reflexivity.
  - destruct (header_item_decoded 1 (-1 - v) [] _ a ltac:(lia) ltac:(lia)
                Hbytes) as (mn & E & Hval & _).
    rewrite E in Hfind. pose proof (header_size_range (-1 - v)).
    erewrite get_int_found;
      [ | exact Hfind | cbn [headerBytes]; lia
        | rewrite getFieldValue_value, Hval; reflexivity ].
    cbn [majorval]. change (1 =? kCborPosInt) with false.
    change (1 =? kCborNegInt) with true. cbv iota.
    f_equal. clear -HT Hv Hneg Hlt.
    destruct T; cbn [sizeof] in Hneg; unfold in_range in HT;
      unfold cast, int8, int16, int32, int64, uint8, uint16, uint32, uint64;
      lia.
Qed.

(** [get<T>] returns the value [addMinimal<T>] wrote under the name, for
    the values that fit 32 bits and are nonnegative or of a type of at most
    32 bits. *)
Lemma get_int_of_minimal nt es name T v d e m :
  holds_map nt es m ->
  lookup_value name es = Some (VMinimal T v) ->
  0 <= v \/ sizeof T <= 4 ->
  value_of (get_int indet behindTable (S (S (length es + e))) T name d m)
  = Some v.
Proof.
  intros Hm Hl Hneg.
  destruct (lookup_found nt es name e m _ Hm Hl)
    as (a & m' & Hfind & _ & _ & Hv & Hbytes & _).
  exact (get_minimal_decoded nt _ name T v d a m m' Hfind Hv Hbytes Hneg).
Qed.

Lemma get_bool_decoded nt fuel name (b d : bool) a m m' :
  findElement indet behindTable fuel name m
  = Some (value_info nt (VBool b) a, m') ->
  value_of (get_bool indet behindTable fuel name d m) = Some b.
Proof.
  intros Hfind.
  unfold get_bool, bind. rewrite Hfind. destruct b; reflexivity.
Qed.

(** [get<bool>] returns the value [add(name, bool)] wrote under the
    name. *)
Lemma get_bool_of_flat_map nt es name (b d : bool) e m :
  holds_map nt es m ->
  lookup_value name es = Some (VBool b) ->
  value_of (get_bool indet behindTable (S (S (length es + e))) name d m)
  = Some b.
Proof.
  intros Hm Hl.
  destruct (lookup_found nt es name e m _ Hm Hl)
    as (a & m' & Hfind & _).
  exact (get_bool_decoded nt _ name b d a m m' Hfind).
Qed.

Lemma get_float_decoded nt fuel name bits d a m m' :
  findElement indet behindTable fuel name m
  = Some (value_info nt (VFloat bits) a, m') ->
  value_ok (VFloat bits) ->
  holds_at (heap m') a (value_image nt (VFloat bits)) ->
  value_of (get_float indet behindTable fuel name d m) = Some bits.
Proof.
  intros Hfind Hv Hbytes.
  cbn [value_ok value_info value_image] in *.
  unfold get_float, bind. rewrite Hfind.
  change (majorval (item_info a (float_item bits)) =? kCborSimple) with true.
  change (minorval (item_info a (float_item bits)) =? 26) with true.
  cbv iota.
  rewrite getFieldValue_32 by reflexivity. cbn [p item_info].
  unfold holds_at, float_item in Hbytes.
  apply (item_bytes_5 behindTable) in Hbytes.
  destruct Hbytes as (-> & -> & -> & ->).
  rewrite combine32 by exact Hv. reflexivity.
Qed.

(** [get<float>] returns the bit pattern [add(name, float)] wrote under
    the name. *)
Lemma get_float_of_flat_map nt es name bits d e m :
  holds_map nt es m ->
  lookup_value name es = Some (VFloat bits) ->
  value_of (get_float indet behindTable (S (S (length es + e))) name d m)
  = Some bits.
Proof.
  intros Hm Hl.
  destruct (lookup_found nt es name e m _ Hm Hl)
    as (a & m' & Hfind & _ & _ & Hv & Hbytes & _).
  exact (get_float_decoded nt _ name bits d a m m' Hfind Hv Hbytes).
Qed.

Lemma get_not_found fuel name T (d : Z) (b : bool) (f s : Z) m m' :
  findElement indet behindTable fuel name m
  = Some (TypeInfo_major indet kCborError, m') ->
  value_of (get_int indet behindTable fuel T name d m) = Some d
  /\ value_of (get_bool indet behindTable fuel name b m) = Some b
  /\ value_of (get_float indet behindTable fuel name f m) = Some f
  /\ value_of (get_string indet behindTable fuel name s m) = Some s
  /\ value_of (getLength indet behindTable fuel name m) = Some 0.
Proof.
  intros Hfind.
  split; [exact (get_int_not_found _ _ _ T name d m _ _ Hfind eq_refl)|].
  split; [exact (get_bool_not_found _ _ _ name b m _ _ Hfind eq_refl)|].
  split; [exact (get_float_not_found _ _ _ name f m _ _ Hfind eq_refl)|].
  split.
  - unfold get_string, bind. rewrite Hfind. reflexivity.
  - unfold getLength, bind. rewrite Hfind. reflexivity.
Qed.

(** A name that no key of the map has: [get<T>], [get<bool>],
    [get<float>] and [get<const char *>] return their default, and
    [getLength] 0. *)
Lemma get_of_missing_name nt es name T (d : Z) (b : bool) (f s : Z) e m :
  holds_map nt es m ->
  lookup_value name es = None ->
  let fuel := S (S (length es + e)) in
  value_of (get_int indet behindTable fuel T name d m) = Some d
  /\ value_of (get_bool indet behindTable fuel name b m) = Some b
  /\ value_of (get_float indet behindTable fuel name f m) = Some f
  /\ value_of (get_string indet behindTable fuel name s m) = Some s
  /\ value_of (getLength indet behindTable fuel name m) = Some 0.
Proof.
  intros Hm Hl fuel.
  destruct (lookup_missing nt es name e m Hm Hl) as (m' & Hfind & _).
  exact (get_not_found _ name T d b f s m m' Hfind).
Qed.

Lemma getFieldValue_total info m :
  exists m',
    getFieldValue info m = Some (field_value (heap m) info, m')
    /\ heap m' = heap m.
Proof.
  unfold getFieldValue, field_value, bind, load, ret.
  cbv zeta. cbn [heap this loads].
  repeat (destruct (_ =? _); [eexists; split; reflexivity|]).
  eexists; split; reflexivity.
Qed.

Lemma get_string_decoded (nt : bool) fuel name s d a m m' :
  findElement indet behindTable fuel name m
  = Some (value_info nt (VString s) a, m') ->
  heap m' = heap m ->
  value_ok (VString s) ->
  holds_at (heap m') a (value_image nt (VString s)) ->
  Z.of_nat (length (value_image nt (VString s))) + 255 < 2 ^ 32 ->
  exists q,
    value_of (get_string indet behindTable fuel name d m) = Some q
    /\ holds_at (heap m) q (c_str s ++ (if nt then [0] else []))
    /\ value_of (getLength indet behindTable fuel name m) = Some (strlen s).
Proof.
  intros Hfind Hheap Hs Hbytes Hsize.
  cbn [value_ok value_info value_image] in *.
  unfold string_item in *.
  set (len := strlen s + (if nt then 1 else 0)) in *.
  set (payload := c_str s ++ (if nt then [0] else [])) in *.
  assert (Hs0 : 0 <= strlen s) by (unfold strlen; lia).
  assert (Hlen : 0 <= len < 2 ^ 32) by (unfold len; destruct nt; lia).
  assert (Hpl : Z.of_nat (length payload) = len).
  { unfold payload, len, strlen. rewrite length_app.
    destruct nt; cbn [length]; lia. }
  destruct (header_item_decoded 3 len payload _ a ltac:(lia) Hlen Hbytes)
    as (mn & E & Hval & _).
  rewrite E in Hfind.
  pose proof (length_header_image 3 len) as Hlh.
  pose proof (header_size_range len) as Hhs.
  pose proof (holds_at_app_r _ _ _ _ Hbytes) as Hp. rewrite Hlh in Hp.
  exists (a + header_size len). split; [|split].
  - unfold get_string, bind. rewrite Hfind. reflexivity.
  - rewrite <- Hheap. exact Hp.
  - unfold getLength. unfold bind at 1. rewrite Hfind.
    cbn [majorval]. change (negb (3 =? kCborError)) with true. cbv iota.
    unfold bind at 1.
    destruct (getFieldValue_total
                (mkTypeInfo kCborTagInvalid 3 mn (header_size len) a) m')
      as (m2 & -> & Hh2).
    rewrite Hval. change (3 =? kCborUTF8String) with true. cbv iota.
    unfold bind, load. cbn [p headerBytes]. rewrite Hh2.
    rewrite length_app, Nat2Z.inj_add, Hlh, Hpl in Hsize.
    rewrite (uint32_small (header_size len + len - 1)) by lia.
    unfold value_of, ret.
    destruct nt.
    + (* the NUL written after the characters *)
      assert (Hlast : peek (heap m')
                        (a + header_size len
                         + Z.of_nat (length (c_str s))) = 0).
      { rewrite (Hp (length (c_str s))).
        - unfold payload. rewrite list_lookup_middle by reflexivity.
          reflexivity.
        - unfold payload. rewrite length_app. cbn [length]. lia. }
      replace (a + (header_size len + len - 1))
        with (a + header_size len + Z.of_nat (length (c_str s)))
        by (unfold len, strlen; cbv iota; lia).
      rewrite Hlast. change (0 =? 0) with true. cbv iota.
      unfold len. cbv iota. rewrite uint32_small by lia.
      cbn [fmap option_fmap option_map fst]. f_equal. lia.
    + unfold len in *. rewrite Z.add_0_r in *.
      destruct (Z.eq_dec (strlen s) 0) as [E0|E0].
      * (* the empty string: the byte read is the header *)
        rewrite E0 in *. change (header_size 0) with 1 in *.
        replace (a + (1 + 0 - 1)) with (a + Z.of_nat 0) by lia.
        rewrite (Hbytes 0%nat ltac:(rewrite length_app; cbn; lia)).
        reflexivity.
      * (* the last character is not NUL *)
        assert (Hi : (Z.to_nat (strlen s - 1) < length (c_str s))%nat)
          by (unfold strlen in *; lia).
        destruct (lookup_lt_is_Some_2 _ _ Hi) as [c Hc].
        pose proof (c_str_nonzero s) as Hnz.
        rewrite Forall_lookup in Hnz. specialize (Hnz _ _ Hc).
        replace (a + (header_size (strlen s) + strlen s - 1))
          with (a + header_size (strlen s)
                + Z.of_nat (Z.to_nat (strlen s - 1))) by lia.
        rewrite (Hp (Z.to_nat (strlen s - 1))).
        2:{ unfold payload. rewrite length_app. lia. }
        unfold payload. rewrite lookup_app_l by exact Hi. rewrite Hc.
        cbn [default from_option id]. unfold id.
        destruct (Z.eqb_spec c 0); [contradiction|reflexivity].
Qed.

(** The string overloads.  [get<const char *>] returns the address of the
    characters [add] wrote under the name, followed by a NUL when the
    writer null-terminated; [getLength] returns their number. *)
Lemma get_string_of_flat_map nt es name s d e m :
  holds_map nt es m ->
  lookup_value name es = Some (VString s) ->
  let fuel := S (S (length es + e)) in
  exists q,
    value_of (get_string indet behindTable fuel name d m) = Some q
    /\ holds_at (heap m) q (c_str s ++ (if nt then [0] else []))
    /\ value_of (getLength indet behindTable fuel name m) = Some (strlen s).
Proof.
  intros Hm Hl fuel.
  destruct (lookup_found nt es name e m _ Hm Hl)
    as (a & m' & Hfind & _ & Hheap & Hs & Hbytes & Hsize).
  exact (get_string_decoded nt _ name s d a m m' Hfind Hheap Hs Hbytes
           Hsize).
Qed.

Lemma getPointer_decoded nt fuel name T bytes n d a m m' :
  findElement indet behindTable fuel name m
  = Some (value_info nt (VArray T bytes n) a, m') ->
  heap m' = heap m ->
  value_ok (VArray T bytes n) ->
  holds_at (heap m') a (value_image nt (VArray T bytes n)) ->
  exists q,
    value_of (getPointer indet behindTable fuel T name d m) = Some (n, q)
    /\ holds_at (heap m) q bytes
    /\ value_of (getLength indet behindTable fuel name m)
       = Some (n * elem_sizeof T).
Proof.
  intros Hfind Hheap (Hn & Hlen & Hraw) Hbytes.
  cbn [value_info value_image] in *. unfold array_item in *.
  set (L := Z.of_nat (length bytes)) in *.
  pose proof (holds_at_app_r _ _ [216; kCborTagInfo T] _ Hbytes) as Hb.
  cbn [length] in Hb. change (Z.of_nat 2) with 2 in Hb.
  destruct (header_item_decoded 2 L bytes _ (a + 2) ltac:(lia) ltac:(lia) Hb)
    as (mn & E & Hval & _).
  rewrite E in Hfind.
  pose proof (length_header_image 2 L) as Hlh.
  pose proof (holds_at_app_r _ _ _ _ Hb) as Hp. rewrite Hlh in Hp.
  assert (HS : 1 <= elem_sizeof T)
    by (destruct (elem_sizeof_cases T) as [-> | [-> | [-> | ->]]]; lia).
  exists (a + 2 + header_size L). split; [|split].
  - unfold getPointer. unfold bind at 1. rewrite Hfind.
    cbn [tag set_tag]. rewrite Z.eqb_refl. cbn [negb].
    unfold bind.
    destruct (getFieldValue_total
                (set_tag (kCborTagInfo T)
                   (mkTypeInfo kCborTagInvalid 2 mn (header_size L) (a + 2)))
                m') as (m2 & -> & _).
    change (field_value (heap m')
              (set_tag (kCborTagInfo T)
                 (mkTypeInfo kCborTagInvalid 2 mn (header_size L) (a + 2))))
      with (field_value (heap m')
              (mkTypeInfo kCborTagInvalid 2 mn (header_size L) (a + 2))).
    rewrite Hval. unfold ret, value_of.
    cbn [fmap option_fmap option_map fst p headerBytes set_tag].
    rewrite Hlen, Z.div_mul by lia. reflexivity.
  - rewrite <- Hheap. exact Hp.
  - unfold getLength. unfold bind at 1. rewrite Hfind.
    cbn [majorval set_tag]. change (negb (2 =? kCborError)) with true.
    cbv iota. unfold bind.
    destruct (getFieldValue_total
                (set_tag (kCborTagInfo T)
                   (mkTypeInfo kCborTagInvalid 2 mn (header_size L) (a + 2)))
                m') as (m2 & -> & _).
    change (field_value (heap m')
              (set_tag (kCborTagInfo T)
                 (mkTypeInfo kCborTagInvalid 2 mn (header_size L) (a + 2))))
      with (field_value (heap m')
              (mkTypeInfo kCborTagInvalid 2 mn (header_size L) (a + 2))).
    rewrite Hval. change (2 =? kCborUTF8String) with false. cbv iota.
    unfold ret, value_of. cbn [fmap option_fmap option_map fst].
    rewrite Hlen. reflexivity.
Qed.

(** The array overload.  [getPointer<T>] returns the number of elements
    and the address of the bytes [add] wrote under the name with
    [align = false]; [getLength] returns the number of bytes. *)
Lemma getPointer_of_flat_map nt es name T bytes n d e m :
  holds_map nt es m ->
  lookup_value name es = Some (VArray T bytes n) ->
  let fuel := S (S (length es + e)) in
  exists q,
    value_of (getPointer indet behindTable fuel T name d m) = Some (n, q)
    /\ holds_at (heap m) q bytes
    /\ value_of (getLength indet behindTable fuel name m)
       = Some (n * elem_sizeof T).
Proof.
  intros Hm Hl fuel.
  destruct (lookup_found nt es name e m _ Hm Hl)
    as (a & m' & Hfind & _ & Hheap & Hx & Hbytes & _).
  exact (getPointer_decoded nt _ name T bytes n d a m m' Hfind Hheap Hx
           Hbytes).
Qed.

End Accessors.

(** ** Round trips through a flat map *)

Section FlatMapRoundTrip.

Variable indet : TypeInfo.
Variable behindTable : Z -> Z.

(** A fresh writable instance on the buffer of [cap] bytes at [buf], and
    entries whose map fits it. *)
Variable frames : Z -> MapState.
Variables buf cap : Z.
Variable nt : bool.
Variable heap0 : list Z.
Variable es : list (string * Value).

Hypothesis entries_ok : Forall entry_ok es.
Hypothesis entries_few : (length es < 24)%nat.
Hypothesis buf_nonneg : 0 <= buf.
Hypothesis image_fits : Z.of_nat (length (map_image nt es)) <= cap.
Hypothesis cap_small : cap + 255 < 2 ^ 32.
Hypothesis buf_in_heap : buf + cap <= Z.of_nat (length heap0).

(** After [restart()] the writer is a reader of the map it wrote. *)
Lemma rewound_holds_map :
  holds_map nt es
    (rewound (encode (flat_map es)
                (on_heap (MicroCbor_new frames buf cap nt) heap0))).
Proof.
  pose proof (encode_flat_map_state frames buf cap nt heap0 es
                entries_ok entries_few buf_nonneg
                ltac:(lia) buf_in_heap) as H.
  cbv zeta in H. revert H.
  generalize (encode (flat_map es)
                (on_heap (MicroCbor_new frames buf cap nt) heap0)).
  intros m (Hres & Hb & Hc & Hoff & Hnd & Hlen & Hh & Hout).
  unfold holds_map.
  change (mDataOffset (this (rewound m))) with 0.
  change (mBuf (this (rewound m))) with (mBuf (this m)).
  change (mMaxBufLen (this (rewound m))) with (mMaxBufLen (this m)).
  change (heap (rewound m)) with (heap m).
  rewrite Hb, Hc. auto 10.
Qed.

(** Scalars.  After [startMap(); add(key, value) ...; endMap(); restart()]
    with fewer than 24 entries and keys of 1 to 23 characters, [get] under
    a name returns the value of the first entry with that key: for
    [add<T>] and [get<T>] of one integral type, for [bool], and for the
    bits of a [float]. *)
Theorem flat_map_get_scalar (name : string) (e : nat) :
  let m := rewound (encode (flat_map es)
                      (on_heap (MicroCbor_new frames buf cap nt) heap0)) in
  let fuel := S (S (length es + e)) in
  (forall T v d,
     lookup_value name es = Some (VInt T v) ->
     value_of (get_int indet behindTable fuel T name d m) = Some v)
  /\ (forall b d,
        lookup_value name es = Some (VBool b) ->
        value_of (get_bool indet behindTable fuel name d m) = Some b)
  /\ (forall bits d,
        lookup_value name es = Some (VFloat bits) ->
        value_of (get_float indet behindTable fuel name d m) = Some bits).
Proof.
  intros m fuel. pose proof rewound_holds_map as Hm. fold m in Hm.
  revert Hm. generalize m. clear m. intros m Hm.
  split; [|split].
  - intros T v d Hl. exact (get_int_of_flat_map _ _ nt es name T v d e m Hm Hl).
  - intros b d Hl. exact (get_bool_of_flat_map _ _ nt es name b d e m Hm Hl).
  - intros bits d Hl.
    exact (get_float_of_flat_map _ _ nt es name bits d e m Hm Hl).
Qed.

(** [addMinimal<T>] and [get<T>]: the value comes back when it fits 32
    bits and is nonnegative or of a type of at most 32 bits. *)
Theorem flat_map_get_minimal (name : string) (e : nat) T v d :
  let m := rewound (encode (flat_map es)
                      (on_heap (MicroCbor_new frames buf cap nt) heap0)) in
  lookup_value name es = Some (VMinimal T v) ->
  0 <= v \/ sizeof T <= 4 ->
  value_of (get_int indet behindTable (S (S (length es + e))) T name d m)
  = Some v.
Proof.
  intros m. pose proof rewound_holds_map as Hm. fold m in Hm.
  revert Hm. generalize m. clear m. intros m Hm Hl Hv.
  exact (get_int_of_minimal _ _ nt es name T v d e m Hm Hl Hv).
Qed.

(** A name that is the key of no entry: [get<T>], [get<bool>],
    [get<float>] and [get<const char *>] return the default given, and
    [getLength] returns 0. *)
Theorem flat_map_get_missing (name : string) (e : nat) T
    (d : Z) (b : bool) (f s : Z) :
  let m := rewound (encode (flat_map es)
                      (on_heap (MicroCbor_new frames buf cap nt) heap0)) in
  let fuel := S (S (length es + e)) in
  lookup_value name es = None ->
  value_of (get_int indet behindTable fuel T name d m) = Some d
  /\ value_of (get_bool indet behindTable fuel name b m) = Some b
  /\ value_of (get_float indet behindTable fuel name f m) = Some f
  /\ value_of (get_string indet behindTable fuel name s m) = Some s
  /\ value_of (getLength indet behindTable fuel name m) = Some 0.
Proof.
  intros m. pose proof rewound_holds_map as Hm. fold m in Hm.
  revert Hm. generalize m. clear m. intros m Hm fuel Hl.
  exact (get_of_missing_name _ _ nt es name T d b f s e m Hm Hl).
Qed.

(** Strings.  [get<const char *>] returns the address of the characters
    [add] wrote under the name, followed by a NUL when the instance
    null-terminates, and [getLength] their number. *)
Theorem flat_map_get_string (name : string) (e : nat) s d :
  let m := rewound (encode (flat_map es)
                      (on_heap (MicroCbor_new frames buf cap nt) heap0)) in
  let fuel := S (S (length es + e)) in
  lookup_value name es = Some (VString s) ->
  exists q,
    value_of (get_string indet behindTable fuel name d m) = Some q
    /\ holds_at (heap m) q (c_str s ++ (if nt then [0] else []))
    /\ value_of (getLength indet behindTable fuel name m) = Some (strlen s).
Proof.
  intros m. pose proof rewound_holds_map as Hm. fold m in Hm.
  revert Hm. generalize m. clear m. intros m Hm fuel Hl.
  exact (get_string_of_flat_map _ _ nt es name s d e m Hm Hl).
Qed.

(** Arrays added with [align = false].  [getPointer<T>] returns the
    number of elements and the address of the bytes of the array, and
    [getLength] the number of bytes. *)
Theorem flat_map_get_array (name : string) (e : nat) T bytes n d :
  let m := rewound (encode (flat_map es)
                      (on_heap (MicroCbor_new frames buf cap nt) heap0)) in
  let fuel := S (S (length es + e)) in
  lookup_value name es = Some (VArray T bytes n) ->
  exists q,
    value_of (getPointer indet behindTable fuel T name d m) = Some (n, q)
    /\ holds_at (heap m) q bytes
    /\ value_of (getLength indet behindTable fuel name m)
       = Some (n * elem_sizeof T).
Proof.
  intros m. pose proof rewound_holds_map as Hm. fold m in Hm.
  revert Hm. generalize m. clear m. intros m Hm fuel Hl.
  exact (getPointer_of_flat_map _ _ nt es name T bytes n d e m Hm Hl).
Qed.

End FlatMapRoundTrip.

(** ** A run that has not failed fits the buffer *)

(** Whatever [well_nested] calls are made on a fresh instance: while the
    result is 0, every byte reserved has been written, and their number is
    within the length of the buffer. *)
Theorem successful_run_fits_buffer
    (ops : list EncodeOp) (frames : Z -> MapState) (buf cap : Z) (nt : bool)
    (heap0 : list Z) :
  0 <= cap < 2 ^ 32 ->
  well_nested (-1) ops = true ->
  let m := encode ops (on_heap (MicroCbor_new frames buf cap nt) heap0) in
  getResult m = 0 ->
  bytesSerialized m = bytesNeeded m /\ bytesNeeded m <= cap.
Proof.
  intros Hcap _ m Hres.
  destruct (encode_keeps ops _ (fresh_run_ok frames buf cap nt heap0))
    as ([H1 H2] & Hc & _).
  fold m in H1, H2, Hc.
  unfold getResult, bytesSerialized, bytesNeeded in *.
  split; [exact (H1 Hres)|].
  assert (Hcap' : mMaxBufLen (this m) = cap).
  { rewrite Hc. cbn. apply uint32_small. exact Hcap. }
  destruct (Z.le_gt_cases (mBufBytesNeeded (this m)) cap) as [Hle|Hgt];
    [exact Hle|].
  exfalso. apply H2; [rewrite Hcap'; lia|exact Hres].
Qed.

(** ** A buffer that does not start with a map *)

Section NonMap.

Variable indet : TypeInfo.
Variable behindTable : Z -> Z.

Lemma findElement_non_map fuel name m :
  let first := peek (heap m) (mBuf (this m) + mDataOffset (this m)) in
  Z.shiftr first 5 <> kCborMap ->
  Z.shiftr first 5 <> kCborTag ->
  exists m',
    findElement indet behindTable (S fuel) name m
    = Some (TypeInfo_major indet kCborError, m').
Proof.
  intros first Hmap Htag. unfold findElement.
  unfold bind at 1, self at 1. cbv zeta. unfold bind at 1.
  rewrite getNextField_eq. unfold bind at 1, self at 1.
  destruct (mMaxBufLen (this m) <=? mDataOffset (this m)).
  { eexists. reflexivity. }
  cbv zeta. unfold bind at 1, load at 1. fold first.
  destruct (mMaxBufLen (this m) <? _).
  { eexists. reflexivity. }
  destruct (Z.eqb_spec (Z.shiftr first 5) kCborTag); [contradiction|].
  unfold ret. cbn [majorval].
  destruct (Z.eqb_spec (Z.shiftr first 5) kCborMap); [contradiction|].
  eexists. reflexivity.
Qed.

(** When the byte at the cursor has neither the major type of a map nor
    that of a tag, with the cursor inside the buffer or at its end:
    [get<T>], [get<bool>], [get<float>] and [get<const char *>] return
    the default given and [getLength] returns 0.  ([getPointer] tests the
    tag of the descriptor, which is not set for a name that is not found:
    nothing is stated of it.) *)
Theorem get_on_non_map_returns_default
    (fuel : nat) (T : IntType) (name : string) (d : Z) (b : bool) (f s : Z)
    (m : Machine) :
  let first := peek (heap m) (mBuf (this m) + mDataOffset (this m)) in
  Z.shiftr first 5 <> kCborMap ->
  Z.shiftr first 5 <> kCborTag ->
  value_of (get_int indet behindTable (S fuel) T name d m) = Some d
  /\ value_of (get_bool indet behindTable (S fuel) name b m) = Some b
  /\ value_of (get_float indet behindTable (S fuel) name f m) = Some f
  /\ value_of (get_string indet behindTable (S fuel) name s m) = Some s
  /\ value_of (getLength indet behindTable (S fuel) name m) = Some 0.
Proof.
  intros first Hmap Htag.
  destruct (findElement_non_map fuel name m Hmap Htag) as [m' Hfind].
  split; [exact (get_int_not_found _ _ _ T name d m _ _ Hfind eq_refl)|].
  split; [exact (get_bool_not_found _ _ _ name b m _ _ Hfind eq_refl)|].
  split; [exact (get_float_not_found _ _ _ name f m _ _ Hfind eq_refl)|].
  split.
  - unfold get_string, bind. rewrite Hfind. reflexivity.
  - unfold getLength, bind. rewrite Hfind. reflexivity.
Qed.

End NonMap.

(** ** The reader changes the cursor only *)

Lemma cursor_only_refl m : cursor_only m m.
Proof.
  split; [reflexivity|]. exists (mDataOffset (this m)).
  destruct m as [[buf cap nd off res ro nt d fr] h l]. reflexivity.
Qed.

Lemma cursor_only_trans m1 m2 m3 :
  cursor_only m1 m2 -> cursor_only m2 m3 -> cursor_only m1 m3.
Proof.
  intros [H1 [o1 E1]] [H2 [o2 E2]]. split; [congruence|].
  exists o2. rewrite E2, E1. reflexivity.
Qed.

Lemma bind_some {A B : Type} (c : M A) (k : A -> M B) m r m' :
  bind c k m = Some (r, m') ->
  exists a m1, c m = Some (a, m1) /\ k a m1 = Some (r, m').
Proof.
  unfold bind. destruct (c m) as [[a m1]|]; [|discriminate].
  intros H. exists a, m1. auto.
Qed.

Lemma load_cursor_only a m v m' :
  load a m = Some (v, m') -> cursor_only m m'.
Proof.
  intros [= <- <-]. split; [reflexivity|]. exists (mDataOffset (this m)).
  destruct m as [[buf cap nd off res ro nt d fr] h l]. reflexivity.
Qed.

Lemma update_cursor_only (g : MicroCbor -> Z) m x m' :
  update (fun c => set_mDataOffset (g c) c) m = Some (x, m') ->
  cursor_only m m'.
Proof.
  intros [= <- <-]. split; [reflexivity|]. eexists. reflexivity.
Qed.

Lemma getFieldValue_cursor_only info m v m' :
  getFieldValue info m = Some (v, m') -> cursor_only m m'.
Proof.
  intros H. destruct (getFieldValue_this info m) as (v' & m'' & E & Ht & Hh).
  rewrite E in H. injection H as <- <-. split; [exact Hh|].
  exists (mDataOffset (this m)). rewrite Ht.
  destruct m as [[buf cap nd off res ro nt d fr] h l]. reflexivity.
Qed.

Lemma strncmp_cursor_only s1 :
  forall s2 n m r m', strncmp s1 s2 n m = Some (r, m') -> cursor_only m m'.
Proof.
  induction s1 as [|c s1 IH]; intros s2 n m r m'; cbn [strncmp];
    destruct (n <=? 0); try (intros [= <- <-]; apply cursor_only_refl).
  - intros H. apply bind_some in H as (b & m1 & Hl & [= <- <-]).
    exact (load_cursor_only _ _ _ _ Hl).
  - intros H. apply bind_some in H as (b & m1 & Hl & H).
    apply load_cursor_only in Hl.
    destruct (b =? c).
    + exact (cursor_only_trans _ _ _ Hl (IH _ _ _ _ _ H)).
    + injection H as <- <-. exact Hl.
Qed.

Section CursorOnly.

Variable indet : TypeInfo.
Variable behindTable : Z -> Z.

Lemma skipPairs_eq fuel len :
  skipPairs indet behindTable (S fuel) len =
  (if len =? 0 then ret tt
   else
     key <- getNextField indet behindTable fuel ;;
     skipField indet behindTable fuel key ;;;
     value <- getNextField indet behindTable fuel ;;
     skipField indet behindTable fuel value ;;;
     skipPairs indet behindTable fuel (len - 1)).
Proof. reflexivity. Qed.

Lemma skipItems_eq fuel len :
  skipItems indet behindTable (S fuel) len =
  (if len =? 0 then ret tt
   else
     field <- getNextField indet behindTable fuel ;;
     skipField indet behindTable fuel field ;;;
     skipItems indet behindTable fuel (len - 1)).
Proof. reflexivity. Qed.

(** The four methods that walk the items. *)
Lemma walk_cursor_only fuel :
  (forall m e m',
     getNextField indet behindTable fuel m = Some (e, m') ->
     cursor_only m m')
  /\ (forall info m x m',
        skipField indet behindTable fuel info m = Some (x, m') ->
        cursor_only m m')
  /\ (forall len m x m',
        skipPairs indet behindTable fuel len m = Some (x, m') ->
        cursor_only m m')
  /\ (forall len m x m',
        skipItems indet behindTable fuel len m = Some (x, m') ->
        cursor_only m m').
Proof.
  induction fuel as [|fuel (IHn & IHs & IHp & IHi)].
  { repeat split; intros; discriminate. }
  split; [|split; [|split]].
  - intros m e m' H. rewrite getNextField_eq in H.
    apply bind_some in H as (c & m1 & [= <- <-] & H).
    destruct (mMaxBufLen (this m) <=? mDataOffset (this m)).
    { injection H as <- <-. apply cursor_only_refl. }
    cbv zeta in H.
    apply bind_some in H as (b & m1 & Hl & H).
    apply load_cursor_only in Hl.
    destruct (mMaxBufLen (this m) <? _).
    { injection H as <- <-. exact Hl. }
    destruct (_ =? kCborTag).
    + apply bind_some in H as (tg & m2 & H2 & H).
      apply getFieldValue_cursor_only in H2.
      apply bind_some in H as (x & m3 & H3 & H). apply IHs in H3.
      apply bind_some in H as (fld & m4 & H4 & [= <- <-]). apply IHn in H4.
      eauto using cursor_only_trans.
    + injection H as <- <-. exact Hl.
  - intros info m x m' H. rewrite skipField_eq in H.
    apply bind_some in H as (len & m1 & H1 & H).
    apply getFieldValue_cursor_only in H1.
    apply bind_some in H as (u & m2 & H2 & H).
    apply (update_cursor_only
             (fun c => uint32 (mDataOffset c + headerBytes info))) in H2.
    apply bind_some in H as (c & m3 & [= <- <-] & H).
    assert (H12 : cursor_only m m2) by eauto using cursor_only_trans.
    destruct (_ <=? _).
    { injection H as <- <-. exact H12. }
    destruct (_ || _).
    { apply (update_cursor_only (fun c => uint32 (mDataOffset c + len))) in H.
      eauto using cursor_only_trans. }
    destruct (_ =? kCborMap).
    { apply IHp in H. eauto using cursor_only_trans. }
    destruct (_ =? kCborArray).
    { apply IHi in H. eauto using cursor_only_trans. }
    injection H as <- <-. exact H12.
  - intros len m x m' H. rewrite skipPairs_eq in H.
    destruct (len =? 0).
    { injection H as <- <-. apply cursor_only_refl. }
    apply bind_some in H as (k & m1 & H1 & H). apply IHn in H1.
    apply bind_some in H as (u & m2 & H2 & H). apply IHs in H2.
    apply bind_some in H as (v & m3 & H3 & H). apply IHn in H3.
    apply bind_some in H as (w & m4 & H4 & H). apply IHs in H4.
    apply IHp in H. eauto 10 using cursor_only_trans.
  - intros len m x m' H. rewrite skipItems_eq in H.
    destruct (len =? 0).
    { injection H as <- <-. apply cursor_only_refl. }
    apply bind_some in H as (k & m1 & H1 & H). apply IHn in H1.
    apply bind_some in H as (u & m2 & H2 & H). apply IHs in H2.
    apply IHi in H. eauto 10 using cursor_only_trans.
Qed.

(** The loop of [findElement] leaves the cursor at [mapOffset]. *)
Lemma findLoop_cursor fuel name info mapOffset :
  forall n m e m',
    findLoop indet behindTable fuel name info mapOffset n m = Some (e, m') ->
    heap m' = heap m /\ this m' = set_mDataOffset mapOffset (this m).
Proof.
  induction fuel as [|fuel IH]; intros n m e m' H; [discriminate H|].
  destruct (walk_cursor_only fuel) as (Hn & Hs & _).
  assert (Hset : forall m1 m2 x,
             cursor_only m m1 ->
             update (set_mDataOffset mapOffset) m1 = Some (x, m2) ->
             heap m2 = heap m
             /\ this m2 = set_mDataOffset mapOffset (this m)).
  { intros m1 m2 x [Hh [o Ho]] [= <- <-]. split; [exact Hh|].
    cbn. rewrite Ho. reflexivity. }
  rewrite findLoop_eq in H.
  destruct (n =? 0).
  { apply bind_some in H as (u & m1 & H1 & [= <- <-]).
    exact (Hset _ _ _ (cursor_only_refl m) H1). }
  cbv zeta in H.
  apply bind_some in H as (s & m1 & H1 & H). apply Hn in H1.
  apply bind_some in H as (sLen & m2 & H2 & H).
  apply getFieldValue_cursor_only in H2.
  apply bind_some in H as (c & m3 & [= <- <-] & H).
  apply bind_some in H as (hit & m3 & H3 & H).
  assert (H03 : cursor_only m m3).
  { apply (cursor_only_trans _ m2); [eauto using cursor_only_trans|].
    destruct (_ <=? _).
    - exact (strncmp_cursor_only _ _ _ _ _ _ H3).
    - injection H3 as <- <-. apply cursor_only_refl. }
  destruct hit.
  - apply bind_some in H as (u & m4 & H4 & H). apply Hs in H4.
    apply bind_some in H as (v & m5 & H5 & H). apply Hn in H5.
    apply bind_some in H as (w & m6 & H6 & [= <- <-]).
    eapply (Hset m5); [eauto 10 using cursor_only_trans|exact H6].
  - apply bind_some in H as (u & m4 & H4 & H). apply Hs in H4.
    apply bind_some in H as (v & m5 & H5 & H). apply Hn in H5.
    apply bind_some in H as (w & m6 & H6 & H). apply Hs in H6.
    apply IH in H as [Hh Ht].
    assert (H06 : cursor_only m m6) by eauto 10 using cursor_only_trans.
    destruct H06 as [Hh6 [o Ho]]. split; [congruence|].
    rewrite Ht, Ho. reflexivity.
Qed.

(** A lookup that returns has written nothing and has changed nothing of
    the instance but the cursor; when it has found an item, the cursor is
    where it was. *)
Theorem findElement_restores_cursor
    (fuel : nat) (name : string) (m : Machine) (e : TypeInfo) (m' : Machine) :
  findElement indet behindTable fuel name m = Some (e, m') ->
  heap m' = heap m
  /\ (exists o, this m' = set_mDataOffset o (this m))
  /\ (majorval e <> kCborError -> this m' = this m).
Proof.
  intros H. unfold findElement in H.
  apply bind_some in H as (c & m0 & [= <- <-] & H). cbv zeta in H.
  apply bind_some in H as (info & m1 & H1 & H).
  destruct (walk_cursor_only fuel) as (Hn & _). apply Hn in H1.
  destruct (negb _).
  { injection H as <- <-. destruct H1 as [Hh Ho].
    split; [exact Hh|]. split; [exact Ho|].
    intros Hne. exfalso. apply Hne. reflexivity. }
  apply bind_some in H as (n & m2 & H2 & H).
  apply getFieldValue_cursor_only in H2.
  apply bind_some in H as (u & m3 & H3 & H).
  apply (update_cursor_only
           (fun c => uint32 (mDataOffset c + headerBytes info))) in H3.
  apply findLoop_cursor in H as [Hh Ht].
  assert (H03 : cursor_only m m3) by eauto 10 using cursor_only_trans.
  destruct H03 as [Hh3 [o Ho]].
  assert (E : this m' = this m).
  { rewrite Ht, Ho.
    destruct m as [[buf cap nd off res ro nt d fr] h l]. reflexivity. }
  split; [congruence|]. split; [|intros _; exact E].
  exists (mDataOffset (this m)). rewrite E.
  destruct m as [[buf cap nd off res ro nt d fr] h l]. reflexivity.
Qed.

End CursorOnly.

(** ** The writer stores inside its buffer only *)

Section InBuffer.

Variables buf cap : Z.
Variable heap0 : list Z.
Hypothesis cap_bound : 0 <= cap <= 2 ^ 31.

Lemma grows_compose j k (f g : Machine -> Machine) :
  grows buf cap heap0 j f -> grows buf cap heap0 k g -> 0 <= j -> 0 <= k ->
  grows buf cap heap0 (j + k) (fun m => g (f m)).
Proof.
  intros Hf Hg Hj Hk m H.
  destruct (Hf m H) as (H1 & H2 & H3 & H4).
  destruct (Hg (f m) H1) as (H5 & H6 & H7 & H8).
  split; [exact H5|]. split; [congruence|]. split; [congruence|].
  intros Hres. destruct (H8 Hres) as [Hr1 Ho1].
  destruct (H4 Hr1) as [Hr0 Ho0]. split; [exact Hr0|lia].
Qed.

Lemma grows_weaken j k (f : Machine -> Machine) :
  grows buf cap heap0 k f -> j <= k -> grows buf cap heap0 j f.
Proof.
  intros Hf Hjk m H. destruct (Hf m H) as (H1 & H2 & H3 & H4).
  split; [exact H1|]. split; [exact H2|]. split; [exact H3|].
  intros Hres. destruct (H4 Hres). split; [assumption|lia].
Qed.

Lemma grows_id : grows buf cap heap0 0 (fun m => m).
Proof.
  intros m H. split; [exact H|]. split; [reflexivity|].
  split; [reflexivity|]. intros Hr. split; [exact Hr|lia].
Qed.

Ltac grows_tac :=
  let m := fresh "m" in
  let Hb := fresh "Hb" in
  let Hc := fresh "Hc" in
  let Hlen := fresh "Hlen" in
  let Hout := fresh "Hout" in
  let Ht := fresh "Ht" in
  intros m (Hb & Hc & (Hlen & Hout) & Ht);
  destruct m as [[buf' cap' nd off res ro nt d fr] h l];
  cbn [this heap mBuf mMaxBufLen mBufBytesNeeded mDataOffset mResult] in *;
  subst buf' cap';
  unfold writer_ok, in_buffer_only;
  cbn [this heap loads mBuf mMaxBufLen mBufBytesNeeded mDataOffset mResult
       mReadOnly mNullTerminate mDepth mMapState
       set_mBufBytesNeeded set_mDataOffset set_mResult];
  repeat (split_if;
          cbn [this heap loads mBuf mMaxBufLen mBufBytesNeeded mDataOffset
               mResult mReadOnly mNullTerminate mDepth mMapState
               set_mBufBytesNeeded set_mDataOffset set_mResult negb] in *);
  unfold uint32 in *;
  repeat split; intros;
  rewrite ?length_poke, ?length_poke_bytes;
  rewrite ?peek_poke_ne by lia;
  rewrite ?peek_poke_bytes_out by (cbn [length]; lia);
  auto; try lia.

Lemma store1_grows v :
  grows buf cap heap0 1 (fun m => storeByte v (reserveBytes 1 m)).
Proof. unfold storeByte, reserveBytes, with_this. grows_tac. Qed.

Lemma store2_grows v w :
  grows buf cap heap0 2
    (fun m => storeByte w (storeByte v (reserveBytes 2 m))).
Proof. unfold storeByte, reserveBytes, with_this. grows_tac. Qed.

Lemma store3_grows u v w :
  grows buf cap heap0 3
    (fun m => storeByte w (storeByte v (storeByte u (reserveBytes 3 m)))).
Proof. unfold storeByte, reserveBytes, with_this. grows_tac. Qed.

Lemma encodeUInt8_grows t v : grows buf cap heap0 2 (encodeUInt8 t v).
Proof. unfold encodeUInt8, reserveBytes, with_this. grows_tac. Qed.

Lemma encodeUInt16_grows t v : grows buf cap heap0 3 (encodeUInt16 t v).
Proof. unfold encodeUInt16, reserveBytes, with_this. grows_tac. Qed.

Lemma encodeUInt32_grows t v : grows buf cap heap0 5 (encodeUInt32 t v).
Proof. unfold encodeUInt32, reserveBytes, with_this. grows_tac. Qed.

Lemma encodeUInt64_grows t v : grows buf cap heap0 9 (encodeUInt64 t v).
Proof. unfold encodeUInt64, reserveBytes, with_this. grows_tac. Qed.

Lemma in_buffer_only_poke_bytes h a bs :
  in_buffer_only buf cap heap0 h ->
  buf <= a -> a + Z.of_nat (length bs) <= buf + cap ->
  in_buffer_only buf cap heap0 (poke_bytes a bs h).
Proof.
  intros [Hlen Hout] Ha Hfit. split.
  - rewrite length_poke_bytes. exact Hlen.
  - intros a' Ha'. rewrite peek_poke_bytes_out by lia. apply Hout, Ha'.
Qed.

Lemma in_buffer_only_memcpy h a src n :
  in_buffer_only buf cap heap0 h ->
  buf <= a -> 0 <= n -> a + n <= buf + cap ->
  in_buffer_only buf cap heap0 (memcpy a src n h).
Proof.
  intros Hin Ha Hn Hfit. unfold memcpy.
  apply in_buffer_only_poke_bytes; [exact Hin|exact Ha|].
  rewrite length_take. lia.
Qed.

Lemma in_buffer_only_memset h a c n :
  in_buffer_only buf cap heap0 h ->
  buf <= a -> 0 <= n -> a + n <= buf + cap ->
  in_buffer_only buf cap heap0 (memset a c n h).
Proof.
  intros Hin Ha Hn Hfit. unfold memset.
  apply in_buffer_only_poke_bytes; [exact Hin|exact Ha|].
  rewrite length_replicate. lia.
Qed.

(** [reserveBytes(n)] and, when the reservation has not failed, a store
    [g] into the [n] bytes at the cursor. *)
Lemma block_grows n (g : Z -> list Z -> list Z) :
  0 <= n < 2 ^ 31 ->
  (forall a h,
     in_buffer_only buf cap heap0 h -> buf <= a -> a + n <= buf + cap ->
     in_buffer_only buf cap heap0 (g a h)) ->
  grows buf cap heap0 n
    (fun m =>
       let m' := reserveBytes n m in
       let c := this m' in
       if mResult c =? 0 then
         {| this := set_mDataOffset (uint32 (mDataOffset c + n)) c;
            heap := g (mBuf c + mDataOffset c) (heap m');
            loads := loads m' |}
       else m').
Proof.
  intros Hn Hg m (Hb & Hc & Hin & Ht).
  destruct m as [[buf' cap' nd off res ro nt d fr] h l].
  cbn [this heap mBuf mMaxBufLen mBufBytesNeeded mDataOffset mResult] in *.
  subst buf' cap'.
  unfold writer_ok, reserveBytes, with_this. cbv zeta.
  cbn [this heap loads mBuf mMaxBufLen mBufBytesNeeded mDataOffset mResult
       mReadOnly mNullTerminate mDepth mMapState
       set_mBufBytesNeeded set_mDataOffset set_mResult].
  rewrite (uint32_small n) by lia.
  destruct (Z.ltb_spec cap (uint32 (nd + n))) as [Hover|Hfit];
    cbn [this heap loads mBuf mMaxBufLen mBufBytesNeeded mDataOffset mResult
         mReadOnly mNullTerminate mDepth mMapState
         set_mBufBytesNeeded set_mDataOffset set_mResult].
  { change (-1 =? 0) with false. cbv iota.
    cbn [this heap loads mBuf mMaxBufLen mBufBytesNeeded mDataOffset mResult
         mDepth mMapState].
    split; [|split; [reflexivity|split; [reflexivity|]]];
      [|intros E; discriminate E].
    split; [reflexivity|]. split; [reflexivity|]. split; [exact Hin|].
    intros E; discriminate E. }
  destruct (Z.eqb_spec res 0) as [->|Hres];
    cbn [this heap loads mBuf mMaxBufLen mBufBytesNeeded mDataOffset mResult
         mReadOnly mNullTerminate mDepth mMapState
         set_mBufBytesNeeded set_mDataOffset set_mResult].
  - destruct (Ht eq_refl) as (-> & Hnd).
    rewrite (uint32_small (nd + n)) in * by lia.
    split; [|split; [reflexivity|split; [reflexivity|]]];
      [|intros _; split; [reflexivity|lia]].
    split; [reflexivity|]. split; [reflexivity|]. split.
    + apply Hg; [exact Hin|lia|lia].
    + intros _. split; [reflexivity|lia].
  - split; [|split; [reflexivity|split; [reflexivity|]]];
      [|intros E; contradiction].
    split; [reflexivity|]. split; [reflexivity|]. split; [exact Hin|].
    intros E; contradiction.
Qed.

Lemma encodeHeader_grows mj len :
  grows buf cap heap0 1 (encodeHeader mj len).
Proof.
  unfold encodeHeader. cbv zeta.
  repeat case_match;
    first [ apply store1_grows
          | (apply (grows_weaken 1 2); [apply store2_grows|lia])
          | (apply (grows_weaken 1 3); [apply encodeUInt16_grows|lia])
          | (apply (grows_weaken 1 5); [apply encodeUInt32_grows|lia]) ].
Qed.

Lemma encodeTag_grows t : grows buf cap heap0 1 (encodeTag t).
Proof.
  unfold encodeTag. cbv zeta.
  repeat case_match;
    first [ apply store1_grows
          | (apply (grows_weaken 1 2); [apply store2_grows|lia])
          | (apply (grows_weaken 1 3); [apply store3_grows|lia]) ].
Qed.

Lemma encodeString_grows s (nt : bool) :
  strlen s + 1 < 2 ^ 31 ->
  grows buf cap heap0
    (1 + (if nt then strlen s + 1 else strlen s)) (encodeString s nt).
Proof.
  intros Hs. assert (0 <= strlen s) by (unfold strlen; lia).
  set (len := if nt then strlen s + 1 else strlen s).
  assert (Hlen : 0 <= len < 2 ^ 31) by (unfold len; destruct nt; lia).
  exact (grows_compose 1 len _ _
           (encodeHeader_grows kCborUTF8String len)
           (block_grows len (fun a h => memcpy a (c_bytes s) len h) Hlen
              (fun a h Hin Ha Hfit =>
                 in_buffer_only_memcpy h a (c_bytes s) len Hin Ha
                   (proj1 Hlen) Hfit))
           ltac:(lia) ltac:(lia)).
Qed.

Lemma encodeBytes_grows bs n :
  uint32 n < 2 ^ 31 ->
  grows buf cap heap0 1 (encodeBytes bs n).
Proof.
  intros Hn. assert (Hn0 : 0 <= uint32 n) by (unfold uint32; lia).
  apply (grows_weaken 1 (1 + uint32 n)); [|lia].
  exact (grows_compose 1 (uint32 n) _ _
           (encodeHeader_grows kCborByteString (uint32 n))
           (block_grows (uint32 n) (fun a h => memcpy a bs (uint32 n) h)
              ltac:(lia)
              (fun a h Hin Ha Hfit =>
                 in_buffer_only_memcpy h a bs (uint32 n) Hin Ha Hn0 Hfit))
           ltac:(lia) Hn0).
Qed.

(** The key of an aligned array, padded with [pad] NUL bytes; no map
    counts it. *)
Lemma padded_key_grows s pad :
  0 <= pad <= 8 -> strlen s + 8 < 2 ^ 31 ->
  grows buf cap heap0 1
    (fun m =>
       let m := encodeHeader kCborUTF8String (strlen s + pad) m in
       let m := reserveBytes (strlen s + pad) m in
       let c := this m in
       if mResult c =? 0 then
         {| this :=
              set_mDataOffset (uint32 (mDataOffset c + (strlen s + pad))) c;
            heap :=
              memset (mBuf c + mDataOffset c + strlen s) 0 pad
                (memcpy (mBuf c + mDataOffset c) (c_bytes s) (strlen s)
                   (heap m));
            loads := loads m |}
       else m).
Proof.
  intros Hpad Hs. assert (Hs0 : 0 <= strlen s) by (unfold strlen; lia).
  apply (grows_weaken 1 (1 + (strlen s + pad))); [|lia].
  refine (grows_compose 1 (strlen s + pad) _ _
            (encodeHeader_grows kCborUTF8String (strlen s + pad))
            (block_grows (strlen s + pad)
               (fun a h =>
                  memset (a + strlen s) 0 pad
                    (memcpy a (c_bytes s) (strlen s) h))
               ltac:(lia) _)
            ltac:(lia) ltac:(lia)).
  intros a h Hin Ha Hfit.
  apply in_buffer_only_memset; [|lia|lia|lia].
  apply in_buffer_only_memcpy; [exact Hin|lia|lia|lia].
Qed.

(** *** Maps *)

Lemma steps_compose d1 d2 d3 (f g : Machine -> Machine) :
  steps buf cap heap0 d1 d2 f -> steps buf cap heap0 d2 d3 g ->
  steps buf cap heap0 d1 d3 (fun m => g (f m)).
Proof. intros Hf Hg m H. apply Hg, Hf, H. Qed.

Lemma grows_steps k (f : Machine -> Machine) d :
  grows buf cap heap0 k f -> 0 <= k -> steps buf cap heap0 d d f.
Proof.
  intros Hf Hk m [Hw Hfr]. destruct (Hf m Hw) as (H1 & H2 & H3 & H4).
  split; [exact H1|]. intros Hres. destruct (H4 Hres) as [Hr0 Hoff].
  destruct (Hfr Hr0) as [Hd Hi]. split; [congruence|].
  intros i Hi'. cbv zeta. rewrite H3. specialize (Hi i Hi'). cbv zeta in Hi.
  lia.
Qed.

Lemma c_str_strlen s : c_str s = [] <-> strlen s = 0.
Proof.
  unfold strlen. destruct (c_str s); cbn [length]; split; intros E;
    try reflexivity; try discriminate E; lia.
Qed.

Lemma encodeMapKey_steps d name :
  key_ok d name -> steps buf cap heap0 d d (encodeMapKey name).
Proof.
  intros Hkey. unfold encodeMapKey.
  destruct name as [s|]; [|intros m H; exact H].
  destruct (c_str s) as [|k ks] eqn:Ecs; [intros m H; exact H|].
  cbn [key_ok] in Hkey.
  assert (Hlen : 1 <= strlen s).
  { unfold strlen. rewrite Ecs. cbn [length]. lia. }
  destruct Hkey as [E|[Hd Hs]]; [lia|].
  intros m [Hw Hfr].
  assert (Hw1 : writer_ok buf cap heap0 (with_this bump_mapCount m)).
  { exact Hw. }
  destruct (encodeString_grows s false ltac:(lia) _ Hw1)
    as (H1 & H2 & H3 & H4).
  split; [exact H1|]. intros Hres. destruct (H4 Hres) as [Hr0 Hoff].
  change (mResult (this m) = 0) in Hr0.
  change (mDataOffset (this m) + (1 + strlen s)
          <= mDataOffset (this (encodeString s false
                                  (with_this bump_mapCount m)))) in Hoff.
  destruct (Hfr Hr0) as [Hdep Hi]. split.
  - rewrite H2. exact Hdep.
  - intros i Hi'. cbv zeta. rewrite H3. specialize (Hi i Hi').
    cbv zeta in Hi. revert Hoff.
    generalize (mDataOffset
                  (this (encodeString s false (with_this bump_mapCount m)))).
    intros off' Hoff.
    unfold with_this, bump_mapCount, set_frame.
    cbn [this mMapState mDepth].
    destruct (Z.eqb_spec i (mDepth (this m))) as [->|Hne];
      cbn [mapStartPos mapCount]; lia.
Qed.

Lemma int8_small x : - 2 ^ 7 <= x < 2 ^ 7 -> int8 x = x.
Proof. intros H. unfold int8. lia. Qed.

Lemma startMap_steps d n :
  -1 <= d -> d + 1 < CONFIG_MICROCBOR_MAX_NESTING ->
  steps buf cap heap0 d (d + 1) (startMap n).
Proof.
  unfold CONFIG_MICROCBOR_MAX_NESTING. intros Hd Hd' m [Hw Hfr].
  unfold startMap. cbv zeta.
  destruct (mReadOnly (this m) || _) eqn:Erefused.
  { split.
    - destruct Hw as (Hb & Hc & Hin & Ht).
      split; [exact Hb|]. split; [exact Hc|]. split; [exact Hin|].
      intros E; discriminate E.
    - intros E; discriminate E. }
  match goal with
  | |- context [encodeHeader _ _ ?x] => set (m1 := x)
  end.
  assert (Hw1 : writer_ok buf cap heap0 m1) by exact Hw.
  destruct (encodeHeader_grows kCborMap n m1 Hw1) as (H1 & H2 & H3 & H4).
  split; [exact H1|]. intros Hres. destruct (H4 Hres) as [Hr0 Hoff].
  change (mResult (this m) = 0) in Hr0.
  change (mDataOffset (this m) + 1
          <= mDataOffset (this (encodeHeader kCborMap n m1))) in Hoff.
  destruct (Hfr Hr0) as [Hdep Hi].
  destruct Hw as (_ & _ & _ & Ht). destruct (Ht Hr0) as [Ho Hnd].
  assert (Hd1 : mDepth (this m1) = d + 1).
  { subst m1. cbn [this mDepth set_frame set_mDepth]. rewrite Hdep.
    apply int8_small. lia. }
  split; [rewrite H2; exact Hd1|].
  intros i Hi'. cbv zeta. rewrite H3. revert Hoff.
  generalize (mDataOffset (this (encodeHeader kCborMap n m1))).
  intros off' Hoff. clear H1 H2 H3 H4 Hw1 Hd1 Hres. subst m1.
  cbn [this mMapState mDepth set_frame set_mDepth mDataOffset].
  rewrite Hdep, (int8_small (d + 1)) by lia.
  destruct (Z.eqb_spec i (d + 1)) as [->|Hne]; cbn [mapStartPos mapCount].
  - split; [lia|]. split; [lia|]. intros E; contradiction.
  - specialize (Hi i ltac:(lia)). cbv zeta in Hi. lia.
Qed.

Lemma endMap_steps d :
  0 <= d < CONFIG_MICROCBOR_MAX_NESTING ->
  steps buf cap heap0 d (d - 1) endMap.
Proof.
  unfold CONFIG_MICROCBOR_MAX_NESTING. intros Hd m [Hw Hfr].
  destruct Hw as (Hb & Hc & Hin & Ht).
  unfold endMap. cbv zeta. split.
  - split; [exact Hb|]. split; [exact Hc|]. split; [|exact Ht].
    cbn [heap].
    destruct (Z.eqb_spec (mResult (this m)) 0) as [Hr0|Hr]; cbn [andb];
      [|exact Hin].
    destruct (negb _); [|exact Hin].
    destruct (Hfr Hr0) as [Hdep Hi]. destruct (Ht Hr0) as [Ho Hnd].
    specialize (Hi d ltac:(lia)). cbv zeta in Hi. rewrite <- Hdep in Hi.
    destruct Hin as [Hlen Hout].
    destruct (Z.ltb_spec (mapCount (mMapState (this m) (mDepth (this m)))) 24)
      as [Hlt|Hge];
      [|rewrite (uint32_small (mapStartPos _ + 1)) by lia];
      (split; [rewrite ?length_poke; exact Hlen|]);
      intros a Ha; rewrite ?peek_poke_ne by lia; apply Hout, Ha.
  - intros Hres. change (mResult (this m) = 0) in Hres.
    destruct (Hfr Hres) as [Hdep Hi]. split.
    + cbn [this mDepth set_mDepth]. rewrite Hdep. apply int8_small. lia.
    + intros i Hi'. cbv zeta. cbn [this mMapState set_mDepth mDataOffset].
      specialize (Hi i ltac:(lia)). exact Hi.
Qed.

Lemma add_array_steps d T name value n align :
  key_ok d name -> uint32 n * elem_sizeof T < 2 ^ 31 ->
  steps buf cap heap0 d d (add_array T name value n align).
Proof.
  intros Hkey Hn. unfold add_array. cbv zeta.
  assert (Hsz : 1 <= elem_sizeof T <= 8).
  { destruct (elem_sizeof_cases T) as [E|[E|[E|E]]]; rewrite E; lia. }
  assert (Hn0 : 0 <= uint32 n) by (unfold uint32; lia).
  assert (Hraw : uint32 (uint32 n * elem_sizeof T) < 2 ^ 31).
  { rewrite uint32_small by nia. exact Hn. }
  refine (steps_compose d d d _ _ _
            (steps_compose d d d _ _
               (grows_steps 1 _ d (encodeTag_grows _) ltac:(lia))
               (grows_steps 1 _ d (encodeBytes_grows _ _ Hraw) ltac:(lia)))).
  destruct name as [s|]; [|apply encodeMapKey_steps; exact I].
  destruct align; [|apply encodeMapKey_steps; exact Hkey].
  intros m H.
  destruct (_ =? 0) eqn:Eodd; [apply encodeMapKey_steps; assumption|].
  match goal with
  | |- context [memset _ 0 ?pad _] =>
      refine (grows_steps 1 _ d (padded_key_grows s pad _ _) ltac:(lia) m H)
  end.
  - apply Z.eqb_neq in Eodd. lia.
  - cbn [key_ok] in Hkey. assert (0 <= strlen s) by (unfold strlen; lia). lia.
Qed.

Lemma key_then_grows d name k (f : Machine -> Machine) :
  key_ok d name -> grows buf cap heap0 k f -> 0 <= k ->
  steps buf cap heap0 d d (fun m => f (encodeMapKey name m)).
Proof.
  intros Hkey Hf Hk.
  exact (steps_compose d d d _ _ (encodeMapKey_steps d name Hkey)
           (grows_steps k f d Hf Hk)).
Qed.

Lemma encode_op_steps d op :
  -1 <= d < CONFIG_MICROCBOR_MAX_NESTING -> op_ok d op ->
  steps buf cap heap0 d (depth_after d op) (encode_op op).
Proof.
  intros Hd Hop. destruct op; unfold encode_op; cbn [depth_after op_ok] in *.
  - apply startMap_steps; [lia|exact Hop].
  - destruct Hop as [Hkey Hop].
    exact (steps_compose d d (d + 1) _ _ (encodeMapKey_steps d name Hkey)
             (startMap_steps d 0 ltac:(lia) Hop)).
  - apply endMap_steps. lia.
  - unfold add_int. cbv zeta.
    repeat case_match;
      first
        [ exact (key_then_grows d name 9 (encodeUInt64 _ _) Hop
                   (encodeUInt64_grows _ _) ltac:(lia))
        | exact (key_then_grows d name 5 (encodeUInt32 _ _) Hop
                   (encodeUInt32_grows _ _) ltac:(lia))
        | exact (key_then_grows d name 3 (encodeUInt16 _ _) Hop
                   (encodeUInt16_grows _ _) ltac:(lia))
        | exact (key_then_grows d name 2 (encodeUInt8 _ _) Hop
                   (encodeUInt8_grows _ _) ltac:(lia)) ].
  - exact (key_then_grows d name 1 _ Hop (store1_grows _) ltac:(lia)).
  - destruct Hop as [Hkey Hv]. unfold add_string. cbv zeta. intros m H.
    assert (0 <= strlen value) by (unfold strlen; lia).
    refine (grows_steps _ _ d
              (encodeString_grows value
                 (mNullTerminate (this (encodeMapKey name m))) Hv) _ _
              (encodeMapKey_steps d name Hkey m H)).
    destruct (mNullTerminate _); lia.
  - unfold addMinimal. cbv zeta.
    case_match;
      exact (key_then_grows d name 1 (encodeHeader _ _) Hop
               (encodeHeader_grows _ _) ltac:(lia)).
  - exact (key_then_grows d name 5 _ Hop (encodeUInt32_grows _ _)
             ltac:(lia)).
  - exact (key_then_grows d name 9 _ Hop (encodeUInt64_grows _ _)
             ltac:(lia)).
  - destruct Hop as [Hkey Hn]. apply add_array_steps; assumption.
Qed.

Lemma depth_after_range d op :
  -1 <= d < CONFIG_MICROCBOR_MAX_NESTING -> op_ok d op ->
  -1 <= depth_after d op < CONFIG_MICROCBOR_MAX_NESTING.
Proof.
  intros Hd Hop.
  destruct op; cbn [depth_after op_ok] in *;
    unfold CONFIG_MICROCBOR_MAX_NESTING in *; lia.
Qed.

Lemma encode_writer_ok ops : forall d m,
  -1 <= d < CONFIG_MICROCBOR_MAX_NESTING -> ops_ok d ops ->
  writer_ok buf cap heap0 m /\ frames_ok d m ->
  writer_ok buf cap heap0 (encode ops m).
Proof.
  unfold encode.
  induction ops as [|op ops IH]; intros d m Hd Hops H; cbn [fold_left].
  - exact (proj1 H).
  - destruct Hops as [Hop Hops].
    exact (IH (depth_after d op) (encode_op op m)
             (depth_after_range d op Hd Hop) Hops
             (encode_op_steps d op Hd Hop m H)).
Qed.

End InBuffer.

Lemma fresh_writer_ok frames buf cap nt heap0 :
  0 <= cap <= 2 ^ 31 ->
  writer_ok buf cap heap0 (on_heap (MicroCbor_new frames buf cap nt) heap0)
  /\ frames_ok (-1) (on_heap (MicroCbor_new frames buf cap nt) heap0).
Proof.
  intros Hcap. split.
  - split; [reflexivity|]. split; [apply uint32_small; lia|].
    split; [split; [reflexivity|intros a _; reflexivity]|].
    intros _. cbn. lia.
  - intros _. split; [reflexivity|]. intros i Hi. lia.
Qed.

(** Whatever calls are made on a fresh instance bound to the [cap] bytes
    at [buf], with every [startMap] leaving a frame of [mMapState] free,
    every [endMap] and every key inside an open map, and the strings and
    arrays of less than 2^31 bytes: the memory keeps its length and its
    bytes outside the buffer, whether the buffer is large enough or not. *)
Theorem encode_stores_inside_buffer
    (ops : list EncodeOp) (frames : Z -> MapState) (buf cap : Z) (nt : bool)
    (heap0 : list Z) :
  0 <= cap <= 2 ^ 31 ->
  ops_ok (-1) ops ->
  let m := encode ops (on_heap (MicroCbor_new frames buf cap nt) heap0) in
  length (heap m) = length heap0
  /\ forall a, a < buf \/ buf + cap <= a -> peek (heap m) a = peek heap0 a.
Proof.
  intros Hcap Hops. cbv zeta.
  destruct (encode_writer_ok buf cap heap0 Hcap ops (-1) _
              ltac:(unfold CONFIG_MICROCBOR_MAX_NESTING; lia) Hops
              (fresh_writer_ok frames buf cap nt heap0 Hcap))
    as (_ & _ & Hin & _).
  exact Hin.
Qed.

(** ** Writing inside an open map, at any depth *)

Lemma poke_commute a b v w h :
  a <> b -> poke a v (poke b w h) = poke b w (poke a v h).
Proof.
  intros Hab. unfold poke.
  destruct (Z.ltb_spec a 0); destruct (Z.ltb_spec b 0); try reflexivity.
  apply list_insert_insert_ne. lia.
Qed.

Lemma poke_poke a v w h : poke a v (poke a w h) = poke a v h.
Proof.
  unfold poke. destruct (Z.ltb_spec a 0); [reflexivity|].
  apply list_insert_insert_eq.
Qed.

Lemma poke_poke_bytes_out bs a q v h :
  q < a \/ a + Z.of_nat (length bs) <= q ->
  poke q v (poke_bytes a bs h) = poke_bytes a bs (poke q v h).
Proof.
  revert a h. induction bs as [|b bs IH]; intros a h H; cbn [poke_bytes];
    [reflexivity|].
  cbn [length] in H. rewrite IH by lia. f_equal.
  apply poke_commute. lia.
Qed.

(** A store into bytes just written replaces the byte. *)
Lemma poke_poke_bytes_mid a xs y zs v h :
  poke (a + Z.of_nat (length xs)) v (poke_bytes a (xs ++ y :: zs) h)
  = poke_bytes a (xs ++ v :: zs) h.
Proof.
  rewrite !poke_bytes_app. cbn [poke_bytes].
  rewrite poke_poke_bytes_out by lia. rewrite poke_poke. reflexivity.
Qed.

Lemma wrote_in_room buf cap nt heap0 d outer pre body k m n :
  wrote_in buf cap nt heap0 d outer pre body k m ->
  Z.of_nat (length pre) + 1 + Z.of_nat (length body) + n <= cap ->
  cap < 2 ^ 32 ->
  room n m.
Proof.
  intros (Hres & _ & _ & Hc & _ & _ & Hoff & Hnd & _) Hfit Hcap.
  unfold room. cbv zeta. lia.
Qed.

(** What [appended] and a counted pair make of [wrote_in]. *)
Lemma wrote_in_appended buf cap nt heap0 d outer pre body k m img :
  wrote_in buf cap nt heap0 d outer pre body k m ->
  0 <= k < 65535 ->
  wrote_in buf cap nt heap0 d outer pre (body ++ img) (k + 1)
    (appended img (with_this bump_mapCount m)).
Proof.
  intros (Hres & Hro & Hbuf & Hc & Hnt & Hd & Hoff & Hnd & Hheap & Hl & Hfr
          & Hout) Hk.
  destruct m as [[buf' cap' nd off res ro nt' d' fr] h l]. cbn in *. subst.
  unfold wrote_in, appended. cbn.
  rewrite Z.eqb_refl, Hfr. cbn. rewrite (uint16_small (k + 1)) by lia.
  rewrite !length_app.
  split; [reflexivity|]. split; [reflexivity|]. split; [reflexivity|].
  split; [reflexivity|]. split; [reflexivity|]. split; [reflexivity|].
  split; [lia|]. split; [lia|]. split.
  { change (pre ++ 160 :: body ++ img) with (pre ++ (160 :: body) ++ img).
    rewrite app_assoc, (poke_bytes_app buf (pre ++ 160 :: body)).
    f_equal. rewrite length_app. cbn [length]. lia. }
  split; [reflexivity|]. split; [reflexivity|].
  intros i Hi. destruct (Z.eqb_spec i d); [lia|]. apply Hout, Hi.
Qed.

(** One [add] of a value under a key. *)
Lemma emits_leaf nt d key x :
  1 <= strlen key <= 23 -> value_ok x ->
  emits nt d [add_value key x]
    (((96 + strlen key) :: c_str key) ++ value_image nt x).
Proof.
  intros Hkey Hx buf cap heap0 outer pre body k m Hw Hfit Hcap Hk.
  change (encode [add_value key x] m) with (encode_op (add_value key x) m).
  rewrite (add_value_writes nt key x Hx Hkey m).
  - apply wrote_in_appended; assumption.
  - destruct Hw as (_ & _ & _ & _ & Hnt & _). exact Hnt.
  - apply (wrote_in_room _ _ _ _ _ _ _ _ _ _ _ Hw); [|exact Hcap].
    rewrite length_app in Hfit. cbn [length] in Hfit. unfold strlen. lia.
Qed.

(** One entry after the other. *)
Lemma emits_all nt d (items : list (list EncodeOp * list Z)) :
  Forall (fun it => emits nt d (fst it) (snd it)) items ->
  forall buf cap heap0 outer pre body k m,
    wrote_in buf cap nt heap0 d outer pre body k m ->
    Z.of_nat (length pre) + 1 + Z.of_nat (length body)
    + Z.of_nat (length (concat (map snd items))) <= cap ->
    cap < 2 ^ 32 ->
    0 <= k -> k + Z.of_nat (length items) < 65536 ->
    wrote_in buf cap nt heap0 d outer pre (body ++ concat (map snd items))
      (k + Z.of_nat (length items)) (encode (concat (map fst items)) m).
Proof.
  induction 1 as [|[ops img] items Hit Hitems IH];
    intros buf cap heap0 outer pre body k m Hw Hfit Hcap Hk0 Hk.
  - cbn. rewrite app_nil_r, Z.add_0_r. exact Hw.
  - cbn [map concat fst snd length] in *.
    rewrite length_app in Hfit.
    rewrite encode_app, app_assoc.
    replace (k + Z.of_nat (S (length items)))
      with (k + 1 + Z.of_nat (length items)) by lia.
    apply IH; [|rewrite length_app; lia|exact Hcap|lia|lia].
    apply Hit; [exact Hw|lia|exact Hcap|lia].
Qed.

(** [endMap] of the map opened at depth [d] patches its header with the
    number of pairs, fewer than 24, and returns to the map around it. *)
Lemma wrote_in_endMap buf cap nt heap0 d outer pre body k m :
  wrote_in buf cap nt heap0 d outer pre body k m ->
  0 <= d < 4 -> 0 <= k < 24 ->
  let m' := endMap m in
  mResult (this m') = 0 /\ mReadOnly (this m') = false
  /\ mBuf (this m') = buf /\ mMaxBufLen (this m') = cap
  /\ mNullTerminate (this m') = nt /\ mDepth (this m') = d - 1
  /\ mDataOffset (this m') = mDataOffset (this m)
  /\ mBufBytesNeeded (this m') = mBufBytesNeeded (this m)
  /\ heap m' = poke_bytes buf (pre ++ (160 + k) :: body) heap0
  /\ loads m' = []
  /\ mMapState (this m') = mMapState (this m).
Proof.
  intros (Hres & Hro & Hbuf & Hc & Hnt & Hd & Hoff & Hnd & Hheap & Hl & Hfr
          & Hout) Hd4 Hk.
  unfold endMap. cbv zeta.
  cbn [this heap loads mResult mReadOnly mBuf mMaxBufLen mNullTerminate
       mDepth mDataOffset mBufBytesNeeded mMapState set_mDepth].
  rewrite Hd, Hfr, Hres, Hbuf.
  cbn [mapCount mapStartCount mapStartPos].
  change (0 =? 0) with true. cbn [andb].
  repeat (split; [first [assumption | reflexivity
                        | unfold int8; lia]|]).
  split; [|split; [assumption|reflexivity]].
  rewrite Hheap.
  destruct (Z.eqb_spec k 0) as [->|Hk0]; [reflexivity|]. cbn [negb].
  destruct (Z.ltb_spec k 24); [|lia].
  destruct (header_byte_split 5 k) as (E & _); [lia|lia|].
  change (Z.shiftl kCborMap 5) with (Z.shiftl 5 5). rewrite E.
  unfold uint8. rewrite Z.mod_small by lia.
  change (5 * 32) with 160.
  apply poke_poke_bytes_mid.
Qed.

(** [startMap(name)], the entries, and [endMap()], inside the map open at
    depth [d]: the key, and the map of the entries with its one-byte
    header. *)
Lemma emits_sub nt d key (items : list (list EncodeOp * list Z)) :
  1 <= strlen key <= 23 ->
  0 <= d -> d + 1 < 4 ->
  (length items < 24)%nat ->
  Forall (fun it => emits nt (d + 1) (fst it) (snd it)) items ->
  emits nt d
    (OpStartMapNamed (Some key) 0 :: concat (map fst items) ++ [OpEndMap])
    (((96 + strlen key) :: c_str key)
     ++ (160 + Z.of_nat (length items)) :: concat (map snd items)).
Proof.
  intros Hkey Hd0 Hd4 Hn Hitems buf cap heap0 outer pre body k m Hw Hfit
    Hcap Hk.
  set (keyb := (96 + strlen key) :: c_str key) in *.
  set (body2 := concat (map snd items)) in *.
  assert (Hkeyb : Z.of_nat (length keyb) = 1 + strlen key)
    by (unfold keyb, strlen; cbn [length]; lia).
  rewrite length_app in Hfit. cbn [length] in Hfit.
  change (OpStartMapNamed (Some key) 0 :: concat (map fst items)
          ++ [OpEndMap])
    with ([OpStartMapNamed (Some key) 0] ++ concat (map fst items)
          ++ [OpEndMap]).
  rewrite !encode_app.
  change (encode [OpStartMapNamed (Some key) 0] m)
    with (startMap 0 (encodeMapKey (Some key) m)).
  (* the key *)
  rewrite (encodeMapKey_appends key m Hkey).
  2:{ apply (wrote_in_room _ _ _ _ _ _ _ _ _ _ _ Hw); [lia|exact Hcap]. }
  pose proof (wrote_in_appended _ _ _ _ _ _ _ _ _ _ keyb Hw Hk) as Hw1.
  revert Hw1. fold keyb.
  generalize (appended keyb (with_this bump_mapCount m)).
  clear Hw m. intros m Hw1.
  (* the header of the map *)
  assert (Hw2 : wrote_in buf cap nt heap0 (d + 1) (mMapState (this m))
                  (pre ++ 160 :: body ++ keyb) [] 0 (startMap 0 m)).
  { pose proof (wrote_in_room _ _ _ _ _ _ _ _ _ _ 1 Hw1) as Hroom.
    rewrite length_app in Hroom. specialize (Hroom ltac:(lia) Hcap).
    destruct Hw1 as (Hres & Hro & Hbuf & Hc & Hnt & Hd & Hoff & Hnd & Hheap
                     & Hl & Hfr & Hout).
    unfold startMap. cbv zeta. rewrite Hro, Hd.
    destruct (Z.leb_spec CONFIG_MICROCBOR_MAX_NESTING d) as [Hge|_];
      [unfold CONFIG_MICROCBOR_MAX_NESTING in Hge; lia|].
    cbn [orb].
    match goal with
    | |- context [encodeHeader _ _ ?x] => set (m1 := x)
    end.
    assert (H1 : encodeHeader kCborMap 0 m1 = appended [160] m1).
    { transitivity (storeByte 160 (reserveBytes 1 m1)); [reflexivity|].
      apply (store1_appends 160). exact Hroom. }
    rewrite H1. subst m1.
    destruct m as [[buf' cap' nd off res ro nt' d' fr] h l]. cbn in *.
    subst. unfold wrote_in, appended. cbn.
    rewrite (int8_small (d + 1)) by lia. rewrite Z.eqb_refl.
    rewrite !length_app. cbn [length]. rewrite !length_app.
    split; [reflexivity|]. split; [reflexivity|]. split; [reflexivity|].
    split; [reflexivity|]. split; [reflexivity|]. split; [reflexivity|].
    split; [lia|]. split; [lia|]. split.
    { rewrite (poke_bytes_app buf (pre ++ 160 :: body ++ keyb)).
      cbn [poke_bytes]. f_equal. rewrite !length_app. cbn [length].
      rewrite length_app. lia. }
    split; [reflexivity|]. split; [f_equal; lia|].
    intros i Hi. destruct (Z.eqb_spec i (d + 1)); [lia|reflexivity]. }
  (* the entries *)
  pose proof (emits_all nt (d + 1) items Hitems _ _ _ _ _ _ _ _ Hw2) as Hw3.
  cbn [app length] in Hw3. fold body2 in Hw3.
  rewrite !length_app in Hw3. cbn [length] in Hw3.
  rewrite length_app in Hw3.
  specialize (Hw3 ltac:(lia) Hcap ltac:(lia) ltac:(lia)).
  rewrite Z.add_0_l in Hw3.
  (* the end of the map *)
  pose proof (wrote_in_endMap _ _ _ _ _ _ _ _ _ _ Hw3 ltac:(lia) ltac:(lia))
    as Hend.
  cbv zeta in Hend.
  change (encode [OpEndMap] ?x) with (endMap x).
  destruct Hw1 as (_ & _ & _ & _ & _ & _ & _ & _ & _ & _ & Hfr1 & Hout1).
  destruct Hw3 as (_ & _ & _ & _ & _ & _ & Hoff3 & Hnd3 & _ & _ & _ & Hout3).
  revert Hend Hoff3 Hnd3 Hout3.
  generalize (encode (concat (map fst items)) (startMap 0 m)).
  intros m3 (Hres & Hro & Hbuf & Hc & Hnt & Hd & Hoff & Hnd & Hheap & Hl
             & Hfr) Hoff3 Hnd3 Hout3.
  unfold wrote_in. cbv zeta.
  rewrite !length_app in *. cbn [length] in *. rewrite !length_app in *.
  split; [exact Hres|]. split; [exact Hro|]. split; [exact Hbuf|].
  split; [exact Hc|]. split; [exact Hnt|].
  split; [rewrite Hd; lia|].
  split; [rewrite Hoff, Hoff3; fold body2; lia|].
  split; [rewrite Hnd, Hnd3; fold body2; lia|].
  split.
  { rewrite Hheap. f_equal. rewrite <- !app_assoc. cbn [app].
    rewrite <- !app_assoc. reflexivity. }
  split; [exact Hl|]. split.
  - rewrite Hfr, (Hout3 d ltac:(lia)). exact Hfr1.
  - intros i Hi. rewrite Hfr, (Hout3 i ltac:(lia)). apply Hout1, Hi.
Qed.

(** [startMap()] on a fresh instance opens the map at depth 0. *)
Lemma wrote_in_startMap frames buf cap nt heap0 :
  1 <= cap < 2 ^ 32 ->
  wrote_in buf cap nt heap0 0 frames [] [] 0
    (startMap 0 (on_heap (MicroCbor_new frames buf cap nt) heap0)).
Proof.
  intros Hcap.
  set (c0 := set_frame 0 {| mapStartPos := 0; mapStartCount := 0;
                            mapCount := 0 |}
               (set_mDepth 0 (MicroCbor_new frames buf cap nt))).
  set (m0 := {| this := c0; heap := heap0; loads := [] |}).
  assert (Hcap0 : mMaxBufLen c0 = cap) by (cbn; apply uint32_small; lia).
  assert (H1 : startMap 0 (on_heap (MicroCbor_new frames buf cap nt) heap0)
               = appended [160] m0).
  { transitivity (storeByte 160 (reserveBytes 1 m0)); [reflexivity|].
    apply (store1_appends 160).
    unfold room. cbv zeta. cbn [this m0]. rewrite Hcap0. cbn. lia. }
  rewrite H1. unfold wrote_in, appended. cbn.
  rewrite (uint32_small cap) by lia.
  replace (buf + 0) with buf by lia.
  repeat split; try reflexivity.
  intros i Hi. destruct (Z.eqb_spec i 0); [lia|reflexivity].
Qed.

(** What [startMap(); ...; endMap()] leaves on a fresh instance, for
    fewer than 24 entries that fit. *)
Lemma encode_map_state frames buf cap nt heap0
    (items : list (list EncodeOp * list Z)) :
  Forall (fun it => emits nt 0 (fst it) (snd it)) items ->
  (length items < 24)%nat ->
  let image := (160 + Z.of_nat (length items)) :: concat (map snd items) in
  0 <= buf ->
  Z.of_nat (length image) <= cap < 2 ^ 32 ->
  buf + cap <= Z.of_nat (length heap0) ->
  let m := encode (OpStartMap 0 :: concat (map fst items) ++ [OpEndMap])
             (on_heap (MicroCbor_new frames buf cap nt) heap0) in
  mResult (this m) = 0
  /\ mBuf (this m) = buf
  /\ mMaxBufLen (this m) = cap
  /\ mDataOffset (this m) = Z.of_nat (length image)
  /\ mBufBytesNeeded (this m) = Z.of_nat (length image)
  /\ length (heap m) = length heap0
  /\ holds_at (heap m) buf image
  /\ (forall a,
        a < buf \/ buf + Z.of_nat (length image) <= a ->
        peek (heap m) a = peek heap0 a).
Proof.
  intros Hitems Hn image Hbuf Hcap Hheap. cbv zeta.
  unfold image in *. clear image. cbn [length] in Hcap.
  pose proof (wrote_in_startMap frames buf cap nt heap0 ltac:(lia)) as H0.
  pose proof (emits_all nt 0 items Hitems _ _ _ _ _ _ _ _ H0) as H1.
  cbn [app length] in H1.
  specialize (H1 ltac:(lia) ltac:(lia) ltac:(lia) ltac:(lia)).
  rewrite Z.add_0_l in H1.
  pose proof (wrote_in_endMap _ _ _ _ _ _ _ _ _ _ H1 ltac:(lia) ltac:(lia))
    as Hend.
  cbv zeta in Hend.
  change (OpStartMap 0 :: concat (map fst items) ++ [OpEndMap])
    with ([OpStartMap 0] ++ concat (map fst items) ++ [OpEndMap]).
  rewrite !encode_app.
  change (encode [OpStartMap 0]
            (on_heap (MicroCbor_new frames buf cap nt) heap0))
    with (startMap 0 (on_heap (MicroCbor_new frames buf cap nt) heap0)).
  change (encode [OpEndMap] ?x) with (endMap x).
  destruct H1 as (_ & _ & _ & _ & _ & _ & Hoff1 & Hnd1 & _).
  revert Hend Hoff1 Hnd1.
  generalize (encode (concat (map fst items))
                (startMap 0
                   (on_heap (MicroCbor_new frames buf cap nt) heap0))).
  intros m1 (Hres & Hro & Hb & Hc & Hnt & Hd & Hoff & Hnd & Hh & Hl & Hfr)
    Hoff1 Hnd1.
  cbn [app length] in *.
  split; [exact Hres|]. split; [exact Hb|]. split; [exact Hc|].
  split; [lia|]. split; [lia|].
  split; [rewrite Hh; apply length_poke_bytes|].
  split.
  - rewrite Hh. apply holds_at_poke_bytes; [exact Hbuf|cbn [length]; lia].
  - intros a Ha. rewrite Hh. apply peek_poke_bytes_out. cbn [length]. lia.
Qed.

(** ** Maps inside maps *)

Lemma Node_nested_ind (P : Node -> Prop) :
  (forall x, P (NValue x)) ->
  (forall es, Forall (fun e => P (snd e)) es -> P (NMap es)) ->
  forall n, P n.
Proof.
  intros HV HM. fix IH 1. intros [x|es]; [apply HV|].
  apply HM. induction es as [|[k n] es IHes]; constructor;
    [apply IH|exact IHes].
Qed.

Lemma node_ok_NMap es :
  node_ok (NMap es)
  <-> (length es < 24)%nat
      /\ Forall (fun e => 1 <= strlen (fst e) <= 23 /\ node_ok (snd e)) es.
Proof.
  cbn [node_ok].
  assert (E : fold_right
                (fun e P =>
                   (1 <= strlen (fst e) <= 23 /\ node_ok (snd e)) /\ P)
                True es
              <-> Forall (fun e => 1 <= strlen (fst e) <= 23
                                   /\ node_ok (snd e)) es).
  { induction es as [|e es IH]; cbn [fold_right].
    - split; [constructor|exact (fun _ => I)].
    - rewrite Forall_cons, IH. reflexivity. }
  rewrite E. reflexivity.
Qed.

Lemma node_height_NMap es :
  Forall (fun e => (S (node_height (snd e)) <= node_height (NMap es))%nat)
    es.
Proof.
  cbn [node_height].
  induction es as [|e es IH]; constructor; cbn [fold_right]; [lia|].
  eapply Forall_impl; [exact IH|]. cbn beta. intros e' H. lia.
Qed.

(** The calls of a node inside a map at depth [d], with few enough maps
    inside it for the four frames of [mMapState]. *)
Lemma node_emits nt n :
  node_ok n ->
  forall d key,
    1 <= strlen key <= 23 ->
    0 <= d -> d + Z.of_nat (node_height n) < 4 ->
    emits nt d (node_ops key n)
      (((96 + strlen key) :: c_str key) ++ node_image nt n).
Proof.
  induction n as [x|es IH] using Node_nested_ind;
    intros Hok d key Hkey Hd Hh.
  - apply emits_leaf; assumption.
  - apply node_ok_NMap in Hok as [Hn Hes].
    pose proof (node_height_NMap es) as Hhs.
    assert (Hh1 : d + 1 < 4) by (cbn [node_height] in Hh; lia).
    pose proof (emits_sub nt d key
                  (map (fun e => (node_ops (fst e) (snd e),
                                  ((96 + strlen (fst e)) :: c_str (fst e))
                                  ++ node_image nt (snd e))) es)
                  Hkey Hd Hh1) as Hsub.
    rewrite length_map, !map_map in Hsub. cbn [fst snd] in Hsub.
    apply Hsub; [exact Hn|].
    apply Forall_map. cbn [fst snd].
    clear Hsub.
    pose proof (proj2 (Forall_and _ _)
                  (conj IH (proj2 (Forall_and _ _) (conj Hes Hhs))))
      as Hall.
    eapply Forall_impl; [exact Hall|]. cbn beta.
    intros e (IHe & [Hk He] & Hhe).
    refine (IHe He (d + 1) (fst e) Hk _ _); lia.
Qed.

(** What [startMap(); ...; endMap()] leaves on a fresh instance, with
    maps inside the map. *)
Lemma encode_nested_state frames buf cap nt heap0 es :
  node_ok (NMap es) ->
  (node_height (NMap es) <= 4)%nat ->
  0 <= buf ->
  Z.of_nat (length (node_image nt (NMap es))) <= cap < 2 ^ 32 ->
  buf + cap <= Z.of_nat (length heap0) ->
  let m := encode (nested_map es)
             (on_heap (MicroCbor_new frames buf cap nt) heap0) in
  mResult (this m) = 0
  /\ mBuf (this m) = buf
  /\ mMaxBufLen (this m) = cap
  /\ mDataOffset (this m) = Z.of_nat (length (node_image nt (NMap es)))
  /\ mBufBytesNeeded (this m) = Z.of_nat (length (node_image nt (NMap es)))
  /\ length (heap m) = length heap0
  /\ holds_at (heap m) buf (node_image nt (NMap es))
  /\ (forall a,
        a < buf \/ buf + Z.of_nat (length (node_image nt (NMap es))) <= a ->
        peek (heap m) a = peek heap0 a).
Proof.
  intros Hok Hh Hbuf Hcap Hheap.
  apply node_ok_NMap in Hok as [Hn Hes].
  pose proof (node_height_NMap es) as Hhs.
  pose proof (encode_map_state frames buf cap nt heap0
                (map (fun e => (node_ops (fst e) (snd e),
                                ((96 + strlen (fst e)) :: c_str (fst e))
                                ++ node_image nt (snd e))) es)) as H.
  cbv zeta in H. rewrite length_map, !map_map in H. cbn [fst snd] in H.
  apply H; try assumption.
  apply Forall_map.
  eapply Forall_impl;
    [exact (proj2 (Forall_and _ _) (conj Hes Hhs))|]. cbn beta.
  intros e [[Hk He] Hhe]. cbn [fst snd].
  refine (node_emits nt (snd e) He 0 (fst e) Hk _ _); lia.
Qed.

(** The writer on maps inside maps.  For entries that are values or maps
    again, with fewer than 24 entries in every map, keys of 1 to 23
    characters and at most four maps inside one another: on a fresh
    instance whose buffer holds the image, the run succeeds, has
    serialized and reserved exactly the length of the image, the buffer
    starts with the image, and no byte outside the image has changed. *)
Theorem nested_maps_image_written frames buf cap nt heap0 es :
  node_ok (NMap es) ->
  (node_height (NMap es) <= 4)%nat ->
  0 <= buf ->
  Z.of_nat (length (node_image nt (NMap es))) <= cap < 2 ^ 32 ->
  buf + cap <= Z.of_nat (length heap0) ->
  let m := encode (nested_map es)
             (on_heap (MicroCbor_new frames buf cap nt) heap0) in
  getResult m = 0
  /\ bytesSerialized m = Z.of_nat (length (node_image nt (NMap es)))
  /\ bytesNeeded m = Z.of_nat (length (node_image nt (NMap es)))
  /\ length (heap m) = length heap0
  /\ holds_at (heap m) buf (node_image nt (NMap es))
  /\ (forall a,
        a < buf \/ buf + Z.of_nat (length (node_image nt (NMap es))) <= a ->
        peek (heap m) a = peek heap0 a).
Proof.
  intros Hok Hh Hbuf Hcap Hheap.
  pose proof (encode_nested_state frames buf cap nt heap0 es
                Hok Hh Hbuf Hcap Hheap) as H.
  cbv zeta in *.
  destruct H as (H1 & _ & _ & H4 & H5 & H6 & H7 & H8).
  auto 10.
Qed.

(** ** Reading maps whose values are maps *)

(** The parts of the memory that holds an entry and what follows. *)
Lemma holds_at_stored h a s rest :
  holds_at h a (stored_image s ++ rest) ->
  peek h a = 96 + strlen (skey s)
  /\ holds_at h (a + 1) (c_str (skey s))
  /\ holds_at h (a + 1 + strlen (skey s)) (simg s)
  /\ holds_at h (a + 1 + strlen (skey s) + Z.of_nat (length (simg s))) rest.
Proof.
  intros Hh. unfold stored_image in Hh.
  assert (P1 : peek h a = 96 + strlen (skey s)).
  { specialize (Hh 0%nat ltac:(cbn [app length]; lia)).
    rewrite Z.add_0_r in Hh. exact Hh. }
  rewrite <- app_assoc in Hh.
  pose proof (holds_at_app_r _ _ [96 + strlen (skey s)] _ Hh) as Hkv.
  cbn [length] in Hkv. change (Z.of_nat 1) with 1 in Hkv.
  pose proof (holds_at_app_l _ _ _ _ Hkv) as Hk.
  pose proof (holds_at_app_r _ _ _ _ Hkv) as Hvr.
  change (Z.of_nat (length (c_str (skey s)))) with (strlen (skey s)) in Hvr.
  pose proof (holds_at_app_l _ _ _ _ Hvr) as Hv.
  pose proof (holds_at_app_r _ _ _ _ Hvr) as Hr.
  auto.
Qed.

Lemma length_stored_image s :
  Z.of_nat (length (stored_image s))
  = 1 + strlen (skey s) + Z.of_nat (length (simg s)).
Proof.
  unfold stored_image. rewrite length_app. cbn [length]. unfold strlen. lia.
Qed.

(** Where the entry found lies. *)
Lemma find_stored_holds name h ss :
  forall a off s,
    find_stored name ss = Some (off, s) ->
    holds_at h a (concat (map stored_image ss)) ->
    In s ss
    /\ holds_at h (a + off) (simg s)
    /\ 1 <= off
    /\ off + Z.of_nat (length (simg s))
       <= Z.of_nat (length (concat (map stored_image ss))).
Proof.
  induction ss as [|s0 ss IH]; intros a off s Hf Hh; [discriminate Hf|].
  cbn [find_stored] in Hf. cbn [map concat] in *.
  rewrite length_app, Nat2Z.inj_add, length_stored_image.
  destruct (holds_at_stored _ _ _ _ Hh) as (_ & _ & Hv & Hr).
  assert (0 <= strlen (skey s0)) by (unfold strlen; lia).
  destruct (bool_decide (c_str name = c_str (skey s0))).
  - injection Hf as <- <-. split; [left; reflexivity|].
    split; [|lia].
    replace (a + (1 + strlen (skey s0))) with (a + 1 + strlen (skey s0))
      by lia.
    exact Hv.
  - destruct (find_stored name ss) as [[off' s']|] eqn:E; [|discriminate Hf].
    injection Hf as <- <-.
    destruct (IH _ _ _ eq_refl Hr) as (Hin & Hv' & Ho & Hl).
    split; [right; exact Hin|].
    assert (El : Z.of_nat (S (length (c_str (skey s0) ++ simg s0)))
                = 1 + strlen (skey s0) + Z.of_nat (length (simg s0)))
      by (rewrite length_app; unfold strlen; lia).
    rewrite El. split; [|lia].
    refine (eq_rect _ (fun q => holds_at h q _) Hv' _ _). lia.
Qed.

Section ReadNested.

Variable indet : TypeInfo.
Variable behindTable : Z -> Z.

Lemma readable_more need need' img inf :
  readable indet behindTable need img inf -> (need <= need')%nat ->
  readable indet behindTable need' img inf.
Proof.
  intros H Hle o l m fuel Hh Ho Hfit Hcap.
  destruct (H o l m fuel Hh Ho Hfit Hcap) as (t & l1 & Hget & Hskip).
  exists t, l1. split; [exact Hget|]. intros fuel' l2.
  destruct (Hskip (need' - need + fuel')%nat l2) as [l3 E].
  exists l3. rewrite <- E. f_equal. lia.
Qed.

Lemma readable_value nt x :
  value_ok x ->
  readable indet behindTable 1 (value_image nt x) (value_info nt x).
Proof.
  intros Hx o l m fuel Hh Ho Hfit Hcap.
  exact (value_read indet behindTable nt x o l m fuel Hx Hh Ho Hfit Hcap).
Qed.

(** Reading the key of an entry and passing it. *)
Lemma key_read s o l m fuel :
  1 <= strlen (skey s) <= 23 ->
  peek (heap m) (mBuf (this m) + o) = 96 + strlen (skey s) ->
  0 <= o ->
  o + 1 + strlen (skey s) < mMaxBufLen (this m) ->
  mMaxBufLen (this m) + 255 < 2 ^ 32 ->
  let k := mkTypeInfo kCborTagInvalid 3 (strlen (skey s)) 1
             (mBuf (this m) + o) in
  getNextField indet behindTable (S fuel) (at_offset o l m)
  = Some (k, at_offset o ((mBuf (this m) + o) :: l) m)
  /\ forall fuel' l',
       skipField indet behindTable (S fuel') k (at_offset o l' m)
       = Some (tt, at_offset (o + 1 + strlen (skey s)) l' m).
Proof.
  intros Hkey P1 Ho Hfit Hcap k.
  destruct (header_byte_split 3 (strlen (skey s))) as (_ & Hmj & Hmn);
    [lia|lia|].
  change (3 * 32) with 96 in Hmj, Hmn.
  split.
  - rewrite (getNextField_plain indet behindTable _ m o l
               (96 + strlen (skey s)));
      [|lia|exact Hcap|exact P1|rewrite Hmj; discriminate|
       rewrite Hmn, kCborheaderBytes_inline by lia; lia].
    rewrite Hmj, Hmn, kCborheaderBytes_inline by lia. reflexivity.
  - intros fuel' l'. apply skipField_short_string;
      try reflexivity; cbn [minorval k]; lia.
Qed.

(** [skipField] on a map: past every pair. *)
Lemma skipPairs_stored need ss :
  (2 <= need)%nat ->
  Forall (stored_ok indet behindTable need) ss ->
  forall o l m e,
    holds_at (heap m) (mBuf (this m) + o) (concat (map stored_image ss)) ->
    0 <= o ->
    o + Z.of_nat (length (concat (map stored_image ss)))
    <= mMaxBufLen (this m) ->
    mMaxBufLen (this m) + 255 < 2 ^ 32 ->
    exists l',
      skipPairs indet behindTable (S (length ss + need + e))
        (Z.of_nat (length ss)) (at_offset o l m)
      = Some (tt,
              at_offset (o + Z.of_nat (length (concat (map stored_image ss))))
                l' m).
Proof.
  intros Hneed. induction 1 as [|s ss (Hkey & Hpos & Hread) Hss IH];
    intros o l m e Hh Ho Hfit Hcap.
  { exists l. cbn. rewrite Z.add_0_r. reflexivity. }
  cbn [map concat] in *.
  rewrite length_app, Nat2Z.inj_add, length_stored_image in *.
  destruct (holds_at_stored _ _ _ _ Hh) as (P1 & _ & Hv & Hr).
  cbn [length].
  change (S (length ss) + need + e)%nat with (S (length ss + need + e)).
  rewrite skipPairs_eq.
  destruct (Z.eqb_spec (Z.of_nat (S (length ss))) 0) as [E|_]; [lia|].
  destruct (key_read s o l m (length ss + need + e) Hkey P1 Ho
              ltac:(lia) Hcap) as [Hgetk Hskipk].
  cbv zeta in Hgetk, Hskipk.
  unfold bind at 1. rewrite Hgetk.
  unfold bind at 1. rewrite Hskipk.
  destruct (Hread (o + 1 + strlen (skey s)) (mBuf (this m) + o :: l) m
              (length ss + (need - 1) + e)%nat)
    as (t & l1 & Hget & Hskip).
  { replace (mBuf (this m) + (o + 1 + strlen (skey s)))
      with (mBuf (this m) + o + 1 + strlen (skey s)) by lia. exact Hv. }
  { lia. }
  { lia. }
  { exact Hcap. }
  replace (S (S (length ss + (need - 1) + e)))
    with (S (length ss + need + e)) in Hget by lia.
  unfold bind at 1. rewrite Hget.
  destruct (Hskip (S (length ss + e)) l1) as [l3 Hskipv].
  replace (need + S (length ss + e))%nat
    with (S (length ss + need + e)) in Hskipv by lia.
  unfold bind at 1. rewrite Hskipv.
  replace (Z.of_nat (S (length ss)) - 1) with (Z.of_nat (length ss)) by lia.
  destruct (IH (o + 1 + strlen (skey s) + Z.of_nat (length (simg s))) l3 m
              e) as [l4 Hrec].
  { replace (mBuf (this m)
             + (o + 1 + strlen (skey s) + Z.of_nat (length (simg s))))
      with (mBuf (this m) + o + 1 + strlen (skey s)
            + Z.of_nat (length (simg s))) by lia.
    exact Hr. }
  { lia. }
  { lia. }
  { exact Hcap. }
  exists l4. rewrite Hrec. f_equal. f_equal. f_equal. lia.
Qed.

(** A map of entries that can be read can be read. *)
Lemma readable_map need ss :
  (2 <= need)%nat ->
  (length ss < 24)%nat ->
  Forall (stored_ok indet behindTable need) ss ->
  readable indet behindTable (S (S (length ss + need)))
    ((160 + Z.of_nat (length ss)) :: concat (map stored_image ss))
    (map_info (Z.of_nat (length ss))).
Proof.
  intros Hneed Hn Hss o l m fuel Hh Ho Hfit Hcap.
  set (N := Z.of_nat (length ss)) in *.
  cbn [length] in Hfit.
  assert (P0 : peek (heap m) (mBuf (this m) + o) = 160 + N).
  { specialize (Hh 0%nat ltac:(cbn [length]; lia)).
    rewrite Z.add_0_r in Hh. exact Hh. }
  pose proof (holds_at_app_r _ _ [160 + N] _ Hh) as Hr.
  cbn [length] in Hr. change (Z.of_nat 1) with 1 in Hr.
  destruct (header_byte_split 5 N) as (_ & Hmj & Hmn); [lia|lia|].
  change (5 * 32) with 160 in Hmj, Hmn.
  exists 0, (mBuf (this m) + o :: l). rewrite Z.add_0_r. split.
  - rewrite (getNextField_plain indet behindTable _ m o l (160 + N));
      [|lia|exact Hcap|exact P0|rewrite Hmj; discriminate|
       rewrite Hmn, kCborheaderBytes_inline by lia; lia].
    rewrite Hmj, Hmn, kCborheaderBytes_inline by lia. reflexivity.
  - intros fuel' l2.
    change (S (S (length ss + need)) + fuel')%nat
      with (S (S (length ss + need + fuel'))).
    rewrite skipField_eq. unfold bind at 1.
    rewrite getFieldValue_inline by reflexivity.
    unfold bind at 1, update at 1.
    change (with_this _ (at_offset o l2 m))
      with (at_offset (uint32 (o + 1)) l2 m).
    rewrite (uint32_small (o + 1)) by lia.
    unfold bind at 1, self at 1.
    cbn [this at_offset mMaxBufLen mDataOffset set_mDataOffset].
    destruct (Z.leb_spec (mMaxBufLen (this m)) (o + 1)).
    { exists l2. unfold ret. cbn [length]. f_equal. f_equal. f_equal. lia. }
    cbn [majorval minorval map_info].
    change ((kCborMap =? kCborByteString) || (kCborMap =? kCborUTF8String))
      with false.
    change (kCborMap =? kCborMap) with true. cbv iota.
    destruct (skipPairs_stored need ss Hneed Hss (o + 1) l2 m fuel')
      as [l3 Hskip].
    + replace (mBuf (this m) + (o + 1)) with (mBuf (this m) + o + 1) by lia.
      exact Hr.
    + lia.
    + lia.
    + exact Hcap.
    + exists l3. fold N in Hskip. rewrite Hskip. cbn [length].
      f_equal. f_equal. f_equal. lia.
Qed.

(** The loop of [findElement] over entries that can be read. *)
Lemma findLoop_stored need name info mapOffset e m :
  headerBytes info = 1 ->
  mMaxBufLen (this m) + 255 < 2 ^ 32 ->
  (2 <= need)%nat ->
  forall ss o l,
    Forall (stored_ok indet behindTable need) ss ->
    holds_at (heap m) (mBuf (this m) + o) (concat (map stored_image ss)) ->
    0 <= o ->
    o + Z.of_nat (length (concat (map stored_image ss)))
    <= mMaxBufLen (this m) ->
    exists l',
      findLoop indet behindTable (S (S (length ss + need + e))) name info
        mapOffset (Z.of_nat (length ss)) (at_offset o l m)
      = Some (found_stored indet name ss (mBuf (this m) + o),
              at_offset mapOffset l' m).
Proof.
  intros Hinfo Hcap Hneed ss.
  induction ss as [|s ss IH]; intros o l Hss Hh Ho Hfit.
  { exists l. reflexivity. }
  apply Forall_cons in Hss as [(Hkey & Hpos & Hread) Hss].
  cbn [map concat] in *.
  rewrite length_app, Nat2Z.inj_add, length_stored_image in Hfit.
  destruct (holds_at_stored _ _ _ _ Hh) as (P1 & Hk & Hv & Hr).
  set (klen := strlen (skey s)) in *.
  change (length (s :: ss)) with (S (length ss)).
  change (S (length ss) + need + e)%nat with (S (length ss + need + e)).
  rewrite findLoop_eq.
  destruct (Z.eqb_spec (Z.of_nat (S (length ss))) 0) as [E|_]; [lia|].
  cbv zeta.
  destruct (key_read s o l m (S (length ss + need + e)) Hkey P1 Ho
              ltac:(fold klen; lia) Hcap) as [Hgetk Hskipk].
  cbv zeta in Hgetk, Hskipk. fold klen in Hgetk, Hskipk.
  unfold bind at 1. rewrite Hgetk.
  set (l1 := mBuf (this m) + o :: l).
  set (k := mkTypeInfo kCborTagInvalid 3 klen 1 (mBuf (this m) + o)) in *.
  unfold bind at 1. rewrite getFieldValue_inline by reflexivity.
  cbn [minorval k].
  unfold bind at 1, self at 1.
  cbn [this at_offset mDataOffset mBuf set_mDataOffset]. rewrite Hinfo.
  (* the comparison *)
  assert (Hcmp : exists l2,
             (if strlen name <=? klen
              then strncmp (c_str name) (mBuf (this m) + o + 1) klen
              else ret false) (at_offset o l1 m)
             = Some (bool_decide (c_str name = c_str (skey s)),
                     at_offset o l2 m)).
  { destruct (Z.leb_spec (strlen name) klen) as [Hle|Hgt].
    - change klen with (Z.of_nat (length (c_str (skey s)))).
      apply strncmp_key; [apply c_str_nonzero|exact Hk|].
      unfold klen, strlen in Hle. lia.
    - exists l1. unfold ret.
      rewrite bool_decide_eq_false_2; [reflexivity|].
      intros E. unfold klen, strlen in Hgt. rewrite E in Hgt. lia. }
  destruct Hcmp as [l2 Hcmp].
  unfold bind at 1. rewrite Hcmp.
  (* past the key, to the value *)
  destruct (Hread (o + 1 + klen) l2 m (length ss + need + e)%nat)
    as (t & l3 & Hget & Hskipv).
  { replace (mBuf (this m) + (o + 1 + klen))
      with (mBuf (this m) + o + 1 + klen) by lia. exact Hv. }
  { lia. }
  { lia. }
  { exact Hcap. }
  unfold found_stored. cbn [find_stored].
  destruct (bool_decide (c_str name = c_str (skey s))).
  - unfold bind at 1. rewrite Hskipk.
    unfold bind at 1. rewrite Hget.
    exists l3. unfold bind, update, ret.
    replace (mBuf (this m) + o + (1 + strlen (skey s)))
      with (mBuf (this m) + (o + 1 + klen)) by (unfold klen; lia).
    reflexivity.
  - unfold bind at 1. rewrite Hskipk.
    unfold bind at 1. rewrite Hget.
    unfold bind at 1.
    destruct (Hskipv (S (S (length ss + e))) l3) as [l4 Hs4].
    replace (need + S (S (length ss + e)))%nat
      with (S (S (length ss + need + e))) in Hs4 by lia.
    rewrite Hs4.
    replace (Z.of_nat (S (length ss)) - 1) with (Z.of_nat (length ss))
      by lia.
    destruct (IH (o + 1 + klen + Z.of_nat (length (simg s))) l4 Hss)
      as [l5 Hrec].
    { replace (mBuf (this m) + (o + 1 + klen + Z.of_nat (length (simg s))))
        with (mBuf (this m) + o + 1 + klen + Z.of_nat (length (simg s)))
        by lia.
      exact Hr. }
    { lia. }
    { lia. }
    exists l5. rewrite Hrec. f_equal. f_equal.
    unfold found_stored.
    destruct (find_stored name ss) as [[off s']|]; [|reflexivity].
    f_equal. rewrite length_stored_image. fold klen. lia.
Qed.

(** [findElement] on a map of entries that can be read: the descriptor of
    the value of the first entry with the key, or the error descriptor;
    the instance is left as it was. *)
Lemma findElement_stored need ss name e m :
  (2 <= need)%nat ->
  (length ss < 24)%nat ->
  Forall (stored_ok indet behindTable need) ss ->
  mDataOffset (this m) = 0 ->
  holds_at (heap m) (mBuf (this m))
    ((160 + Z.of_nat (length ss)) :: concat (map stored_image ss)) ->
  1 + Z.of_nat (length (concat (map stored_image ss)))
  <= mMaxBufLen (this m) ->
  mMaxBufLen (this m) + 255 < 2 ^ 32 ->
  exists m',
    findElement indet behindTable (S (S (length ss + need + e))) name m
    = Some (found_stored indet name ss (mBuf (this m) + 1), m')
    /\ this m' = this m /\ heap m' = heap m.
Proof.
  intros Hneed HN Hss Hoff Hh Hfit Hcap.
  set (N := Z.of_nat (length ss)) in *.
  assert (P0 : peek (heap m) (mBuf (this m) + 0) = 160 + N)
    by exact (Hh 0%nat ltac:(cbn [length]; lia)).
  pose proof (holds_at_app_r _ _ [160 + N] _ Hh) as Hr.
  cbn [length] in Hr. change (Z.of_nat 1) with 1 in Hr.
  destruct (header_byte_split 5 N) as (_ & Hmj & Hmn); [lia|lia|].
  change (5 * 32) with 160 in Hmj, Hmn.
  assert (Hfind : exists l',
             findElement indet behindTable (S (S (length ss + need + e)))
               name (at_offset 0 (loads m) m)
             = Some (found_stored indet name ss (mBuf (this m) + 1),
                     at_offset 0 l' m)).
  { unfold findElement. unfold bind at 1, self at 1.
    cbn [this at_offset mDataOffset set_mDataOffset]. cbv zeta.
    unfold bind at 1.
    rewrite (getNextField_plain indet behindTable _ m 0 (loads m) (160 + N));
      [|lia|exact Hcap|exact P0|rewrite Hmj; discriminate|
       rewrite Hmn, kCborheaderBytes_inline by lia; lia].
    rewrite Hmj, Hmn, kCborheaderBytes_inline by lia.
    cbn [majorval]. change (negb (5 =? kCborMap)) with false. cbv iota.
    unfold bind at 1. rewrite getFieldValue_inline by reflexivity.
    cbn [minorval headerBytes].
    unfold bind at 1, update at 1.
    change (with_this _ (at_offset 0 (mBuf (this m) + 0 :: loads m) m))
      with (at_offset (uint32 (0 + 1)) (mBuf (this m) + 0 :: loads m) m).
    change (uint32 (0 + 1)) with 1.
    destruct (findLoop_stored need name
                (mkTypeInfo kCborTagInvalid 5 N 1 (mBuf (this m) + 0))
                0 e m eq_refl Hcap Hneed ss 1 (mBuf (this m) + 0 :: loads m)
                Hss Hr ltac:(lia) ltac:(lia)) as [l' Hloop].
    exists l'. unfold N. exact Hloop. }
  destruct Hfind as [l' Hfind].
  rewrite (at_offset_self m Hoff) in Hfind.
  eexists. split; [exact Hfind|]. split; [|reflexivity].
  destruct m as [[buf cap nd off res ro nt' d fr] h l]. cbn in *. subst.
  reflexivity.
Qed.

End ReadNested.

(** ** The accessors on maps inside maps *)

Lemma node_image_NMap nt es :
  node_image nt (NMap es)
  = (160 + Z.of_nat (length es))
    :: concat (map stored_image (map (stored_of nt) es)).
Proof. rewrite map_map. reflexivity. Qed.

Lemma value_image_nonempty nt x : (0 < length (value_image nt x))%nat.
Proof.
  destruct x as [T v|b|bits|bits|s|T v|T bytes n]; cbn [value_image].
  - unfold int_item. repeat case_match; cbn [length]; lia.
  - unfold bool_item. cbn [length]. lia.
  - unfold float_item. cbn [length]. lia.
  - unfold double_item. cbn [length]. lia.
  - unfold string_item. rewrite length_app.
    pose proof (length_header_image 3 (strlen s + (if nt then 1 else 0))).
    pose proof (header_size_range (strlen s + (if nt then 1 else 0))). lia.
  - unfold minimal_item. destruct (0 <=? v).
    + pose proof (length_header_image 0 v).
      pose proof (header_size_range v). lia.
    + pose proof (length_header_image 1 (-1 - v)).
      pose proof (header_size_range (-1 - v)). lia.
  - unfold array_item. cbn [app length]. lia.
Qed.

Lemma node_image_nonempty nt n : (0 < length (node_image nt n))%nat.
Proof.
  destruct n as [x|es]; [apply value_image_nonempty|].
  cbn [node_image length]. lia.
Qed.

Section ReadNodes.

Variable indet : TypeInfo.
Variable behindTable : Z -> Z.

(** Every node can be read, with fuel by its height. *)
Lemma node_readable nt n :
  node_ok n ->
  readable indet behindTable (node_need n) (node_image nt n)
    (node_info nt n).
Proof.
  induction n as [x|es IH] using Node_nested_ind; intros Hok.
  - apply (readable_more indet behindTable 1); [|unfold node_need; lia].
    apply readable_value. exact Hok.
  - apply node_ok_NMap in Hok as [Hn Hes].
    pose proof (node_height_NMap es) as Hhs.
    rewrite node_image_NMap.
    change (node_info nt (NMap es)) with (map_info (Z.of_nat (length es))).
    rewrite <- (length_map (stored_of nt) es).
    set (need := (2 + 26 * (node_height (NMap es) - 1))%nat).
    apply (readable_more indet behindTable
             (S (S (length (map (stored_of nt) es) + need)))).
    2:{ unfold node_need, need. rewrite length_map.
        cbn [node_height] in *. lia. }
    refine (readable_map indet behindTable need (map (stored_of nt) es)
              _ _ _); [unfold need; lia|rewrite length_map; exact Hn|].
    apply Forall_map.
    pose proof (proj2 (Forall_and _ _)
                  (conj IH (proj2 (Forall_and _ _) (conj Hes Hhs))))
      as Hall.
    eapply Forall_impl; [exact Hall|]. cbn beta.
    intros e (IHe & [Hk He] & Hhe).
    split; [exact Hk|]. split; [apply node_image_nonempty|].
    apply (readable_more indet behindTable (node_need (snd e)));
      [exact (IHe He)|].
    unfold node_need, need. lia.
Qed.

Lemma stored_of_ok nt es :
  node_ok (NMap es) ->
  Forall (stored_ok indet behindTable
            (2 + 26 * (node_height (NMap es) - 1)))
    (map (stored_of nt) es).
Proof.
  intros Hok. apply node_ok_NMap in Hok as [Hn Hes].
  pose proof (node_height_NMap es) as Hhs.
  apply Forall_map.
  eapply Forall_impl; [exact (proj2 (Forall_and _ _) (conj Hes Hhs))|].
  cbn beta. intros e ([Hk He] & Hhe).
  split; [exact Hk|]. split; [apply node_image_nonempty|].
  apply (readable_more indet behindTable (node_need (snd e)));
    [exact (node_readable nt (snd e) He)|].
  unfold node_need. lia.
Qed.

Lemma find_stored_nodes nt name es :
  match lookup_node name es with
  | Some n =>
      exists off key,
        find_stored name (map (stored_of nt) es)
        = Some (off, stored_of nt (key, n))
        /\ In (key, n) es
  | None => find_stored name (map (stored_of nt) es) = None
  end.
Proof.
  induction es as [|[key n] es IH]; [reflexivity|].
  cbn [lookup_node map find_stored stored_of skey fst snd].
  destruct (bool_decide (c_str name = c_str key)).
  - eexists _, key. split; [reflexivity|left; reflexivity].
  - destruct (lookup_node name es) as [n'|].
    + destruct IH as (off & key' & -> & Hin).
      eexists _, key'. split; [reflexivity|right; exact Hin].
    + rewrite IH. reflexivity.
Qed.

(** The lookup of a name that is a key: the descriptor of the node of
    the first entry with the key, and where the node lies. *)
Lemma nested_found nt es name n e m :
  holds_nested nt es m ->
  lookup_node name es = Some n ->
  exists a m',
    findElement indet behindTable
      (26 * S (node_height (NMap es)) + e) name m
    = Some (node_info nt n a, m')
    /\ this m' = this m /\ heap m' = heap m
    /\ node_ok n
    /\ (node_height n < node_height (NMap es))%nat
    /\ holds_at (heap m) a (node_image nt n)
    /\ mBuf (this m) + 1 <= a
    /\ a + Z.of_nat (length (node_image nt n))
       <= mBuf (this m) + Z.of_nat (length (node_image nt (NMap es))).
Proof.
  intros (Hoff & Hok & Hh & Hfit & Hcap) Hl.
  pose proof (stored_of_ok nt es Hok) as Hss.
  pose proof (node_height_NMap es) as Hhs.
  pose proof Hok as Hok'. apply node_ok_NMap in Hok' as [Hn Hes].
  rewrite node_image_NMap in Hh, Hfit. cbn [length] in Hfit.
  rewrite <- (length_map (stored_of nt) es) in Hh.
  set (ss := map (stored_of nt) es) in *.
  set (need := (2 + 26 * (node_height (NMap es) - 1))%nat) in *.
  assert (Hh1 : (1 <= node_height (NMap es))%nat)
    by (cbn [node_height]; lia).
  assert (Hlen : length ss = length es) by apply length_map.
  destruct (findElement_stored indet behindTable need ss name
              (26 * S (node_height (NMap es)) + e
               - S (S (length ss + need))) m)
    as (m' & Hfind & Ht & Hm');
    [unfold need; lia|lia|exact Hss|exact Hoff|exact Hh|lia|exact Hcap|].
  replace (S (S (length ss + need
                 + (26 * S (node_height (NMap es)) + e
                    - S (S (length ss + need))))))
    with (26 * S (node_height (NMap es)) + e)%nat in Hfind
    by (unfold need; lia).
  pose proof (find_stored_nodes nt name es) as Hf. rewrite Hl in Hf.
  destruct Hf as (off & key & Hf & Hin). fold ss in Hf.
  unfold found_stored in Hfind. rewrite Hf in Hfind.
  cbn [sinfo stored_of snd] in Hfind.
  pose proof (holds_at_app_r _ _ [160 + Z.of_nat (length ss)] _ Hh) as Hr.
  cbn [length] in Hr. change (Z.of_nat 1) with 1 in Hr.
  destruct (find_stored_holds name (heap m) ss _ _ _ Hf Hr)
    as (_ & Hv & Ho & Hle).
  cbn [simg stored_of snd] in Hv, Hle.
  rewrite Forall_forall in Hes, Hhs. apply list_elem_of_In in Hin.
  destruct (Hes _ Hin) as [_ Hokn]. specialize (Hhs _ Hin).
  cbn [snd] in Hokn, Hhs.
  exists (mBuf (this m) + 1 + off), m'.
  split; [exact Hfind|]. split; [exact Ht|]. split; [exact Hm'|].
  split; [exact Hokn|]. split; [lia|]. split; [exact Hv|].
  split; [lia|].
  rewrite node_image_NMap. cbn [length]. fold ss. lia.
Qed.

Lemma nested_missing nt es name e m :
  holds_nested nt es m ->
  lookup_node name es = None ->
  exists m',
    findElement indet behindTable
      (26 * S (node_height (NMap es)) + e) name m
    = Some (TypeInfo_major indet kCborError, m')
    /\ this m' = this m /\ heap m' = heap m.
Proof.
  intros (Hoff & Hok & Hh & Hfit & Hcap) Hl.
  pose proof (stored_of_ok nt es Hok) as Hss.
  pose proof Hok as Hok'. apply node_ok_NMap in Hok' as [Hn Hes].
  rewrite node_image_NMap in Hh, Hfit. cbn [length] in Hfit.
  rewrite <- (length_map (stored_of nt) es) in Hh.
  set (ss := map (stored_of nt) es) in *.
  set (need := (2 + 26 * (node_height (NMap es) - 1))%nat) in *.
  assert (Hh1 : (1 <= node_height (NMap es))%nat)
    by (cbn [node_height]; lia).
  assert (Hlen : length ss = length es) by apply length_map.
  destruct (findElement_stored indet behindTable need ss name
              (26 * S (node_height (NMap es)) + e
               - S (S (length ss + need))) m)
    as (m' & Hfind & Ht & Hm');
    [unfold need; lia|lia|exact Hss|exact Hoff|exact Hh|lia|exact Hcap|].
  replace (S (S (length ss + need
                 + (26 * S (node_height (NMap es)) + e
                    - S (S (length ss + need))))))
    with (26 * S (node_height (NMap es)) + e)%nat in Hfind
    by (unfold need; lia).
  pose proof (find_stored_nodes nt name es) as Hf. rewrite Hl in Hf.
  fold ss in Hf. unfold found_stored in Hfind. rewrite Hf in Hfind.
  exists m'. auto.
Qed.

(** The fuel of the statements, as a sum. *)
Lemma fuel_split (bound fuel : nat) :
  (bound <= fuel)%nat -> exists e, fuel = (bound + e)%nat.
Proof. intros H. exists (fuel - bound)%nat. lia. Qed.

Lemma nested_get_int nt es m (fuel : nat) name T v d :
  holds_nested nt es m ->
  (26 * S (node_height (NMap es)) <= fuel)%nat ->
  lookup_node name es = Some (NValue (VInt T v)) ->
  value_of (get_int indet behindTable fuel T name d m) = Some v.
Proof.
  intros Hm Hfuel Hl. destruct (fuel_split _ _ Hfuel) as [e ->].
  destruct (nested_found nt es name _ e m Hm Hl)
    as (a & m' & Hfind & _ & Hm' & Hx & _ & Hb & _).
  rewrite <- Hm' in Hb.
  exact (get_int_decoded indet behindTable nt _ name T v d a m m'
           Hfind Hx Hb).
Qed.

Lemma nested_get_bool nt es m (fuel : nat) name b d :
  holds_nested nt es m ->
  (26 * S (node_height (NMap es)) <= fuel)%nat ->
  lookup_node name es = Some (NValue (VBool b)) ->
  value_of (get_bool indet behindTable fuel name d m) = Some b.
Proof.
  intros Hm Hfuel Hl. destruct (fuel_split _ _ Hfuel) as [e ->].
  destruct (nested_found nt es name _ e m Hm Hl) as (a & m' & Hfind & _).
  exact (get_bool_decoded indet behindTable nt _ name b d a m m' Hfind).
Qed.

Lemma nested_get_float nt es m (fuel : nat) name bits d :
  holds_nested nt es m ->
  (26 * S (node_height (NMap es)) <= fuel)%nat ->
  lookup_node name es = Some (NValue (VFloat bits)) ->
  value_of (get_float indet behindTable fuel name d m) = Some bits.
Proof.
  intros Hm Hfuel Hl. destruct (fuel_split _ _ Hfuel) as [e ->].
  destruct (nested_found nt es name _ e m Hm Hl)
    as (a & m' & Hfind & _ & Hm' & Hx & _ & Hb & _).
  rewrite <- Hm' in Hb.
  exact (get_float_decoded indet behindTable nt _ name bits d a m m'
           Hfind Hx Hb).
Qed.

(** [getMap] under the key of a map: an instance bound to that map. *)
Lemma nested_getMap nt es m (fuel : nat) name es' frames :
  holds_nested nt es m ->
  (26 * S (node_height (NMap es)) <= fuel)%nat ->
  lookup_node name es = Some (NMap es') ->
  exists c m',
    getMap indet behindTable fuel frames name m = Some (c, m')
    /\ heap m' = heap m
    /\ holds_nested nt es' (on_heap c (heap m))
    /\ (node_height (NMap es') < node_height (NMap es))%nat.
Proof.
  intros Hm Hfuel Hl. destruct (fuel_split _ _ Hfuel) as [e ->].
  pose proof Hm as (Hoff & Hok & Hh & Hfit & Hcap).
  assert (Hpos : (0 < length (node_image nt (NMap es)))%nat)
    by apply node_image_nonempty.
  destruct (nested_found nt es name _ e m Hm Hl)
    as (a & m' & Hfind & Ht & Hm' & Hx & Hlt & Hb & Ha & Hle).
  eexists _, m'. split; [|split; [exact Hm'|split; [|exact Hlt]]].
  - unfold getMap. unfold bind at 1. rewrite Hfind.
    unfold bind, self, ret. cbn [node_info map_info majorval p].
    rewrite Z.eqb_refl. rewrite Ht, Hoff. reflexivity.
  - assert (Hcap0 : uint32 (uint32 (mMaxBufLen (this m) - 0))
                    = mMaxBufLen (this m)).
    { rewrite Z.sub_0_r.
      rewrite (uint32_small (mMaxBufLen (this m))) by lia.
      apply uint32_small. lia. }
    unfold holds_nested.
    cbn [on_heap this heap MicroCbor_new initBuffer mDataOffset mBuf
         mMaxBufLen].
    rewrite Hcap0.
    split; [reflexivity|]. split; [exact Hx|]. split; [exact Hb|].
    split; [lia|exact Hcap].
Qed.

Lemma value_info_not_map nt x a :
  value_ok x -> majorval (value_info nt x a) <> kCborMap.
Proof.
  intros Hx. pose proof (plain_item_value nt x Hx) as Hp.
  destruct x as [T v|b|bits|bits|s|T v|T bytes n];
    cbn [value_info majorval set_tag item_info] in *;
    destruct Hp as (Hmj & _); cbv zeta in Hmj; unfold kCborMap; lia.
Qed.

(** [getMap] under a name that is no key, or the key of a value: the
    instance of the default constructor. *)
Lemma nested_getMap_default nt es m (fuel : nat) name frames :
  holds_nested nt es m ->
  (26 * S (node_height (NMap es)) <= fuel)%nat ->
  lookup_node name es = None
  \/ (exists x, lookup_node name es = Some (NValue x)) ->
  value_of (getMap indet behindTable fuel frames name m)
  = Some (MicroCbor_default frames).
Proof.
  intros Hm Hfuel Hl. destruct (fuel_split _ _ Hfuel) as [e ->].
  destruct Hl as [Hl|[x Hl]].
  - destruct (nested_missing nt es name e m Hm Hl) as (m' & Hfind & _).
    unfold getMap. unfold bind at 1. rewrite Hfind. reflexivity.
  - destruct (nested_found nt es name _ e m Hm Hl)
      as (a & m' & Hfind & _ & _ & Hx & _).
    unfold getMap. unfold bind at 1. rewrite Hfind.
    cbn [node_info]. unfold bind, self.
    destruct (Z.eqb_spec (majorval (value_info nt x a)) kCborMap) as [E|_];
      [|reflexivity].
    exfalso. exact (value_info_not_map nt x a Hx E).
Qed.

(** The reader on a buffer that holds a map with maps inside it, however
    the buffer was filled.  Under a name, the accessor of the kind of the
    value of the first entry with that key returns the value; under a
    name that is no key, [get<T>], [get<bool>], [get<float>] and
    [get<const char *>] return their default and [getLength] returns 0
    (nothing is stated of [getPointer] there, which tests a tag that is
    not set); [getMap] under the key of a map returns an instance that is bound to that map
    in the same way, so that the same holds of it; and [getMap] under any
    other name returns the instance of the default constructor. *)
Theorem nested_maps_read nt es m (fuel : nat) :
  holds_nested nt es m ->
  (26 * S (node_height (NMap es)) <= fuel)%nat ->
  (forall name T v d,
     lookup_node name es = Some (NValue (VInt T v)) ->
     value_of (get_int indet behindTable fuel T name d m) = Some v)
  /\ (forall name b d,
        lookup_node name es = Some (NValue (VBool b)) ->
        value_of (get_bool indet behindTable fuel name d m) = Some b)
  /\ (forall name bits d,
        lookup_node name es = Some (NValue (VFloat bits)) ->
        value_of (get_float indet behindTable fuel name d m) = Some bits)
  /\ (forall name s d,
        lookup_node name es = Some (NValue (VString s)) ->
        exists q,
          value_of (get_string indet behindTable fuel name d m) = Some q
          /\ holds_at (heap m) q (c_str s ++ (if nt then [0] else []))
          /\ value_of (getLength indet behindTable fuel name m)
             = Some (strlen s))
  /\ (forall name T bytes n d,
        lookup_node name es = Some (NValue (VArray T bytes n)) ->
        exists q,
          value_of (getPointer indet behindTable fuel T name d m)
          = Some (n, q)
          /\ holds_at (heap m) q bytes
          /\ value_of (getLength indet behindTable fuel name m)
             = Some (n * elem_sizeof T))
  /\ (forall name T (d : Z) (b : bool) (f s : Z),
        lookup_node name es = None ->
        value_of (get_int indet behindTable fuel T name d m) = Some d
        /\ value_of (get_bool indet behindTable fuel name b m) = Some b
        /\ value_of (get_float indet behindTable fuel name f m) = Some f
        /\ value_of (get_string indet behindTable fuel name s m) = Some s
        /\ value_of (getLength indet behindTable fuel name m) = Some 0)
  /\ (forall name es' frames,
        lookup_node name es = Some (NMap es') ->
        exists c m',
          getMap indet behindTable fuel frames name m = Some (c, m')
          /\ heap m' = heap m
          /\ holds_nested nt es' (on_heap c (heap m))
          /\ (node_height (NMap es') < node_height (NMap es))%nat)
  /\ (forall name frames,
        lookup_node name es = None
        \/ (exists x, lookup_node name es = Some (NValue x)) ->
        value_of (getMap indet behindTable fuel frames name m)
        = Some (MicroCbor_default frames)).
Proof.
  intros Hm Hfuel.
  split; [intros name T v d; apply (nested_get_int nt es); assumption|].
  split; [intros name b d; apply (nested_get_bool nt es); assumption|].
  split;
    [intros name bits d; apply (nested_get_float nt es); assumption|].
  pose proof Hm as (Hoff & Hok & Hh & Hfit & Hcap).
  destruct (fuel_split _ _ Hfuel) as [e Efuel].
  split; [|split; [|split; [|split]]].
  - intros name s d Hl. rewrite Efuel.
    destruct (nested_found nt es name _ e m Hm Hl)
      as (a & m' & Hfind & _ & Hm' & Hx & _ & Hb & Ha & Hle).
    rewrite <- Hm' in Hb. cbn [node_image] in Hle.
    refine (get_string_decoded indet behindTable nt _ name s d a m m'
              Hfind Hm' Hx Hb _).
    cbn [node_image] in Hfit. lia.
  - intros name T bytes n d Hl. rewrite Efuel.
    destruct (nested_found nt es name _ e m Hm Hl)
      as (a & m' & Hfind & _ & Hm' & Hx & _ & Hb & _).
    rewrite <- Hm' in Hb.
    exact (getPointer_decoded indet behindTable nt _ name T bytes n d a m m'
             Hfind Hm' Hx Hb).
  - intros name T d b f s Hl. rewrite Efuel.
    destruct (nested_missing nt es name e m Hm Hl) as (m' & Hfind & _).
    exact (get_not_found indet behindTable _ name T d b f s m m' Hfind).
  - intros name es' frames. apply (nested_getMap nt es); assumption.
  - intros name frames. apply (nested_getMap_default nt es); assumption.
Qed.

End ReadNodes.

(** ** Round trips through maps inside maps *)

(** After [restart()] the writer is a reader of the maps it wrote. *)
Lemma rewound_holds_nested frames buf cap nt heap0 es :
  node_ok (NMap es) ->
  (node_height (NMap es) <= 4)%nat ->
  0 <= buf ->
  Z.of_nat (length (node_image nt (NMap es))) <= cap ->
  cap + 255 < 2 ^ 32 ->
  buf + cap <= Z.of_nat (length heap0) ->
  holds_nested nt es
    (rewound (encode (nested_map es)
                (on_heap (MicroCbor_new frames buf cap nt) heap0))).
Proof.
  intros nodes_ok maps_few buf_nonneg image_fits cap_small buf_in_heap.
  pose proof (encode_nested_state frames buf cap nt heap0 es
                nodes_ok maps_few buf_nonneg
                ltac:(lia) buf_in_heap) as H.
  cbv zeta in H. revert H.
  generalize (encode (nested_map es)
                (on_heap (MicroCbor_new frames buf cap nt) heap0)).
  intros m (Hres & Hb & Hc & Hoff & Hnd & Hlen & Hh & Hout).
  unfold holds_nested.
  change (mDataOffset (this (rewound m))) with 0.
  change (mBuf (this (rewound m))) with (mBuf (this m)).
  change (mMaxBufLen (this (rewound m))) with (mMaxBufLen (this m)).
  change (heap (rewound m)) with (heap m).
  rewrite Hb, Hc. auto 10.
Qed.

Section NestedRoundTrip.

Variable indet : TypeInfo.
Variable behindTable : Z -> Z.

(** A fresh instance on the [cap] bytes at [buf]. *)
Variable frames : Z -> MapState.
Variables buf cap : Z.
Variable nt : bool.
Variable heap0 : list Z.
Variable es : list (string * Node).

Hypothesis nodes_ok : node_ok (NMap es).
Hypothesis maps_few : (node_height (NMap es) <= 4)%nat.
Hypothesis buf_nonneg : 0 <= buf.
Hypothesis image_fits : Z.of_nat (length (node_image nt (NMap es))) <= cap.
Hypothesis cap_small : cap + 255 < 2 ^ 32.
Hypothesis buf_in_heap : buf + cap <= Z.of_nat (length heap0).

(** After [startMap(); ...; endMap(); restart()] with values and maps:
    [get] under the key of a value returns it, whatever maps precede it;
    [getMap] under the key of a map returns an instance on which [get]
    under the key of a value of that map returns it.  Shown for [add<T>]
    and [get<T>] of one integral type, for [bool] and for the bits of a
    [float]. *)
Theorem nested_maps_roundtrip (fuel : nat) :
  let m := rewound (encode (nested_map es)
                      (on_heap (MicroCbor_new frames buf cap nt) heap0)) in
  (26 * S (node_height (NMap es)) <= fuel)%nat ->
  (forall name T v d,
     lookup_node name es = Some (NValue (VInt T v)) ->
     value_of (get_int indet behindTable fuel T name d m) = Some v)
  /\ (forall name es' frames',
        lookup_node name es = Some (NMap es') ->
        exists c m',
          getMap indet behindTable fuel frames' name m = Some (c, m')
          /\ (forall name' T v d,
                lookup_node name' es' = Some (NValue (VInt T v)) ->
                value_of (get_int indet behindTable fuel T name' d
                            (on_heap c (heap m'))) = Some v)
          /\ (forall name' b d,
                lookup_node name' es' = Some (NValue (VBool b)) ->
                value_of (get_bool indet behindTable fuel name' d
                            (on_heap c (heap m'))) = Some b)
          /\ (forall name' bits d,
                lookup_node name' es' = Some (NValue (VFloat bits)) ->
                value_of (get_float indet behindTable fuel name' d
                            (on_heap c (heap m'))) = Some bits)).
Proof.
  intros m Hfuel.
  pose proof (rewound_holds_nested frames buf cap nt heap0 es nodes_ok
                maps_few buf_nonneg image_fits cap_small buf_in_heap) as Hm.
  fold m in Hm.
  revert Hm. generalize m. clear m. intros m Hm.
  split.
  { intros name T v d.
    apply (nested_get_int indet behindTable nt es); assumption. }
  intros name es' frames' Hl.
  destruct (nested_getMap indet behindTable nt es m fuel name es' frames'
              Hm Hfuel Hl) as (c & m' & Hget & Hm' & Hc & Hlt).
  exists c, m'. split; [exact Hget|]. rewrite Hm'.
  assert (Hfuel' : (26 * S (node_height (NMap es')) <= fuel)%nat) by lia.
  split.
  { intros name' T v d.
    apply (nested_get_int indet behindTable nt es'); assumption. }
  split.
  { intros name' b d.
    apply (nested_get_bool indet behindTable nt es'); assumption. }
  intros name' bits d.
  apply (nested_get_float indet behindTable nt es'); assumption.
Qed.

End NestedRoundTrip.

(** ** An aligned array whose key is padded *)

Lemma padded_key_appends s pad m :
  0 <= pad -> strlen s + pad < 2 ^ 32 ->
  room (header_size (strlen s + pad) + (strlen s + pad)) m ->
  (let m := encodeHeader kCborUTF8String (strlen s + pad) m in
   let m := reserveBytes (strlen s + pad) m in
   let c := this m in
   if mResult c =? 0 then
     {| this :=
          set_mDataOffset (uint32 (mDataOffset c + (strlen s + pad))) c;
        heap :=
          memset (mBuf c + mDataOffset c + strlen s) 0 pad
            (memcpy (mBuf c + mDataOffset c) (c_bytes s) (strlen s)
               (heap m));
        loads := loads m |}
   else m)
  = appended (header_image 3 (strlen s + pad)
              ++ c_str s ++ replicate (Z.to_nat pad) 0) m.
Proof.
  intros Hpad Hlen Hroom.
  assert (Hs0 : 0 <= strlen s) by (unfold strlen; lia).
  rewrite (encodeHeader_appends kCborUTF8String (strlen s + pad)
             ltac:(unfold kCborUTF8String; lia) ltac:(lia) m).
  2:{ rewrite length_header_image.
      apply (room_split _ (strlen s + pad)); [exact Hroom|lia]. }
  rewrite <- appended_app.
  assert (Hroom1 : room (strlen s + pad)
                     (appended (header_image kCborUTF8String
                                  (strlen s + pad)) m)).
  { apply room_appended; [|lia]. rewrite length_header_image.
    exact Hroom. }
  change (header_image 3 (strlen s + pad))
    with (header_image kCborUTF8String (strlen s + pad)).
  revert Hroom1.
  generalize (appended (header_image kCborUTF8String (strlen s + pad)) m).
  clear Hroom m. intros m (Hres & Hoff & Hnd & Hfit & Hcap).
  destruct m as [[buf cap nd off res ro nt d fr] h l].
  unfold reserveBytes, with_this, appended, memcpy, memset. cbn in *.
  subst.
  rewrite (uint32_small (strlen s + pad)) by lia.
  rewrite (uint32_small (nd + (strlen s + pad))) by lia.
  destruct (Z.ltb_spec cap (nd + (strlen s + pad))); [lia|]. cbn.
  rewrite (uint32_small (nd + (strlen s + pad))) by lia.
  rewrite length_app, length_replicate, Nat2Z.inj_add, Z2Nat.id by lia.
  change (Z.of_nat (length (c_str s))) with (strlen s).
  rewrite poke_bytes_app.
  change (Z.of_nat (length (c_str s))) with (strlen s).
  change (uint8 0) with 0.
  pose proof (take_c_bytes false s) as Ht. rewrite Z.add_0_r, app_nil_r in Ht.
  rewrite Ht. reflexivity.
Qed.

(** The array overload with [align = true], when [oddBytes] is not 0:
    the padded key and the array, and no pair counted. *)
Lemma add_array_padded T s bytes n m :
  value_ok (VArray T bytes n) ->
  strlen s + 8 < 2 ^ 32 ->
  let odd := odd_bytes (mBufBytesNeeded (this m)) T s n in
  odd <> 0 ->
  room (Z.of_nat (length (padded_pair T s bytes (elem_sizeof T - odd)))) m ->
  add_array T (Some s) bytes n true m
  = appended (padded_pair T s bytes (elem_sizeof T - odd)) m.
Proof.
  intros (Hn & Hbytes & Hraw) Hs odd Hodd Hroom.
  assert (HS : 1 <= elem_sizeof T <= 8).
  { destruct (elem_sizeof_cases T) as [-> | [-> | [-> | ->]]]; lia. }
  assert (Hs0 : 0 <= strlen s) by (unfold strlen; lia).
  assert (Hrange : 0 < odd < elem_sizeof T).
  { unfold odd, odd_bytes in *. lia. }
  set (pad := elem_sizeof T - odd) in *.
  unfold add_array. cbv zeta.
  rewrite (uint32_small n) by nia.
  fold (odd_bytes (mBufBytesNeeded (this m)) T s n). fold odd.
  destruct (Z.eqb_spec odd 0) as [E|_]; [contradiction|].
  fold pad.
  unfold padded_pair in *.
  rewrite !length_app, !Nat2Z.inj_add, length_header_image, length_replicate,
    Z2Nat.id in Hroom by lia.
  change (Z.of_nat (length (c_str s))) with (strlen s) in Hroom.
  pose proof (header_size_range (strlen s + pad)).
  assert (Hroom0 : room (header_size (strlen s + pad) + (strlen s + pad)) m).
  { apply (room_split _ (Z.of_nat (length (array_item T bytes))));
      [|lia].
    refine (eq_rect _ (fun k => room k m) Hroom _ _). lia. }
  pose proof (padded_key_appends s pad m ltac:(lia) ltac:(lia) Hroom0)
    as Hpk.
  cbv zeta in Hpk. rewrite Hpk. clear Hpk Hroom0.
  set (key := header_image 3 (strlen s + pad)
              ++ c_str s ++ replicate (Z.to_nat pad) 0) in *.
  assert (Hkey : Z.of_nat (length key)
                 = header_size (strlen s + pad) + strlen s + pad).
  { unfold key. rewrite !length_app, !Nat2Z.inj_add, length_header_image,
      length_replicate, Z2Nat.id by lia.
    unfold strlen. lia. }
  assert (Hroom1 : room (Z.of_nat (length (array_item T bytes)))
                     (appended key m)).
  { apply room_appended; [|lia].
    refine (eq_rect _ (fun k => room k m) Hroom _ _). lia. }
  rewrite app_assoc. fold key. rewrite <- appended_app.
  revert Hroom1. generalize (appended key m).
  clear Hroom m odd Hodd Hrange pad key Hkey H.
  intros m Hroom.
  unfold array_item in *.
  rewrite length_app, Nat2Z.inj_add in Hroom.
  rewrite (encodeTag_appends T m).
  2:{ apply (room_split _ _ _ Hroom). lia. }
  rewrite <- appended_app. rewrite <- Hbytes.
  apply encodeBytes_appends; [lia|reflexivity|].
  pose proof (header_size_range (Z.of_nat (length bytes))).
  apply room_appended; [|lia].
  rewrite length_app, Nat2Z.inj_add, length_header_image in Hroom.
  exact Hroom.
Qed.

(** Bytes appended without a pair counted. *)
Lemma wrote_in_uncounted buf cap nt heap0 d outer pre body k m img :
  wrote_in buf cap nt heap0 d outer pre body k m ->
  wrote_in buf cap nt heap0 d outer pre (body ++ img) k (appended img m).
Proof.
  intros (Hres & Hro & Hbuf & Hc & Hnt & Hd & Hoff & Hnd & Hheap & Hl & Hfr
          & Hout).
  destruct m as [[buf' cap' nd off res ro nt' d' fr] h l]. cbn in *. subst.
  unfold wrote_in, appended. cbn.
  rewrite !length_app.
  split; [reflexivity|]. split; [reflexivity|]. split; [reflexivity|].
  split; [reflexivity|]. split; [reflexivity|]. split; [reflexivity|].
  split; [lia|]. split; [lia|]. split.
  { change (pre ++ 160 :: body ++ img) with (pre ++ (160 :: body) ++ img).
    rewrite app_assoc, (poke_bytes_app buf (pre ++ 160 :: body)).
    f_equal. rewrite length_app. cbn [length]. lia. }
  split; [reflexivity|]. split; [exact Hfr|exact Hout].
Qed.

Lemma add_entries_items nt es :
  let items := map (fun e => ([add_value (fst e) (snd e)],
                              entry_image nt e)) es in
  concat (map fst items) = add_entries es
  /\ concat (map snd items) = entries_image nt es
  /\ length items = length es.
Proof.
  cbv zeta. rewrite !map_map, length_map. cbn [fst snd].
  split; [|split; reflexivity].
  unfold add_entries. induction es as [|e es IH]; [reflexivity|].
  cbn [map concat app]. rewrite IH. reflexivity.
Qed.

Lemma entries_emit nt es :
  Forall entry_ok es ->
  Forall (fun it => emits nt 0 (fst it) (snd it))
    (map (fun e => ([add_value (fst e) (snd e)], entry_image nt e)) es).
Proof.
  intros Hes. apply Forall_map.
  eapply Forall_impl; [exact Hes|]. cbn beta. intros [key x] [Hk Hx].
  cbn [fst snd] in *. apply emits_leaf; assumption.
Qed.

(** An array added with [align = true] is left out of its map when its
    key is padded.  After entries that are counted, the array overload,
    called where [oddBytes] is not 0, writes the padded key and the
    array but counts no pair: [endMap] stores the number of the entries
    before it, and after [restart()] the reader is bound to the map of
    those entries alone; under the name of the array, when no entry
    has it, [getLength] returns 0. *)
Theorem padded_array_left_out
    (indet : TypeInfo) (behindTable : Z -> Z) (frames : Z -> MapState)
    (buf cap : Z) (nt : bool) (heap0 : list Z)
    (es : list (string * Value)) (T : ElemType) (name : string)
    (bytes : list Z) (n : Z) :
  Forall entry_ok es ->
  (length es < 24)%nat ->
  value_ok (VArray T bytes n) ->
  strlen name + 8 < 2 ^ 32 ->
  let odd := odd_bytes (Z.of_nat (length (map_image nt es))) T name n in
  odd <> 0 ->
  let pair := padded_pair T name bytes (elem_sizeof T - odd) in
  0 <= buf ->
  Z.of_nat (length (map_image nt es)) + Z.of_nat (length pair) <= cap ->
  cap + 255 < 2 ^ 32 ->
  buf + cap <= Z.of_nat (length heap0) ->
  let m := encode (flat_map_then_array es T name bytes n)
             (on_heap (MicroCbor_new frames buf cap nt) heap0) in
  getResult m = 0
  /\ bytesSerialized m
     = Z.of_nat (length (map_image nt es)) + Z.of_nat (length pair)
  /\ holds_at (heap m) buf (map_image nt es ++ pair)
  /\ holds_map nt es (rewound m)
  /\ (lookup_value name es = None ->
      forall e,
        value_of (getLength indet behindTable (S (S (length es + e))) name
                    (rewound m)) = Some 0).
Proof.
  intros Hes HN Hx Hname odd Hodd pair Hbuf Hfit Hcap Hheap. cbv zeta.
  unfold map_image in *. cbn [length] in Hfit, odd.
  destruct (add_entries_items nt es) as (Eops & Eimg & Elen).
  pose proof (wrote_in_startMap frames buf cap nt heap0 ltac:(lia)) as H0.
  pose proof (emits_all nt 0 _ (entries_emit nt es Hes) _ _ _ _ _ _ _ _ H0)
    as H1.
  cbv zeta in Eops, Eimg, Elen. rewrite Eops, Eimg, Elen in H1.
  cbn [app length] in H1.
  specialize (H1 ltac:(lia) ltac:(lia) ltac:(lia) ltac:(lia)).
  rewrite Z.add_0_l in H1.
  unfold flat_map_then_array.
  change (OpStartMap 0
          :: add_entries es
             ++ [OpAddArray T (Some name) bytes n true; OpEndMap])
    with ([OpStartMap 0] ++ add_entries es
          ++ [OpAddArray T (Some name) bytes n true] ++ [OpEndMap]).
  rewrite !encode_app.
  change (encode [OpStartMap 0]
            (on_heap (MicroCbor_new frames buf cap nt) heap0))
    with (startMap 0 (on_heap (MicroCbor_new frames buf cap nt) heap0)).
  change (encode [OpEndMap] ?x) with (endMap x).
  change (encode [OpAddArray T (Some name) bytes n true] ?x)
    with (add_array T (Some name) bytes n true x).
  revert H1.
  generalize (encode (add_entries es)
                (startMap 0
                   (on_heap (MicroCbor_new frames buf cap nt) heap0))).
  intros m1 H1.
  assert (Hnd1 : mBufBytesNeeded (this m1)
                 = Z.of_nat (S (length (entries_image nt es)))).
  { destruct H1 as (_ & _ & _ & _ & _ & _ & _ & Hnd & _).
    rewrite Hnd. cbn [length]. lia. }
  rewrite (add_array_padded T name bytes n m1 Hx Hname).
  2:{ rewrite Hnd1. exact Hodd. }
  2:{ rewrite Hnd1. fold odd. fold pair.
      apply (wrote_in_room _ _ _ _ _ _ _ _ _ _ _ H1);
        [cbn [length]; lia|lia]. }
  rewrite Hnd1. fold odd. fold pair.
  pose proof (wrote_in_uncounted _ _ _ _ _ _ _ _ _ _ pair H1) as H2.
  pose proof (wrote_in_endMap _ _ _ _ _ _ _ _ _ _ H2 ltac:(lia) ltac:(lia))
    as Hend.
  cbv zeta in Hend.
  destruct H2 as (_ & _ & _ & _ & _ & _ & Hoff2 & _).
  revert Hend Hoff2. generalize (appended pair m1). clear H1 Hnd1 m1.
  intros m2 (Hres & Hro & Hb & Hc & Hnt & Hd & Hoff & Hnd & Hh & Hl & Hfr)
    Hoff2.
  cbn [app length] in *. rewrite length_app in Hoff2.
  assert (Hall : holds_at (heap (endMap m2)) buf
                   ((160 + Z.of_nat (length es))
                    :: entries_image nt es ++ pair)).
  { rewrite Hh. apply holds_at_poke_bytes; [exact Hbuf|].
    cbn [length]. rewrite length_app. lia. }
  assert (Hmap : holds_map nt es (rewound (endMap m2))).
  { unfold holds_map, map_image.
    change (mDataOffset (this (rewound (endMap m2)))) with 0.
    change (mBuf (this (rewound (endMap m2))))
      with (mBuf (this (endMap m2))).
    change (mMaxBufLen (this (rewound (endMap m2))))
      with (mMaxBufLen (this (endMap m2))).
    change (heap (rewound (endMap m2))) with (heap (endMap m2)).
    rewrite Hb, Hc. cbn [length].
    split; [reflexivity|]. split; [exact Hes|]. split; [exact HN|].
    split; [|lia].
    change ((160 + Z.of_nat (length es)) :: entries_image nt es ++ pair)
      with (((160 + Z.of_nat (length es)) :: entries_image nt es) ++ pair)
      in Hall.
    exact (holds_at_app_l _ _ _ _ Hall). }
  split; [exact Hres|].
  split; [unfold bytesSerialized; rewrite Hoff, Hoff2; lia|].
  split; [exact Hall|]. split; [exact Hmap|].
  intros Hl' e.
  exact (proj2 (proj2 (proj2 (proj2
           (get_of_missing_name indet behindTable nt es name TInt8 0 false
              0 0 e _ Hmap Hl'))))).
Qed.

(** ** An accessor of another kind than the value *)

(** The tag, the major type and the minor value of the descriptor of a
    node. *)
Lemma node_info_kind nt n a :
  node_ok n ->
  let e := node_info nt n a in
  match n with
  | NValue (VInt _ _) | NValue (VMinimal _ _) =>
      tag e = kCborTagInvalid
      /\ (majorval e = kCborPosInt \/ majorval e = kCborNegInt)
  | NValue (VBool b) =>
      tag e = kCborTagInvalid /\ majorval e = kCborSimple
      /\ minorval e = (if b then 21 else 20)
  | NValue (VFloat _) =>
      tag e = kCborTagInvalid /\ majorval e = kCborSimple
      /\ minorval e = 26
  | NValue (VDouble _) =>
      tag e = kCborTagInvalid /\ majorval e = kCborSimple
      /\ minorval e = 27
  | NValue (VString _) =>
      tag e = kCborTagInvalid /\ majorval e = kCborUTF8String
  | NValue (VArray T _ _) =>
      tag e = kCborTagInfo T /\ majorval e = kCborByteString
  | NMap _ => tag e = kCborTagInvalid /\ majorval e = kCborMap
  end.
Proof.
  intros Hok. cbv zeta.
  destruct n as [[T v|b|bits|bits|s|T v|T bytes k]|es];
    cbn [node_info value_info value_image node_ok value_ok] in *.
  - unfold int_item. cbv zeta.
    destruct (v <? 0); destruct T; cbn [sizeof]; vm_compute; auto.
  - destruct b; vm_compute; auto.
  - vm_compute; auto.
  - vm_compute; auto.
  - unfold string_item.
    assert (0 <= strlen s) by (unfold strlen; lia).
    destruct (header_image_head 3 (strlen s + (if nt then 1 else 0)))
      as (mn & rest & E & _ & Hmj & _); [lia|destruct nt; lia|].
    rewrite E. cbn [app]. unfold item_info. cbv zeta.
    change (default 0 (head (?b :: ?r))) with b.
    cbn [tag majorval]. rewrite Hmj. auto.
  - destruct Hok as [_ Hv]. unfold minimal_item.
    destruct (Z.leb_spec 0 v).
    + destruct (header_image_head 0 v) as (mn & rest & E & _ & Hmj & _);
        [lia|lia|].
      rewrite E. unfold item_info. cbv zeta.
      change (default 0 (head (?b :: ?r))) with b.
      cbn [tag majorval]. rewrite Hmj. auto.
    + destruct (header_image_head 1 (-1 - v))
        as (mn & rest & E & _ & Hmj & _); [lia|lia|].
      rewrite E. unfold item_info. cbv zeta.
      change (default 0 (head (?b :: ?r))) with b.
      cbn [tag majorval]. rewrite Hmj. auto.
  - destruct Hok as (Hk & Hlen & Hraw).
    destruct (header_image_head 2 (Z.of_nat (length bytes)))
      as (mn & rest & E & _ & Hmj & _); [lia|lia|].
    rewrite E. cbn [app]. unfold item_info. cbv zeta.
    change (default 0 (head (?b :: ?r))) with b.
    cbn [tag majorval set_tag]. rewrite Hmj. auto.
  - split; reflexivity.
Qed.

Section OtherKind.

Variable indet : TypeInfo.
Variable behindTable : Z -> Z.

(** What the accessors return for an item of another major type, minor
    value or tag than theirs. *)
Lemma get_int_other fuel T name d m e m' :
  findElement indet behindTable fuel name m = Some (e, m') ->
  majorval e <> kCborPosInt -> majorval e <> kCborNegInt ->
  value_of (get_int indet behindTable fuel T name d m) = Some d.
Proof.
  intros Hfind Hpos Hneg. unfold get_int, bind at 1. rewrite Hfind.
  apply Z.eqb_neq in Hpos, Hneg.
  destruct (headerBytes e =? 9).
  - unfold bind, load. cbv zeta. rewrite Hpos, Hneg. reflexivity.
  - unfold bind.
    destruct (getFieldValue_this e m') as (v & m'' & -> & _).
    rewrite Hpos, Hneg. reflexivity.
Qed.

Lemma get_bool_other fuel name (d : bool) m e m' :
  findElement indet behindTable fuel name m = Some (e, m') ->
  majorval e <> kCborSimple
  \/ (minorval e <> 20 /\ minorval e <> 21) ->
  value_of (get_bool indet behindTable fuel name d m) = Some d.
Proof.
  intros Hfind H. unfold get_bool, bind. rewrite Hfind.
  destruct (Z.eqb_spec (majorval e) kCborSimple); [|reflexivity].
  destruct H as [H|[H20 H21]]; [contradiction|].
  apply Z.eqb_neq in H20, H21. rewrite H20, H21. reflexivity.
Qed.

Lemma get_float_other fuel name d m e m' :
  findElement indet behindTable fuel name m = Some (e, m') ->
  majorval e <> kCborSimple \/ minorval e <> 26 ->
  value_of (get_float indet behindTable fuel name d m) = Some d.
Proof.
  intros Hfind H. unfold get_float, bind. rewrite Hfind.
  destruct (Z.eqb_spec (majorval e) kCborSimple); [|reflexivity].
  destruct H as [H|H]; [contradiction|].
  apply Z.eqb_neq in H. rewrite H. reflexivity.
Qed.

Lemma get_string_other fuel name d m e m' :
  findElement indet behindTable fuel name m = Some (e, m') ->
  majorval e <> kCborUTF8String ->
  value_of (get_string indet behindTable fuel name d m) = Some d.
Proof.
  intros Hfind H. unfold get_string, bind. rewrite Hfind.
  apply Z.eqb_neq in H. rewrite H. reflexivity.
Qed.

Lemma getPointer_other fuel T name d m e m' :
  findElement indet behindTable fuel name m = Some (e, m') ->
  tag e <> kCborTagInfo T ->
  value_of (getPointer indet behindTable fuel T name d m) = Some (0, d).
Proof.
  intros Hfind H. unfold getPointer, bind. rewrite Hfind.
  apply Z.eqb_neq in H. rewrite H. reflexivity.
Qed.

Lemma kCborTagInfo_valid T : kCborTagInvalid <> kCborTagInfo T.
Proof. pose proof (kCborTagInfo_range T). unfold kCborTagInvalid. lia. Qed.

(** Incompatible values.  On a buffer that holds a map, with maps inside
    it or not: under the key of a value of another kind than its own, or
    of a map, every accessor returns the default given; [getPointer<T>]
    does so for an array of elements with another tag than that of [T]
    too. *)
Theorem get_of_other_kind_returns_default nt es m (fuel : nat) name n :
  holds_nested nt es m ->
  (26 * S (node_height (NMap es)) <= fuel)%nat ->
  lookup_node name es = Some n ->
  (forall T d,
     (forall T' v, n <> NValue (VInt T' v)) ->
     (forall T' v, n <> NValue (VMinimal T' v)) ->
     value_of (get_int indet behindTable fuel T name d m) = Some d)
  /\ (forall d : bool,
        (forall b, n <> NValue (VBool b)) ->
        value_of (get_bool indet behindTable fuel name d m) = Some d)
  /\ (forall d,
        (forall bits, n <> NValue (VFloat bits)) ->
        value_of (get_float indet behindTable fuel name d m) = Some d)
  /\ (forall d,
        (forall s, n <> NValue (VString s)) ->
        value_of (get_string indet behindTable fuel name d m) = Some d)
  /\ (forall T d,
        (forall T' bytes k,
           n = NValue (VArray T' bytes k) ->
           kCborTagInfo T' <> kCborTagInfo T) ->
        value_of (getPointer indet behindTable fuel T name d m)
        = Some (0, d)).
Proof.
  intros Hm Hfuel Hl.
  assert (exists e, fuel = (26 * S (node_height (NMap es)) + e)%nat)
    as [e ->]
    by (exists (fuel - 26 * S (node_height (NMap es)))%nat; lia).
  destruct (nested_found indet behindTable nt es name n e m Hm Hl)
    as (a & m' & Hfind & _ & _ & Hok & _).
  pose proof (node_info_kind nt n a Hok) as Hkind. cbv zeta in Hkind.
  revert Hfind Hkind. generalize (node_info nt n a). intros i Hfind Hkind.
  split; [|split; [|split; [|split]]].
  - intros T d Hint Hmin.
    apply (get_int_other _ T name d m i m' Hfind);
      destruct n as [[T' v|b|bits|bits|s|T' v|T' bytes k]|es'];
      try (exfalso; exact (Hint _ _ eq_refl));
      try (exfalso; exact (Hmin _ _ eq_refl));
      destruct Hkind as (_ & -> & _) || destruct Hkind as (_ & ->);
      discriminate.
  - intros d Hb.
    apply (get_bool_other _ name d m i m' Hfind).
    destruct n as [[T' v|b|bits|bits|s|T' v|T' bytes k]|es'];
      try (exfalso; exact (Hb _ eq_refl)).
    + left. destruct Hkind as (_ & [-> | ->]); discriminate.
    + right. destruct Hkind as (_ & _ & ->). split; discriminate.
    + right. destruct Hkind as (_ & _ & ->). split; discriminate.
    + left. destruct Hkind as (_ & ->). discriminate.
    + left. destruct Hkind as (_ & [-> | ->]); discriminate.
    + left. destruct Hkind as (_ & ->). discriminate.
    + left. destruct Hkind as (_ & ->). discriminate.
  - intros d Hf.
    apply (get_float_other _ name d m i m' Hfind).
    destruct n as [[T' v|b|bits|bits|s|T' v|T' bytes k]|es'];
      try (exfalso; exact (Hf _ eq_refl)).
    + left. destruct Hkind as (_ & [-> | ->]); discriminate.
    + right. destruct Hkind as (_ & _ & ->). destruct b; discriminate.
    + right. destruct Hkind as (_ & _ & ->). discriminate.
    + left. destruct Hkind as (_ & ->). discriminate.
    + left. destruct Hkind as (_ & [-> | ->]); discriminate.
    + left. destruct Hkind as (_ & ->). discriminate.
    + left. destruct Hkind as (_ & ->). discriminate.
  - intros d Hs.
    apply (get_string_other _ name d m i m' Hfind).
    destruct n as [[T' v|b|bits|bits|s|T' v|T' bytes k]|es'];
      try (exfalso; exact (Hs _ eq_refl));
      try (destruct Hkind as (_ & [-> | ->]); discriminate);
      try (destruct Hkind as (_ & -> & _); discriminate);
      destruct Hkind as (_ & ->); discriminate.
  - intros T d Ha.
    apply (getPointer_other _ T name d m i m' Hfind).
    destruct n as [[T' v|b|bits|bits|s|T' v|T' bytes k]|es'];
      try (destruct Hkind as (-> & _); apply kCborTagInfo_valid).
    destruct Hkind as (-> & _). exact (Ha _ _ _ eq_refl).
Qed.

End OtherKind.

(** * Instances of the general theorems *)

(** Closed side conditions: comparisons of numerals once evaluated. *)
Ltac by_evaluation :=
  vm_compute;
  repeat match goal with
    | |- _ /\ _ => split
    end;
  first [reflexivity | let E := fresh in intros E; discriminate E].

(** [startMap()] on a buffer of length 0 has failed; an [add] and the
    [endMap] after it. *)
Lemma sticky_result_blocks_writes_witness :
  let m := startMap 0 (on_heap (MicroCbor_new zero_frames 0 0 true) [7; 7]) in
  let ops := [OpAddInt TUInt8 (Some "k"%string) 7; OpEndMap] in
  getResult (encode ops m) <> 0 /\ heap (encode ops m) = heap m.
Proof.
  intros m ops.
  apply (sticky_result_blocks_writes ops m); [reflexivity ..|by_evaluation].
Defined.

(** The [startMap()] of the test [constbuf]. *)
Lemma startMap_read_only_refused_witness :
  let m := on_heap (MicroCbor_const zero_frames 0 8 false) (replicate 8 0) in
  getResult (startMap 0 m) = -1
  /\ heap (startMap 0 m) = heap m
  /\ bytesNeeded (startMap 0 m) = bytesNeeded m
  /\ bytesSerialized (startMap 0 m) = bytesSerialized m
  /\ mDepth (this (startMap 0 m)) = mDepth (this m)
  /\ mMapState (this (startMap 0 m)) = mMapState (this m).
Proof.
  intros m. apply (startMap_read_only_refused 0 m). reflexivity.
Defined.

(** [startMap(); add<uint8_t>("k", 7); endMap()]: the byte at offset 3. *)
Lemma endMap_stores_at_map_start_only_witness :
  let m :=
    encode [OpStartMap 0; OpAddInt TUInt8 (Some "k"%string) 7] (on_zeroed 16) in
  peek (heap (endMap m)) 3 = peek (heap m) 3
  /\ length (heap (endMap m)) = length (heap m).
Proof.
  intros m. apply (endMap_stores_at_map_start_only m 3); by_evaluation.
Defined.

(** Twenty-three [add] and the [endMap]: the byte at offset 1, the header
    of the first key. *)
Lemma endMap_small_count_stores_one_byte_witness :
  let m :=
    encode (OpStartMap 0
            :: repeat (OpAddInt TUInt8 (Some "k"%string) 7) 23)
      (on_zeroed 128) in
  peek (heap (endMap m)) 1 = peek (heap m) 1.
Proof.
  intros m. apply (endMap_small_count_stores_one_byte m 1); by_evaluation.
Defined.

(** The first header of [A1 61 6B 18 07]. *)
Lemma getNextField_loads_within_region_witness :
  let m := on_heap (MicroCbor_new zero_frames 0 5 true) [161; 97; 107; 24; 7] in
  let e := mkTypeInfo kCborTagInvalid 5 1 1 0 in
  let m' := {| this := this m; heap := heap m; loads := [0] |} in
  mBuf (this m') = mBuf (this m)
  /\ mMaxBufLen (this m') = mMaxBufLen (this m)
  /\ heap m' = heap m
  /\ 0 <= mDataOffset (this m')
  /\ loads_within (this m) m m'
  /\ (majorval e = kCborError
      \/ (mBuf (this m) <= p e
          /\ p e + headerBytes e <= mBuf (this m) + mMaxBufLen (this m))).
Proof.
  intros m e m'.
  apply (getNextField_loads_within_region zero_info zero_table 1 m e m'); by_evaluation.
Defined.

(** The run of the test [basic] on its buffer of 100 bytes. *)
Lemma roundtrip_int_witness :
  let m :=
    encode [OpStartMap 0; OpAddInt TInt32 (Some "i"%string) 12345; OpEndMap]
      (on_heap (MicroCbor_new zero_frames 0 100 true) (replicate 100 0)) in
  getResult m = 0
  /\ value_of (get_int zero_info zero_table 2 TInt32 "i" 12345 (rewound m))
     = Some 12345.
Proof.
  apply (roundtrip_int zero_info zero_table TInt32 "i" 12345 12345
           zero_frames 0 100 true (replicate 100 0) 0); by_evaluation.
Defined.

(** The run of the test [boolean]. *)
Lemma roundtrip_bool_witness :
  let m :=
    encode [OpStartMap 0; OpAddBool (Some "true"%string) true; OpEndMap]
      (on_heap (MicroCbor_new zero_frames 0 200 true) (replicate 200 0)) in
  getResult m = 0
  /\ value_of (get_bool zero_info zero_table 2 "true" false (rewound m))
     = Some true.
Proof.
  apply (roundtrip_bool zero_info zero_table "true" true false
           zero_frames 0 200 true (replicate 200 0) 0); by_evaluation.
Defined.

(** The run of the test [floats]: 3.14159f has the bits 0x40490FD0. *)
Lemma roundtrip_float_witness :
  let m :=
    encode [OpStartMap 0; OpAddFloat (Some "f32"%string) 1078530000; OpEndMap]
      (on_heap (MicroCbor_new zero_frames 0 200 true) (replicate 200 0)) in
  getResult m = 0
  /\ value_of (get_float zero_info zero_table 2 "f32" 0 (rewound m))
     = Some 1078530000.
Proof.
  apply (roundtrip_float zero_info zero_table "f32" 1078530000 0
           zero_frames 0 200 true (replicate 200 0) 0); by_evaluation.
Defined.

(** [startMap(); add("pt", int32_t[2], 2, true)]: one byte of padding. *)
Lemma aligned_array_payload_for_short_key_witness :
  let m := startMap 0 (on_zeroed 32) in
  let m' :=
    add_array (ElemInt TInt32) (Some "pt"%string) [1; 0; 0; 0; 2; 0; 0; 0] 2
      true m in
  (bytesNeeded m' - 2 * elem_sizeof (ElemInt TInt32))
     mod elem_sizeof (ElemInt TInt32) = 0
  /\ (run_ok m -> getResult m' = 0 -> bytesSerialized m' = bytesNeeded m').
Proof.
  intros m.
  apply (aligned_array_payload_for_short_key (ElemInt TInt32) "pt"
           [1; 0; 0; 0; 2; 0; 0; 0] 2 m); by_evaluation.
Defined.

(** Five [startMap()] in a row, then the sixth. *)
Lemma startMap_refuses_at_depth_limit_witness :
  let m :=
    encode [OpStartMap 0; OpStartMap 0; OpStartMap 0; OpStartMap 0;
            OpStartMap 0] (on_zeroed 16) in
  let m' := startMap 0 m in
  -1 <= mDepth (this m') <= CONFIG_MICROCBOR_MAX_NESTING
  /\ (mDepth (this m) = CONFIG_MICROCBOR_MAX_NESTING ->
      getResult m' = -1
      /\ heap m' = heap m
      /\ mMapState (this m') = mMapState (this m)
      /\ mDepth (this m') = mDepth (this m)).
Proof.
  intros m. apply (startMap_refuses_at_depth_limit 0 m). by_evaluation.
Defined.

Ltac closed_conditions :=
  vm_compute;
  repeat match goal with
    | |- _ /\ _ => split
    end;
  first [exact I | reflexivity | let E := fresh in intros E; discriminate E].

Ltac entries_conditions :=
  repeat (apply Forall_cons; split; [closed_conditions|]); apply Forall_nil_2.

Lemma flat_map_image_written_witness :
  let m := encode (flat_map sample_entries)
             (on_heap (MicroCbor_new zero_frames 0 128 true)
                (replicate 128 0)) in
  getResult m = 0
  /\ bytesSerialized m = Z.of_nat (length (map_image true sample_entries))
  /\ bytesNeeded m = Z.of_nat (length (map_image true sample_entries))
  /\ length (heap m) = length (replicate 128 0)
  /\ holds_at (heap m) 0 (map_image true sample_entries)
  /\ (forall a,
        a < 0 \/ 0 + Z.of_nat (length (map_image true sample_entries)) <= a ->
        peek (heap m) a = peek (replicate 128 0) a).
Proof.
  apply (flat_map_image_written zero_frames 0 128 true (replicate 128 0)
           sample_entries);
    [entries_conditions | vm_compute; lia | closed_conditions..].
Defined.

Lemma flat_map_get_scalar_witness :
  value_of (get_int zero_info zero_table 10 TInt16 "neg" 0 sample_reader)
  = Some (-16000).
Proof.
  apply (proj1 (flat_map_get_scalar zero_info zero_table zero_frames 0 128
                  true (replicate 128 0) sample_entries
                  ltac:(entries_conditions) ltac:(vm_compute; lia)
                  ltac:(closed_conditions) ltac:(closed_conditions)
                  ltac:(closed_conditions) ltac:(closed_conditions)
                  "neg" 0%nat)).
  reflexivity.
Defined.

Lemma flat_map_get_minimal_witness :
  value_of (get_int zero_info zero_table 10 TInt32 "min" 0 sample_reader)
  = Some (-300).
Proof.
  apply (flat_map_get_minimal zero_info zero_table zero_frames 0 128
           true (replicate 128 0) sample_entries
           ltac:(entries_conditions) ltac:(vm_compute; lia)
           ltac:(closed_conditions) ltac:(closed_conditions)
           ltac:(closed_conditions) ltac:(closed_conditions)
           "min" 0%nat TInt32 (-300) 0);
    [reflexivity | right; closed_conditions].
Defined.

Lemma flat_map_get_missing_witness :
  value_of (get_int zero_info zero_table 10 TInt32 "xyz" 5 sample_reader)
  = Some 5
  /\ value_of (get_bool zero_info zero_table 10 "xyz" true sample_reader)
     = Some true
  /\ value_of (get_float zero_info zero_table 10 "xyz" 6 sample_reader)
     = Some 6
  /\ value_of (get_string zero_info zero_table 10 "xyz" 7 sample_reader)
     = Some 7
  /\ value_of (getLength zero_info zero_table 10 "xyz" sample_reader)
     = Some 0.
Proof.
  apply (flat_map_get_missing zero_info zero_table zero_frames 0 128
           true (replicate 128 0) sample_entries
           ltac:(entries_conditions) ltac:(vm_compute; lia)
           ltac:(closed_conditions) ltac:(closed_conditions)
           ltac:(closed_conditions) ltac:(closed_conditions)
           "xyz" 0%nat TInt32 5 true 6 7).
  reflexivity.
Defined.

Lemma flat_map_get_string_witness :
  exists q,
    value_of (get_string zero_info zero_table 10 "s" 0 sample_reader) = Some q
    /\ holds_at (heap sample_reader) q (c_str "Hello" ++ [0])
    /\ value_of (getLength zero_info zero_table 10 "s" sample_reader)
       = Some (strlen "Hello").
Proof.
  apply (flat_map_get_string zero_info zero_table zero_frames 0 128
           true (replicate 128 0) sample_entries
           ltac:(entries_conditions) ltac:(vm_compute; lia)
           ltac:(closed_conditions) ltac:(closed_conditions)
           ltac:(closed_conditions) ltac:(closed_conditions)
           "s" 0%nat "Hello" 0).
  reflexivity.
Defined.

Lemma flat_map_get_array_witness :
  exists q,
    value_of (getPointer zero_info zero_table 10 (ElemInt TInt32) "pts" 0
                sample_reader) = Some (2, q)
    /\ holds_at (heap sample_reader) q [1; 0; 0; 0; 2; 0; 0; 0]
    /\ value_of (getLength zero_info zero_table 10 "pts" sample_reader)
       = Some (2 * elem_sizeof (ElemInt TInt32)).
Proof.
  apply (flat_map_get_array zero_info zero_table zero_frames 0 128
           true (replicate 128 0) sample_entries
           ltac:(entries_conditions) ltac:(vm_compute; lia)
           ltac:(closed_conditions) ltac:(closed_conditions)
           ltac:(closed_conditions) ltac:(closed_conditions)
           "pts" 0%nat (ElemInt TInt32) [1; 0; 0; 0; 2; 0; 0; 0] 2 0).
  reflexivity.
Defined.

Lemma successful_run_fits_buffer_witness :
  let m := encode [OpStartMap 0; OpAddInt TInt32 (Some "i"%string) 12345;
                   OpEndMap] (on_zeroed 100) in
  bytesSerialized m = bytesNeeded m /\ bytesNeeded m <= 100.
Proof.
  apply (successful_run_fits_buffer
           [OpStartMap 0; OpAddInt TInt32 (Some "i"%string) 12345; OpEndMap]
           zero_frames 0 100 true (replicate 100 0));
    closed_conditions.
Defined.

(** A buffer of zeros, as in the test [empty]: the first item is the
    integer 0. *)
Lemma get_on_non_map_returns_default_witness :
  let m := on_zeroed 200 in
  value_of (get_int zero_info zero_table 1 TInt32 "i32" (-1) m) = Some (-1)
  /\ value_of (get_bool zero_info zero_table 1 "i32" true m) = Some true
  /\ value_of (get_float zero_info zero_table 1 "i32" 5 m) = Some 5
  /\ value_of (get_string zero_info zero_table 1 "i32" 6 m) = Some 6
  /\ value_of (getLength zero_info zero_table 1 "i32" m) = Some 0.
Proof.
  apply (get_on_non_map_returns_default zero_info zero_table 0 TInt32 "i32"
           (-1) true 5 6 (on_zeroed 200));
    vm_compute; intros E; discriminate E.
Defined.

(** The lookup of ["i"] in [sample_entries]. *)
Lemma findElement_restores_cursor_witness :
  let e := mkTypeInfo kCborTagInvalid 0 26 5 3 in
  let m' := {| this := this sample_reader; heap := heap sample_reader;
               loads := [3; 2; 1; 0] |} in
  heap m' = heap sample_reader
  /\ (exists o, this m' = set_mDataOffset o (this sample_reader))
  /\ (majorval e <> kCborError -> this m' = this sample_reader).
Proof.
  intros e m'.
  apply (findElement_restores_cursor zero_info zero_table 10 "i"
           sample_reader e m').
  vm_compute. reflexivity.
Defined.

Lemma encode_stores_inside_buffer_witness :
  let m := encode nested_calls
             (on_heap (MicroCbor_new zero_frames 8 20 true)
                (replicate 40 0)) in
  length (heap m) = length (replicate 40 0)
  /\ forall a, a < 8 \/ 8 + 20 <= a ->
       peek (heap m) a = peek (replicate 40 0) a.
Proof.
  apply (encode_stores_inside_buffer nested_calls zero_frames 8 20 true
           (replicate 40 0)).
  - lia.
  - cbn [ops_ok nested_calls op_ok key_ok depth_after].
    repeat split; try exact I;
      try (right; vm_compute; repeat split; congruence);
      vm_compute; congruence.
Defined.

Ltac nodes_conditions :=
  vm_compute;
  repeat match goal with
    | |- _ /\ _ => split
    end;
  first [exact I | reflexivity | lia
        | let E := fresh in intros E; discriminate E].

Lemma nested_maps_image_written_witness :
  let m := encode (nested_map sample_nested)
             (on_heap (MicroCbor_new zero_frames 0 128 true)
                (replicate 128 0)) in
  getResult m = 0
  /\ bytesSerialized m
     = Z.of_nat (length (node_image true (NMap sample_nested)))
  /\ bytesNeeded m
     = Z.of_nat (length (node_image true (NMap sample_nested)))
  /\ length (heap m) = length (replicate 128 0)
  /\ holds_at (heap m) 0 (node_image true (NMap sample_nested))
  /\ (forall a,
        a < 0
        \/ 0 + Z.of_nat (length (node_image true (NMap sample_nested))) <= a ->
        peek (heap m) a = peek (replicate 128 0) a).
Proof.
  apply (nested_maps_image_written zero_frames 0 128 true (replicate 128 0)
           sample_nested); nodes_conditions.
Defined.

Lemma sample_nested_reader_holds :
  holds_nested true sample_nested sample_nested_reader.
Proof.
  apply (rewound_holds_nested zero_frames 0 128 true (replicate 128 0)
           sample_nested); nodes_conditions.
Qed.

Lemma nested_maps_read_witness :
  value_of (get_int zero_info zero_table 104 TInt16 "i16" (-1)
              sample_nested_reader) = Some 2.
Proof.
  apply (proj1 (nested_maps_read zero_info zero_table true sample_nested
                  sample_nested_reader 104 sample_nested_reader_holds
                  ltac:(vm_compute; lia))).
  reflexivity.
Defined.

Lemma nested_maps_roundtrip_witness :
  exists c m',
    getMap zero_info zero_table 104 zero_frames "map1" sample_nested_reader
    = Some (c, m')
    /\ value_of (get_float zero_info zero_table 104 "f32" 0
                   (on_heap c (heap m'))) = Some 1078523331.
Proof.
  destruct (proj2 (nested_maps_roundtrip zero_info zero_table zero_frames
                     0 128 true (replicate 128 0) sample_nested
                     ltac:(nodes_conditions) ltac:(nodes_conditions)
                     ltac:(nodes_conditions) ltac:(nodes_conditions)
                     ltac:(nodes_conditions) ltac:(nodes_conditions)
                     104 ltac:(vm_compute; lia))
              "map1"%string sample_inner zero_frames eq_refl)
    as (c & m' & Hget & _ & _ & Hfloat).
  exists c, m'. split; [exact Hget|].
  exact (Hfloat "f32"%string 1078523331 0 eq_refl).
Defined.

Lemma padded_array_left_out_witness :
  let m := encode (flat_map_then_array [("i"%string, VInt TInt8 5)]
                     (ElemInt TInt32) "pt" sample_points 4)
             (on_heap (MicroCbor_new zero_frames 0 64 true)
                (replicate 64 0)) in
  let pair := padded_pair (ElemInt TInt32) "pt" sample_points 1 in
  getResult m = 0
  /\ bytesSerialized m
     = Z.of_nat (length (map_image true [("i"%string, VInt TInt8 5)]))
       + Z.of_nat (length pair)
  /\ holds_at (heap m) 0
       (map_image true [("i"%string, VInt TInt8 5)] ++ pair)
  /\ holds_map true [("i"%string, VInt TInt8 5)] (rewound m)
  /\ (lookup_value "pt" [("i"%string, VInt TInt8 5)] = None ->
      forall e,
        value_of (getLength zero_info zero_table (S (S (1 + e))) "pt"
                    (rewound m)) = Some 0).
Proof.
  exact (padded_array_left_out zero_info zero_table zero_frames 0 64 true
           (replicate 64 0) [("i"%string, VInt TInt8 5)] (ElemInt TInt32)
           "pt" sample_points 4
           ltac:(entries_conditions) ltac:(vm_compute; lia)
           ltac:(nodes_conditions) ltac:(nodes_conditions)
           ltac:(nodes_conditions) ltac:(nodes_conditions)
           ltac:(nodes_conditions) ltac:(nodes_conditions)
           ltac:(nodes_conditions)).
Defined.

Lemma get_of_other_kind_returns_default_witness :
  value_of (get_bool zero_info zero_table 104 "i16" true
              sample_nested_reader) = Some true.
Proof.
  apply (proj1 (proj2
           (get_of_other_kind_returns_default zero_info zero_table true
              sample_nested sample_nested_reader 104 "i16"
              (NValue (VInt TInt16 2)) sample_nested_reader_holds
              ltac:(vm_compute; lia) eq_refl))).
  intros b E. discriminate E.
Defined.

(** * The claims of the specification, on the code *)

(** C9.  Dry-run sizing.  Take any sequence of encode calls that is
    [well_nested] (every [endMap] and every key inside an open map, at
    most [CONFIG_MICROCBOR_MAX_NESTING] maps open at a time) and run it on
    two freshly constructed instances: one whose buffer is large enough for
    the run to end with result 0, one whose capacity (zero, for instance)
    is below the number of bytes the first run serialized.  Then the second
    run ends with a nonzero result, and its [bytesNeeded()] equals the
    [bytesSerialized()] of the first. *)
Theorem bytesNeeded_is_bytesSerialized_of_large_run
    (ops : list EncodeOp) (nullTerminate : bool)
    (framesS framesL : Z -> MapState) (bufS bufL capS capL : Z)
    (heapS heapL : list Z) :
  let small := on_heap (MicroCbor_new framesS bufS capS nullTerminate) heapS in
  let large := on_heap (MicroCbor_new framesL bufL capL nullTerminate) heapL in
  well_nested (-1) ops = true ->
  0 <= capS < 2 ^ 32 ->
  getResult (encode ops large) = 0 ->
  capS < bytesSerialized (encode ops large) ->
  getResult (encode ops small) <> 0
  /\ bytesNeeded (encode ops small) = bytesSerialized (encode ops large).
Proof.
  intros small large _ Hcap Hres Hlt.
  pose proof (encode_counters ops small large
                (fresh_same_counters _ _ _ _ _ _ _ _ _)) as (Hn & _).
  destruct (encode_keeps ops large (fresh_run_ok _ _ _ _ _)) as ([HL _] & _).
  destruct (encode_keeps ops small (fresh_run_ok _ _ _ _ _))
    as ([_ HS] & Hc & _).
  unfold getResult, bytesNeeded, bytesSerialized in *.
  specialize (HL Hres).
  assert (Hcap' : mMaxBufLen (this small) = capS).
  { cbn. unfold uint32. apply Z.mod_small. exact Hcap. }
  split; [|congruence].
  apply HS. rewrite Hc, Hcap', Hn, <- HL. exact Hlt.
Qed.

(** The run of the test [basic]: [startMap(); add("i", 12345); endMap()]
    on a buffer of length 0 and on one of length 100. *)
Lemma bytesNeeded_is_bytesSerialized_of_large_run_witness :
  let ops := [OpStartMap 0; OpAddInt TInt32 (Some "i"%string) 12345; OpEndMap] in
  let frames := fun _ : Z => mkMapState 0 0 0 in
  getResult (encode ops (on_heap (MicroCbor_new frames 0 0 true) [])) <> 0
  /\ bytesNeeded (encode ops (on_heap (MicroCbor_new frames 0 0 true) []))
     = bytesSerialized
         (encode ops
            (on_heap (MicroCbor_new frames 0 100 true) (replicate 100 0))).
Proof.
  intros ops frames.
  apply (bytesNeeded_is_bytesSerialized_of_large_run ops true frames frames
           0 0 0 100 [] (replicate 100 0)).
  - reflexivity.
  - lia.
  - vm_compute. reflexivity.
  - vm_compute. reflexivity.
Defined.

(** C1 (fails on the code).  A key of 24 characters: [startMap();
    add<uint8_t>(key, 5); endMap()] succeeds and serializes 29 bytes, yet
    [get<uint8_t>(key, d)] returns the default [d], whatever [d] is.  The
    key header is two bytes long, and [findElement] locates the key bytes
    with the header length of the map (one byte). *)
Theorem roundtrip_lost_for_key_of_24_bytes
    (indet : TypeInfo) (behindTable : Z -> Z) (d : Z) :
  let m :=
    encode [OpStartMap 0; OpAddInt TUInt8 (Some key24) 5; OpEndMap]
      (on_zeroed 64) in
  getResult m = 0
  /\ bytesSerialized m = 29
  /\ value_of (get_int indet behindTable 100 TUInt8 key24 d (rewound m))
     = Some d.
Proof.
  intros m. split; [reflexivity|]. split; [reflexivity|].
  destruct (findElement indet behindTable 100 key24 (rewound m))
    as [[e m']|] eqn:Hfind; [|vm_compute in Hfind; discriminate Hfind].
  apply (get_int_not_found indet behindTable 100 TUInt8 key24 d _ e m' Hfind).
  revert Hfind. vm_compute. intros [= <- _]. reflexivity.
Qed.

(** The same run with a key of 23 characters returns the value. *)
Example roundtrip_for_key_of_23_bytes
    (indet : TypeInfo) (behindTable : Z -> Z) (d : Z) :
  let m :=
    encode [OpStartMap 0; OpAddInt TUInt8 (Some key23) 5; OpEndMap]
      (on_zeroed 64) in
  value_of (get_int indet behindTable 100 TUInt8 key23 d (rewound m))
  = Some 5.
Proof. vm_compute. reflexivity. Qed.

(** C2 (fails on the code).  A buffer of declared length 2 holding a map
    header and the header of a 3-byte key, in an array whose later bytes
    hold stale data: [findElement("abc")] compares the name with the bytes
    at offsets 2, 3 and 4. *)
Theorem findElement_loads_past_declared_length
    (indet : TypeInfo) (behindTable : Z -> Z) :
  let m :=
    on_heap (MicroCbor_const zero_frames 0 2 false)
      [161; 99; 97; 98; 99; 5; 0; 0] in
  mBuf (this m) = 0 /\ mMaxBufLen (this m) = 2
  /\ loads_of (findElement indet behindTable 100 "abc" m)
     = Some [4; 3; 2; 1; 0].
Proof. vm_compute. auto. Qed.

(** C3 (fails on the code).  An instance bound to a read-only buffer of 8
    bytes: [add<uint8_t>(nullptr, 5)] leaves the result 0 and stores two
    bytes; only [startMap] tests [mReadOnly]. *)
Theorem add_writes_to_read_only_buffer (frames : Z -> MapState) :
  let m := on_heap (MicroCbor_const frames 0 8 false) (replicate 8 0) in
  mReadOnly (this m) = true
  /\ getResult (add_int TUInt8 None 5 m) = 0
  /\ heap (add_int TUInt8 None 5 m) = [24; 5; 0; 0; 0; 0; 0; 0]
  /\ getResult (startMap 0 m) = -1
  /\ heap (startMap 0 m) = heap m.
Proof. vm_compute. auto 6. Qed.

(** C4 (fails on the code).  Five [startMap()] calls in a row: the fifth
    succeeds, writes its header and leaves [mDepth] at 4, the index behind
    the last of the [CONFIG_MICROCBOR_MAX_NESTING] frames; the guard
    refuses the sixth call only. *)
Theorem fifth_nested_startMap_succeeds :
  let four := encode (repeat (OpStartMap 0) 4) (on_zeroed 16) in
  let five := startMap 0 four in
  let six := startMap 0 five in
  CONFIG_MICROCBOR_MAX_NESTING = 4
  /\ mDepth (this four) = 3
  /\ getResult five = 0
  /\ mDepth (this five) = 4
  /\ bytesSerialized five = bytesSerialized four + 1
  /\ heap five = <[4%nat := 160]> (heap four)
  /\ getResult six = -1
  /\ heap six = heap five.
Proof. vm_compute. auto 10. Qed.

(** C5 (fails on the code).  [startMap(24); add<uint8_t>("k", 7);
    endMap()]: [startMap] reserves a two-byte header, [endMap] writes the
    one-byte form for a count of 1 and leaves the old count byte behind it.
    The buffer decodes as a map of one pair whose key is the integer item
    made of that stale byte, and ["k"] is not found. *)
Theorem hint_24_with_one_add_loses_the_pair
    (indet : TypeInfo) (behindTable : Z -> Z) (d : Z) :
  let m :=
    encode [OpStartMap 24; OpAddInt TUInt8 (Some "k"%string) 7; OpEndMap]
      (on_zeroed 16) in
  getResult m = 0
  /\ take 6 (heap m) = [161; 24; 97; 107; 24; 7]
  /\ majorval <$>
       value_of (getNextField indet behindTable 100
                   (with_this (set_mDataOffset 1) (rewound m)))
     = Some kCborPosInt
  /\ value_of (get_int indet behindTable 100 TUInt8 "k" d (rewound m))
     = Some d.
Proof.
  intros m. split; [reflexivity|]. split; [reflexivity|].
  split; [vm_compute; reflexivity|].
  destruct (findElement indet behindTable 100 "k" (rewound m))
    as [[e m']|] eqn:Hfind; [|vm_compute in Hfind; discriminate Hfind].
  apply (get_int_not_found indet behindTable 100 TUInt8 "k" d _ e m' Hfind).
  revert Hfind. vm_compute. intros [= <- _]. reflexivity.
Qed.

(** The same run with the default hint returns the value. *)
Example hint_0_with_one_add_keeps_the_pair
    (indet : TypeInfo) (behindTable : Z -> Z) (d : Z) :
  let m :=
    encode [OpStartMap 0; OpAddInt TUInt8 (Some "k"%string) 7; OpEndMap]
      (on_zeroed 16) in
  take 5 (heap m) = [161; 97; 107; 24; 7]
  /\ value_of (get_int indet behindTable 100 TUInt8 "k" d (rewound m))
     = Some 7.
Proof. vm_compute. auto. Qed.

(** C6 (fails on the code).  [startMap()] writes a one-byte header at
    offset 0; after 24 named adds [endMap] stores the two-byte form, and
    the byte at offset 1, the header of the first key, changes from 0x61
    to 24. *)
Theorem endMap_overwrites_first_key_header :
  let opened := startMap 0 (on_zeroed 128) in
  let filled :=
    encode (repeat (OpAddInt TUInt8 (Some "k"%string) 7) 24) opened in
  let closed := endMap filled in
  mapStartPos (mMapState (this opened) 0) = 0
  /\ bytesSerialized opened = 1
  /\ getResult filled = 0
  /\ take 5 (heap filled) = [160; 97; 107; 24; 7]
  /\ take 5 (heap closed) = [184; 24; 107; 24; 7].
Proof. vm_compute. auto 6. Qed.

(** C7 (fails on the code).  A parent bound to 4 bytes, [{"m": {]
    followed in the array by stale bytes: [getMap("m")] returns an
    instance bound to address 3 with declared length 4, the length of the
    parent.  A lookup through it loads the addresses 4, 5 and 6, at or
    beyond the end of the parent's region. *)
Theorem getMap_child_reaches_past_parent
    (indet : TypeInfo) (behindTable : Z -> Z) (d : Z) :
  let h := [161; 97; 109; 161; 97; 120; 1; 0] in
  let parent := on_heap (MicroCbor_const zero_frames 0 4 false) h in
  exists child,
    value_of (getMap indet behindTable 100 zero_frames "m" parent)
    = Some child
    /\ mBuf (this parent) + mMaxBufLen (this parent) = 4
    /\ mBuf child = 3
    /\ mMaxBufLen child = 4
    /\ value_of (get_int indet behindTable 100 TUInt8 "x" d (on_heap child h))
       = Some 1
    /\ loads_of (get_int indet behindTable 100 TUInt8 "x" d (on_heap child h))
       = Some [6; 5; 4; 3].
Proof.
  intros h parent. eexists. split; [vm_compute; reflexivity|].
  vm_compute. auto 6.
Qed.

(** C8 (fails on the code).  An [int64_t] array of one element under a
    key of 23 characters, right after [startMap()]: the key is padded to
    27 bytes, its header grows to two bytes, and the payload starts at
    offset 33.  The padded branch does not count the key either, so the
    map is closed with a count of 0 and the array is not found. *)
Theorem aligned_array_payload_at_odd_offset
    (indet : TypeInfo) (behindTable : Z -> Z) :
  let payload := [1; 2; 3; 4; 5; 6; 7; 8] in
  let m :=
    encode [OpStartMap 0;
            OpAddArray (ElemInt TInt64) (Some key23) payload 1 true;
            OpEndMap] (on_zeroed 64) in
  getResult m = 0
  /\ bytesSerialized m = 41
  /\ take 3 (drop 30 (heap m)) = [216; 79; 72]
  /\ take 8 (drop 33 (heap m)) = payload
  /\ 33 mod elem_sizeof (ElemInt TInt64) = 1
  /\ take 1 (heap m) = [160]
  /\ majorval <$>
       value_of (findElement indet behindTable 100 key23 (rewound m))
     = Some kCborError.
Proof. vm_compute. auto 8. Qed.

(** C10 (fails on the code).  The stored key equals the name, byte for
    byte and in length, and is not matched when its header is longer than
    the header of the map (a key of 24 bytes in a map of one pair).  A key
    padded by the array encoder is not found under its name either: the
    padded branch leaves [mapCount] as it is, and the map is closed with a
    count of 0. *)
Theorem equal_key_not_matched
    (indet : TypeInfo) (behindTable : Z -> Z) :
  let m :=
    encode [OpStartMap 0; OpAddInt TUInt8 (Some key24) 5; OpEndMap]
      (on_zeroed 64) in
  let a :=
    encode [OpStartMap 0;
            OpAddArray (ElemInt TInt32) (Some "pt"%string)
              [1; 0; 0; 0; 2; 0; 0; 0] 2 true;
            OpEndMap] (on_zeroed 64) in
  getResult m = 0
  /\ take 3 (heap m) = [161; 120; 24]
  /\ take 24 (drop 3 (heap m)) = c_str key24
  /\ majorval <$>
       value_of (findElement indet behindTable 100 key24 (rewound m))
     = Some kCborError
  /\ getResult a = 0
  /\ take 8 (heap a) = [160; 99; 112; 116; 0; 216; 78; 72]
  /\ majorval <$>
       value_of (findElement indet behindTable 100 "pt" (rewound a))
     = Some kCborError.
Proof. vm_compute. auto 8. Qed.
